(** * Quantum fireworks

    A shallow embedding of the particle simulation of the repository:
    [quantum-fireworks-main/fireworks.js] (the current sketch) and the
    earlier [fireworks.js] kept at the top of the tree (module [Legacy]).

    JavaScript numbers are modelled as exact rationals.  The program
    rounds each operation to a double, so a comparison of two clock
    readings that coincide in exact arithmetic can go the other way in the
    program: module [Double] transcribes the clock and the fading branch
    of [Particle.update] over the kernel's binary64 floats to show it, and
    a property that is stated with a tolerance of a millisecond leaves
    that room for the rounding.  The p5.js host (canvas size,
    trigonometry, square root, noise, the random generator) is a record of
    functions; the clock is read once per frame.  Objects
    that are shared by reference (particles held both by the global
    [particles] array and by a firework's [shell] field) live in a heap
    indexed by allocation order. *)

From Corelib Require Import PrimFloat.
From Stdlib Require Import QArith Qround Lqa Lia ZArith String.
From stdpp Require Import base list strings.

Local Open Scope string_scope.
Local Open Scope list_scope.
Local Open Scope Q_scope.

(** ** JavaScript numbers *)

Definition Qleb (a b : Q) : bool := Qle_bool a b.
Definition Qltb (a b : Q) : bool := negb (Qle_bool b a).
Definition Qeqb (a b : Q) : bool := Qeq_bool a b.

(** [Math.max], [Math.min], and p5's [constrain] and [lerp]. *)
Definition max (a b : Q) : Q := if Qleb a b then b else a.
Definition min (a b : Q) : Q := if Qleb a b then a else b.
Definition constrain (n low high : Q) : Q := max (min n high) low.
Definition lerp (start stop amt : Q) : Q := amt * (stop - start) + start.

(** [x || d] on numbers: zero is falsy. *)
Definition orQ (x d : Q) : Q := if Qeqb x 0 then d else x.

(** [array.length] as a number. *)
Definition Qnat (n : nat) : Q := inject_Z (Z.of_nat n).

(** Number of iterations of [for (let i = 0; i < bound; i++)]. *)
Definition iterations (bound : Q) : nat := Z.to_nat (Qceiling bound).

(** [array[Math.floor(k)]]; [None] stands for [undefined]. *)
Definition index {A} (l : list A) (k : Q) : option A :=
  if Qltb k 0 then None else l !! Z.to_nat (Qfloor k).

(** ** p5.Vector *)

Module Vec.
Record t := mk { x : Q; y : Q; z : Q }.

Definition zero : t := mk 0 0 0.
  (** [createVector(x, y)] *)
Definition create (a b : Q) : t := mk a b 0.
  (** [add] and [mult]; the coordinates they compute are kept in lowest
      terms. *)
Definition add (u v : t) : t :=
  mk (Qred (x u + x v)) (Qred (y u + y v)) (Qred (z u + z v)).
Definition mult (u : t) (k : Q) : t :=
  mk (Qred (x u * k)) (Qred (y u * k)) (Qred (z u * k)).
Definition magSq (u : t) : Q := x u * x u + y u * y u + z u * z u.

  (** Equality of vectors up to the representation of their coordinates. *)
Definition eqv (u v : t) : Prop := x u == x v /\ y u == y v /\ z u == z v.
Definition eqb (u v : t) : bool :=
  Qeqb (x u) (x v) && Qeqb (y u) (y v) && Qeqb (z u) (z v).
End Vec.

(** ** The host: p5.js, the noise library and the random generator *)

Module Host.
Record t := mk {
    width : Q;
    height : Q;
    TWO_PI : Q;
    (** [p5.Vector.fromAngle]: the unit vector at an angle *)
    fromAngle : Q -> Vec.t;
    sqrt : Q -> Q;
    noise2D : Q -> Q -> Q;
    noise3D : Q -> Q -> Q -> Q;
    (** the successive values of the generator behind [random], in [0, 1) *)
    rand : nat -> Q
}.

Definition rand_in_range (h : t) : Prop := forall n, 0 <= rand h n < 1.
Definition unit_angles (h : t) : Prop :=
    forall a, Vec.magSq (fromAngle h a) == 1 /\ Vec.z (fromAngle h a) == 0.
End Host.

(** ** Constants *)

Definition FIREWORK_TYPES : list string :=
  ["PEONY"; "CHRYSANTHEMUM"; "PALM"; "WILLOW"; "STROBE"; "CRACKLING";
   "MULTI_BREAK"; "RANDOM"].
Definition PARTICLE_TYPES : list string := ["CLASSIC"; "FLUID"; "QUANTUM"].
Definition MAX_PARTICLES_PER_FIREWORK : Q := 5000.
Definition MAX_TOTAL_PARTICLES : Q := 30000.
Definition TRAIL_LENGTH : nat := 15.

Definition Palette : Type := list string.
Definition PALETTES : list Palette :=
  [ ["#FF4E50"; "#FC913A"; "#F9D423"; "#EDE574"; "#E1F5C4"];
    ["#1E90FF"; "#00BFFF"; "#87CEFA"; "#ADD8E6"; "#E0FFFF"];
    ["#228B22"; "#556B2F"; "#8FBC8F"; "#90EE90"; "#3CB371"];
    ["#FF0000"; "#FF4500"; "#FFA500"; "#FFD700"; "#FFFF00"];
    ["#FF00FF"; "#00FFFF"; "#00FF00"; "#FFFF00"; "#FF69B4"];
    ["#FFFFFF"; "#D3D3D3"; "#A9A9A9"; "#FFD700"; "#F0E68C"] ].

(** ** Colours

    Only the alpha level of a p5 colour takes part in the simulation.
    [color(r, g, b, a)] keeps the alpha it is given as a share of 255
    constrained to the range from 0 to 1, and [levels[3]] is that share of
    255 rounded to a whole number ([Math.round]).  Every other way the
    sketch builds a colour leaves the alpha at 255: a grey value, three
    components, or a string of six hexadecimal digits as the palettes
    have them. *)
Inductive Color :=
| RGBA (r g b a : Q)
| RGB (r g b : Q)
| Gray (v : Q)
| Hex (s : string)
| Undefined.

Definition white : Color := Gray 255.
Definition round (x : Q) : Q := inject_Z (Qfloor (x + 0.5)).
Definition levels3 (c : Color) : Q :=
  match c with
  | RGBA _ _ _ a => round (constrain (a / 255) 0 1 * 255)
  | _ => 255
  end.

(** ** Enumerations *)

Module Role.
Inductive t := SHELL | EXPLOSION | STROBE | CRACKLE_SOURCE | CRACKLE | MINI_SHELL.
Definition eqb (a b : t) : bool :=
    match a, b with
    | SHELL, SHELL | EXPLOSION, EXPLOSION | STROBE, STROBE
    | CRACKLE_SOURCE, CRACKLE_SOURCE | CRACKLE, CRACKLE
    | MINI_SHELL, MINI_SHELL => true
    | _, _ => false
    end.
End Role.

Module Lifecycle.
Inductive t := ASCENT | EXPLOSION.
Definition eqb (a b : t) : bool :=
    match a, b with
    | ASCENT, ASCENT | EXPLOSION, EXPLOSION => true
    | _, _ => false
    end.
End Lifecycle.

(** The one configuration object, owned by the system and shared by
    reference; a field that holds the reference is [Some SystemConfig], a
    field still [null] is [None]. *)
Inductive ConfigRef := SystemConfig.

Module Config.
Record t := mk {
    launchFrequency : Q;
    explosionSize : Q;
    particleCount : Q;
    wind : Q;
    turbulence : Q;
    colorTransition : bool;
    bloomEffect : bool;
    bloomIntensity : Q;
    gravity : Q;
    airDrag : Q;
    autoLaunch : bool;
    particleType : string;
    fireworkType : string;
    backgroundOpacity : Q;
    maxTotalParticles : Q
}.

  (** The record built by the [FireworkSystem] constructor. *)
Definition initial : t :=
    mk 0.5 400 1500 0.3 0.01 true true 35 0.08 0.02 true
       "CLASSIC" "RANDOM" 25 MAX_TOTAL_PARTICLES.
End Config.

(** ** Particles *)

Module Particle.
Record t := mk {
    pos : option Vec.t;
    vel : option Vec.t;
    acc : option Vec.t;
    baseColor : Color;
    alpha : Q;
    baseAlpha : Q;
    size : Q;
    role : Role.t;
    particleStyle : string;
    configRef : option ConfigRef;
    lifespan : Q;
    strobeRate : Q;
    crackleRate : Q;
    fadeRate : Q;
    delay : Q;
    subType : option string;
    palette : option Palette;
    timeCreated : Q;
    lastStrobe : Q;
    lastCrackle : Q;
    strobeOn : bool;
    isFading : bool;
    fadeStartAlpha : Q;
    fadeStartTime : Q;
    fadeDuration : Q;
    trail : list Vec.t;
    maxTrailLength : nat;
    fluid : bool;
    viscosity : Q;
    density : Q;
    pressure : Q;
    secondaryCalls : nat
}.
Definition set_pos (v : option Vec.t) (r : t) : t :=
    mk v (vel r) (acc r) (baseColor r) (alpha r) (baseAlpha r) (size r)
      (role r) (particleStyle r) (configRef r) (lifespan r) (strobeRate r)
      (crackleRate r) (fadeRate r) (delay r) (subType r) (palette r)
      (timeCreated r) (lastStrobe r) (lastCrackle r) (strobeOn r)
      (isFading r) (fadeStartAlpha r) (fadeStartTime r) (fadeDuration r)
      (trail r) (maxTrailLength r) (fluid r) (viscosity r) (density r)
      (pressure r) (secondaryCalls r).
Definition set_vel (v : option Vec.t) (r : t) : t :=
    mk (pos r) v (acc r) (baseColor r) (alpha r) (baseAlpha r) (size r)
      (role r) (particleStyle r) (configRef r) (lifespan r) (strobeRate r)
      (crackleRate r) (fadeRate r) (delay r) (subType r) (palette r)
      (timeCreated r) (lastStrobe r) (lastCrackle r) (strobeOn r)
      (isFading r) (fadeStartAlpha r) (fadeStartTime r) (fadeDuration r)
      (trail r) (maxTrailLength r) (fluid r) (viscosity r) (density r)
      (pressure r) (secondaryCalls r).
Definition set_acc (v : option Vec.t) (r : t) : t :=
    mk (pos r) (vel r) v (baseColor r) (alpha r) (baseAlpha r) (size r)
      (role r) (particleStyle r) (configRef r) (lifespan r) (strobeRate r)
      (crackleRate r) (fadeRate r) (delay r) (subType r) (palette r)
      (timeCreated r) (lastStrobe r) (lastCrackle r) (strobeOn r)
      (isFading r) (fadeStartAlpha r) (fadeStartTime r) (fadeDuration r)
      (trail r) (maxTrailLength r) (fluid r) (viscosity r) (density r)
      (pressure r) (secondaryCalls r).
Definition set_alpha (v : Q) (r : t) : t :=
    mk (pos r) (vel r) (acc r) (baseColor r) v (baseAlpha r) (size r)
      (role r) (particleStyle r) (configRef r) (lifespan r) (strobeRate r)
      (crackleRate r) (fadeRate r) (delay r) (subType r) (palette r)
      (timeCreated r) (lastStrobe r) (lastCrackle r) (strobeOn r)
      (isFading r) (fadeStartAlpha r) (fadeStartTime r) (fadeDuration r)
      (trail r) (maxTrailLength r) (fluid r) (viscosity r) (density r)
      (pressure r) (secondaryCalls r).
Definition set_size (v : Q) (r : t) : t :=
    mk (pos r) (vel r) (acc r) (baseColor r) (alpha r) (baseAlpha r) v
      (role r) (particleStyle r) (configRef r) (lifespan r) (strobeRate r)
      (crackleRate r) (fadeRate r) (delay r) (subType r) (palette r)
      (timeCreated r) (lastStrobe r) (lastCrackle r) (strobeOn r)
      (isFading r) (fadeStartAlpha r) (fadeStartTime r) (fadeDuration r)
      (trail r) (maxTrailLength r) (fluid r) (viscosity r) (density r)
      (pressure r) (secondaryCalls r).
Definition set_particleStyle (v : string) (r : t) : t :=
    mk (pos r) (vel r) (acc r) (baseColor r) (alpha r) (baseAlpha r)
      (size r) (role r) v (configRef r) (lifespan r) (strobeRate r)
      (crackleRate r) (fadeRate r) (delay r) (subType r) (palette r)
      (timeCreated r) (lastStrobe r) (lastCrackle r) (strobeOn r)
      (isFading r) (fadeStartAlpha r) (fadeStartTime r) (fadeDuration r)
      (trail r) (maxTrailLength r) (fluid r) (viscosity r) (density r)
      (pressure r) (secondaryCalls r).
Definition set_configRef (v : option ConfigRef) (r : t) : t :=
    mk (pos r) (vel r) (acc r) (baseColor r) (alpha r) (baseAlpha r)
      (size r) (role r) (particleStyle r) v (lifespan r) (strobeRate r)
      (crackleRate r) (fadeRate r) (delay r) (subType r) (palette r)
      (timeCreated r) (lastStrobe r) (lastCrackle r) (strobeOn r)
      (isFading r) (fadeStartAlpha r) (fadeStartTime r) (fadeDuration r)
      (trail r) (maxTrailLength r) (fluid r) (viscosity r) (density r)
      (pressure r) (secondaryCalls r).
Definition set_delay (v : Q) (r : t) : t :=
    mk (pos r) (vel r) (acc r) (baseColor r) (alpha r) (baseAlpha r)
      (size r) (role r) (particleStyle r) (configRef r) (lifespan r)
      (strobeRate r) (crackleRate r) (fadeRate r) v (subType r) (palette r)
      (timeCreated r) (lastStrobe r) (lastCrackle r) (strobeOn r)
      (isFading r) (fadeStartAlpha r) (fadeStartTime r) (fadeDuration r)
      (trail r) (maxTrailLength r) (fluid r) (viscosity r) (density r)
      (pressure r) (secondaryCalls r).
Definition set_subType (v : option string) (r : t) : t :=
    mk (pos r) (vel r) (acc r) (baseColor r) (alpha r) (baseAlpha r)
      (size r) (role r) (particleStyle r) (configRef r) (lifespan r)
      (strobeRate r) (crackleRate r) (fadeRate r) (delay r) v (palette r)
      (timeCreated r) (lastStrobe r) (lastCrackle r) (strobeOn r)
      (isFading r) (fadeStartAlpha r) (fadeStartTime r) (fadeDuration r)
      (trail r) (maxTrailLength r) (fluid r) (viscosity r) (density r)
      (pressure r) (secondaryCalls r).
Definition set_palette (v : option Palette) (r : t) : t :=
    mk (pos r) (vel r) (acc r) (baseColor r) (alpha r) (baseAlpha r)
      (size r) (role r) (particleStyle r) (configRef r) (lifespan r)
      (strobeRate r) (crackleRate r) (fadeRate r) (delay r) (subType r) v
      (timeCreated r) (lastStrobe r) (lastCrackle r) (strobeOn r)
      (isFading r) (fadeStartAlpha r) (fadeStartTime r) (fadeDuration r)
      (trail r) (maxTrailLength r) (fluid r) (viscosity r) (density r)
      (pressure r) (secondaryCalls r).
Definition set_timeCreated (v : Q) (r : t) : t :=
    mk (pos r) (vel r) (acc r) (baseColor r) (alpha r) (baseAlpha r)
      (size r) (role r) (particleStyle r) (configRef r) (lifespan r)
      (strobeRate r) (crackleRate r) (fadeRate r) (delay r) (subType r)
      (palette r) v (lastStrobe r) (lastCrackle r) (strobeOn r) (isFading r)
      (fadeStartAlpha r) (fadeStartTime r) (fadeDuration r) (trail r)
      (maxTrailLength r) (fluid r) (viscosity r) (density r) (pressure r)
      (secondaryCalls r).
Definition set_lastStrobe (v : Q) (r : t) : t :=
    mk (pos r) (vel r) (acc r) (baseColor r) (alpha r) (baseAlpha r)
      (size r) (role r) (particleStyle r) (configRef r) (lifespan r)
      (strobeRate r) (crackleRate r) (fadeRate r) (delay r) (subType r)
      (palette r) (timeCreated r) v (lastCrackle r) (strobeOn r)
      (isFading r) (fadeStartAlpha r) (fadeStartTime r) (fadeDuration r)
      (trail r) (maxTrailLength r) (fluid r) (viscosity r) (density r)
      (pressure r) (secondaryCalls r).
Definition set_lastCrackle (v : Q) (r : t) : t :=
    mk (pos r) (vel r) (acc r) (baseColor r) (alpha r) (baseAlpha r)
      (size r) (role r) (particleStyle r) (configRef r) (lifespan r)
      (strobeRate r) (crackleRate r) (fadeRate r) (delay r) (subType r)
      (palette r) (timeCreated r) (lastStrobe r) v (strobeOn r) (isFading r)
      (fadeStartAlpha r) (fadeStartTime r) (fadeDuration r) (trail r)
      (maxTrailLength r) (fluid r) (viscosity r) (density r) (pressure r)
      (secondaryCalls r).
Definition set_strobeOn (v : bool) (r : t) : t :=
    mk (pos r) (vel r) (acc r) (baseColor r) (alpha r) (baseAlpha r)
      (size r) (role r) (particleStyle r) (configRef r) (lifespan r)
      (strobeRate r) (crackleRate r) (fadeRate r) (delay r) (subType r)
      (palette r) (timeCreated r) (lastStrobe r) (lastCrackle r) v
      (isFading r) (fadeStartAlpha r) (fadeStartTime r) (fadeDuration r)
      (trail r) (maxTrailLength r) (fluid r) (viscosity r) (density r)
      (pressure r) (secondaryCalls r).
Definition set_isFading (v : bool) (r : t) : t :=
    mk (pos r) (vel r) (acc r) (baseColor r) (alpha r) (baseAlpha r)
      (size r) (role r) (particleStyle r) (configRef r) (lifespan r)
      (strobeRate r) (crackleRate r) (fadeRate r) (delay r) (subType r)
      (palette r) (timeCreated r) (lastStrobe r) (lastCrackle r)
      (strobeOn r) v (fadeStartAlpha r) (fadeStartTime r) (fadeDuration r)
      (trail r) (maxTrailLength r) (fluid r) (viscosity r) (density r)
      (pressure r) (secondaryCalls r).
Definition set_fadeStartAlpha (v : Q) (r : t) : t :=
    mk (pos r) (vel r) (acc r) (baseColor r) (alpha r) (baseAlpha r)
      (size r) (role r) (particleStyle r) (configRef r) (lifespan r)
      (strobeRate r) (crackleRate r) (fadeRate r) (delay r) (subType r)
      (palette r) (timeCreated r) (lastStrobe r) (lastCrackle r)
      (strobeOn r) (isFading r) v (fadeStartTime r) (fadeDuration r)
      (trail r) (maxTrailLength r) (fluid r) (viscosity r) (density r)
      (pressure r) (secondaryCalls r).
Definition set_fadeStartTime (v : Q) (r : t) : t :=
    mk (pos r) (vel r) (acc r) (baseColor r) (alpha r) (baseAlpha r)
      (size r) (role r) (particleStyle r) (configRef r) (lifespan r)
      (strobeRate r) (crackleRate r) (fadeRate r) (delay r) (subType r)
      (palette r) (timeCreated r) (lastStrobe r) (lastCrackle r)
      (strobeOn r) (isFading r) (fadeStartAlpha r) v (fadeDuration r)
      (trail r) (maxTrailLength r) (fluid r) (viscosity r) (density r)
      (pressure r) (secondaryCalls r).
Definition set_fadeDuration (v : Q) (r : t) : t :=
    mk (pos r) (vel r) (acc r) (baseColor r) (alpha r) (baseAlpha r)
      (size r) (role r) (particleStyle r) (configRef r) (lifespan r)
      (strobeRate r) (crackleRate r) (fadeRate r) (delay r) (subType r)
      (palette r) (timeCreated r) (lastStrobe r) (lastCrackle r)
      (strobeOn r) (isFading r) (fadeStartAlpha r) (fadeStartTime r) v
      (trail r) (maxTrailLength r) (fluid r) (viscosity r) (density r)
      (pressure r) (secondaryCalls r).
Definition set_trail (v : list Vec.t) (r : t) : t :=
    mk (pos r) (vel r) (acc r) (baseColor r) (alpha r) (baseAlpha r)
      (size r) (role r) (particleStyle r) (configRef r) (lifespan r)
      (strobeRate r) (crackleRate r) (fadeRate r) (delay r) (subType r)
      (palette r) (timeCreated r) (lastStrobe r) (lastCrackle r)
      (strobeOn r) (isFading r) (fadeStartAlpha r) (fadeStartTime r)
      (fadeDuration r) v (maxTrailLength r) (fluid r) (viscosity r)
      (density r) (pressure r) (secondaryCalls r).
Definition set_maxTrailLength (v : nat) (r : t) : t :=
    mk (pos r) (vel r) (acc r) (baseColor r) (alpha r) (baseAlpha r)
      (size r) (role r) (particleStyle r) (configRef r) (lifespan r)
      (strobeRate r) (crackleRate r) (fadeRate r) (delay r) (subType r)
      (palette r) (timeCreated r) (lastStrobe r) (lastCrackle r)
      (strobeOn r) (isFading r) (fadeStartAlpha r) (fadeStartTime r)
      (fadeDuration r) (trail r) v (fluid r) (viscosity r) (density r)
      (pressure r) (secondaryCalls r).
Definition set_fluid (v : bool) (r : t) : t :=
    mk (pos r) (vel r) (acc r) (baseColor r) (alpha r) (baseAlpha r)
      (size r) (role r) (particleStyle r) (configRef r) (lifespan r)
      (strobeRate r) (crackleRate r) (fadeRate r) (delay r) (subType r)
      (palette r) (timeCreated r) (lastStrobe r) (lastCrackle r)
      (strobeOn r) (isFading r) (fadeStartAlpha r) (fadeStartTime r)
      (fadeDuration r) (trail r) (maxTrailLength r) v (viscosity r)
      (density r) (pressure r) (secondaryCalls r).
Definition set_viscosity (v : Q) (r : t) : t :=
    mk (pos r) (vel r) (acc r) (baseColor r) (alpha r) (baseAlpha r)
      (size r) (role r) (particleStyle r) (configRef r) (lifespan r)
      (strobeRate r) (crackleRate r) (fadeRate r) (delay r) (subType r)
      (palette r) (timeCreated r) (lastStrobe r) (lastCrackle r)
      (strobeOn r) (isFading r) (fadeStartAlpha r) (fadeStartTime r)
      (fadeDuration r) (trail r) (maxTrailLength r) (fluid r) v (density r)
      (pressure r) (secondaryCalls r).
Definition set_secondaryCalls (v : nat) (r : t) : t :=
    mk (pos r) (vel r) (acc r) (baseColor r) (alpha r) (baseAlpha r)
      (size r) (role r) (particleStyle r) (configRef r) (lifespan r)
      (strobeRate r) (crackleRate r) (fadeRate r) (delay r) (subType r)
      (palette r) (timeCreated r) (lastStrobe r) (lastCrackle r)
      (strobeOn r) (isFading r) (fadeStartAlpha r) (fadeStartTime r)
      (fadeDuration r) (trail r) (maxTrailLength r) (fluid r) (viscosity r)
      (density r) (pressure r) v.
End Particle.

Module Firework.
Record t := mk {
    shell : nat;
    type : option string;
    config : option ConfigRef;
    lifecycle : Lifecycle.t;
    explosionAltitude : Q;
    palette : option Palette;
    hasExploded : bool;
    explodeCalls : nat
}.
Definition set_shell (v : nat) (r : t) : t :=
    mk v (type r) (config r) (lifecycle r) (explosionAltitude r) (palette r)
      (hasExploded r) (explodeCalls r).
Definition set_type (v : option string) (r : t) : t :=
    mk (shell r) v (config r) (lifecycle r) (explosionAltitude r)
      (palette r) (hasExploded r) (explodeCalls r).
Definition set_config (v : option ConfigRef) (r : t) : t :=
    mk (shell r) (type r) v (lifecycle r) (explosionAltitude r) (palette r)
      (hasExploded r) (explodeCalls r).
Definition set_lifecycle (v : Lifecycle.t) (r : t) : t :=
    mk (shell r) (type r) (config r) v (explosionAltitude r) (palette r)
      (hasExploded r) (explodeCalls r).
Definition set_explosionAltitude (v : Q) (r : t) : t :=
    mk (shell r) (type r) (config r) (lifecycle r) v (palette r)
      (hasExploded r) (explodeCalls r).
Definition set_palette (v : option Palette) (r : t) : t :=
    mk (shell r) (type r) (config r) (lifecycle r) (explosionAltitude r) v
      (hasExploded r) (explodeCalls r).
Definition set_hasExploded (v : bool) (r : t) : t :=
    mk (shell r) (type r) (config r) (lifecycle r) (explosionAltitude r)
      (palette r) v (explodeCalls r).
Definition set_explodeCalls (v : nat) (r : t) : t :=
    mk (shell r) (type r) (config r) (lifecycle r) (explosionAltitude r)
      (palette r) (hasExploded r) v.
End Firework.

Inductive LogLevel := LogInfo | LogWarn | LogError.
Definition LogEntry : Type := LogLevel * string.

Module World.
Record t := mk {
    heap : list Particle.t;
    particles : list nat;
    config : Config.t;
    millis : Q;
    deltaTime : Q;
    cursor : nat;
    console : list LogEntry;
    explosions : nat
}.
Definition set_heap (v : list Particle.t) (r : t) : t :=
    mk v (particles r) (config r) (millis r) (deltaTime r) (cursor r)
      (console r) (explosions r).
Definition set_particles (v : list nat) (r : t) : t :=
    mk (heap r) v (config r) (millis r) (deltaTime r) (cursor r) (console r)
      (explosions r).
Definition set_config (v : Config.t) (r : t) : t :=
    mk (heap r) (particles r) v (millis r) (deltaTime r) (cursor r)
      (console r) (explosions r).
Definition set_millis (v : Q) (r : t) : t :=
    mk (heap r) (particles r) (config r) v (deltaTime r) (cursor r)
      (console r) (explosions r).
Definition set_deltaTime (v : Q) (r : t) : t :=
    mk (heap r) (particles r) (config r) (millis r) v (cursor r) (console r)
      (explosions r).
Definition set_cursor (v : nat) (r : t) : t :=
    mk (heap r) (particles r) (config r) (millis r) (deltaTime r) v
      (console r) (explosions r).
Definition set_console (v : list LogEntry) (r : t) : t :=
    mk (heap r) (particles r) (config r) (millis r) (deltaTime r) (cursor r)
      v (explosions r).
Definition set_explosions (v : nat) (r : t) : t :=
    mk (heap r) (particles r) (config r) (millis r) (deltaTime r) (cursor r)
      (console r) v.
End World.

(** The remaining globals of the sketch: the [fireworks] array, the
    system's [lastLaunch] and the [gravity] vector. *)
Module Sketch.
Record t := mk {
    world : World.t;
    fireworks : list Firework.t;
    lastLaunch : Q;
    gravity : option Vec.t
}.
Definition set_world (v : World.t) (r : t) : t :=
    mk v (fireworks r) (lastLaunch r) (gravity r).
Definition set_fireworks (v : list Firework.t) (r : t) : t :=
    mk (world r) v (lastLaunch r) (gravity r).
Definition set_lastLaunch (v : Q) (r : t) : t :=
    mk (world r) (fireworks r) v (gravity r).
Definition set_gravity (v : option Vec.t) (r : t) : t :=
    mk (world r) (fireworks r) (lastLaunch r) v.
End Sketch.

(** The options object of the [Particle] constructor; an absent key is
    [None]. *)
Module Options.
Record t := mk {
    lifespan : option Q;
    strobeRate : option Q;
    crackleRate : option Q;
    fadeRate : option Q;
    delay : option Q;
    subType : option string;
    palette : option Palette
}.
Definition empty : t := mk None None None None None None None.
End Options.

(** ** The simulation monad

    Every method runs against the globals of the sketch; [M A] threads
    them.  The receiver of a method is passed and returned by value and
    written back to the heap by the caller. *)

Definition State (St A : Type) : Type := St -> A * St.
Definition M : Type -> Type := State World.t.

Definition ret {St A} (a : A) : State St A := fun s => (a, s).
Definition bind {St A B} (m : State St A) (k : A -> State St B)
    : State St B :=
  fun s => let (a, s') := m s in k a s'.

Notation "x <- m ;; k" := (bind m (fun x => k))
  (at level 100, m at next level, right associativity).
Notation "m ;;; k" := (bind m (fun _ => k))
  (at level 100, right associativity).

Definition get : M World.t := fun w => (w, w).
Definition modify (f : World.t -> World.t) : M unit := fun w => (tt, f w).
Definition log (lvl : LogLevel) (msg : string) : M unit :=
  modify (fun w => World.set_console (World.console w ++ [(lvl, msg)]) w).

(** [millis() / 1000.0] *)
Definition now : M Q := fun w => (World.millis w / 1000, w).

(** [particles.length] *)
Definition particles_length : M Q :=
  fun w => (Qnat (length (World.particles w)), w).

(** [particles.push(p)]: the object is allocated and its reference is
    appended to the global array. *)
Definition push (p : Particle.t) : M nat :=
  fun w =>
    let id := length (World.heap w) in
    (id, World.set_particles (World.particles w ++ [id])
           (World.set_heap (World.heap w ++ [p]) w)).

Fixpoint repeatM {St} (n : nat) (body : State St unit) : State St unit :=
  match n with
  | O => ret tt
  | S n' => body ;;; repeatM n' body
  end.

(** A counted loop whose body starts with [if (stop) break;]. *)
Fixpoint repeat_until {St} (n : nat) (stop : State St bool)
    (body : State St unit) : State St unit :=
  match n with
  | O => ret tt
  | S n' => b <- stop ;; if b then ret tt else body ;;; repeat_until n' stop body
  end.

(** [for (let i = i0; i < i0 + n; i++) body(i)] *)
Fixpoint forM {St} (n : nat) (i0 : nat) (body : nat -> State St unit)
    : State St unit :=
  match n with
  | O => ret tt
  | S n' => body i0 ;;; forM n' (S i0) body
  end.

Section Simulation.
Variable h : Host.t.

(** *** p5's [random] and random vectors *)

Definition random01 : M Q :=
  fun w => (Host.rand h (World.cursor w),
            World.set_cursor (S (World.cursor w)) w).

(** [random(max)] *)
Definition random1 (hi : Q) : M Q := u <- random01 ;; ret (u * hi).

(** [random(min, max)]; p5 swaps the bounds when [min > max]. *)
Definition random (a b : Q) : M Q :=
  u <- random01 ;;
  let lo := if Qltb b a then b else a in
  let hi := if Qltb b a then a else b in
  ret (u * (hi - lo) + lo).

(** [random(array)] *)
Definition random_of {A} (l : list A) : M (option A) :=
  u <- random01 ;; ret (index l (u * Qnat (length l))).

(** [random(palette)] passed where a colour is expected. *)
Definition random_color (pal : option Palette) : M Color :=
  match pal with
  | Some l =>
      c <- random_of l ;;
      ret (match c with Some s => Hex s | None => Undefined end)
  | None => u <- random01 ;; ret (Gray u)
  end.

Definition random2D : M Vec.t :=
  u <- random01 ;; ret (Host.fromAngle h (u * Host.TWO_PI h)).

Definition random3D : M Vec.t :=
  u1 <- random01 ;;
  u2 <- random01 ;;
  let angle := u1 * Host.TWO_PI h in
  let vz := u2 * 2 - 1 in
  let vzBase := Host.sqrt h (1 - vz * vz) in
  let c := Host.fromAngle h angle in
  ret (Vec.mk (vzBase * Vec.x c) (vzBase * Vec.y c) vz).

(** *** class Particle *)

Definition Particle_enableFluidBehavior (p : Particle.t) : M Particle.t :=
  r <- random (-0.02) 0.02 ;;
  s <- random 1.3 1.8 ;;
  ret (Particle.set_maxTrailLength (Nat.div2 (Particle.maxTrailLength p))
        (Particle.set_size (Particle.size p * s)
          (Particle.set_viscosity (0.97 + r)
            (Particle.set_fluid true p)))).

Definition Particle_new (pos vel : Vec.t) (col : Color) (size : Q)
    (role : Role.t) (options : Options.t) : M Particle.t :=
  let baseColor := match col with Undefined => white | c => c end in
  let alpha := levels3 baseColor in
  lifespan <- match Options.lifespan options with
              | Some v => if Qeqb v 0 then random 1.5 2.5 else ret v
              | None => random 1.5 2.5
              end ;;
  let strobeRate := from_option id 0 (Options.strobeRate options) in
  let crackleRate := from_option id 0 (Options.crackleRate options) in
  let fadeRate := orQ (from_option id 0 (Options.fadeRate options)) 1 in
  let delay := from_option id 0 (Options.delay options) in
  let subType :=
    match Options.subType options with
    | Some s => if String.eqb s "" then None else Some s
    | None => None
    end in
  timeCreated <- now ;;
  density <- random 0.8 1.2 ;;
  let this :=
    Particle.mk (Some pos) (Some vel) (Some (Vec.create 0 0)) baseColor
      alpha alpha size role "CLASSIC" None lifespan strobeRate crackleRate
      fadeRate delay subType (Options.palette options) timeCreated
      timeCreated timeCreated true false alpha 0
      (0.5 / max 0.1 fadeRate) [] TRAIL_LENGTH false 0.98 density 0 O in
  if String.eqb (Particle.particleStyle this) "FLUID"
  then Particle_enableFluidBehavior this
  else ret this.

(** [this.acc.add(f)]; the callers have checked that [acc] is there. *)
Definition Particle_applyForce (f : Vec.t) (p : Particle.t) : Particle.t :=
  match Particle.acc p with
  | Some a => Particle.set_acc (Some (Vec.add a f)) p
  | None => p
  end.

(** [v.setMag(n)]: [normalize] then [mult]. *)
Definition setMag (v : Vec.t) (n : Q) : Vec.t :=
  let len := Host.sqrt h (Vec.magSq v) in
  Vec.mult (if Qeqb len 0 then v else Vec.mult v (1 / len)) n.

Definition Particle_applyDrag (dragCoefficient : Q) (p : Particle.t)
    : Particle.t :=
  match Particle.vel p with
  | Some v =>
      if Qltb 0 dragCoefficient then
        let speedSq := Vec.magSq v in
        if Qltb 0.0001 speedSq then
          let dragMagnitude := speedSq * dragCoefficient in
          Particle_applyForce (setMag v (- dragMagnitude)) p
        else p
      else p
  | None => p
  end.

(** [setFading(duration = -1)] *)
Definition Particle_setFading (duration : Q) (p : Particle.t)
    : M Particle.t :=
  if Particle.isFading p then ret p
  else
    t <- now ;;
    ret (Particle.set_fadeDuration
           (if Qltb 0 duration then duration
            else max 0.01 (0.5 / max 0.1 (Particle.fadeRate p)))
           (Particle.set_fadeStartAlpha (Particle.alpha p)
              (Particle.set_fadeStartTime t
                 (Particle.set_isFading true p)))).

Definition Particle_isDone (p : Particle.t) : bool :=
  Qleb (Particle.alpha p) 0.

(** [Firework.prototype.createParticle], with [this.config] as first
    argument: [explodeSecondary] calls it on an object of its own. *)
Definition Firework_createParticle (config : option ConfigRef)
    (pos vel : Vec.t) (col : Color) (size : Q) (particleRole : Role.t)
    (options : Options.t) : M unit :=
  w <- get ;;
  match config with
  | Some SystemConfig =>
      if Qltb (Qnat (length (World.particles w)))
              (Config.maxTotalParticles (World.config w))
      then
        p <- Particle_new pos vel col size particleRole options ;;
        push (Particle.set_configRef (Some SystemConfig)
                (Particle.set_particleStyle
                   (Config.particleType (World.config w)) p)) ;;;
        ret tt
      else ret tt
  | None => ret tt
  end.

Definition Particle_spawnCrackle (this : Particle.t) : M unit :=
  match Particle.pos this, Particle.vel this, Particle.configRef this with
  | Some pos, Some vel, Some SystemConfig =>
      n <- random 1 4 ;;
      let numCrackles := inject_Z (Qfloor n) in
      repeat_until (iterations numCrackles)
        (w <- get ;;
         ret (Qleb (Config.maxTotalParticles (World.config w))
                   (Qnat (length (World.particles w)))))
        (dir <- random2D ;;
         m <- random 3 6 ;;
         let offsetVel := Vec.mult dir m in
         let crackleVel := Vec.add (Vec.mult vel 0.2) offsetVel in
         r <- random 200 255 ;;
         g <- random 180 255 ;;
         b <- random 150 220 ;;
         let crackleCol := RGB r g b in
         crackleLifespan <- random 0.05 0.15 ;;
         let crackleFadeRate := 8.0 in
         sz <- random 1 2.5 ;;
         p <- Particle_new pos crackleVel crackleCol sz Role.CRACKLE
                (Options.mk (Some crackleLifespan) None None
                   (Some crackleFadeRate) None None None) ;;
         push (Particle.set_configRef (Particle.configRef this)
                 (Particle.set_particleStyle (Particle.particleStyle this) p)) ;;;
         ret tt)
  | _, _, _ => ret tt
  end.

(** The body shared by the three loops of [explodeSecondary]. *)
Definition secondary_burst (count : Q) (maxTotalParticles : Q)
    (lo hi : Q) (inheritedVel : Vec.t) (spawn : Vec.t -> M unit) : M unit :=
  repeat_until (iterations count)
    (n <- particles_length ;; ret (Qleb maxTotalParticles n))
    (angle <- random1 (Host.TWO_PI h) ;;
     forceMag <- random lo hi ;;
     let vel := Vec.add (Vec.mult (Host.fromAngle h angle) forceMag)
                        inheritedVel in
     spawn vel).

(** [explodeSecondary] past its guards: the parameters of the explosion
    and the switch on its type. *)
Definition secondary_explosion (this : Particle.t) (pos : Vec.t) : M unit :=
  w <- get ;;
  let configRef := World.config w in
  let numParticles :=
    inject_Z (Qfloor (min (orQ (Config.particleCount configRef) 1000 * 0.4)
                          MAX_PARTICLES_PER_FIREWORK)) in
  let baseForce := orQ (Config.explosionSize configRef) 400 / 18.0 in
  let explosionPos := pos in
  paletteToUse <- match Particle.palette this with
                  | Some pal => ret (Some pal)
                  | None => random_of PALETTES
                  end ;;
  let explosionType := from_option id "PEONY" (Particle.subType this) in
  let maxTotalParticles :=
    orQ (Config.maxTotalParticles configRef) MAX_TOTAL_PARTICLES in
  let inheritedVel :=
    Vec.mult (from_option id (Vec.create 0 0) (Particle.vel this)) 0.3 in
  if String.eqb explosionType "CRACKLING" then
    secondary_burst (numParticles * 0.8) maxTotalParticles
      (baseForce * 0.6) (baseForce * 1.0) inheritedVel
      (fun vel =>
         col <- random_color paletteToUse ;;
         lifespan <- random 0.6 1.2 ;;
         crackleRate <- random 4 9 ;;
         Firework_createParticle (Some SystemConfig) explosionPos vel
           col 2.5 Role.CRACKLE_SOURCE
           (Options.mk (Some lifespan) None (Some crackleRate) None
              None None None))
  else if String.eqb explosionType "STROBE" then
    secondary_burst (numParticles * 0.7) maxTotalParticles
      (baseForce * 0.7) (baseForce * 1.1) inheritedVel
      (fun vel =>
         v <- random 200 255 ;;
         let strobeColor := Gray v in
         lifespan <- random 1.0 2.0 ;;
         strobeRate <- random 6 16 ;;
         Firework_createParticle (Some SystemConfig) explosionPos vel
           strobeColor 2 Role.STROBE
           (Options.mk (Some lifespan) (Some strobeRate) None None
              None None None))
  else
    secondary_burst numParticles maxTotalParticles
      (baseForce * 0.8) (baseForce * 1.2) inheritedVel
      (fun vel =>
         col <- random_color paletteToUse ;;
         sz <- random 2 3.5 ;;
         lifespan <- random 0.8 1.5 ;;
         Firework_createParticle (Some SystemConfig) explosionPos vel
           col sz Role.EXPLOSION
           (Options.mk (Some lifespan) None None None None None None)).

Definition Particle_explodeSecondary (this0 : Particle.t) : M Particle.t :=
  let this :=
    Particle.set_secondaryCalls (S (Particle.secondaryCalls this0)) this0 in
  match Particle.configRef this, Particle.pos this with
  | Some SystemConfig, Some pos =>
      this <- match Particle.vel this with
              | Some _ => ret this
              | None =>
                  log LogWarn
                    "Secondary explosion source particle has no velocity." ;;;
                  ret (Particle.set_vel (Some (Vec.create 0 0)) this)
              end ;;
      secondary_explosion this pos ;;;
      ret this
  | _, _ =>
      log LogError
        "Cannot explode secondary: missing config, position, or global particles array." ;;;
      ret (Particle.set_alpha 0 this)
  end.

Definition Particle_applyFluidBehavior (this : Particle.t) : Particle.t :=
  match Particle.vel this, Particle.pos this with
  | Some vel, Some pos =>
      let this :=
        Particle.set_vel (Some (Vec.mult vel (Particle.viscosity this))) this in
      let noiseAngle :=
        Host.noise2D h (Vec.x pos * 0.03) (Vec.y pos * 0.03)
        * Host.TWO_PI h * 2 in
      let noiseForce := Vec.mult (Host.fromAngle h noiseAngle) 0.08 in
      Particle_applyForce noiseForce this
  | _, _ => this
  end.

(** The time step of one [update]: p5's [deltaTime] when it is plausible,
    a sixtieth of a second otherwise. *)
Definition frame_dt : M Q :=
  fun w =>
    let deltaTime := World.deltaTime w in
    ((if Qltb 0 deltaTime && Qltb deltaTime 250
      then deltaTime / 1000.0 else 1.0 / 60.0), w).

(** [--- Physics Update ---] *)
Definition update_physics (dt : Q) (pos vel acc : Vec.t)
    (this : Particle.t) : Particle.t :=
  let vel' := Vec.add vel acc in
  let pos' := Vec.add pos (Vec.mult vel' dt) in
  Particle.set_acc (Some (Vec.mult acc 0))
    (Particle.set_pos (Some pos') (Particle.set_vel (Some vel') this)).

(** [--- Trail Update ---] *)
Definition update_trail (this : Particle.t) : Particle.t :=
  match Particle.vel this, Particle.pos this with
  | Some vel, Some pos =>
      if Qltb 0.01 (Vec.magSq vel) then
        let trail := Particle.trail this ++ [pos] in
        Particle.set_trail
          (drop (length trail - Particle.maxTrailLength this) trail) this
      else Particle.set_trail (drop 1 (Particle.trail this)) this
  | _, _ => this
  end.

(** [--- Lifespan and Fading ---]  The fading branch over doubles is
    [Double.fading_alpha]. *)
Definition update_fading (currentTime age : Q) (this : Particle.t)
    : M Particle.t :=
  if Particle.isFading this then
    let fadeProgress :=
      constrain
        ((currentTime - Particle.fadeStartTime this)
         / Particle.fadeDuration this) 0 1 in
    let alpha := lerp (Particle.fadeStartAlpha this) 0 fadeProgress in
    ret (Particle.set_alpha (max 0 alpha) this)
  else if negb (Role.eqb (Particle.role this) Role.MINI_SHELL)
          && Qleb (Particle.lifespan this) age
  then Particle_setFading (-1) this
  else ret this.

(** [--- Role-Specific Behaviors ---]: the strobe (the comparisons are
    those of exact arithmetic) *)
Definition update_strobe (currentTime : Q) (this : Particle.t)
    : Particle.t :=
  if Role.eqb (Particle.role this) Role.STROBE
     && Qltb 0 (Particle.strobeRate this)
     && negb (Particle.isFading this)
  then
    let timeSinceStrobe := currentTime - Particle.lastStrobe this in
    let strobeInterval := 1.0 / Particle.strobeRate this in
    if Qleb strobeInterval timeSinceStrobe then
      let lastStrobe := Particle.lastStrobe this + strobeInterval in
      Particle.set_lastStrobe
        (if Qltb lastStrobe (currentTime - strobeInterval * 2)
         then currentTime else lastStrobe)
        (Particle.set_strobeOn (negb (Particle.strobeOn this)) this)
    else this
  else this.

(** [--- Role-Specific Behaviors ---]: the crackle *)
Definition update_crackle (currentTime : Q) (this : Particle.t)
    : M Particle.t :=
  if Role.eqb (Particle.role this) Role.CRACKLE_SOURCE
     && Qltb 0 (Particle.crackleRate this)
     && negb (Particle.isFading this)
  then
    let timeSinceCrackle := currentTime - Particle.lastCrackle this in
    r <- random 0.7 1.3 ;;
    let crackleInterval := r / Particle.crackleRate this in
    if Qleb crackleInterval timeSinceCrackle then
      w <- get ;;
      let maxP :=
        match Particle.configRef this with
        | Some SystemConfig =>
            orQ (Config.maxTotalParticles (World.config w))
                MAX_TOTAL_PARTICLES
        | None => MAX_TOTAL_PARTICLES
        end in
      if Qltb (Qnat (length (World.particles w))) (maxP - 5) then
        Particle_spawnCrackle this ;;;
        ret (Particle.set_lastCrackle currentTime this)
      else ret this
    else ret this
  else ret this.

(** The fluid style *)
Definition update_fluid (this : Particle.t) : Particle.t :=
  if String.eqb (Particle.particleStyle this) "FLUID" && Particle.fluid this
  then Particle_applyFluidBehavior this
  else this.

(** [update] past its guards: physics, trail, fading, then the
    behaviours of the role and of the style. *)
Definition update_body (currentTime age : Q) (pos vel acc : Vec.t)
    (this : Particle.t) : M Particle.t :=
  dt <- frame_dt ;;
  let this := update_physics dt pos vel acc this in
  let this := update_trail this in
  this <- update_fading currentTime age this ;;
  let this := update_strobe currentTime this in
  this <- update_crackle currentTime this ;;
  ret (update_fluid this).

Definition Particle_update (this : Particle.t) : M Particle.t :=
  match Particle.pos this, Particle.vel this, Particle.acc this with
  | Some pos, Some vel, Some acc =>
      currentTime <- now ;;
      let age := currentTime - Particle.timeCreated this in
      if Role.eqb (Particle.role this) Role.MINI_SHELL
         && Qltb 0 (Particle.delay this)
         && Qleb (Particle.delay this) age
      then
        this <- Particle_explodeSecondary this ;;
        ret (Particle.set_delay 0 (Particle.set_alpha 0 this))
      else if Role.eqb (Particle.role this) Role.MINI_SHELL
              && Qleb (Particle.delay this) 0
      then ret (Particle.set_alpha 0 this)
      else update_body currentTime age pos vel acc this
  | _, _, _ =>
      log LogError "Particle missing essential properties (pos/vel/acc)." ;;;
      ret (Particle.set_alpha 0 this)
  end.

(** *** class Firework *)

Definition Firework_new (pos vel : Vec.t) (type : option string)
    (config : option ConfigRef) : M Firework.t :=
  let initialColor := RGBA 255 255 0 200 in
  shell <- Particle_new pos vel initialColor 4 Role.SHELL Options.empty ;;
  let shell := Particle.set_configRef config shell in
  explosionAltitude <- random (Host.height h * 0.1) (Host.height h * 0.5) ;;
  palette <- random_of PALETTES ;;
  id <- push shell ;;
  ret (Firework.mk id type config Lifecycle.ASCENT explosionAltitude palette
         false O).

(** A radial loop of [explode]: an angle, a magnitude, then the pattern's
    own draws and [createParticle]. *)
Definition radial_burst (count : Q) (lo hi : Q)
    (spawn : Q -> Vec.t -> M unit) : M unit :=
  repeatM (iterations count)
    (angle <- random1 (Host.TWO_PI h) ;;
     forceMag <- random lo hi ;;
     spawn forceMag (Host.fromAngle h angle)).

Definition validSubTypes : list string :=
  filter (fun t => t <> "RANDOM" /\ t <> "MULTI_BREAK") FIREWORK_TYPES.

Section Patterns.
Variable this : Firework.t.
Variables explosionPos inheritedVel : Vec.t.
Variables numParticles baseForce : Q.

Let createParticle := Firework_createParticle (Firework.config this).
Let palette := Firework.palette this.

(** [case 'PEONY': case 'CHRYSANTHEMUM':] *)
Definition explode_peony (chrys : bool) : M unit :=
  radial_burst numParticles (baseForce * 0.8) (baseForce * 1.2)
    (fun forceMag0 dir =>
       let forceMag := forceMag0 * (if chrys then 1.05 else 1.0) in
       let vel := Vec.add (Vec.mult dir forceMag) inheritedVel in
       l <- random 1.0 1.8 ;;
       let lifespan := l * (if chrys then 1.1 else 1.0) in
       col <- random_color palette ;;
       createParticle explosionPos vel col 3 Role.EXPLOSION
         (Options.mk (Some lifespan) None None None None None None)).

(** [case 'PALM':] *)
Definition explode_palm : M unit :=
  b <- random 4 7 ;;
  let mainBranches := inject_Z (Qfloor b) in
  forM (iterations mainBranches) O
    (fun i =>
       r <- random (-0.15) 0.15 ;;
       let angle := (Qnat i / mainBranches) * Host.TWO_PI h + r in
       f <- random 1.2 1.6 ;;
       let branchForce := baseForce * f in
       let baseVel := Vec.mult (Host.fromAngle h angle) branchForce in
       let particlesPerBranch :=
         inject_Z (Qfloor (numParticles / mainBranches)) in
       repeatM (iterations particlesPerBranch)
         (dir <- random2D ;;
          let variation := Vec.mult dir (baseForce * 0.35) in
          let vel := Vec.add (Vec.add baseVel variation) inheritedVel in
          col <- random_color palette ;;
          sz <- random 3 4.5 ;;
          lifespan <- random 1.5 2.5 ;;
          createParticle explosionPos vel col sz Role.EXPLOSION
            (Options.mk (Some lifespan) None None None None None None))).

(** [case 'WILLOW':] *)
Definition explode_willow : M unit :=
  radial_burst numParticles (baseForce * 0.4) (baseForce * 0.8)
    (fun forceMag dir =>
       let vel := Vec.add (Vec.mult dir forceMag) inheritedVel in
       col <- random_color palette ;;
       lifespan <- random 3.0 5.0 ;;
       createParticle explosionPos vel col 2.5 Role.EXPLOSION
         (Options.mk (Some lifespan) None None (Some 0.4) None None None)).

(** [case 'STROBE':] *)
Definition explode_strobe : M unit :=
  radial_burst (numParticles * 0.7) (baseForce * 0.7) (baseForce * 1.1)
    (fun forceMag dir =>
       let vel := Vec.add (Vec.mult dir forceMag) inheritedVel in
       v <- random 200 255 ;;
       let strobeColor := Gray v in
       lifespan <- random 1.5 3.0 ;;
       strobeRate <- random 5 15 ;;
       createParticle explosionPos vel strobeColor 2 Role.STROBE
         (Options.mk (Some lifespan) (Some strobeRate) None None None None
            None)).

(** [case 'CRACKLING':] *)
Definition explode_crackling : M unit :=
  radial_burst (numParticles * 0.8) (baseForce * 0.6) (baseForce * 1.0)
    (fun forceMag dir =>
       let vel := Vec.add (Vec.mult dir forceMag) inheritedVel in
       col <- random_color palette ;;
       lifespan <- random 0.8 1.5 ;;
       crackleRate <- random 3 8 ;;
       createParticle explosionPos vel col 2.5 Role.CRACKLE_SOURCE
         (Options.mk (Some lifespan) None (Some crackleRate) None None None
            None)).

(** One mini-shell of [case 'MULTI_BREAK':]: built, given the fields of
    the secondary explosion, and pushed. *)
Definition launch_miniShell (vel : Vec.t) : M unit :=
  miniShell <- Particle_new explosionPos vel (RGBA 255 220 150 200) 3
                 Role.MINI_SHELL Options.empty ;;
  delay <- random 0.4 0.9 ;;
  subType <- random_of validSubTypes ;;
  pal <- random_of PALETTES ;;
  timeCreated <- now ;;
  push (Particle.set_configRef (Firework.config this)
         (Particle.set_timeCreated timeCreated
           (Particle.set_palette pal
             (Particle.set_subType subType
               (Particle.set_delay delay miniShell))))) ;;;
  ret tt.

(** [case 'MULTI_BREAK':] *)
Definition explode_multi_break : M unit :=
  b <- random 2 5 ;;
  let breaks := inject_Z (Qfloor b) in
  radial_burst breaks (baseForce * 0.6) (baseForce * 1.0)
    (fun forceMag dir =>
       launch_miniShell
         (Vec.add (Vec.mult dir forceMag) (Vec.mult inheritedVel 1.5))).

(** [default:] *)
Definition explode_default : M unit :=
  log LogWarn "Unknown or fallback firework type:" ;;;
  repeatM (iterations numParticles)
    (dir <- random3D ;;
     m <- random (baseForce * 0.7) (baseForce * 1.3) ;;
     let vel3D := Vec.mult dir m in
     let vel :=
       Vec.add (Vec.create (Vec.x vel3D) (Vec.y vel3D)) inheritedVel in
     col <- random_color palette ;;
     lifespan <- random 1.2 2.2 ;;
     createParticle explosionPos vel col 3 Role.EXPLOSION
       (Options.mk (Some lifespan) None None None None None None)).

(** [switch (this.type)] *)
Definition explode_switch : M unit :=
  let type := Firework.type this in
  if bool_decide (type = Some "PEONY") then explode_peony false
  else if bool_decide (type = Some "CHRYSANTHEMUM") then explode_peony true
  else if bool_decide (type = Some "PALM") then explode_palm
  else if bool_decide (type = Some "WILLOW") then explode_willow
  else if bool_decide (type = Some "STROBE") then explode_strobe
  else if bool_decide (type = Some "CRACKLING") then explode_crackling
  else if bool_decide (type = Some "MULTI_BREAK") then explode_multi_break
  else explode_default.
End Patterns.

(** The second guard of [explode]: no shell, or a shell without position. *)
Definition explode_no_shell (this : Firework.t) : M Firework.t :=
  log LogError "Firework shell missing or invalid, cannot explode at:" ;;;
  ret (Firework.set_hasExploded true
         (Firework.set_lifecycle Lifecycle.EXPLOSION this)).

(** The parameters of an explosion: [numParticles], [baseForce] and
    [inheritedVel]. *)
Definition numParticles_of (config : Config.t) : Q :=
  inject_Z (Qfloor (min (orQ (Config.particleCount config) 1000)
                        MAX_PARTICLES_PER_FIREWORK)).
Definition baseForce_of (config : Config.t) : Q :=
  orQ (Config.explosionSize config) 400 / 10.0.
Definition inheritedVel_of (shell : Particle.t) : Vec.t :=
  match Particle.vel shell with
  | Some v => Vec.mult v 0.1
  | None => Vec.create 0 0
  end.

Definition Firework_explode (this0 : Firework.t) : M Firework.t :=
  let this :=
    Firework.set_explodeCalls (S (Firework.explodeCalls this0)) this0 in
  modify (fun w => World.set_explosions (S (World.explosions w)) w) ;;;
  match Firework.config this with
  | None =>
      log LogError "Firework cannot explode without config reference." ;;;
      ret this
  | Some SystemConfig =>
      w <- get ;;
      match World.heap w !! Firework.shell this with
      | Some shell =>
          match Particle.pos shell with
          | Some shell_pos =>
              let explosionPos := shell_pos in
              let numParticles := numParticles_of (World.config w) in
              let baseForce := baseForce_of (World.config w) in
              let inheritedVel := inheritedVel_of shell in
              explode_switch this explosionPos inheritedVel numParticles
                baseForce ;;;
              ret this
          | None => explode_no_shell this
          end
      | None => explode_no_shell this
      end
  end.

(** [this.shell.m(...)]: a method call on the shell through its
    reference. *)
Definition on_particle (id : nat) (m : Particle.t -> M Particle.t) : M unit :=
  w <- get ;;
  match World.heap w !! id with
  | Some p =>
      p' <- m p ;;
      modify (fun w => World.set_heap (<[id := p']> (World.heap w)) w)
  | None => ret tt
  end.

(** The apex test of [update]: the shell, its velocity and its position
    exist and [vel.y >= -0.5 || pos.y <= explosionAltitude]. *)
Definition at_apex (this : Firework.t) (w : World.t) : option bool :=
  match World.heap w !! Firework.shell this with
  | Some shell =>
      match Particle.vel shell, Particle.pos shell with
      | Some vel, Some pos =>
          Some (Qleb (-0.5) (Vec.y vel)
                || Qleb (Vec.y pos) (Firework.explosionAltitude this))
      | _, _ => None
      end
  | None => None
  end.

(** The first statement of [update]: explode at the apex. *)
Definition update_ascent (this : Firework.t) : M Firework.t :=
  w <- get ;;
  if Lifecycle.eqb (Firework.lifecycle this) Lifecycle.ASCENT then
    match at_apex this w with
    | Some true =>
        if negb (Firework.hasExploded this) then
          this <- Firework_explode this ;;
          let this := Firework.set_lifecycle Lifecycle.EXPLOSION this in
          on_particle (Firework.shell this) (Particle_setFading 0.1) ;;;
          ret (Firework.set_hasExploded true this)
        else ret this
    | _ => ret this
    end
  else ret this.

(** The second statement of [update]: a shell that left the [particles]
    array before the explosion retires the firework. *)
Definition update_lost_shell (this : Firework.t) : M Firework.t :=
  w <- get ;;
  if Lifecycle.eqb (Firework.lifecycle this) Lifecycle.ASCENT
     && negb (bool_decide (Firework.shell this ∈ World.particles w))
  then
    log LogWarn "Shell particle disappeared before explosion." ;;;
    ret (Firework.set_hasExploded true
           (Firework.set_lifecycle Lifecycle.EXPLOSION this))
  else ret this.

Definition Firework_update (this : Firework.t) : M Firework.t :=
  this <- update_ascent this ;;
  update_lost_shell this.

Definition Firework_done (this : Firework.t) : bool :=
  Lifecycle.eqb (Firework.lifecycle this) Lifecycle.EXPLOSION.

(** *** class FireworkSystem *)

(** A method of the world run on the sketch. *)
Definition lift {A} (m : M A) (s : Sketch.t) : A * Sketch.t :=
  let (a, w) := m (Sketch.world s) in (a, Sketch.set_world w s).

Definition FireworkSystem_getWind (position : Vec.t) (w : World.t) : Vec.t :=
  let config := World.config w in
  let time := World.millis w * 0.0001 in
  let noiseVal :=
    Host.noise3D h (Vec.x position * Config.turbulence config)
      (Vec.y position * Config.turbulence config) time in
  Vec.create (Config.wind config + noiseVal * Config.wind config * 0.5) 0.

(** [launch(pos, typeOverride = null)]; [pos] is [None] when it is not a
    vector. *)
Definition FireworkSystem_launch (pos : option Vec.t)
    (typeOverride : option string) (s : Sketch.t) : Sketch.t :=
  let w := Sketch.world s in
  let config := World.config w in
  if Qleb (Config.maxTotalParticles config) (Qnat (length (World.particles w)))
  then snd (lift (log LogWarn "Max particle limit reached. Skipping launch.") s)
  else
    match pos with
    | None => snd (lift (log LogError "Invalid launch position:") s)
    | Some pos =>
        let type0 :=
          match typeOverride with
          | Some t => if String.eqb t "" then Config.fireworkType config else t
          | None => Config.fireworkType config
          end in
        let (fw, s') :=
          lift
            (type <- (if String.eqb type0 "RANDOM"
                      then random_of (filter (fun t => t <> "RANDOM")
                                        FIREWORK_TYPES)
                      else ret (Some type0)) ;;
             vx <- random (-1.5) 1.5 ;;
             vy <- random (-18) (-24) ;;
             let launchVel := Vec.create vx vy in
             Firework_new pos launchVel type (Some SystemConfig)) s in
        Sketch.set_fireworks (Sketch.fireworks s' ++ [fw]) s'
    end.

Definition FireworkSystem_launchRandom (s : Sketch.t) : Sketch.t :=
  let (xPos, s') :=
    lift (random (Host.width h * 0.15) (Host.width h * 0.85)) s in
  let startPos := Vec.create xPos (Host.height h) in
  let fireworkType := Config.fireworkType (World.config (Sketch.world s')) in
  FireworkSystem_launch (Some startPos)
    (Some (if String.eqb fireworkType "RANDOM" then "RANDOM"
           else fireworkType)) s'.

(** [manualLaunch(x = null, y = null)], with the pointer's [mouseX]. *)
Definition FireworkSystem_manualLaunch (x y : option Q) (mouseX : Q)
    (s : Sketch.t) : Sketch.t :=
  let launchX := from_option id mouseX x in
  let s' := snd (lift (log LogInfo "Manual launch initiated") s) in
  let startPos := Vec.create launchX (Host.height h) in
  FireworkSystem_launch (Some startPos)
    (Some (Config.fireworkType (World.config (Sketch.world s')))) s'.

Definition FireworkSystem_update (s : Sketch.t) : Sketch.t :=
  let w := Sketch.world s in
  let config := World.config w in
  if Config.autoLaunch config
     && Qltb (1000 / Config.launchFrequency config)
             (World.millis w - Sketch.lastLaunch s)
  then
    if Qltb (Qnat (length (World.particles w)))
            (Config.maxTotalParticles config)
    then Sketch.set_lastLaunch (World.millis w) (FireworkSystem_launchRandom s)
    else s
  else s.

(** *** The frame: [draw] *)

(** [particles.splice(i, 1)] *)
Definition splice_particle (i : nat) (w : World.t) : World.t :=
  World.set_particles (delete i (World.particles w)) w.

(** The body of the particle loop of [draw] at index [i]. *)
Definition draw_particle (gravity : option Vec.t) (i : nat) (w : World.t)
    : World.t :=
  match World.particles w !! i with
  | None => w
  | Some id =>
      match World.heap w !! id with
      | Some p =>
          match Particle.pos p, Particle.vel p, Particle.acc p with
          | Some pos, Some _, Some _ =>
              let p := match gravity with
                       | Some g => Particle_applyForce g p
                       | None => p
                       end in
              let p := Particle_applyForce (FireworkSystem_getWind pos w) p in
              let p := Particle_applyDrag (Config.airDrag (World.config w)) p in
              let (p, w) := Particle_update p w in
              let w := World.set_heap (<[id := p]> (World.heap w)) w in
              if Particle_isDone p then splice_particle i w else w
          | _, _, _ =>
              splice_particle i
                (snd (log LogWarn "Removing invalid particle:" w))
          end
      | None =>
          splice_particle i (snd (log LogWarn "Removing invalid particle:" w))
      end
  end.

(** [for (let i = n - 1; i >= 0; i--)] *)
Fixpoint downfrom {St} (n : nat) (body : nat -> St -> St) (s : St) : St :=
  match n with
  | O => s
  | S i => downfrom i body (body i s)
  end.

(** The body of the firework loop of [draw] at index [i]. *)
Definition draw_firework (i : nat) (s : Sketch.t) : Sketch.t :=
  match Sketch.fireworks s !! i with
  | None => s
  | Some fw =>
      let (fw, s) := lift (Firework_update fw) s in
      if Firework_done fw
      then Sketch.set_fireworks (delete i (Sketch.fireworks s)) s
      else Sketch.set_fireworks (<[i := fw]> (Sketch.fireworks s)) s
  end.

Definition draw (s : Sketch.t) : Sketch.t :=
  let s := FireworkSystem_update s in
  let w := Sketch.world s in
  let w :=
    downfrom (length (World.particles w)) (draw_particle (Sketch.gravity s)) w in
  let s := Sketch.set_world w s in
  downfrom (length (Sketch.fireworks s)) draw_firework s.

(** One frame: the host advances its clock and calls [draw]. *)
Definition frame (millis deltaTime : Q) (s : Sketch.t) : Sketch.t :=
  draw (Sketch.set_world
          (World.set_deltaTime deltaTime
             (World.set_millis millis (Sketch.world s))) s).
End Simulation.

(** The state [setup] leaves behind: no particle, no firework, the
    configuration of the constructor and a gravity vector set from it. *)
Definition initial_world (config : Config.t) : World.t :=
  World.mk [] [] config 0 0 O [] O.
Definition initial_sketch (config : Config.t) : Sketch.t :=
  Sketch.mk (initial_world config) [] 0
    (Some (Vec.create 0 (Config.gravity config))).

(** * The clock and the fading step in double precision

    The program computes in IEEE 754 binary64.  [Double] transcribes, over
    the kernel's floats, the clock of [Particle.update] and [setFading]
    ([millis() / 1000.0]), the fading branch of [update] and [isDone], with
    [Math.max], [Math.min] and p5's [constrain] and [lerp] as they are
    written. *)

Module Double.
Local Open Scope float_scope.

(** [Math.max] and [Math.min]: NaN when an argument is NaN, and the zero
    of the right sign when both arguments are zero. *)
Definition max (a b : float) : float :=
  if is_nan a || is_nan b then nan
  else if a <? b then b
  else if b <? a then a
  else if get_sign a then b else a.
Definition min (a b : float) : float :=
  if is_nan a || is_nan b then nan
  else if a <? b then a
  else if b <? a then b
  else if get_sign a then a else b.
Definition constrain (n low high : float) : float := max (min n high) low.
Definition lerp (start stop amt : float) : float :=
  amt * (stop - start) + start.

(** [millis() / 1000.0] *)
Definition seconds (millis : float) : float := millis / 1000.

(** The opacity the fading branch of [update] assigns. *)
Definition fading_alpha (fadeStartAlpha fadeStartTime fadeDuration
    currentTime : float) : float :=
  let fadeProgress :=
    constrain ((currentTime - fadeStartTime) / fadeDuration) 0 1 in
  let alpha := lerp fadeStartAlpha 0 fadeProgress in
  max 0 alpha.

(** [isDone] *)
Definition isDone (alpha : float) : bool := alpha <=? 0.
End Double.

(** * The earlier sketch: [fireworks.js] at the top of the tree

    Each firework owns its particles; nothing is shared but the
    configuration, which is passed along.  The state threaded through the
    methods is the position in the stream of random draws. *)

Module Legacy.

Definition FIREWORK_TYPES : list string :=
  ["PEONY"; "CHRYSANTHEMUM"; "PALM"; "RANDOM"].
Definition MAX_INTENSITY : Q := 50000.

Module Config.
Record t := mk {
    launchFrequency : Q;
    explosionSize : Q;
    particleCount : Q;
    turbulence : Q;
    wind : Q;
    colorTransition : bool;
    sound : bool;
    bloomEffect : bool;
    gravity : Q;
    physicsAccuracy : Q;
    autoLaunch : bool;
    particleType : string
}.
Definition initial : t :=
  mk 0.5 300 2000 0.8 0.2 true true true 0.08 3 true "QUANTUM".
End Config.

(** A p5 colour as its four levels. *)
Definition Color : Type := (Q * Q * Q * Q)%type.
Definition lerpColor (c1 c2 : Color) (amt : Q) : Color :=
  let '(r1, g1, b1, a1) := c1 in
  let '(r2, g2, b2, a2) := c2 in
  (lerp r1 r2 amt, lerp g1 g2 amt, lerp b1 b2 amt, lerp a1 a2 amt).

Module Particle.
Record t := mk {
    pos : Vec.t;
    vel : Vec.t;
    acc : Vec.t;
    col : Color;
    alpha : Q;
    size : Q;
    lifespan : Q;
    fluid : bool;
    trail : list Vec.t;
    density : option Q;
    pressure : option Q
}.
Definition set_pos (v : Vec.t) (r : t) : t :=
    mk v (vel r) (acc r) (col r) (alpha r) (size r) (lifespan r) (fluid r)
      (trail r) (density r) (pressure r).
Definition set_vel (v : Vec.t) (r : t) : t :=
    mk (pos r) v (acc r) (col r) (alpha r) (size r) (lifespan r) (fluid r)
      (trail r) (density r) (pressure r).
Definition set_acc (v : Vec.t) (r : t) : t :=
    mk (pos r) (vel r) v (col r) (alpha r) (size r) (lifespan r) (fluid r)
      (trail r) (density r) (pressure r).
Definition set_alpha (v : Q) (r : t) : t :=
    mk (pos r) (vel r) (acc r) (col r) v (size r) (lifespan r) (fluid r)
      (trail r) (density r) (pressure r).
Definition set_fluid (v : bool) (r : t) : t :=
    mk (pos r) (vel r) (acc r) (col r) (alpha r) (size r) (lifespan r) v
      (trail r) (density r) (pressure r).
Definition set_trail (v : list Vec.t) (r : t) : t :=
    mk (pos r) (vel r) (acc r) (col r) (alpha r) (size r) (lifespan r)
      (fluid r) v (density r) (pressure r).
Definition set_density (v : option Q) (r : t) : t :=
    mk (pos r) (vel r) (acc r) (col r) (alpha r) (size r) (lifespan r)
      (fluid r) (trail r) v (pressure r).
Definition set_pressure (v : option Q) (r : t) : t :=
    mk (pos r) (vel r) (acc r) (col r) (alpha r) (size r) (lifespan r)
      (fluid r) (trail r) (density r) v.
End Particle.

Module Firework.
Record t := mk {
    pos : Vec.t;
    vel : Vec.t;
    particles : list Particle.t;
    type : string;
    lifecycle : Lifecycle.t;
    explosionColor : Color;
    shell : Particle.t;
    explodeCalls : nat
}.
Definition set_particles (v : list Particle.t) (r : t) : t :=
    mk (pos r) (vel r) v (type r) (lifecycle r) (explosionColor r) (shell r)
      (explodeCalls r).
Definition set_lifecycle (v : Lifecycle.t) (r : t) : t :=
    mk (pos r) (vel r) (particles r) (type r) v (explosionColor r) (shell r)
      (explodeCalls r).
Definition set_shell (v : Particle.t) (r : t) : t :=
    mk (pos r) (vel r) (particles r) (type r) (lifecycle r)
      (explosionColor r) v (explodeCalls r).
Definition set_explodeCalls (v : nat) (r : t) : t :=
    mk (pos r) (vel r) (particles r) (type r) (lifecycle r)
      (explosionColor r) (shell r) v.
End Firework.

(** How a call ends: it returns, it raises (the state it leaves is kept),
    or it never returns. *)
Inductive Completion (A : Type) :=
| Normal (a : A)
| Thrown (e : string) (a : A)
| Loops.
Arguments Normal {A} a.
Arguments Thrown {A} e a.
Arguments Loops {A}.

Definition L : Type -> Type := State nat.

Section Simulation.
Variable h : Host.t.
Variable config : Config.t.
Variable deltaTime : Q.

Definition random01 : L Q := fun c => (Host.rand h c, S c).
Definition random1 (hi : Q) : L Q := u <- random01 ;; ret (u * hi).
Definition random (a b : Q) : L Q :=
  u <- random01 ;;
  let lo := if Qltb b a then b else a in
  let hi := if Qltb b a then a else b in
  ret (u * (hi - lo) + lo).
Definition random2D : L Vec.t :=
  u <- random01 ;; ret (Host.fromAngle h (u * Host.TWO_PI h)).
Definition random3D : L Vec.t :=
  u1 <- random01 ;;
  u2 <- random01 ;;
  let angle := u1 * Host.TWO_PI h in
  let vz := u2 * 2 - 1 in
  let vzBase := Host.sqrt h (1 - vz * vz) in
  let c := Host.fromAngle h angle in
  ret (Vec.mk (vzBase * Vec.x c) (vzBase * Vec.y c) vz).

(** [v.rotate(a)] *)
Definition rotate (v : Vec.t) (a : Q) : Vec.t :=
  let c := Host.fromAngle h a in
  Vec.mk (Vec.x v * Vec.x c - Vec.y v * Vec.y c)
         (Vec.x v * Vec.y c + Vec.y v * Vec.x c) (Vec.z v).

(** *** class Particle *)

Definition Particle_new (pos vel : Vec.t) (col : Color) (isExplosion : bool)
    : L Particle.t :=
  size <- (if isExplosion then random 2 5 else ret 4) ;;
  lifespan <- random 0.8 1.2 ;;
  ret (Particle.mk pos vel (Vec.create 0 0) col 255 size lifespan false []
         None None).

Definition Particle_applyForce (f : Vec.t) (this : Particle.t) : Particle.t :=
  Particle.set_acc (Vec.add (Particle.acc this) f) this.

Definition Particle_enableFluidBehavior (this : Particle.t) : L Particle.t :=
  d <- random 0.8 1.2 ;;
  ret (Particle.set_pressure (Some 0)
         (Particle.set_density (Some d) (Particle.set_fluid true this))).

(** [fluid] is only set by [enableFluidBehavior], which sets [pressure]
    too. *)
Definition Particle_applyFluidBehavior (this : Particle.t) : L Particle.t :=
  let viscosity := 0.97 in
  let pressureForce := from_option id 0 (Particle.pressure this) * 0.01 in
  let vel := Vec.mult (Particle.vel this) viscosity in
  dir <- random2D ;;
  ret (Particle.set_vel (Vec.add vel (Vec.mult dir pressureForce)) this).

Definition Particle_update (this : Particle.t) : L Particle.t :=
  this <- (if Particle.fluid this then Particle_applyFluidBehavior this
           else ret this) ;;
  let vel := Vec.add (Particle.vel this) (Particle.acc this) in
  let pos := Vec.add (Particle.pos this) vel in
  let acc := Vec.mult (Particle.acc this) 0 in
  let alpha := Particle.alpha this - deltaTime * 0.5 in
  let trail := Particle.trail this ++ [pos] in
  let trail := if (10 <? length trail)%nat then drop 1 trail else trail in
  ret (Particle.set_trail trail
         (Particle.set_alpha alpha
            (Particle.set_acc acc
               (Particle.set_pos pos (Particle.set_vel vel this))))).

(** *** class Firework *)

Definition Firework_new (pos : Vec.t) (type : string) : L Firework.t :=
  vy <- random (-12) (-18) ;;
  let vel := Vec.create 0 vy in
  r <- random1 255 ;;
  g <- random1 255 ;;
  b <- random1 255 ;;
  let explosionColor := (r, g, b, 255) in
  shell <- Particle_new pos vel (255, 255, 255, 150) false ;;
  ret (Firework.mk pos vel [] type Lifecycle.ASCENT explosionColor shell O).

(** [createParticle(force)] *)
Definition Firework_createParticle (force : Vec.t) (this : Firework.t)
    : L Firework.t :=
  r <- random1 255 ;;
  g <- random1 255 ;;
  b <- random1 255 ;;
  amt <- random1 0.2 ;;
  p <- Particle_new (Particle.pos (Firework.shell this)) (Vec.mult force 0.5)
         (lerpColor (Firework.explosionColor this) (r, g, b, 255) amt) true ;;
  p <- (if String.eqb (Config.particleType config) "FLUID"
        then Particle_enableFluidBehavior p else ret p) ;;
  ret (Firework.set_particles (Firework.particles this ++ [p]) this).

(** A counted loop over the receiver. *)
Fixpoint times (n : nat) (body : Firework.t -> L Firework.t)
    (this : Firework.t) : L Firework.t :=
  match n with
  | O => ret this
  | S n' => this <- body this ;; times n' body this
  end.

(** [for (let a = 0; a < TWO_PI; a += angleStep)], unrolled up to
    [fuel] iterations. *)
Fixpoint peony_loop (fuel : nat) (angleStep a : Q) (this : Firework.t)
    : L Firework.t :=
  match fuel with
  | O => ret this
  | S fuel' =>
      if Qltb a (Host.TWO_PI h) then
        m <- random (Config.explosionSize config * 0.8)
               (Config.explosionSize config) ;;
        let force := Vec.mult (Host.fromAngle h a) m in
        this <- Firework_createParticle force this ;;
        peony_loop fuel' angleStep (a + angleStep) this
      else ret this
  end.

(** [createPeony]: the angle step is [TWO_PI / particleCount]; it is
    infinite for a count of zero (one iteration) and negative for a
    negative count (the loop never ends). *)
Definition Firework_createPeony (this : Firework.t) (c : nat)
    : Completion (Firework.t * nat) :=
  let count := Config.particleCount config in
  if Qleb (Host.TWO_PI h) 0 then Normal (this, c)
  else if Qeqb count 0 then Normal (peony_loop 1 0 0 this c)
  else if Qltb count 0 then Loops
  else
    let angleStep := Host.TWO_PI h / count in
    Normal (peony_loop (iterations (Host.TWO_PI h / angleStep)) angleStep 0
              this c).

Definition Firework_createChrysanthemum (this : Firework.t) : L Firework.t :=
  times (iterations (Config.particleCount config))
    (fun this =>
       dir <- random3D ;;
       m <- random1 (Config.explosionSize config * 0.5) ;;
       let force := Vec.mult dir m in
       let force := Vec.mk (Vec.x force) (Vec.y force) (Vec.z force * 0.2) in
       Firework_createParticle force this) this.

Definition Firework_createPalm (this : Firework.t) : L Firework.t :=
  angle <- random (- (Host.TWO_PI h / 2) / 4) ((Host.TWO_PI h / 2) / 4) ;;
  times (iterations (Config.particleCount config))
    (fun this =>
       r <- random (-0.1) 0.1 ;;
       m <- random (Config.explosionSize config * 0.5)
              (Config.explosionSize config) ;;
       t <- random (-0.2) 0.2 ;;
       let force :=
         rotate (Vec.mult (Host.fromAngle h (angle + r)) m) t in
       Firework_createParticle force this) this.

Definition Firework_createRandom (this : Firework.t) : L Firework.t :=
  times (iterations (Config.particleCount config))
    (fun this =>
       dir <- random3D ;;
       m <- random1 (Config.explosionSize config) ;;
       Firework_createParticle (Vec.mult dir m) this) this.

(** What [explosionPatterns[type]] evaluates to: one of the four own
    properties of the table, a function inherited from
    [Object.prototype] (called on the firework it does nothing), or a
    value that cannot be called. *)
Inductive Property :=
| Pattern (create : Firework.t -> nat -> Completion (Firework.t * nat))
| InheritedFunction
| NotCallable.

Definition total (m : Firework.t -> L Firework.t) (this : Firework.t)
    (c : nat) : Completion (Firework.t * nat) := Normal (m this c).

Definition Object_prototype_functions : list string :=
  ["constructor"; "hasOwnProperty"; "isPrototypeOf"; "propertyIsEnumerable";
   "toLocaleString"; "toString"; "valueOf"; "__lookupGetter__";
   "__lookupSetter__"].

Definition explosionPatterns (type : string) : Property :=
  if String.eqb type "PEONY" then Pattern Firework_createPeony
  else if String.eqb type "CHRYSANTHEMUM"
  then Pattern (total Firework_createChrysanthemum)
  else if String.eqb type "PALM" then Pattern (total Firework_createPalm)
  else if String.eqb type "RANDOM" then Pattern (total Firework_createRandom)
  else if bool_decide (type ∈ Object_prototype_functions)
  then InheritedFunction
  else NotCallable.

Definition Firework_explode (this0 : Firework.t) (c : nat)
    : Completion (Firework.t * nat) :=
  let this :=
    Firework.set_explodeCalls (S (Firework.explodeCalls this0)) this0 in
  match explosionPatterns (Firework.type this) with
  | Pattern create => create this c
  | InheritedFunction => Normal (this, c)
  | NotCallable => Thrown "TypeError" (this, c)
  end.

(** [this.particles.forEach(p => { for (...) p.update(); })] *)
Fixpoint update_particles (ps : list Particle.t) : L (list Particle.t) :=
  match ps with
  | [] => ret []
  | p :: ps' =>
      p' <- (fix steps (n : nat) (p : Particle.t) : L Particle.t :=
               match n with
               | O => ret p
               | S n' => p <- Particle_update p ;; steps n' p
               end) (iterations (Config.physicsAccuracy config)) p ;;
      ps'' <- update_particles ps' ;;
      ret (p' :: ps'')
  end.

Definition Firework_update (this : Firework.t) (c : nat)
    : Completion (Firework.t * nat) :=
  let ascent :=
    if Lifecycle.eqb (Firework.lifecycle this) Lifecycle.ASCENT then
      let shell :=
        Particle_applyForce (Vec.create 0 (Config.gravity config))
          (Firework.shell this) in
      let (shell, c) := Particle_update shell c in
      let this := Firework.set_shell shell this in
      if Qleb 0 (Vec.y (Particle.vel shell)) then
        match Firework_explode this c with
        | Normal (this, c) =>
            Normal (Firework.set_lifecycle Lifecycle.EXPLOSION this, c)
        | other => other
        end
      else Normal (this, c)
    else Normal (this, c) in
  match ascent with
  | Normal (this, c) =>
      let (ps, c) := update_particles (Firework.particles this) c in
      Normal (Firework.set_particles ps this, c)
  | other => other
  end.

Definition Firework_done (this : Firework.t) : bool :=
  Lifecycle.eqb (Firework.lifecycle this) Lifecycle.EXPLOSION
  && forallb (fun p => Qleb (Particle.alpha p) 0) (Firework.particles this).

(** A run of [update] calls on one firework, each on the state the call
    before left, whether that call returned or raised (the caller caught
    the error); a call that never returns ends the run. *)
Fixpoint updates (n : nat) (this : Firework.t) (c : nat)
    : Completion (Firework.t * nat) :=
  match n with
  | O => Normal (this, c)
  | S n' =>
      match Firework_update this c with
      | Normal (this, c) | Thrown _ (this, c) => updates n' this c
      | Loops => Loops
      end
  end.
End Simulation.

(** The firework a call leaves behind, when it ends. *)
Definition state_of (r : Completion (Firework.t * nat)) : option Firework.t :=
  match r with
  | Normal (this, _) | Thrown _ (this, _) => Some this
  | Loops => None
  end.
End Legacy.

(** * Vocabulary of the properties *)

(** The simulated age of a particle at the clock of a world. *)
Definition age (this : Particle.t) (w : World.t) : Q :=
  World.millis w / 1000 - Particle.timeCreated this.

(** A particle that is not a mini-shell, or a mini-shell whose delay has
    not elapsed: [update] goes past its two mini-shell guards. *)
Definition awaits_secondary (this : Particle.t) (w : World.t) : Prop :=
  Particle.role this = Role.MINI_SHELL ->
  0 < Particle.delay this /\ age this w < Particle.delay this.

(** The states of one firework along a sequence of [update] calls, each
    made in the world the rest of the sketch has left by then. *)
Fixpoint Firework_trace (h : Host.t) (ws : list World.t) (this : Firework.t)
    : list Firework.t :=
  match ws with
  | [] => []
  | w :: ws' =>
      let this' := fst (Firework_update h this w) in
      this' :: Firework_trace h ws' this'
  end.

(** The states of one particle along a sequence of frames: in each the
    loop of [draw] applies some forces, then calls [update] in the world
    of that frame. *)
Fixpoint Particle_trace (h : Host.t) (frames : list (list Vec.t * World.t))
    (this : Particle.t) : list Particle.t :=
  match frames with
  | [] => []
  | (forces, w) :: rest =>
      let this' :=
        fst (Particle_update h
               (foldl (fun p f => Particle_applyForce f p) this forces) w) in
      this' :: Particle_trace h rest this'
  end.

(** The clock does not run backwards: the frames come at times that do
    not decrease, none before [millis]. *)
Fixpoint clock_ordered (millis : Q) (frames : list (list Vec.t * World.t))
    : Prop :=
  match frames with
  | [] => True
  | (_, w) :: rest =>
      millis <= World.millis w /\ clock_ordered (World.millis w) rest
  end.

(** The opacity the fading branch of [update] computes at a clock. *)
Definition fade_value (this : Particle.t) (millis : Q) : Q :=
  max 0
    (lerp (Particle.fadeStartAlpha this) 0
       (constrain
          ((millis / 1000 - Particle.fadeStartTime this)
           / Particle.fadeDuration this) 0 1)).

(** A particle that has its three vectors. *)
Definition complete (p : Particle.t) : Prop :=
  is_Some (Particle.pos p) /\ is_Some (Particle.vel p)
  /\ is_Some (Particle.acc p).

(** A mini-shell whose delay is used up. *)
Definition spent (p : Particle.t) : Prop :=
  Particle.role p = Role.MINI_SHELL /\ Particle.delay p <= 0.

(** [q] has the fading state of [p]. *)
Definition same_fade (p q : Particle.t) : Prop :=
  Particle.isFading q = Particle.isFading p /\
  Particle.fadeStartAlpha q = Particle.fadeStartAlpha p /\
  Particle.fadeStartTime q = Particle.fadeStartTime p /\
  Particle.fadeDuration q = Particle.fadeDuration p.

(** [q] has the role, the birth time, the lifespan and the count of
    secondary explosions of [p]. *)
Definition same_identity (p q : Particle.t) : Prop :=
  Particle.role q = Particle.role p /\
  Particle.timeCreated q = Particle.timeCreated p /\
  Particle.lifespan q = Particle.lifespan p /\
  Particle.secondaryCalls q = Particle.secondaryCalls p.

(** What the phases of [update] other than fading keep. *)
Definition kept (p q : Particle.t) : Prop :=
  same_fade p q /\ same_identity p q /\
  Particle.delay q = Particle.delay p /\
  Particle.alpha q = Particle.alpha p /\
  (complete p -> complete q).

(** [q] moves as [p]: same vectors, same fluid flag. *)
Definition same_motion (p q : Particle.t) : Prop :=
  Particle.pos q = Particle.pos p /\ Particle.vel q = Particle.vel p /\
  Particle.acc q = Particle.acc p /\ Particle.fluid q = Particle.fluid p.

(** In the earlier sketch: [b] has the lifecycle and the count of
    explosions of [a]. *)
Definition same_life (a b : Legacy.Firework.t) : Prop :=
  Legacy.Firework.lifecycle b = Legacy.Firework.lifecycle a /\
  Legacy.Firework.explodeCalls b = Legacy.Firework.explodeCalls a.

(** In the earlier sketch: a type for which the table of [explode] has
    something to call, a pattern of its own or a function every object
    inherits. *)
Definition legacy_callable (type : string) : Prop :=
  type ∈ Legacy.FIREWORK_TYPES \/ type ∈ Legacy.Object_prototype_functions.

(** A particle on which [update] stops at one of its guards from now on:
    a vector is missing, or it is a spent mini-shell. *)
Definition halted (p : Particle.t) : Prop := ~ complete p \/ spent p.

(** The invariant of a fading particle at the clock of its last frame:
    the fade has a positive duration and started from a non-negative
    opacity, and the opacity is either zero on a halted particle or at
    least what the fade gives at that clock. *)
Definition fading_at (millis : Q) (p : Particle.t) : Prop :=
  Particle.isFading p = true /\
  0 < Particle.fadeDuration p /\
  0 <= Particle.fadeStartAlpha p /\
  0 <= Particle.alpha p /\
  ((halted p /\ Particle.alpha p == 0) \/
   fade_value p millis <= Particle.alpha p).

(** A particle whose fade has just started: the flag is set, the fade
    has a positive duration and starts from the current opacity, which is
    not negative. *)
Definition fade_started (p : Particle.t) : Prop :=
  Particle.isFading p = true /\
  0 < Particle.fadeDuration p /\
  0 <= Particle.fadeStartAlpha p /\
  Particle.alpha p == Particle.fadeStartAlpha p.

(** A mini-shell that waits for its delay: complete, not fading, and no
    secondary explosion so far. *)
Definition waiting (p : Particle.t) : Prop :=
  Particle.role p = Role.MINI_SHELL /\ 0 < Particle.delay p /\
  complete p /\ Particle.isFading p = false /\
  Particle.secondaryCalls p = O.

(** A mini-shell after its secondary explosion. *)
Definition exploded (p : Particle.t) : Prop :=
  spent p /\ Particle.secondaryCalls p = 1%nat /\ Particle.alpha p == 0.

(** A firework as its constructor leaves it. *)
Definition ascending (this : Firework.t) : Prop :=
  Firework.lifecycle this = Lifecycle.ASCENT /\
  Firework.hasExploded this = false /\
  Firework.explodeCalls this = O.

(** A sequence of frames, each given by the clock and [deltaTime]. *)
Definition run (h : Host.t) (frames : list (Q * Q)) (s : Sketch.t)
    : Sketch.t :=
  foldl (fun s f => frame h (fst f) (snd f) s) s frames.

(** A sketch at rest: nothing flies and nothing is launched by itself. *)
Definition idle (s : Sketch.t) : Prop :=
  Sketch.fireworks s = [] /\ World.particles (Sketch.world s) = [] /\
  Config.autoLaunch (World.config (Sketch.world s)) = false.

(** [w'] is [w] with the particles [l] allocated and pushed, in this
    order, and nothing else of the simulation changed (the random
    generator may have advanced and the console grown). *)
Definition grows (w w' : World.t) (l : list Particle.t) : Prop :=
  World.heap w' = World.heap w ++ l /\
  World.particles w'
  = World.particles w ++ seq (length (World.heap w)) (length l) /\
  World.config w' = World.config w /\
  World.millis w' = World.millis w /\
  World.deltaTime w' = World.deltaTime w /\
  exists c, World.console w' = World.console w ++ c.

(** A computation that creates no particle. *)
Definition quiet {A} (m : M A) : Prop := forall w, grows w (snd (m w)) [].

(** A computation that only creates particles satisfying [P]. *)
Definition spawns {A} (P : Particle.t -> Prop) (m : M A) : Prop :=
  forall w, exists l, grows w (snd (m w)) l /\ Forall P l.

(** A computation that creates one particle satisfying [P] when the
    array is below the cap, and none otherwise. *)
Definition spawns_one {A} (P : Particle.t -> Prop) (m : M A) : Prop :=
  forall w,
    exists l,
      grows w (snd (m w)) l /\ Forall P l /\
      ((Qnat (length (World.particles w))
        < Config.maxTotalParticles (World.config w) /\ length l = 1%nat)
       \/ (Config.maxTotalParticles (World.config w)
           <= Qnat (length (World.particles w)) /\ l = [])).

(** A computation that creates exactly one particle, satisfying [P],
    whatever the cap. *)
Definition spawns_always {A} (P : Particle.t -> Prop) (m : M A) : Prop :=
  forall w, exists p, grows w (snd (m w)) [p] /\ P p.

(** The cap is a whole number. *)
Definition integral_cap (w : World.t) : Prop :=
  exists z : Z, Config.maxTotalParticles (World.config w) == inject_Z z.

(** A particle of a radial burst: at the position of the explosion, of
    the role of the pattern, with a velocity that is a direction of
    [fromAngle] times a magnitude between [lo] and [hi], plus the
    velocity inherited from the shell. *)
Definition radial (h : Host.t) (explosionPos inheritedVel : Vec.t)
    (role : Role.t) (lo hi : Q) (p : Particle.t) : Prop :=
  Particle.pos p = Some explosionPos /\ Particle.role p = role /\
  exists angle m,
    lo <= m <= hi /\
    Particle.vel p
    = Some (Vec.add (Vec.mult (Host.fromAngle h angle) m) inheritedVel).

(** The square of the speed of [v] relative to [u]. *)
Definition relative_speedSq (v u : Vec.t) : Q :=
  (Vec.x v - Vec.x u) * (Vec.x v - Vec.x u)
  + (Vec.y v - Vec.y u) * (Vec.y v - Vec.y u)
  + (Vec.z v - Vec.z u) * (Vec.z v - Vec.z u).

(** The pattern names [explode] has a case for. *)
Definition recognized (type : option string) : Prop :=
  exists t, type = Some t /\
    t ∈ ["PEONY"; "CHRYSANTHEMUM"; "PALM"; "WILLOW"; "STROBE"; "CRACKLING";
         "MULTI_BREAK"].

(** A particle as [createParticle] makes it: with the position, the
    velocity and the role it was asked for, and no subtype. *)
Definition made (pos vel : Vec.t) (role : Role.t) (p : Particle.t) : Prop :=
  Particle.pos p = Some pos /\ Particle.vel p = Some vel /\
  Particle.role p = role /\ Particle.subType p = None.

(** A mini-shell as the MULTI_BREAK branch makes it: of role MINI_SHELL,
    with a subtype, when it has one, among the six patterns left once
    RANDOM and MULTI_BREAK are filtered out; with the generator in range
    it has a subtype and waits for a positive delay. *)
Definition miniShell_made (h : Host.t) (p : Particle.t) : Prop :=
  Particle.role p = Role.MINI_SHELL /\
  (forall t, Particle.subType p = Some t ->
             t ∈ validSubTypes /\ t <> "RANDOM" /\ t <> "MULTI_BREAK") /\
  (Host.rand_in_range h ->
   is_Some (Particle.subType p) /\ waiting p /\
   0.4 <= Particle.delay p <= 0.9).

(** The roles a secondary explosion gives. *)
Definition secondary_role (p : Particle.t) : Prop :=
  Particle.role p = Role.EXPLOSION \/ Particle.role p = Role.STROBE
  \/ Particle.role p = Role.CRACKLE_SOURCE.

(** The global cap holds: [particles.length <= maxTotalParticles]. *)
Definition within_cap (w : World.t) : Prop :=
  Qnat (length (World.particles w))
  <= Config.maxTotalParticles (World.config w).

(** A computation that keeps the global cap: it only adds particles,
    none when the array has reached the cap, and a whole cap that held
    before holds after. *)
Definition keeps_cap {A} (m : M A) : Prop :=
  forall w,
    exists l,
      grows w (snd (m w)) l /\
      (Config.maxTotalParticles (World.config w)
       <= Qnat (length (World.particles w)) -> l = []) /\
      (integral_cap w -> within_cap w -> within_cap (snd (m w))).

(** The same for a method of the system, run on the sketch. *)
Definition system_keeps_cap (f : Sketch.t -> Sketch.t) : Prop :=
  forall s,
    let w := Sketch.world s in
    exists l,
      grows w (Sketch.world (f s)) l /\
      (Config.maxTotalParticles (World.config w)
       <= Qnat (length (World.particles w)) -> l = []) /\
      (integral_cap w -> within_cap w -> within_cap (Sketch.world (f s))).

(** There is room for [n] more particles under the cap. *)
Definition room_for (n : nat) (w : World.t) : Prop :=
  Qnat (length (World.particles w) + n)
  <= Config.maxTotalParticles (World.config w).

(** The step of [update] as the specification words it: velocity grows by
    acceleration times [dt], position by velocity times [dt]. *)
Definition euler_step_claimed (dt : Q) (pos vel acc : Vec.t)
    : Vec.t * Vec.t * Vec.t :=
  let vel' := Vec.add vel (Vec.mult acc dt) in
  (Vec.add pos (Vec.mult vel' dt), vel', Vec.zero).

(** * Concrete hosts and states *)

(** A unit vector with rational coordinates for every angle; it is the
    exact one at angle zero. *)
Definition unit_vector (a : Q) : Vec.t :=
  let t := a / 2 in
  Vec.mk ((1 - t * t) / (1 + t * t)) (2 * t / (1 + t * t)) 0.

(** The square root rounded down to three decimals. *)
Definition sqrt_approx (q : Q) : Q :=
  inject_Z (Z.sqrt (Qfloor (q * 1000000))) / 1000.

(** A 1000 by 800 canvas whose generator returns [rand]. *)
Definition host_of (rand : nat -> Q) : Host.t :=
  Host.mk 1000 800 6.283185 unit_vector sqrt_approx (fun _ _ => 0)
    (fun _ _ _ => 0) rand.
Definition host_zero : Host.t := host_of (fun _ => 0).
Definition host_half : Host.t := host_of (fun _ => 0.5).

(** A shell on which gravity has just been applied, and the world of a
    frame sixteen milliseconds after the previous one. *)
Definition shell_example : Particle.t :=
  Particle_applyForce (Vec.create 0 0.08)
    (fst (Particle_new host_zero (Vec.create 500 800) (Vec.create 0 (-20))
            (RGBA 255 255 0 200) 4 Role.SHELL Options.empty
            (initial_world Config.initial))).
Definition world_16ms : World.t :=
  World.set_deltaTime 16 (World.set_millis 16 (initial_world Config.initial)).

(** The earlier sketch with its smallest burst, and two of its fireworks:
    one launched by hand (type ["RANDOM"]) whose shell is about to stop
    rising, and one with a tag the table of patterns does not have. *)
Definition legacy_config : Legacy.Config.t :=
  Legacy.Config.mk 0.5 300 500 0.8 0.2 true true true 0.08 3 true "QUANTUM".
Definition legacy_at_apex : Legacy.Firework.t :=
  let this := fst (Legacy.Firework_new host_half (Vec.create 500 800)
                     "RANDOM" O) in
  Legacy.Firework.set_shell
    (Legacy.Particle.set_pos (Vec.create 500 300)
       (Legacy.Particle.set_vel (Vec.create 0 (-0.04))
          (Legacy.Firework.shell this))) this.
Definition legacy_willow : Legacy.Firework.t :=
  fst (Legacy.Firework_new host_half (Vec.create 500 800) "WILLOW" O).

(** An explosion particle of opacity 255 whose half-second fade has just
    started at the clock of [world_16ms], and three later frames. *)
Definition fading_example : Particle.t :=
  fst (Particle_setFading (-1)
         (fst (Particle_new host_zero (Vec.create 500 300) (Vec.create 3 4)
                 (Hex "#FF4E50") 3 Role.EXPLOSION
                 (Options.mk (Some 1) None None None None None None)
                 (initial_world Config.initial)))
         world_16ms).
Definition frame_at (millis : Q) : list Vec.t * World.t :=
  ([Vec.create 0 0.08],
   World.set_deltaTime 16
     (World.set_millis millis (initial_world Config.initial))).
Definition three_frames : list (list Vec.t * World.t) :=
  [frame_at 32; frame_at 266; frame_at 516].

(** A mini-shell as [explode] makes them, with a delay of 0.65 s, born at
    the clock of [world_16ms]. *)
Definition miniShell_example : Particle.t :=
  Particle.set_configRef (Some SystemConfig)
    (Particle.set_timeCreated 0.016
       (Particle.set_palette (Some ["#FFFFFF"; "#D3D3D3"])
          (Particle.set_subType (Some "STROBE")
             (Particle.set_delay 0.65
                (fst (Particle_new host_half (Vec.create 500 300)
                        (Vec.create 3 (-4)) (RGBA 255 220 150 200) 3
                        Role.MINI_SHELL Options.empty world_16ms)))))).

(** A sketch without wind and air drag, launching by hand, and the state
    after one manual launch at the clock zero. *)
Definition calm_config : Config.t :=
  Config.mk 0.5 400 1500 0 0.01 true true 35 0.08 0 false "CLASSIC" "PEONY"
    25 MAX_TOTAL_PARTICLES.
Definition calm_launch : Sketch.t :=
  FireworkSystem_manualLaunch host_zero (Some 500) (Some 300) 0
    (initial_sketch calm_config).

(** The firework of [calm_launch], and [n] frames sixteen milliseconds
    apart, the first at the clock 16. *)
Definition calm_firework : Firework.t :=
  hd (Firework.mk O None None Lifecycle.EXPLOSION 0 None true O)
     (Sketch.fireworks calm_launch).
Definition steady_frames (n : nat) : list (Q * Q) :=
  map (fun k => (Qnat (S k) * 16, 16)) (seq 0 n).

(** The scenario of the specification: a burst of 100 particles of size
    400, type PEONY, launched by hand towards x = 500 on the 1000 by 800
    canvas; no wind, no air drag, and the strongest gravity of the panel,
    so that the shell stops rising before it fades. *)
Definition brisk_config : Config.t :=
  Config.mk 0.5 400 100 0 0.01 true true 35 0.5 0 false "CLASSIC" "PEONY"
    25 MAX_TOTAL_PARTICLES.
Definition brisk_launch : Sketch.t :=
  FireworkSystem_manualLaunch host_zero (Some 500) (Some 300) 0
    (initial_sketch brisk_config).

(** The shell of [brisk_launch] after 46 frames, one frame before it
    stops rising, and its position. *)
Definition brisk_firework : Firework.t :=
  hd (Firework.mk O None None Lifecycle.EXPLOSION 0 None true O)
     (Sketch.fireworks brisk_launch).
Definition brisk_world : World.t :=
  Sketch.world (run host_zero (steady_frames 46) brisk_launch).
Definition brisk_shell : Particle.t :=
  nth O (World.heap brisk_world) shell_example.
Definition brisk_pos : Vec.t :=
  from_option id Vec.zero (Particle.pos brisk_shell).

(** The smallest global cap of the panel, 5000, with bursts of 5000
    particles, and two launches by hand before the first frame: one with
    the Launch Type control on MULTI_BREAK, then one with the control set
    to PEONY. *)
Definition crowded_config : Config.t :=
  Config.mk 0.5 400 5000 0 0.01 true true 35 0.5 0 false "CLASSIC"
    "MULTI_BREAK" 25 5000.
Definition select_fireworkType (type : string) (s : Sketch.t) : Sketch.t :=
  let w := Sketch.world s in
  let c := World.config w in
  Sketch.set_world
    (World.set_config
       (Config.mk (Config.launchFrequency c) (Config.explosionSize c)
          (Config.particleCount c) (Config.wind c) (Config.turbulence c)
          (Config.colorTransition c) (Config.bloomEffect c)
          (Config.bloomIntensity c) (Config.gravity c) (Config.airDrag c)
          (Config.autoLaunch c) (Config.particleType c) type
          (Config.backgroundOpacity c) (Config.maxTotalParticles c)) w) s.
Definition crowded_launch : Sketch.t :=
  FireworkSystem_manualLaunch host_half (Some 600) (Some 300) 0
    (select_fireworkType "PEONY"
       (FireworkSystem_manualLaunch host_half (Some 400) (Some 300) 0
          (initial_sketch crowded_config))).

(** The two fireworks of [crowded_launch], and the world after forty
    frames in which the PEONY one has then exploded: its burst has filled
    the array up to the cap. *)
Definition crowded_multi_break : Firework.t :=
  nth 0 (Sketch.fireworks crowded_launch)
    (Firework.mk O None None Lifecycle.EXPLOSION 0 None true O).
Definition crowded_peony : Firework.t :=
  nth 1 (Sketch.fireworks crowded_launch)
    (Firework.mk O None None Lifecycle.EXPLOSION 0 None true O).
Definition crowded_world : World.t :=
  snd (Firework_explode host_half crowded_peony
         (Sketch.world (run host_half (steady_frames 40) crowded_launch))).

(** * The panel and the pointer

    The handlers dat.GUI and p5 call between two frames, on the sketch
    [setup] has initialised. *)

Module Panel.
(** [controller.setValue(v)] on a field of [config]. *)
Definition set_autoLaunch (v : bool) (c : Config.t) : Config.t :=
  Config.mk (Config.launchFrequency c) (Config.explosionSize c)
    (Config.particleCount c) (Config.wind c) (Config.turbulence c)
    (Config.colorTransition c) (Config.bloomEffect c)
    (Config.bloomIntensity c) (Config.gravity c) (Config.airDrag c)
    v (Config.particleType c) (Config.fireworkType c)
    (Config.backgroundOpacity c) (Config.maxTotalParticles c).
Definition set_particleCount (v : Q) (c : Config.t) : Config.t :=
  Config.mk (Config.launchFrequency c) (Config.explosionSize c)
    v (Config.wind c) (Config.turbulence c)
    (Config.colorTransition c) (Config.bloomEffect c)
    (Config.bloomIntensity c) (Config.gravity c) (Config.airDrag c)
    (Config.autoLaunch c) (Config.particleType c) (Config.fireworkType c)
    (Config.backgroundOpacity c) (Config.maxTotalParticles c).
Definition set_gravity (v : Q) (c : Config.t) : Config.t :=
  Config.mk (Config.launchFrequency c) (Config.explosionSize c)
    (Config.particleCount c) (Config.wind c) (Config.turbulence c)
    (Config.colorTransition c) (Config.bloomEffect c)
    (Config.bloomIntensity c) v (Config.airDrag c)
    (Config.autoLaunch c) (Config.particleType c) (Config.fireworkType c)
    (Config.backgroundOpacity c) (Config.maxTotalParticles c).
Definition set_maxTotalParticles (v : Q) (c : Config.t) : Config.t :=
  Config.mk (Config.launchFrequency c) (Config.explosionSize c)
    (Config.particleCount c) (Config.wind c) (Config.turbulence c)
    (Config.colorTransition c) (Config.bloomEffect c)
    (Config.bloomIntensity c) (Config.gravity c) (Config.airDrag c)
    (Config.autoLaunch c) (Config.particleType c) (Config.fireworkType c)
    (Config.backgroundOpacity c) v.

Definition configure (f : Config.t -> Config.t) (s : Sketch.t) : Sketch.t :=
  let w := Sketch.world s in
  Sketch.set_world (World.set_config (f (World.config w)) w) s.
End Panel.

(** [resetLaunchTimer] *)
Definition FireworkSystem_resetLaunchTimer (s : Sketch.t) : Sketch.t :=
  if Config.autoLaunch (World.config (Sketch.world s))
  then Sketch.set_lastLaunch (World.millis (Sketch.world s)) s
  else s.

(** The Auto Launch control: the field is set, then [onChange] calls
    [resetLaunchTimer]. *)
Definition onChange_autoLaunch (v : bool) (s : Sketch.t) : Sketch.t :=
  FireworkSystem_resetLaunchTimer (Panel.configure (Panel.set_autoLaunch v) s).

(** The Particles/Burst control: [onChange] stores [floor(val)]. *)
Definition onChange_particleCount (val : Q) (s : Sketch.t) : Sketch.t :=
  Panel.configure (Panel.set_particleCount (inject_Z (Qfloor val)))
    (Panel.configure (Panel.set_particleCount val) s).

(** The Gravity control: [onChange] copies the value to the global
    [gravity] vector, when there is one. *)
Definition onChange_gravity (val : Q) (s : Sketch.t) : Sketch.t :=
  let s := Panel.configure (Panel.set_gravity val) s in
  match Sketch.gravity s with
  | Some g => Sketch.set_gravity (Some (Vec.mk (Vec.x g) val (Vec.z g))) s
  | None => s
  end.

(** The Max Particles control: [onChange] stores [floor(val)]. *)
Definition onChange_maxTotalParticles (val : Q) (s : Sketch.t) : Sketch.t :=
  Panel.configure (Panel.set_maxTotalParticles (inject_Z (Qfloor val)))
    (Panel.configure (Panel.set_maxTotalParticles val) s).

(** [getBoundingClientRect()] of the panel. *)
Record Rect := { left : Q; right : Q; top : Q; bottom : Q }.

(** [mousePressed] with the pointer at [(mouseX, mouseY)]; [guis] are the
    rectangles of the elements of class ['dg']. *)
Definition mousePressed (h : Host.t) (mouseX mouseY : Q) (guis : list Rect)
    (s : Sketch.t) : Sketch.t :=
  if negb (Config.autoLaunch (World.config (Sketch.world s))) then
    if Qltb 0 mouseX && Qltb mouseX (Host.width h)
       && Qltb 0 mouseY && Qltb mouseY (Host.height h)
    then
      let isOverGUI :=
        match guis with
        | rect :: _ =>
            Qleb (left rect) mouseX && Qleb mouseX (right rect)
            && Qleb (top rect) mouseY && Qleb mouseY (bottom rect)
        | [] => false
        end in
      if negb isOverGUI
      then FireworkSystem_manualLaunch h (Some mouseX) (Some mouseY) mouseX s
      else s
    else s
  else s.

(** * Vocabulary of the further properties *)

(** The type [launch] works with: its [typeOverride] when it is a
    non-empty string, the Launch Type of the panel otherwise. *)
Definition requested_type (typeOverride : option string) (config : Config.t)
    : string :=
  match typeOverride with
  | Some t => if String.eqb t "" then Config.fireworkType config else t
  | None => Config.fireworkType config
  end.

(** [f] is the vector [v] scaled by [s]. *)
Definition scaled (f v : Vec.t) (s : Q) : Prop :=
  Vec.x f == Vec.x v * s /\ Vec.y f == Vec.y v * s /\ Vec.z f == Vec.z v * s.

(** [q] has the trail and the trail bound of [p]. *)
Definition same_trail (p q : Particle.t) : Prop :=
  Particle.trail q = Particle.trail p /\
  Particle.maxTrailLength q = Particle.maxTrailLength p.

(** [q] has the strobe state of [p]. *)
Definition same_strobe (p q : Particle.t) : Prop :=
  Particle.strobeOn q = Particle.strobeOn p /\
  Particle.lastStrobe q = Particle.lastStrobe p /\
  Particle.strobeRate q = Particle.strobeRate p.

(** A crackle as [spawnCrackle] makes it on a source at [pos] moving at
    [vel]: short-lived, fast to fade, of the style of its source. *)
Definition spark_of (h : Host.t) (source : Particle.t) (pos vel : Vec.t)
    (c : Particle.t) : Prop :=
  Particle.role c = Role.CRACKLE /\
  Particle.pos c = Some pos /\
  (exists dir m,
     3 <= m <= 6 /\
     Particle.vel c = Some (Vec.add (Vec.mult vel 0.2) (Vec.mult dir m))) /\
  Particle.particleStyle c = Particle.particleStyle source /\
  Particle.configRef c = Particle.configRef source /\
  0.05 <= Particle.lifespan c <= 0.15 /\
  Particle.fadeRate c = 8.0 /\
  1 <= Particle.size c <= 2.5 /\
  Particle.isFading c = false.

(** [q] has the crackle parameters, the style and the configuration
    reference of [p]. *)
Definition same_source (p q : Particle.t) : Prop :=
  Particle.crackleRate q = Particle.crackleRate p /\
  Particle.particleStyle q = Particle.particleStyle p /\
  Particle.configRef q = Particle.configRef p.

(** The bound [update] compares the array with before it lets a source
    crackle. *)
Definition crackle_limit (p : Particle.t) (w : World.t) : Q :=
  match Particle.configRef p with
  | Some SystemConfig =>
      orQ (Config.maxTotalParticles (World.config w)) MAX_TOTAL_PARTICLES
  | None => MAX_TOTAL_PARTICLES
  end.

(** A strobe particle flashing ten times a second, a crackle source, and
    the world 150 milliseconds after their creation. *)
Definition strobe_example : Particle.t :=
  fst (Particle_new host_zero (Vec.create 500 300) (Vec.create 10 0)
         (Gray 255) 2 Role.STROBE
         (Options.mk (Some 2) (Some 10) None None None None None)
         (initial_world Config.initial)).
Definition source_example : Particle.t :=
  Particle.set_configRef (Some SystemConfig)
    (fst (Particle_new host_half (Vec.create 500 300) (Vec.create 10 0)
            (Hex "#FF4E50") 2.5 Role.CRACKLE_SOURCE
            (Options.mk (Some 1) None (Some 8) None None None None)
            (initial_world Config.initial))).
Definition world_150ms : World.t :=
  World.set_deltaTime 16 (World.set_millis 150 (initial_world Config.initial)).

(** A particle that is not a mini-shell on its way to its end at the
    clock [millis]: it has its three vectors and either has not started
    to fade, or fades since some time not after the clock, for at most
    five seconds. *)
Definition aging (millis : Q) (q : Particle.t) : Prop :=
  complete q /\ Particle.role q <> Role.MINI_SHELL /\
  ((Particle.isFading q = false /\ 0 <= Particle.alpha q) \/
   (fading_at millis q /\ Particle.fadeDuration q <= 5 /\
    Particle.fadeStartTime q <= millis / 1000)).

(** The state of a particle after a sequence of frames. *)
Definition Particle_after (h : Host.t) (frames : list (list Vec.t * World.t))
    (this : Particle.t) : Particle.t :=
  List.last (Particle_trace h frames this) this.

(** A particle as [createParticle] makes it from its arguments: the
    vectors, the size and the role it was given, the configuration, the
    rates of the options (zero when absent; one for the fade rate) and
    their lifespan when it is not zero; not fading, with the opacity of
    its colour. *)
Definition created (pos vel : Vec.t) (col : Color) (size : Q) (role : Role.t)
    (options : Options.t) (p : Particle.t) : Prop :=
  Particle.pos p = Some pos /\ Particle.vel p = Some vel /\
  Particle.acc p = Some (Vec.create 0 0) /\
  Particle.size p = size /\ Particle.role p = role /\
  Particle.configRef p = Some SystemConfig /\
  Particle.strobeRate p = from_option id 0 (Options.strobeRate options) /\
  Particle.crackleRate p = from_option id 0 (Options.crackleRate options) /\
  Particle.fadeRate p = orQ (from_option id 0 (Options.fadeRate options)) 1 /\
  (forall v, Options.lifespan options = Some v -> ~ v == 0 ->
             Particle.lifespan p = v) /\
  Particle.isFading p = false /\ Particle.fluid p = false /\
  Particle.alpha p
  = levels3 (match col with Undefined => white | c => c end).

(** A particle of a burst around [explosionPos]: its velocity is a
    direction of [fromAngle] times a magnitude between [lo] and [hi],
    plus the inherited velocity, and it satisfies [P]. *)
Definition burst_particle (h : Host.t) (explosionPos inheritedVel : Vec.t)
    (lo hi : Q) (P : Particle.t -> Prop) (p : Particle.t) : Prop :=
  Particle.pos p = Some explosionPos /\
  (exists angle m,
     lo <= m <= hi /\
     Particle.vel p
     = Some (Vec.add (Vec.mult (Host.fromAngle h angle) m) inheritedVel)) /\
  P p.

(** A computation that creates at most [n] particles, all satisfying
    [P], and exactly [n] when the cap leaves room for them. *)
Definition spawns_upto {A} (P : Particle.t -> Prop) (n : nat) (m : M A)
    : Prop :=
  forall w,
    exists l,
      grows w (snd (m w)) l /\ Forall P l /\
      (length l <= n)%nat /\ (room_for n w -> length l = n).

(** A particle of a branch of a palm: at the position of the explosion,
    of role EXPLOSION, size within 3 and 4.5 and lifespan within 1.5 and
    2.5 seconds; its velocity is the velocity of one of [branches]
    branches (number [i], its angle off the even spacing by 0.15 at most,
    its force within 1.2 and 1.6 times the base force) plus a direction
    times 0.35 of the base force, plus the inherited velocity. *)
Definition palm_particle (h : Host.t) (explosionPos inheritedVel : Vec.t)
    (baseForce : Q) (branches : nat) (p : Particle.t) : Prop :=
  Particle.pos p = Some explosionPos /\
  Particle.role p = Role.EXPLOSION /\
  3 <= Particle.size p <= 4.5 /\
  1.5 <= Particle.lifespan p <= 2.5 /\
  exists (i : nat) r f dir,
    (i < branches)%nat /\ -0.15 <= r <= 0.15 /\ 1.2 <= f <= 1.6 /\
    Particle.vel p
    = Some (Vec.add
              (Vec.add
                 (Vec.mult
                    (Host.fromAngle h
                       ((Qnat i / Qnat branches) * Host.TWO_PI h + r))
                    (baseForce * f))
                 (Vec.mult dir (baseForce * 0.35)))
              inheritedVel).

(** The parameters of a secondary explosion: the number of turns of its
    peony loop, its base force and the velocity it inherits from the
    mini-shell. *)
Definition secondary_numParticles (config : Config.t) : Q :=
  inject_Z (Qfloor (min (orQ (Config.particleCount config) 1000 * 0.4)
                        MAX_PARTICLES_PER_FIREWORK)).
Definition secondary_baseForce (config : Config.t) : Q :=
  orQ (Config.explosionSize config) 400 / 18.0.
Definition secondary_inheritedVel (p : Particle.t) : Vec.t :=
  Vec.mult (from_option id (Vec.create 0 0) (Particle.vel p)) 0.3.

(** The pointer is strictly inside the canvas. *)
Definition on_canvas (h : Host.t) (mouseX mouseY : Q) : Prop :=
  0 < mouseX < Host.width h /\ 0 < mouseY < Host.height h.

(** The pointer is over the first element of class ['dg'], borders
    included. *)
Definition over_panel (mouseX mouseY : Q) (guis : list Rect) : Prop :=
  match guis with
  | rect :: _ =>
      left rect <= mouseX <= right rect /\ top rect <= mouseY <= bottom rect
  | [] => False
  end.

(** The sketch after [setup], switched to launching by hand, and a panel
    in the upper right corner of the 1000 by 800 canvas. *)
Definition manual_sketch : Sketch.t :=
  onChange_autoLaunch false (initial_sketch Config.initial).
Definition panel_example : list Rect :=
  [{| left := 755; right := 1000; top := 0; bottom := 400 |}].

(** * The system of the earlier sketch

    [class FireworkSystem] of [fireworks.js] at the top of the tree, and
    its [draw].  The state is the global [fireworks] array, the time of
    the last launch and what the synthesiser was asked to play.  A type
    that is [undefined] is kept as the string "undefined", the key every
    lookup by type turns it into. *)

Module LegacySystem.
Record t := mk {
    fireworks : list Legacy.Firework.t;
    lastLaunch : Q;
    notes : list (option Q)
}.
Definition set_fireworks (v : list Legacy.Firework.t) (r : t) : t :=
    mk v (lastLaunch r) (notes r).
Definition set_lastLaunch (v : Q) (r : t) : t :=
    mk (fireworks r) v (notes r).
Definition set_notes (v : list (option Q)) (r : t) : t :=
    mk (fireworks r) (lastLaunch r) v.

(** After the constructor. *)
Definition initial : t := mk [] 0 [].

Section Simulation.
Variable h : Host.t.
Variable config : Legacy.Config.t.
Variable deltaTime : Q.
(** The clock, the global [gravity] vector and the pointer. *)
Variable millis : Q.
Variable gravity : Vec.t.
Variable mouseX : Q.

(** [freqMap[type]], with the value drawn for its RANDOM entry: a
    frequency, or [None] for anything that is not a number. *)
Definition freqMap (r : Q) (type : string) : option Q :=
  if String.eqb type "PEONY" then Some 440
  else if String.eqb type "CHRYSANTHEMUM" then Some 660
  else if String.eqb type "PALM" then Some 220
  else if String.eqb type "RANDOM" then Some r
  else None.

Definition playSound (type : string) (this : t) : Legacy.L t :=
  r <- Legacy.random h 200 800 ;;
  ret (set_notes (notes this ++ [freqMap r type]) this).

Definition launch (pos : Vec.t) (type : string) (this : t) : Legacy.L t :=
  fw <- Legacy.Firework_new h pos type ;;
  let this := set_fireworks (fireworks this ++ [fw]) this in
  if Legacy.Config.sound config then playSound type this else ret this.

Definition launchRandom (this : t) : Legacy.L t :=
  i <- Legacy.random1 h (Qnat (length Legacy.FIREWORK_TYPES)) ;;
  let type :=
    if Qltb i 0 then "undefined"
    else from_option id "undefined"
           (Legacy.FIREWORK_TYPES !! Z.to_nat (Qfloor i)) in
  x <- Legacy.random h (Host.width h * 0.2) (Host.width h * 0.8) ;;
  let pos := Vec.create x (Host.height h) in
  launch pos type this.

Definition manualLaunch (this : t) : Legacy.L t :=
  launch (Vec.create mouseX (Host.height h)) "RANDOM" this.

Definition applyForces (this : t) : t :=
  set_fireworks
    (map (fun f =>
            Legacy.Firework.set_particles
              (map (fun p =>
                      let p :=
                        Legacy.Particle_applyForce
                          (Vec.create (Vec.x gravity) (Vec.y gravity)) p in
                      Legacy.Particle_applyForce
                        (Vec.create
                           (Host.noise2D h
                              (Vec.x (Legacy.Particle.pos p) * 0.01)
                              (Vec.y (Legacy.Particle.pos p) * 0.01)
                            * Legacy.Config.wind config) 0) p)
                 (Legacy.Firework.particles f)) f)
       (fireworks this)) this.

Definition cleanup (this : t) : t :=
  set_fireworks
    (List.filter (fun f => negb (Legacy.Firework_done f)) (fireworks this))
    this.

(** [update]; at a launch frequency of zero the period is infinite and
    the comparison fails. *)
Definition update (this : t) : Legacy.L t :=
  let this := cleanup (applyForces this) in
  if Legacy.Config.autoLaunch config
     && negb (Qeqb (Legacy.Config.launchFrequency config) 0)
     && Qltb (1000 / Legacy.Config.launchFrequency config)
             (millis - lastLaunch this)
  then
    this <- launchRandom this ;;
    ret (set_lastLaunch millis this)
  else ret this.

(** [fireworks.forEach(f => { f.update(); f.display(); })]: the fireworks
    before the one at work are in [done]; a call that raises leaves the
    rest as they were. *)
Fixpoint update_each (done rest : list Legacy.Firework.t) (c : nat)
    : Legacy.Completion (list Legacy.Firework.t * nat) :=
  match rest with
  | [] => Legacy.Normal (done, c)
  | f :: rest' =>
      match Legacy.Firework_update h config deltaTime f c with
      | Legacy.Normal (f', c') => update_each (done ++ [f']) rest' c'
      | Legacy.Thrown e (f', c') => Legacy.Thrown e (done ++ f' :: rest', c')
      | Legacy.Loops => Legacy.Loops
      end
  end.

(** [draw] *)
Definition draw (this : t) (c : nat) : Legacy.Completion (t * nat) :=
  let (this, c) := update this c in
  match update_each [] (fireworks this) c with
  | Legacy.Normal (fws, c) => Legacy.Normal (set_fireworks fws this, c)
  | Legacy.Thrown e (fws, c) => Legacy.Thrown e (set_fireworks fws this, c)
  | Legacy.Loops => Legacy.Loops
  end.

(** [mousePressed] *)
Definition mousePressed (this : t) : Legacy.L t :=
  if negb (Legacy.Config.autoLaunch config) then manualLaunch this
  else ret this.
End Simulation.
End LegacySystem.

(** [n] calls of the [update] of a particle of the earlier sketch. *)
Fixpoint Legacy_updates (h : Host.t) (deltaTime : Q) (n : nat)
    (p : Legacy.Particle.t) : Legacy.L Legacy.Particle.t :=
  match n with
  | O => ret p
  | S n' => p <- Legacy.Particle_update h deltaTime p ;;
            Legacy_updates h deltaTime n' p
  end.

(** In the earlier sketch: [q] is [p] faded by [n] updates of [deltaTime]
    milliseconds, with the trail they leave; nothing else of its look
    changed. *)
Definition legacy_aged (deltaTime : Q) (n : nat) (p q : Legacy.Particle.t)
    : Prop :=
  Legacy.Particle.alpha q
  == Legacy.Particle.alpha p - Qnat n * (deltaTime * 0.5) /\
  Legacy.Particle.fluid q = Legacy.Particle.fluid p /\
  Legacy.Particle.size q = Legacy.Particle.size p /\
  Legacy.Particle.col q = Legacy.Particle.col p /\
  ((length (Legacy.Particle.trail p) <= 10)%nat ->
   length (Legacy.Particle.trail q)
   = Nat.min (length (Legacy.Particle.trail p) + n) 10).

(** A particle as the [createParticle] of the earlier sketch makes it for
    the firework [this]: at the position of the shell, at rest in
    acceleration, opaque, without trail, fluid exactly under the FLUID
    particle type. *)
Definition legacy_created (config : Legacy.Config.t) (this : Legacy.Firework.t)
    (p : Legacy.Particle.t) : Prop :=
  Legacy.Particle.pos p = Legacy.Particle.pos (Legacy.Firework.shell this) /\
  Legacy.Particle.acc p = Vec.create 0 0 /\
  Legacy.Particle.alpha p = 255 /\
  Legacy.Particle.trail p = [] /\
  Legacy.Particle.fluid p
  = String.eqb (Legacy.Config.particleType config) "FLUID".

(** A firework as the constructor of the earlier sketch leaves it at
    [pos]: ascending without particles, its shell there, opaque, of size
    4 and moving straight up. *)
Definition legacy_launched (pos : Vec.t) (f : Legacy.Firework.t) : Prop :=
  Legacy.Firework.lifecycle f = Lifecycle.ASCENT /\
  Legacy.Firework.particles f = [] /\
  Legacy.Firework.explodeCalls f = O /\
  Legacy.Firework.pos f = pos /\
  Legacy.Particle.pos (Legacy.Firework.shell f) = pos /\
  Legacy.Particle.vel (Legacy.Firework.shell f) = Legacy.Firework.vel f /\
  Vec.x (Legacy.Firework.vel f) = 0 /\
  Legacy.Particle.alpha (Legacy.Firework.shell f) = 255 /\
  Legacy.Particle.size (Legacy.Firework.shell f) = 4.

(** The firework [legacy_at_apex] after the frame in which it explodes,
    sixteen milliseconds long. *)
Definition legacy_burst : Legacy.Firework.t :=
  match Legacy.Firework_update host_half legacy_config 16 legacy_at_apex O with
  | Legacy.Normal (f, _) => f
  | _ => legacy_at_apex
  end.

(** * The sketch between events *)

(** What p5 and dat.GUI call on the sketch: a frame, a press of the
    mouse, the Launch Now! button (it calls [manualLaunch] without
    arguments), the four controls that have a handler, and any other
    change of the configuration record. *)
Inductive Event :=
| Frame (millis deltaTime : Q)
| Press (mouseX mouseY : Q) (guis : list Rect)
| LaunchNow (mouseX : Q)
| SetAutoLaunch (v : bool)
| SetParticleCount (val : Q)
| SetGravity (val : Q)
| SetMaxTotalParticles (val : Q)
| SetConfig (f : Config.t -> Config.t).

(** The two loops of [draw], after the system's [update]. *)
Definition draw_loops (h : Host.t) (s : Sketch.t) : Sketch.t :=
  let w := Sketch.world s in
  let w :=
    downfrom (length (World.particles w))
      (draw_particle h (Sketch.gravity s)) w in
  let s := Sketch.set_world w s in
  downfrom (length (Sketch.fireworks s)) (draw_firework h) s.

(** A frame.  At a launch frequency of zero the period
    [1000 / launchFrequency] is infinite in JavaScript and the system's
    [update] launches nothing, where the division of the rationals gives
    zero: the frame is then the two loops alone. *)
Definition handle (h : Host.t) (e : Event) (s : Sketch.t) : Sketch.t :=
  match e with
  | Frame millis deltaTime =>
      if Qeqb (Config.launchFrequency (World.config (Sketch.world s))) 0
      then draw_loops h
             (Sketch.set_world
                (World.set_deltaTime deltaTime
                   (World.set_millis millis (Sketch.world s))) s)
      else frame h millis deltaTime s
  | Press mouseX mouseY guis => mousePressed h mouseX mouseY guis s
  | LaunchNow mouseX => FireworkSystem_manualLaunch h None None mouseX s
  | SetAutoLaunch v => onChange_autoLaunch v s
  | SetParticleCount val => onChange_particleCount val s
  | SetGravity val => onChange_gravity val s
  | SetMaxTotalParticles val => onChange_maxTotalParticles val s
  | SetConfig f => Panel.configure f s
  end.

Definition play (h : Host.t) (events : list Event) (s : Sketch.t)
    : Sketch.t :=
  foldl (fun s e => handle h e s) s events.

(** A colour whose alpha level the model has: not a string, or the
    string of a hexadecimal colour without alpha, [#] and six digits. *)
Definition is_hex_digit (a : Ascii.ascii) : bool :=
  let n := Ascii.nat_of_ascii a in
  ((48 <=? n) && (n <=? 57) || (65 <=? n) && (n <=? 70)
   || (97 <=? n) && (n <=? 102))%nat.
Definition hex6 (s : string) : bool :=
  match s with
  | String c digits =>
      (Ascii.nat_of_ascii c =? 35)%nat
      && (String.length digits =? 6)%nat
      && forallb is_hex_digit (list_ascii_of_string digits)
  | EmptyString => false
  end.
Definition plain (col : Color) : Prop :=
  match col with Hex s => hex6 s = true | _ => True end.

(** A colour with a positive alpha level, as the constructor of a
    particle reads it. *)
Definition opaque (col : Color) : Prop :=
  0 < levels3 (match col with Undefined => white | c => c end).

(** A particle that is visible and has no fluid behaviour. *)
Definition newborn (p : Particle.t) : Prop :=
  0 < Particle.alpha p /\ Particle.fluid p = false.

(** The [particles] array holds each particle once, and only particles
    that exist. *)
Definition listed_once (w : World.t) : Prop :=
  NoDup (World.particles w) /\
  Forall (fun id => (id < length (World.heap w))%nat) (World.particles w).

(** The particle behind a reference is not done. *)
Definition alive_at (w : World.t) (id : nat) : Prop :=
  exists p, World.heap w !! id = Some p /\ Particle_isDone p = false.

(** The invariant of the sketch between two events: the array holds each
    of its particles once, none of them is done, and no particle ever
    created has fluid behaviour. *)
Definition swept (w : World.t) : Prop :=
  listed_once w /\ Forall (alive_at w) (World.particles w) /\
  Forall (fun p => Particle.fluid p = false) (World.heap w).

(** The same in the middle of the particle loop of [draw], which runs
    from the end of the array: the references from index [k] on have been
    seen. *)
Definition swept_from (k : nat) (w : World.t) : Prop :=
  listed_once w /\ Forall (alive_at w) (drop k (World.particles w)) /\
  Forall (fun p => Particle.fluid p = false) (World.heap w).

(** The invariant of the whole sketch between two events: the world is
    swept and [fireworks] holds only fireworks as their constructor left
    them. *)
Definition housekept (s : Sketch.t) : Prop :=
  swept (Sketch.world s) /\ Forall ascending (Sketch.fireworks s).

(** An event that leaves the cap and the Launch Type of the panel as
    they are. *)
Definition keeps_limits (e : Event) : Prop :=
  match e with
  | SetMaxTotalParticles _ | SetConfig _ => False
  | _ => True
  end.

(** The cap is whole and holds, the Launch Type is a pattern other than
    MULTI_BREAK, and so is the type of every firework in flight. *)
Definition capped (s : Sketch.t) : Prop :=
  let w := Sketch.world s in
  integral_cap w /\ within_cap w /\
  Config.fireworkType (World.config w) <> "RANDOM" /\
  Config.fireworkType (World.config w) <> "MULTI_BREAK" /\
  Forall (fun fw => Firework.type fw <> Some "MULTI_BREAK")
    (Sketch.fireworks s).

(** * Properties *)

(** ** Comparisons and enumerations *)

Lemma Qleb_le a b : Qleb a b = true <-> a <= b.
Proof. apply Qle_bool_iff. Qed.

Lemma Qleb_gt a b : Qleb a b = false <-> b < a.
Proof.
  unfold Qleb. split; intros H.
  - apply Qnot_le_lt. intros Hle. apply Qle_bool_iff in Hle. congruence.
  - destruct (Qle_bool a b) eqn:E; [|reflexivity].
    apply Qle_bool_iff in E. lra.
Qed.

Lemma Qltb_lt a b : Qltb a b = true <-> a < b.
Proof. unfold Qltb. rewrite negb_true_iff. apply (Qleb_gt b a). Qed.

Lemma Qltb_ge a b : Qltb a b = false <-> b <= a.
Proof. unfold Qltb. rewrite negb_false_iff. apply (Qleb_le b a). Qed.

Lemma Qeqb_eq a b : Qeqb a b = true <-> a == b.
Proof. apply Qeq_bool_iff. Qed.

Lemma lifecycle_eqb_eq a b : Lifecycle.eqb a b = true <-> a = b.
Proof. destruct a, b; simpl; split; congruence. Qed.

Lemma role_eqb_eq a b : Role.eqb a b = true <-> a = b.
Proof. destruct a, b; simpl; split; congruence. Qed.

Lemma max_spec a b : (a <= b /\ max a b = b) \/ (b < a /\ max a b = a).
Proof.
  unfold max. destruct (Qleb a b) eqn:E.
  - left. split; [now apply Qleb_le|reflexivity].
  - right. split; [now apply Qleb_gt|reflexivity].
Qed.

Lemma min_spec a b : (a <= b /\ min a b = a) \/ (b < a /\ min a b = b).
Proof.
  unfold min. destruct (Qleb a b) eqn:E.
  - left. split; [now apply Qleb_le|reflexivity].
  - right. split; [now apply Qleb_gt|reflexivity].
Qed.

Lemma mult_zero acc : Vec.mult acc 0 = Vec.zero.
Proof.
  unfold Vec.mult, Vec.zero.
  f_equal; apply (Qred_complete _ 0); ring.
Qed.

(** ** One [update] of a particle: what the later phases leave alone *)

Lemma update_trail_motion this : same_motion this (update_trail this).
Proof. unfold same_motion, update_trail. repeat case_match; simpl; auto. Qed.

Lemma update_fading_motion t a this w :
  same_motion this (fst (update_fading t a this w)).
Proof.
  unfold same_motion, update_fading, Particle_setFading, bind, ret, now.
  repeat case_match; simpl; auto.
Qed.

Lemma update_strobe_motion t this : same_motion this (update_strobe t this).
Proof. unfold same_motion, update_strobe. repeat case_match; simpl; auto. Qed.

Lemma update_crackle_motion h t this w :
  same_motion this (fst (update_crackle h t this w)).
Proof.
  unfold same_motion, update_crackle, bind, ret, get.
  repeat case_match; simpl; auto.
Qed.

Lemma same_motion_trans p q r :
  same_motion p q -> same_motion q r -> same_motion p r.
Proof. unfold same_motion. intuition congruence. Qed.

Lemma update_fluid_off h this :
  Particle.fluid this = false -> update_fluid h this = this.
Proof. unfold update_fluid. intros ->. rewrite andb_false_r. reflexivity. Qed.

Lemma update_body_physics h t a pos vel acc this w :
  Particle.fluid this = false ->
  let this' := fst (update_body h t a pos vel acc this w) in
  let dt := fst (frame_dt w) in
  Particle.vel this' = Some (Vec.add vel acc) /\
  Particle.pos this' = Some (Vec.add pos (Vec.mult (Vec.add vel acc) dt)) /\
  Particle.acc this' = Some (Vec.mult acc 0).
Proof.
  intros Hf. cbv zeta. unfold update_body, bind.
  destruct (frame_dt w) as [dt w1] eqn:Edt.
  assert (Hw1 : w1 = w) by (unfold frame_dt in Edt; congruence). subst w1.
  set (p0 := update_physics dt pos vel acc this).
  pose proof (update_trail_motion p0) as H1.
  pose proof (update_fading_motion t a (update_trail p0) w) as H2.
  destruct (update_fading t a (update_trail p0) w) as [p2 w2]. simpl in H2.
  pose proof (update_strobe_motion t p2) as H3.
  pose proof (update_crackle_motion h t (update_strobe t p2) w2) as H4.
  destruct (update_crackle h t (update_strobe t p2) w2) as [p4 w4].
  simpl in H4. simpl fst.
  pose proof (same_motion_trans _ _ _ H1
                (same_motion_trans _ _ _ H2
                   (same_motion_trans _ _ _ H3 H4))) as (Hp & Hv & Ha & Hfl).
  rewrite update_fluid_off by (rewrite Hfl; exact Hf).
  rewrite Hp, Hv, Ha. simpl. auto.
Qed.

(** Past the guards, [update] is its body. *)
Lemma update_runs_body h this w pos vel acc :
  Particle.pos this = Some pos -> Particle.vel this = Some vel ->
  Particle.acc this = Some acc ->
  awaits_secondary this w ->
  Particle_update h this w =
  update_body h (World.millis w / 1000) (age this w) pos vel acc this w.
Proof.
  intros Hp Hv Ha Hm.
  unfold Particle_update. rewrite Hp, Hv, Ha.
  unfold bind at 1. unfold now at 1.
  destruct (Role.eqb (Particle.role this) Role.MINI_SHELL) eqn:Er;
    [|reflexivity].
  apply role_eqb_eq in Er. destruct (Hm Er) as [Hd Hage].
  unfold age in Hage.
  assert (E1 : Qltb 0 (Particle.delay this) = true) by (apply Qltb_lt; lra).
  assert (E2 : Qleb (Particle.delay this)
                 (World.millis w / 1000 - Particle.timeCreated this) = false)
    by (apply Qleb_gt; lra).
  assert (E3 : Qleb (Particle.delay this) 0 = false) by (apply Qleb_gt; lra).
  rewrite E1, E2, E3. reflexivity.
Qed.

(** The constructor never enables the fluid behaviour: it tests the style
    it has just set to ["CLASSIC"]. *)
Lemma Particle_new_not_fluid h pos vel col size role options w :
  Particle.fluid (fst (Particle_new h pos vel col size role options w)) = false.
Proof.
  unfold Particle_new, bind, ret, now, random, random01.
  repeat case_match; simpl in *; try reflexivity; try discriminate.
Qed.

(** C5, as the code has it: [update] adds the acceleration to the velocity
    as it is (not scaled by the time step), moves the position by the new
    velocity times the time step, and resets the acceleration to zero;
    this for a particle that has its three vectors, is not a mini-shell
    whose delay has elapsed and has no fluid behaviour.  In the earlier
    sketch the position moves by the new velocity itself. *)
Theorem update_physics_step h this w pos vel acc :
  Particle.pos this = Some pos -> Particle.vel this = Some vel ->
  Particle.acc this = Some acc ->
  awaits_secondary this w ->
  Particle.fluid this = false ->
  let this' := fst (Particle_update h this w) in
  let dt := fst (frame_dt w) in
  (Particle.vel this' = Some (Vec.add vel acc) /\
   Particle.pos this' = Some (Vec.add pos (Vec.mult (Vec.add vel acc) dt)) /\
   Particle.acc this' = Some Vec.zero) /\
  (forall deltaTime (old : Legacy.Particle.t) c,
     Legacy.Particle.fluid old = false ->
     let new := fst (Legacy.Particle_update h deltaTime old c) in
     let vel' := Vec.add (Legacy.Particle.vel old) (Legacy.Particle.acc old) in
     Legacy.Particle.vel new = vel' /\
     Legacy.Particle.pos new = Vec.add (Legacy.Particle.pos old) vel' /\
     Legacy.Particle.acc new = Vec.zero).
Proof.
  intros Hp Hv Ha Hm Hf. cbv zeta. split.
  - rewrite (update_runs_body h this w pos vel acc Hp Hv Ha Hm).
    pose proof (update_body_physics h (World.millis w / 1000) (age this w)
                  pos vel acc this w Hf) as H.
    cbv zeta in H. destruct H as (H1 & H2 & H3).
    rewrite mult_zero in H3. auto.
  - intros deltaTime old c Hfl.
    unfold Legacy.Particle_update, bind, ret. rewrite Hfl. simpl.
    rewrite mult_zero. auto.
Qed.

Lemma update_physics_step_witness :
  Particle.vel (fst (Particle_update host_zero shell_example world_16ms))
  = Some (Vec.add (Vec.create 0 (-20)) (Vec.add (Vec.create 0 0) (Vec.create 0 0.08))).
Proof.
  refine (proj1 (proj1 (update_physics_step host_zero shell_example world_16ms
            (Vec.create 500 800) (Vec.create 0 (-20))
            (Vec.add (Vec.create 0 0) (Vec.create 0 0.08)) _ _ _ _ _))).
  - reflexivity.
  - reflexivity.
  - reflexivity.
  - intros H. discriminate H.
  - reflexivity.
Defined.

(** C5, as stated, fails: on a rising shell to which gravity has been
    applied, the velocity after [update] is the velocity plus the
    acceleration, not plus the acceleration times the time step. *)
Lemma update_is_not_the_claimed_step :
  Particle.pos shell_example = Some (Vec.create 500 800) /\
  Particle.vel shell_example = Some (Vec.create 0 (-20)) /\
  Particle.acc shell_example
  = Some (Vec.add (Vec.create 0 0) (Vec.create 0 0.08)) /\
  fst (frame_dt world_16ms) == 0.016 /\
  forall v,
    Particle.vel (fst (Particle_update host_zero shell_example world_16ms))
    = Some v ->
    ~ Vec.eqv v
        (snd (fst (euler_step_claimed (fst (frame_dt world_16ms))
                     (Vec.create 500 800) (Vec.create 0 (-20))
                     (Vec.add (Vec.create 0 0) (Vec.create 0 0.08))))).
Proof.
  repeat split; try reflexivity.
  intros v Hv. vm_compute in Hv. injection Hv as <-.
  intros (_ & Hy & _). vm_compute in Hy. discriminate Hy.
Qed.

(** ** The lifecycle of a firework *)

Lemma explode_counts h this w :
  Firework.explodeCalls (fst (Firework_explode h this w))
  = S (Firework.explodeCalls this).
Proof.
  unfold Firework_explode, explode_no_shell, bind, ret, get, modify, log.
  repeat case_match; simpl; reflexivity.
Qed.

(** An exploded firework is left as it is by [update]. *)
Lemma update_exploded h this w :
  Firework.lifecycle this = Lifecycle.EXPLOSION ->
  Firework_update h this w = (this, w).
Proof.
  intros H.
  unfold Firework_update, update_ascent, update_lost_shell, bind, ret, get.
  rewrite H. simpl. rewrite H. reflexivity.
Qed.

Lemma update_lost_shell_cases this w :
  let this' := fst (update_lost_shell this w) in
  Firework.explodeCalls this' = Firework.explodeCalls this /\
  (this' = this \/
   (Firework.lifecycle this = Lifecycle.ASCENT /\
    (Firework.shell this ∉ World.particles w) /\
    Firework.lifecycle this' = Lifecycle.EXPLOSION)).
Proof.
  unfold update_lost_shell, bind, ret, get, log, modify.
  destruct (Lifecycle.eqb _ _) eqn:El; simpl; [|auto].
  destruct (bool_decide _) eqn:Eb; simpl; [auto|].
  split; [reflexivity|]. right. apply lifecycle_eqb_eq in El.
  apply bool_decide_eq_false in Eb. auto.
Qed.

(** The first statement of [update] calls [explode] exactly when the
    firework is ascending, unexploded and at its apex. *)
Lemma update_ascent_cases h this w :
  (Firework.lifecycle this = Lifecycle.ASCENT /\
   at_apex this w = Some true /\ Firework.hasExploded this = false /\
   Firework.lifecycle (fst (update_ascent h this w)) = Lifecycle.EXPLOSION /\
   Firework.explodeCalls (fst (update_ascent h this w))
   = S (Firework.explodeCalls this)) \/
  (~ (Firework.lifecycle this = Lifecycle.ASCENT /\
      at_apex this w = Some true /\ Firework.hasExploded this = false) /\
   update_ascent h this w = (this, w)).
Proof.
  unfold update_ascent, bind, ret, get.
  destruct (Firework.lifecycle this) eqn:El; simpl;
    [|right; split; [intros (? & _); discriminate|reflexivity]].
  destruct (at_apex this w) as [[|]|] eqn:Ea;
    try (right; split; [intros (_ & ? & _); discriminate|reflexivity]).
  destruct (Firework.hasExploded this) eqn:Eh; simpl;
    [right; split; [intros (_ & _ & ?); discriminate|reflexivity]|].
  left. pose proof (explode_counts h this w) as He.
  destruct (Firework_explode h this w) as [this1 w1]. simpl in He.
  destruct (on_particle _ _ w1) as [u w2]. simpl. auto.
Qed.

(** From the state the constructor leaves, one [update] either keeps the
    firework ascending and unexploded or retires it after at most one
    call of [explode]. *)
Lemma update_ascending h this w :
  Firework.lifecycle this = Lifecycle.ASCENT ->
  Firework.explodeCalls this = O ->
  let this' := fst (Firework_update h this w) in
  (Firework.lifecycle this' = Lifecycle.ASCENT /\
   Firework.explodeCalls this' = O) \/
  (Firework.lifecycle this' = Lifecycle.EXPLOSION /\
   (Firework.explodeCalls this' <= 1)%nat).
Proof.
  intros Hl Hc. cbv zeta. unfold Firework_update, bind.
  destruct (update_ascent_cases h this w)
    as [(_ & _ & _ & Hl1 & Hc1)|[_ E]].
  - destruct (update_ascent h this w) as [this1 w1]. simpl in Hl1, Hc1.
    destruct (update_lost_shell_cases this1 w1) as [Hc2 [E2|(Hl2 & _)]].
    + rewrite E2. right. split; [exact Hl1|]. rewrite Hc1, Hc. lia.
    + congruence.
  - rewrite E.
    destruct (update_lost_shell_cases this w) as [Hc2 [E2|(_ & _ & Hl2)]].
    + rewrite E2. left. auto.
    + right. split; [exact Hl2|]. rewrite Hc2, Hc. lia.
Qed.

Lemma trace_exploded h ws this :
  Firework.lifecycle this = Lifecycle.EXPLOSION ->
  Firework_trace h ws this = replicate (length ws) this.
Proof.
  intros H. induction ws as [|w ws IH]; simpl; [reflexivity|].
  rewrite (update_exploded h this w H). simpl. rewrite IH. reflexivity.
Qed.

Lemma trace_shape h ws this :
  Firework.lifecycle this = Lifecycle.ASCENT ->
  Firework.explodeCalls this = O ->
  Forall (fun f => (Firework.explodeCalls f <= 1)%nat) (Firework_trace h ws this) /\
  exists k,
    (k <= length ws)%nat /\
    map Firework.lifecycle (Firework_trace h ws this)
    = replicate k Lifecycle.ASCENT
      ++ replicate (length ws - k) Lifecycle.EXPLOSION.
Proof.
  revert this. induction ws as [|w ws IH]; intros this Hl Hc; simpl.
  - split; [constructor|]. exists O. split; [lia|reflexivity].
  - destruct (update_ascending h this w Hl Hc) as [[Hl' Hc']|[Hl' Hc']].
    + destruct (IH _ Hl' Hc') as [HF (k & Hk & Hm)]. split.
      * constructor; [rewrite Hc'; lia|exact HF].
      * exists (S k). split; [lia|]. simpl. rewrite Hl', Hm. reflexivity.
    + rewrite (trace_exploded h ws _ Hl'). split.
      * constructor; [exact Hc'|]. apply Forall_replicate. exact Hc'.
      * exists O. split; [lia|]. simpl. rewrite Hl'.
        rewrite fmap_replicate, Hl'. reflexivity.
Qed.

Lemma Particle_new_fields h pos vel col size role options w :
  let p := fst (Particle_new h pos vel col size role options w) in
  Particle.pos p = Some pos /\ Particle.vel p = Some vel /\
  Particle.role p = role /\ Particle.isFading p = false.
Proof.
  unfold Particle_new, bind, ret, now, random, random01.
  repeat case_match; simpl in *; try discriminate; auto.
Qed.

Lemma Firework_new_fresh h pos vel type config w :
  let this := fst (Firework_new h pos vel type config w) in
  Firework.lifecycle this = Lifecycle.ASCENT /\
  Firework.explodeCalls this = O /\
  Firework.hasExploded this = false.
Proof.
  unfold Firework_new, bind, ret, push.
  repeat case_match; simpl; auto.
Qed.

(** *** The earlier sketch *)

Lemma legacy_createParticle_life h cfg force this c :
  same_life this (fst (Legacy.Firework_createParticle h cfg force this c)).
Proof.
  unfold same_life, Legacy.Firework_createParticle, bind, ret.
  repeat case_match; simpl; auto.
Qed.

Lemma legacy_times_life n body this c :
  (forall this c, same_life this (fst (body this c))) ->
  same_life this (fst (Legacy.times n body this c)).
Proof.
  intros Hb. revert this c. induction n as [|n IH]; intros this c; simpl.
  - split; reflexivity.
  - unfold bind. pose proof (Hb this c) as H1.
    destruct (body this c) as [this1 c1]. simpl in H1.
    pose proof (IH this1 c1) as H2. unfold same_life in *.
    intuition congruence.
Qed.

Lemma legacy_peony_loop_life h cfg fuel step a this c :
  same_life this (fst (Legacy.peony_loop h cfg fuel step a this c)).
Proof.
  revert a this c. induction fuel as [|fuel IH]; intros a this c; simpl.
  - split; reflexivity.
  - destruct (Qltb a (Host.TWO_PI h)); [|split; reflexivity].
    unfold bind. destruct (Legacy.random h _ _ c) as [m c1].
    pose proof (legacy_createParticle_life h cfg
                  (Vec.mult (Host.fromAngle h a) m) this c1) as H1.
    destruct (Legacy.Firework_createParticle h cfg _ this c1) as [this1 c2].
    simpl in H1. pose proof (IH (a + step) this1 c2) as H2.
    unfold same_life in *. intuition congruence.
Qed.

Ltac legacy_body :=
  let this := fresh "this" in
  let c := fresh "c" in
  intros this c; unfold bind;
  repeat match goal with
         | |- context [let (_, _) := ?m in _] => destruct m
         end;
  apply legacy_createParticle_life.

Lemma legacy_createPeony_life h cfg this c f :
  Legacy.state_of (Legacy.Firework_createPeony h cfg this c) = Some f ->
  same_life this f.
Proof.
  unfold Legacy.Firework_createPeony.
  destruct (Qleb (Host.TWO_PI h) 0);
    [simpl; intros [= <-]; split; reflexivity|].
  destruct (Qeqb (Legacy.Config.particleCount cfg) 0).
  - pose proof (legacy_peony_loop_life h cfg 1 0 0 this c) as H.
    destruct (Legacy.peony_loop h cfg 1 0 0 this c) as [f' c'].
    simpl. intros [= <-]. exact H.
  - destruct (Qltb (Legacy.Config.particleCount cfg) 0);
      [simpl; discriminate|].
    match goal with
    | |- context [Legacy.peony_loop ?h ?cfg ?n ?s ?a ?t ?c] =>
        pose proof (legacy_peony_loop_life h cfg n s a t c) as H;
        destruct (Legacy.peony_loop h cfg n s a t c) as [f' c']
    end.
    simpl. intros [= <-]. exact H.
Qed.

Lemma legacy_total_life (m : Legacy.Firework.t -> Legacy.L Legacy.Firework.t)
    this c f :
  (forall this c, same_life this (fst (m this c))) ->
  Legacy.state_of (Legacy.total m this c) = Some f -> same_life this f.
Proof.
  intros Hm. unfold Legacy.total. pose proof (Hm this c) as H.
  destruct (m this c) as [f' c']. simpl. intros [= <-]. exact H.
Qed.

Lemma legacy_chrysanthemum_life h cfg this c :
  same_life this (fst (Legacy.Firework_createChrysanthemum h cfg this c)).
Proof.
  unfold Legacy.Firework_createChrysanthemum.
  apply legacy_times_life. legacy_body.
Qed.

Lemma legacy_palm_life h cfg this c :
  same_life this (fst (Legacy.Firework_createPalm h cfg this c)).
Proof.
  unfold Legacy.Firework_createPalm, bind.
  destruct (Legacy.random h _ _ c).
  apply legacy_times_life. legacy_body.
Qed.

Lemma legacy_random_life h cfg this c :
  same_life this (fst (Legacy.Firework_createRandom h cfg this c)).
Proof.
  unfold Legacy.Firework_createRandom.
  apply legacy_times_life. legacy_body.
Qed.

(** [explode] counts one call; when it ends, it has left the lifecycle as
    it was. *)
Lemma legacy_explode_life h cfg this c f :
  Legacy.state_of (Legacy.Firework_explode h cfg this c) = Some f ->
  Legacy.Firework.lifecycle f = Legacy.Firework.lifecycle this /\
  Legacy.Firework.explodeCalls f = S (Legacy.Firework.explodeCalls this).
Proof.
  unfold Legacy.Firework_explode.
  set (this1 := Legacy.Firework.set_explodeCalls _ this).
  assert (Hs : forall r, same_life this1 r ->
               Legacy.Firework.lifecycle r = Legacy.Firework.lifecycle this /\
               Legacy.Firework.explodeCalls r
               = S (Legacy.Firework.explodeCalls this))
    by (unfold same_life; simpl; intuition congruence).
  unfold Legacy.explosionPatterns.
  destruct (String.eqb (Legacy.Firework.type this1) "PEONY");
    [intros H; apply Hs; eapply legacy_createPeony_life; exact H|].
  destruct (String.eqb (Legacy.Firework.type this1) "CHRYSANTHEMUM");
    [intros H; apply Hs; eapply legacy_total_life;
     [apply legacy_chrysanthemum_life|exact H]|].
  destruct (String.eqb (Legacy.Firework.type this1) "PALM");
    [intros H; apply Hs; eapply legacy_total_life;
     [apply legacy_palm_life|exact H]|].
  destruct (String.eqb (Legacy.Firework.type this1) "RANDOM");
    [intros H; apply Hs; eapply legacy_total_life;
     [apply legacy_random_life|exact H]|].
  destruct (bool_decide _); simpl; intros [= <-]; apply Hs; split; reflexivity.
Qed.

Lemma legacy_update_cases h cfg dT this c :
  match Legacy.Firework_update h cfg dT this c with
  | Legacy.Normal (f, _) =>
      (Legacy.Firework.lifecycle f = Legacy.Firework.lifecycle this /\
       Legacy.Firework.explodeCalls f = Legacy.Firework.explodeCalls this) \/
      (Legacy.Firework.lifecycle this = Lifecycle.ASCENT /\
       Legacy.Firework.lifecycle f = Lifecycle.EXPLOSION /\
       Legacy.Firework.explodeCalls f = S (Legacy.Firework.explodeCalls this))
  | Legacy.Thrown _ (f, _) =>
      Legacy.Firework.lifecycle this = Lifecycle.ASCENT /\
      Legacy.Firework.explodeCalls f = S (Legacy.Firework.explodeCalls this)
  | Legacy.Loops => Legacy.Firework.lifecycle this = Lifecycle.ASCENT
  end.
Proof.
  unfold Legacy.Firework_update.
  destruct (Legacy.Firework.lifecycle this) eqn:El; simpl Lifecycle.eqb;
    cbv iota.
  - destruct (Legacy.Particle_update h dT _ c) as [shell c1].
    set (this1 := Legacy.Firework.set_shell shell this).
    destruct (Qleb 0 (Vec.y (Legacy.Particle.vel shell))).
    + pose proof (legacy_explode_life h cfg this1 c1) as He.
      destruct (Legacy.Firework_explode h cfg this1 c1)
        as [[f c2]|e [f c2]|]; simpl in He.
      * destruct (He f eq_refl) as [H1 H2].
        destruct (Legacy.update_particles h cfg dT _ c2) as [ps c3].
        simpl. right. auto.
      * destruct (He f eq_refl) as [H1 H2]. auto.
      * reflexivity.
    + destruct (Legacy.update_particles h cfg dT _ c1) as [ps c3].
      simpl. left. auto.
  - destruct (Legacy.update_particles h cfg dT _ c) as [ps c3].
    simpl. left. auto.
Qed.

(** [update] keeps the type. *)
Lemma legacy_createParticle_type h cfg force this c :
  Legacy.Firework.type (fst (Legacy.Firework_createParticle h cfg force this c))
  = Legacy.Firework.type this.
Proof.
  unfold Legacy.Firework_createParticle, bind, ret.
  repeat case_match; simpl; auto.
Qed.

Lemma legacy_update_type h cfg dT this c f :
  Legacy.state_of (Legacy.Firework_update h cfg dT this c) = Some f ->
  Legacy.Firework.type f = Legacy.Firework.type this.
Proof.
  assert (Ht : forall n body this c,
            (forall this c,
               Legacy.Firework.type (fst (body this c))
               = Legacy.Firework.type this) ->
            Legacy.Firework.type (fst (Legacy.times n body this c))
            = Legacy.Firework.type this).
  { induction n as [|n IH]; intros body t0 c0 Hb; simpl; [reflexivity|].
    unfold bind. pose proof (Hb t0 c0) as H1.
    destruct (body t0 c0) as [t1 c1]. simpl in H1.
    rewrite (IH body t1 c1 Hb). exact H1. }
  assert (Hp : forall fuel step a this c,
            Legacy.Firework.type
              (fst (Legacy.peony_loop h cfg fuel step a this c))
            = Legacy.Firework.type this).
  { induction fuel as [|fuel IH]; intros step a t0 c0; simpl; [reflexivity|].
    destruct (Qltb a (Host.TWO_PI h)); [|reflexivity].
    unfold bind. destruct (Legacy.random h _ _ c0) as [m c1].
    pose proof (legacy_createParticle_type h cfg
                  (Vec.mult (Host.fromAngle h a) m) t0 c1) as H1.
    destruct (Legacy.Firework_createParticle h cfg _ t0 c1) as [t1 c2].
    simpl in H1. rewrite IH. exact H1. }
  assert (Hb : forall (m : Legacy.Firework.t -> Legacy.L Legacy.Firework.t)
                      this c g,
            (forall this c,
               Legacy.Firework.type (fst (m this c))
               = Legacy.Firework.type this) ->
            Legacy.state_of (Legacy.total m this c) = Some g ->
            Legacy.Firework.type g = Legacy.Firework.type this).
  { intros m t0 c0 g Hm. unfold Legacy.total. pose proof (Hm t0 c0) as H1.
    destruct (m t0 c0) as [g' c']. simpl. intros [= <-]. exact H1. }
  assert (He : forall this c g,
            Legacy.state_of (Legacy.Firework_explode h cfg this c) = Some g ->
            Legacy.Firework.type g = Legacy.Firework.type this).
  { intros t0 c0 g. unfold Legacy.Firework_explode.
    set (t1 := Legacy.Firework.set_explodeCalls _ t0).
    change (Legacy.Firework.type t0) with (Legacy.Firework.type t1).
    unfold Legacy.explosionPatterns.
    destruct (String.eqb (Legacy.Firework.type t1) "PEONY").
    { unfold Legacy.Firework_createPeony.
      destruct (Qleb (Host.TWO_PI h) 0); [simpl; intros [= <-]; reflexivity|].
      destruct (Qeqb (Legacy.Config.particleCount cfg) 0).
      - pose proof (Hp 1%nat 0 0 t1 c0) as H1.
        destruct (Legacy.peony_loop h cfg 1 0 0 t1 c0) as [g' c'].
        simpl. intros [= <-]. exact H1.
      - destruct (Qltb (Legacy.Config.particleCount cfg) 0);
          [simpl; discriminate|].
        match goal with
        | |- context [Legacy.peony_loop h cfg ?n ?s ?a t1 c0] =>
            pose proof (Hp n s a t1 c0) as H1;
            destruct (Legacy.peony_loop h cfg n s a t1 c0) as [g' c']
        end.
        simpl. intros [= <-]. exact H1. }
    destruct (String.eqb (Legacy.Firework.type t1) "CHRYSANTHEMUM").
    { apply Hb. intros t2 c2. unfold Legacy.Firework_createChrysanthemum.
      apply Ht. intros t3 c3. unfold bind.
      repeat match goal with
             | |- context [let (_, _) := ?m in _] =>
                 lazymatch m with
                 | Legacy.Firework_createParticle _ _ _ _ _ => fail
                 | _ => destruct m
                 end
             end.
      apply legacy_createParticle_type. }
    destruct (String.eqb (Legacy.Firework.type t1) "PALM").
    { apply Hb. intros t2 c2. unfold Legacy.Firework_createPalm, bind.
      destruct (Legacy.random h _ _ c2).
      apply Ht. intros t3 c3. unfold bind.
      repeat match goal with
             | |- context [let (_, _) := ?m in _] =>
                 lazymatch m with
                 | Legacy.Firework_createParticle _ _ _ _ _ => fail
                 | _ => destruct m
                 end
             end.
      apply legacy_createParticle_type. }
    destruct (String.eqb (Legacy.Firework.type t1) "RANDOM").
    { apply Hb. intros t2 c2. unfold Legacy.Firework_createRandom.
      apply Ht. intros t3 c3. unfold bind.
      repeat match goal with
             | |- context [let (_, _) := ?m in _] =>
                 lazymatch m with
                 | Legacy.Firework_createParticle _ _ _ _ _ => fail
                 | _ => destruct m
                 end
             end.
      apply legacy_createParticle_type. }
    destruct (bool_decide _); simpl; intros [= <-]; reflexivity. }
  unfold Legacy.Firework_update.
  destruct (Lifecycle.eqb (Legacy.Firework.lifecycle this) Lifecycle.ASCENT).
  - destruct (Legacy.Particle_update h dT _ c) as [shell c1].
    set (this1 := Legacy.Firework.set_shell shell this).
    destruct (Qleb 0 (Vec.y (Legacy.Particle.vel shell))).
    + pose proof (He this1 c1) as H1.
      destruct (Legacy.Firework_explode h cfg this1 c1)
        as [[g c2]|e [g c2]|]; simpl in *.
      * destruct (Legacy.update_particles h cfg dT _ c2) as [ps c3].
        simpl. intros [= <-]. simpl. apply (H1 g eq_refl).
      * intros [= <-]. apply (H1 g eq_refl).
      * discriminate.
    + destruct (Legacy.update_particles h cfg dT _ c1) as [ps c3].
      simpl. intros [= <-]. reflexivity.
  - destruct (Legacy.update_particles h cfg dT _ c) as [ps c3].
    simpl. intros [= <-]. reflexivity.
Qed.

(** What [explode] finds in its table. *)
Lemma legacy_callable_pattern h cfg type :
  legacy_callable type <->
  Legacy.explosionPatterns h cfg type <> Legacy.NotCallable.
Proof.
  unfold legacy_callable, Legacy.explosionPatterns, Legacy.FIREWORK_TYPES.
  destruct (String.eqb type "PEONY") eqn:E1;
    [apply String.eqb_eq in E1; subst; split;
       [discriminate|intros _; left; rewrite !elem_of_cons; auto]|].
  destruct (String.eqb type "CHRYSANTHEMUM") eqn:E2;
    [apply String.eqb_eq in E2; subst; split;
       [discriminate|intros _; left; rewrite !elem_of_cons; auto]|].
  destruct (String.eqb type "PALM") eqn:E3;
    [apply String.eqb_eq in E3; subst; split;
       [discriminate|intros _; left; rewrite !elem_of_cons; auto]|].
  destruct (String.eqb type "RANDOM") eqn:E4;
    [apply String.eqb_eq in E4; subst; split;
       [discriminate|intros _; left; rewrite !elem_of_cons; auto]|].
  apply String.eqb_neq in E1, E2, E3, E4.
  destruct (bool_decide (type ∈ Legacy.Object_prototype_functions)) eqn:E5.
  - apply bool_decide_eq_true in E5. split; [discriminate|auto].
  - apply bool_decide_eq_false in E5. split; [|congruence].
    intros [H|H]; [|contradiction].
    rewrite !elem_of_cons in H.
    destruct H as [H|[H|[H|[H|H]]]]; try contradiction.
    apply elem_of_nil in H. contradiction.
Qed.

(** [explode] raises only on a type the table has nothing to call
    for. *)
Lemma legacy_explode_thrown h cfg this c e a :
  Legacy.Firework_explode h cfg this c = Legacy.Thrown e a ->
  ~ legacy_callable (Legacy.Firework.type this).
Proof.
  intros E Hc. apply (legacy_callable_pattern h cfg) in Hc. apply Hc.
  revert E. unfold Legacy.Firework_explode.
  set (this1 := Legacy.Firework.set_explodeCalls _ this).
  change (Legacy.Firework.type this) with (Legacy.Firework.type this1).
  unfold Legacy.explosionPatterns.
  destruct (String.eqb (Legacy.Firework.type this1) "PEONY").
  { unfold Legacy.Firework_createPeony.
    repeat match goal with
           | |- context [if ?b then _ else _] => destruct b
           end; discriminate. }
  destruct (String.eqb (Legacy.Firework.type this1) "CHRYSANTHEMUM");
    [discriminate|].
  destruct (String.eqb (Legacy.Firework.type this1) "PALM");
    [discriminate|].
  destruct (String.eqb (Legacy.Firework.type this1) "RANDOM");
    [discriminate|].
  destruct (bool_decide _); [discriminate|reflexivity].
Qed.

(** On a type the table has nothing to call for, [explode] raises. *)
Lemma legacy_explode_raises h cfg this c :
  ~ legacy_callable (Legacy.Firework.type this) ->
  Legacy.Firework_explode h cfg this c
  = Legacy.Thrown "TypeError"
      (Legacy.Firework.set_explodeCalls
         (S (Legacy.Firework.explodeCalls this)) this, c).
Proof.
  intros Hc. unfold Legacy.Firework_explode.
  set (this1 := Legacy.Firework.set_explodeCalls _ this).
  destruct (Legacy.explosionPatterns h cfg (Legacy.Firework.type this1))
    eqn:E; [| |reflexivity]; exfalso; apply Hc;
    apply (legacy_callable_pattern h cfg);
    change (Legacy.Firework.type this) with (Legacy.Firework.type this1);
    rewrite E; discriminate.
Qed.

Lemma legacy_update_thrown h cfg dT this c e a :
  Legacy.Firework_update h cfg dT this c = Legacy.Thrown e a ->
  ~ legacy_callable (Legacy.Firework.type this).
Proof.
  unfold Legacy.Firework_update.
  destruct (Lifecycle.eqb (Legacy.Firework.lifecycle this) Lifecycle.ASCENT).
  - destruct (Legacy.Particle_update h dT _ c) as [shell c1].
    set (this1 := Legacy.Firework.set_shell shell this).
    destruct (Qleb 0 (Vec.y (Legacy.Particle.vel shell))).
    + destruct (Legacy.Firework_explode h cfg this1 c1)
        as [[g c2]|e' [g c2]|] eqn:Ee.
      * destruct (Legacy.update_particles h cfg dT _ c2). discriminate.
      * intros _. apply (legacy_explode_thrown h cfg this1 c1 e' _ Ee).
      * discriminate.
    + destruct (Legacy.update_particles h cfg dT _ c1). discriminate.
  - destruct (Legacy.update_particles h cfg dT _ c). discriminate.
Qed.

(** On a type the table has nothing to call for the lifecycle never
    leaves ASCENT: [update] returns without a call of [explode], or it
    raises in [explode], before the lifecycle is set. *)
Lemma legacy_update_stuck h cfg dT this c :
  ~ legacy_callable (Legacy.Firework.type this) ->
  Legacy.Firework.lifecycle this = Lifecycle.ASCENT ->
  exists f c',
    (Legacy.Firework_update h cfg dT this c = Legacy.Normal (f, c') /\
     Legacy.Firework.explodeCalls f = Legacy.Firework.explodeCalls this \/
     Legacy.Firework_update h cfg dT this c
     = Legacy.Thrown "TypeError" (f, c') /\
     Legacy.Firework.explodeCalls f
     = S (Legacy.Firework.explodeCalls this)) /\
    Legacy.Firework.lifecycle f = Lifecycle.ASCENT /\
    Legacy.Firework.type f = Legacy.Firework.type this.
Proof.
  intros Hc Hl. unfold Legacy.Firework_update. rewrite Hl.
  simpl Lifecycle.eqb. cbv iota.
  destruct (Legacy.Particle_update h dT _ c) as [shell c1].
  set (this1 := Legacy.Firework.set_shell shell this).
  destruct (Qleb 0 (Vec.y (Legacy.Particle.vel shell))).
  - rewrite (legacy_explode_raises h cfg this1 c1 Hc).
    eexists _, _. split; [right; split; reflexivity|].
    split; [exact Hl|reflexivity].
  - destruct (Legacy.update_particles h cfg dT _ c1) as [ps c3].
    eexists _, _. split; [left; split; reflexivity|].
    split; [exact Hl|reflexivity].
Qed.

Lemma legacy_updates_exploded h cfg dT n this c :
  Legacy.Firework.lifecycle this = Lifecycle.EXPLOSION ->
  exists f c',
    Legacy.updates h cfg dT n this c = Legacy.Normal (f, c') /\
    Legacy.Firework.lifecycle f = Lifecycle.EXPLOSION /\
    Legacy.Firework.explodeCalls f = Legacy.Firework.explodeCalls this.
Proof.
  revert this c. induction n as [|n IH]; intros this c Hl; simpl.
  - eauto.
  - pose proof (legacy_update_cases h cfg dT this c) as H.
    destruct (Legacy.Firework_update h cfg dT this c)
      as [[f c1]|e [f c1]|].
    + destruct H as [[H1 H2]|(H1 & _)]; [|congruence].
      destruct (IH f c1 ltac:(congruence)) as (f' & c' & E & H3 & H4).
      exists f', c'. repeat split; auto; congruence.
    + destruct H; congruence.
    + congruence.
Qed.

(** A run on a callable type: no call raises, and the firework is
    ascending with no explosion or exploded with one. *)
Lemma legacy_updates_once h cfg dT n this c :
  legacy_callable (Legacy.Firework.type this) ->
  Legacy.Firework.lifecycle this = Lifecycle.ASCENT ->
  Legacy.Firework.explodeCalls this = O ->
  match Legacy.state_of (Legacy.updates h cfg dT n this c) with
  | Some f =>
      Legacy.Firework.lifecycle f = Lifecycle.ASCENT /\
      Legacy.Firework.explodeCalls f = O \/
      Legacy.Firework.lifecycle f = Lifecycle.EXPLOSION /\
      Legacy.Firework.explodeCalls f = 1%nat
  | None => True
  end.
Proof.
  revert this c. induction n as [|n IH]; intros this c Ht Hl Hc; simpl.
  - left. auto.
  - pose proof (legacy_update_cases h cfg dT this c) as H.
    pose proof (legacy_update_type h cfg dT this c) as Hty.
    pose proof (legacy_update_thrown h cfg dT this c) as Hth.
    destruct (Legacy.Firework_update h cfg dT this c)
      as [[f c1]|e [f c1]|]; simpl.
    + specialize (Hty f eq_refl).
      destruct H as [[H1 H2]|(_ & H1 & H2)].
      * apply IH; congruence.
      * destruct (legacy_updates_exploded h cfg dT n f c1 H1)
          as (f' & c' & E & H3 & H4).
        rewrite E. simpl. right. split; [exact H3|]. congruence.
    + exfalso. apply (Hth e (f, c1) eq_refl), Ht.
    + exact I.
Qed.

(** A run on a type the table has nothing to call for: every call ends,
    and the firework is still ascending. *)
Lemma legacy_updates_stuck h cfg dT n this c :
  ~ legacy_callable (Legacy.Firework.type this) ->
  Legacy.Firework.lifecycle this = Lifecycle.ASCENT ->
  exists f c',
    Legacy.updates h cfg dT n this c = Legacy.Normal (f, c') /\
    Legacy.Firework.lifecycle f = Lifecycle.ASCENT.
Proof.
  revert this c. induction n as [|n IH]; intros this c Ht Hl; simpl.
  - eauto.
  - destruct (legacy_update_stuck h cfg dT this c Ht Hl)
      as (f & c1 & [[E _]|[E _]] & Hl1 & Hty); rewrite E;
      apply IH; congruence.
Qed.

Lemma legacy_new_fresh h pos type c :
  let this := fst (Legacy.Firework_new h pos type c) in
  Legacy.Firework.lifecycle this = Lifecycle.ASCENT /\
  Legacy.Firework.explodeCalls this = O /\
  Legacy.Firework.type this = type.
Proof.
  unfold Legacy.Firework_new, bind, ret.
  repeat match goal with
         | |- context [let (_, _) := ?m in _] => destruct m
         end.
  simpl. auto.
Qed.

(** C3: along every sequence of [update] calls on a firework built by the
    constructor, whatever the world of each call, the lifecycle reads
    ASCENT for some calls and EXPLOSION for all the later ones, and
    [explode] has been called at most once.  In the earlier sketch a call
    of [update] can raise, and the next call finds the state it left.
    There the same holds for a type the table of [explode] has something
    to call for, as long as the calls return: the firework is ascending
    and [explode] has not been called, or it has exploded and [explode]
    has been called once; and an exploded firework stays exploded, no
    later call raises or calls [explode].  For any other type the
    firework is still ascending after every run of calls. *)
Theorem lifecycle_explodes_once h :
  (forall pos vel type config w0 ws,
     let this := fst (Firework_new h pos vel type config w0) in
     let trace := Firework_trace h ws this in
     Forall (fun f => (Firework.explodeCalls f <= 1)%nat) trace /\
     exists k,
       (k <= length ws)%nat /\
       map Firework.lifecycle trace
       = replicate k Lifecycle.ASCENT
         ++ replicate (length ws - k) Lifecycle.EXPLOSION) /\
  (forall cfg deltaTime pos type c0 n c,
     legacy_callable type ->
     let this := fst (Legacy.Firework_new h pos type c0) in
     match Legacy.state_of (Legacy.updates h cfg deltaTime n this c) with
     | Some f =>
         Legacy.Firework.lifecycle f = Lifecycle.ASCENT /\
         Legacy.Firework.explodeCalls f = O \/
         Legacy.Firework.lifecycle f = Lifecycle.EXPLOSION /\
         Legacy.Firework.explodeCalls f = 1%nat
     | None => True
     end) /\
  (forall cfg deltaTime this c n,
     Legacy.Firework.lifecycle this = Lifecycle.EXPLOSION ->
     exists f c',
       Legacy.updates h cfg deltaTime n this c = Legacy.Normal (f, c') /\
       Legacy.Firework.lifecycle f = Lifecycle.EXPLOSION /\
       Legacy.Firework.explodeCalls f = Legacy.Firework.explodeCalls this) /\
  (forall cfg deltaTime pos type c0 n c,
     ~ legacy_callable type ->
     let this := fst (Legacy.Firework_new h pos type c0) in
     exists f c',
       Legacy.updates h cfg deltaTime n this c = Legacy.Normal (f, c') /\
       Legacy.Firework.lifecycle f = Lifecycle.ASCENT).
Proof.
  split; [|split; [|split]].
  - intros pos vel type config w0 ws. cbv zeta.
    destruct (Firework_new_fresh h pos vel type config w0) as (Hl & Hc & _).
    apply trace_shape; assumption.
  - intros cfg dT pos type c0 n c Ht. cbv zeta.
    destruct (legacy_new_fresh h pos type c0) as (Hl & Hc & Hty).
    apply legacy_updates_once; [rewrite Hty; exact Ht|assumption..].
  - intros cfg dT this c n Hl. apply legacy_updates_exploded. exact Hl.
  - intros cfg dT pos type c0 n c Ht. cbv zeta.
    destruct (legacy_new_fresh h pos type c0) as (Hl & Hc & Hty).
    apply legacy_updates_stuck; [rewrite Hty; exact Ht|exact Hl].
Qed.

Lemma lifecycle_explodes_once_witness :
  exists f c',
    Legacy.updates host_half legacy_config 16 2
      (Legacy.Firework.set_lifecycle Lifecycle.EXPLOSION legacy_willow) O
    = Legacy.Normal (f, c') /\
    Legacy.Firework.lifecycle f = Lifecycle.EXPLOSION /\
    Legacy.Firework.explodeCalls f = O.
Proof.
  apply (proj1 (proj2 (proj2 (lifecycle_explodes_once host_half)))
           legacy_config 16
           (Legacy.Firework.set_lifecycle Lifecycle.EXPLOSION legacy_willow)
           O 2%nat).
  reflexivity.
Defined.

(** C3, as stated, fails in the earlier sketch on a type its table does
    not have: a firework of type WILLOW built by the constructor reaches
    its apex in the 188th [update], which raises in [explode] before the
    lifecycle is set; the two calls after it call [explode] again.  After
    190 calls the firework is still ascending and [explode] has been
    called three times. *)
Lemma legacy_unknown_type_explodes_again :
  Legacy.Firework.explodeCalls legacy_willow = O /\
  (exists f c,
     Legacy.updates host_half legacy_config 16 187 legacy_willow 20
     = Legacy.Normal (f, c) /\
     Legacy.Firework.explodeCalls f = O) /\
  exists f c,
    Legacy.updates host_half legacy_config 16 190 legacy_willow 20
    = Legacy.Normal (f, c) /\
    Legacy.Firework.lifecycle f = Lifecycle.ASCENT /\
    Legacy.Firework.explodeCalls f = 3%nat.
Proof.
  split; [reflexivity|].
  assert (H : forall n k,
            match Legacy.updates host_half legacy_config 16 n legacy_willow
                    20 with
            | Legacy.Normal (f, _) =>
                Legacy.Firework.lifecycle f = Lifecycle.ASCENT /\
                Legacy.Firework.explodeCalls f = k
            | _ => False
            end ->
            exists f c,
              Legacy.updates host_half legacy_config 16 n legacy_willow 20
              = Legacy.Normal (f, c) /\
              Legacy.Firework.lifecycle f = Lifecycle.ASCENT /\
              Legacy.Firework.explodeCalls f = k).
  { intros n k.
    destruct (Legacy.updates host_half legacy_config 16 n legacy_willow 20)
      as [[f c]|e [f c]|]; try contradiction.
    intros [H1 H2]. exists f, c. auto. }
  split.
  - destruct (H 187%nat O) as (f & c & E & _ & Hc);
      [vm_compute; auto|]. exists f, c. auto.
  - apply (H 190%nat 3%nat). vm_compute. auto.
Qed.

(** ** Fading *)

Ltac qcases :=
  repeat match goal with
         | |- context [Qleb ?a ?b] =>
             let E := fresh "E" in
             destruct (Qleb a b) eqn:E;
             [apply Qleb_le in E|apply Qleb_gt in E]
         end.

Lemma constrain_mono a b : a <= b -> constrain a 0 1 <= constrain b 0 1.
Proof. intros H. unfold constrain, min; qcases; unfold max; qcases; lra. Qed.

Lemma constrain_range a : 0 <= constrain a 0 1 <= 1.
Proof. unfold constrain, min; qcases; unfold max; qcases; lra. Qed.

Lemma constrain_full a : 1 <= a -> constrain a 0 1 == 1.
Proof. intros H. unfold constrain, min; qcases; unfold max; qcases; lra. Qed.

Lemma max_0_nonneg a : 0 <= max 0 a.
Proof. unfold max. qcases; lra. Qed.

Lemma max_0_mono a b : a <= b -> max 0 a <= max 0 b.
Proof. intros H. unfold max. qcases; lra. Qed.

Lemma lerp_to_zero_mono a0 x y :
  0 <= a0 -> x <= y -> lerp a0 0 y <= lerp a0 0 x.
Proof. intros Ha Hxy. unfold lerp. nra. Qed.

Lemma div_mono a b d : 0 < d -> a <= b -> a / d <= b / d.
Proof.
  intros Hd Hab. unfold Qdiv. apply Qmult_le_compat_r; [exact Hab|].
  apply Qlt_le_weak, Qinv_lt_0_compat, Hd.
Qed.

Lemma fade_value_mono this t t' :
  0 < Particle.fadeDuration this -> 0 <= Particle.fadeStartAlpha this ->
  t <= t' -> fade_value this t' <= fade_value this t.
Proof.
  intros Hd Ha Ht. unfold fade_value.
  apply max_0_mono, lerp_to_zero_mono; [exact Ha|].
  apply constrain_mono, div_mono; [exact Hd|].
  apply Qplus_le_l, div_mono; [reflexivity|exact Ht].
Qed.

Lemma fade_value_start this t :
  0 <= Particle.fadeStartAlpha this ->
  fade_value this t <= Particle.fadeStartAlpha this.
Proof.
  intros Ha. unfold fade_value.
  pose proof (constrain_range
                ((t / 1000 - Particle.fadeStartTime this)
                 / Particle.fadeDuration this)) as Hc.
  set (x := constrain _ 0 1) in *.
  destruct (max_spec 0 (lerp (Particle.fadeStartAlpha this) 0 x))
    as [[? ->]|[? ->]]; [|exact Ha].
  unfold lerp. nra.
Qed.

Lemma fade_value_end this t :
  0 < Particle.fadeDuration this ->
  Particle.fadeStartTime this + Particle.fadeDuration this <= t / 1000 ->
  fade_value this t == 0.
Proof.
  intros Hd Ht. unfold fade_value.
  assert (Hx : 1 <= (t / 1000 - Particle.fadeStartTime this)
                    / Particle.fadeDuration this).
  { assert (H1 : Particle.fadeDuration this / Particle.fadeDuration this == 1)
      by (field; lra).
    rewrite <- H1. apply div_mono; [exact Hd|lra]. }
  pose proof (constrain_full _ Hx) as Hc.
  set (x := constrain _ 0 1) in *.
  assert (Hl : lerp (Particle.fadeStartAlpha this) 0 x == 0)
    by (unfold lerp; rewrite Hc; ring).
  destruct (max_spec 0 (lerp (Particle.fadeStartAlpha this) 0 x))
    as [[? ->]|[? ->]]; [exact Hl|reflexivity].
Qed.

(** *** What each phase of [update] keeps *)

Ltac finish_some :=
  try (eexists; eassumption);
  try match goal with
      | H : is_Some None |- _ => destruct H; discriminate
      end.

Lemma kept_refl p : kept p p.
Proof. unfold kept, same_fade, same_identity. intuition. Qed.

Lemma kept_trans p q r : kept p q -> kept q r -> kept p r.
Proof.
  unfold kept, same_fade, same_identity. intuition congruence.
Qed.

Lemma applyForce_kept f p : kept p (Particle_applyForce f p).
Proof.
  unfold Particle_applyForce.
  destruct (Particle.acc p) eqn:E; [|apply kept_refl].
  unfold kept, same_fade, same_identity, complete. simpl. intuition eauto.
Qed.

Lemma applyForces_kept fs p :
  kept p (foldl (fun p f => Particle_applyForce f p) p fs).
Proof.
  revert p. induction fs as [|f fs IH]; intros p; simpl.
  - apply kept_refl.
  - eapply kept_trans; [apply applyForce_kept|apply IH].
Qed.

Lemma update_physics_kept dt pos vel acc p :
  kept p (update_physics dt pos vel acc p) /\
  complete (update_physics dt pos vel acc p).
Proof.
  unfold kept, same_fade, same_identity, complete, update_physics; simpl.
  intuition eauto.
Qed.

Lemma update_trail_kept p : kept p (update_trail p).
Proof.
  unfold kept, same_fade, same_identity, complete, update_trail.
  repeat case_match; simpl; intuition finish_some.
Qed.

Lemma update_strobe_kept t p : kept p (update_strobe t p).
Proof.
  unfold kept, same_fade, same_identity, complete, update_strobe.
  repeat case_match; simpl; intuition finish_some.
Qed.

Lemma update_crackle_kept h t p w : kept p (fst (update_crackle h t p w)).
Proof.
  unfold kept, same_fade, same_identity, complete, update_crackle, bind,
    ret, get.
  repeat case_match; simpl; intuition finish_some.
Qed.

Lemma update_fluid_kept h p : kept p (update_fluid h p).
Proof.
  unfold update_fluid. destruct (_ && _); [|apply kept_refl].
  unfold Particle_applyFluidBehavior.
  destruct (Particle.vel p) eqn:Ev, (Particle.pos p) eqn:Ep;
    try apply kept_refl.
  eapply kept_trans; [|apply applyForce_kept].
  unfold kept, same_fade, same_identity, complete; simpl.
  rewrite Ep. intuition eauto.
Qed.

(** The fading branch: a fading particle keeps its fading state and takes
    the opacity of the clock. *)
Lemma update_fading_on t a p w :
  Particle.isFading p = true ->
  let q := fst (update_fading t a p w) in
  same_fade p q /\ same_identity p q /\
  Particle.delay q = Particle.delay p /\
  (complete p -> complete q) /\
  Particle.alpha q
  = max 0 (lerp (Particle.fadeStartAlpha p) 0
             (constrain ((t - Particle.fadeStartTime p)
                         / Particle.fadeDuration p) 0 1)).
Proof.
  intros Hf. unfold update_fading. rewrite Hf. simpl.
  unfold same_fade, same_identity, complete. simpl. intuition.
Qed.

(** The other branch: a particle that is not fading keeps its opacity;
    it starts fading when it is not a mini-shell and has outlived its
    lifespan. *)
Lemma update_fading_off t a p w :
  Particle.isFading p = false ->
  let q := fst (update_fading t a p w) in
  same_identity p q /\ Particle.delay q = Particle.delay p /\
  (complete p -> complete q) /\
  Particle.alpha q = Particle.alpha p /\
  (Particle.role p = Role.MINI_SHELL -> Particle.isFading q = false) /\
  (Particle.isFading q = true ->
   Particle.fadeStartAlpha q = Particle.alpha p /\
   Particle.fadeStartTime q = World.millis w / 1000 /\
   0 < Particle.fadeDuration q /\
   Particle.lifespan p <= a).
Proof.
  intros Hf. unfold update_fading. rewrite Hf.
  destruct (Role.eqb (Particle.role p) Role.MINI_SHELL) eqn:Er; simpl.
  - unfold same_identity, complete. rewrite Hf.
    intuition; discriminate.
  - destruct (Qleb (Particle.lifespan p) a) eqn:El; simpl.
    + unfold Particle_setFading, bind, ret, now. rewrite Hf. simpl.
      unfold same_identity, complete. simpl.
      assert (Particle.role p <> Role.MINI_SHELL)
        by (intros E; apply role_eqb_eq in E; congruence).
      apply Qleb_le in El.
      repeat split; auto; try tauto.
      unfold max. simpl Qltb. cbv iota. qcases; lra.
    + unfold same_identity, complete. rewrite Hf.
      intuition; discriminate.
Qed.

Lemma applyForces_complete fs p :
  complete (foldl (fun p f => Particle_applyForce f p) p fs) <-> complete p.
Proof.
  revert p. induction fs as [|f fs IH]; intros p; simpl; [tauto|].
  rewrite IH. unfold Particle_applyForce.
  destruct (Particle.acc p) eqn:E; [|tauto].
  unfold complete. simpl. rewrite E. intuition eauto.
Qed.

Lemma applyForces_halted fs p :
  halted (foldl (fun p f => Particle_applyForce f p) p fs) <-> halted p.
Proof.
  unfold halted, spent. rewrite applyForces_complete.
  destruct (applyForces_kept fs p) as (_ & (-> & _) & -> & _). tauto.
Qed.

(** [explodeSecondary] counts one call and leaves the role, the delays
    and the fading state alone. *)
Lemma explodeSecondary_fields h p w :
  let q := fst (Particle_explodeSecondary h p w) in
  same_fade p q /\ Particle.role q = Particle.role p /\
  Particle.timeCreated q = Particle.timeCreated p /\
  Particle.delay q = Particle.delay p /\
  Particle.secondaryCalls q = S (Particle.secondaryCalls p) /\
  (complete p -> complete q).
Proof.
  cbv zeta. unfold Particle_explodeSecondary. cbv zeta.
  set (p1 := Particle.set_secondaryCalls _ p).
  assert (Ec : Particle.configRef p1 = Particle.configRef p) by reflexivity.
  assert (Ep : Particle.pos p1 = Particle.pos p) by reflexivity.
  assert (Ev : Particle.vel p1 = Particle.vel p) by reflexivity.
  assert (H1 : same_fade p p1 /\ Particle.role p1 = Particle.role p /\
               Particle.timeCreated p1 = Particle.timeCreated p /\
               Particle.delay p1 = Particle.delay p /\
               Particle.secondaryCalls p1 = S (Particle.secondaryCalls p) /\
               Particle.acc p1 = Particle.acc p)
    by (unfold same_fade; repeat split; reflexivity).
  clearbody p1.
  destruct H1 as ((F1 & F2 & F3 & F4) & Hr & Ht & Hd & Hs & Ha).
  destruct (Particle.configRef p1) as [[]|];
    [destruct (Particle.pos p1) as [pos|] eqn:Ep1|].
  - destruct (Particle.vel p1) as [vel|] eqn:Ev1.
    + unfold bind, ret.
      destruct (secondary_explosion h p1 pos w) as [u w1]. simpl.
      unfold same_fade, complete. rewrite Ep1, Ev1, Ha, <- Ep, <- Ev.
      intuition.
    + unfold bind, ret, log, modify.
      destruct (secondary_explosion h _ pos _) as [u w1].
      unfold same_fade, complete. simpl. rewrite Ep1, Ha.
      intuition eauto.
  - unfold bind, log, modify, ret, same_fade, complete. simpl.
    rewrite Ep1, <- Ep. intuition finish_some.
  - unfold bind, log, modify, ret, same_fade, complete. simpl.
    rewrite Ha, <- Ep, <- Ev. intuition.
Qed.

(** On a halted particle [update] only sets the opacity to zero. *)
Lemma update_halted h p w :
  halted p ->
  let q := fst (Particle_update h p w) in
  q = Particle.set_alpha 0 p.
Proof.
  intros [Hn|[Hr Hd]]; cbv zeta; unfold Particle_update.
  - unfold complete in Hn.
    destruct (Particle.pos p), (Particle.vel p), (Particle.acc p);
      try reflexivity.
    exfalso. apply Hn. eauto.
  - destruct (Particle.pos p), (Particle.vel p), (Particle.acc p);
      try reflexivity.
    unfold bind at 1, now at 1. rewrite Hr. simpl Role.eqb.
    assert (E1 : Qltb 0 (Particle.delay p) = false) by (apply Qltb_ge; lra).
    assert (E2 : Qleb (Particle.delay p) 0 = true) by (apply Qleb_le; lra).
    rewrite E1, E2. reflexivity.
Qed.

(** [update] on a particle that has its three vectors. *)
Lemma update_complete h p w pos vel acc :
  Particle.pos p = Some pos -> Particle.vel p = Some vel ->
  Particle.acc p = Some acc ->
  Particle_update h p w =
  (if Role.eqb (Particle.role p) Role.MINI_SHELL
      && Qltb 0 (Particle.delay p)
      && Qleb (Particle.delay p)
           (World.millis w / 1000 - Particle.timeCreated p)
   then
     this <- Particle_explodeSecondary h p ;;
     ret (Particle.set_delay 0 (Particle.set_alpha 0 this))
   else if Role.eqb (Particle.role p) Role.MINI_SHELL
           && Qleb (Particle.delay p) 0
   then ret (Particle.set_alpha 0 p)
   else update_body h (World.millis w / 1000)
          (World.millis w / 1000 - Particle.timeCreated p) pos vel acc p) w.
Proof.
  intros Ep Ev Ea. unfold Particle_update. rewrite Ep, Ev, Ea. reflexivity.
Qed.

Lemma set_alpha_halted a p : halted p -> halted (Particle.set_alpha a p).
Proof. unfold halted, complete, spent. simpl. tauto. Qed.

(** The three ways [update] ends on a fading particle. *)
Lemma update_fading_cases h p w :
  Particle.isFading p = true ->
  let q := fst (Particle_update h p w) in
  same_fade p q /\
  ((halted q /\ Particle.alpha q == 0) \/
   (~ halted p /\ Particle.alpha q = fade_value p (World.millis w))).
Proof.
  intros Hf. cbv zeta.
  destruct (Particle.pos p) as [pos|] eqn:Ep;
    [destruct (Particle.vel p) as [vel|] eqn:Ev;
     [destruct (Particle.acc p) as [acc|] eqn:Ea|]|].
  2-4: assert (Hh : halted p)
         by (left; unfold complete; rewrite ?Ep, ?Ev, ?Ea;
             intros (? & ? & ?); finish_some);
       rewrite (update_halted h p w Hh);
       split; [unfold same_fade; simpl; auto|];
       left; split; [apply set_alpha_halted, Hh|reflexivity].
  assert (Hc : complete p)
    by (unfold complete; rewrite Ep, Ev, Ea; eauto).
  rewrite (update_complete h p w pos vel acc Ep Ev Ea).
  destruct (Role.eqb (Particle.role p) Role.MINI_SHELL
            && Qltb 0 (Particle.delay p)
            && Qleb (Particle.delay p)
                 (World.millis w / 1000 - Particle.timeCreated p)) eqn:E1.
  - (* the secondary explosion *)
    apply andb_true_iff in E1 as [E1 _]. apply andb_true_iff in E1 as [Er _].
    apply role_eqb_eq in Er.
    pose proof (explodeSecondary_fields h p w) as H. cbv zeta in H.
    unfold bind. destruct (Particle_explodeSecondary h p w) as [p1 w1].
    simpl in *. destruct H as (Hsf & Hr1 & _ & _ & _ & _).
    split; [exact Hsf|]. left. split; [|reflexivity].
    right. unfold spent. simpl. split; [congruence|lra].
  - destruct (Role.eqb (Particle.role p) Role.MINI_SHELL
              && Qleb (Particle.delay p) 0) eqn:E2.
    + apply andb_true_iff in E2 as [Er Ed].
      apply role_eqb_eq in Er. apply Qleb_le in Ed. simpl.
      split; [unfold same_fade; simpl; auto|].
      left. split; [|reflexivity]. right. unfold spent. simpl. auto.
    + (* the body *)
      assert (Hnh : ~ halted p).
      { intros [Hn|[Hr Hd]]; [tauto|].
        rewrite Hr in E2. simpl in E2. apply Qleb_gt in E2. lra. }
      unfold update_body, bind.
      destruct (frame_dt w) as [dt w0] eqn:Edt.
      assert (w0 = w) by (unfold frame_dt in Edt; congruence). subst w0.
      set (p0 := update_physics dt pos vel acc p).
      destruct (update_physics_kept dt pos vel acc p) as [K0 C0].
      fold p0 in K0, C0.
      pose proof (update_trail_kept p0) as K1.
      pose proof (kept_trans _ _ _ K0 K1) as K01.
      assert (Hf1 : Particle.isFading (update_trail p0) = true)
        by (destruct K01 as ((-> & _) & _); exact Hf).
      pose proof (update_fading_on (World.millis w / 1000)
                    (World.millis w / 1000 - Particle.timeCreated p)
                    (update_trail p0) w Hf1) as H2.
      destruct (update_fading _ _ (update_trail p0) w) as [p2 w2].
      cbv zeta in H2. simpl fst in H2.
      pose proof (update_strobe_kept (World.millis w / 1000) p2) as K3.
      pose proof (update_crackle_kept h (World.millis w / 1000)
                    (update_strobe (World.millis w / 1000) p2) w2) as K4.
      destruct (update_crackle h _ _ w2) as [p4 w4]. simpl fst in *.
      pose proof (update_fluid_kept h p4) as K5.
      pose proof (kept_trans _ _ _ K3 (kept_trans _ _ _ K4 K5)) as K35.
      destruct K01 as (F01 & _ & _ & _ & _).
      destruct H2 as (F2 & _ & _ & _ & A2).
      destruct K35 as (F35 & _ & _ & A35 & _).
      unfold same_fade in *.
      destruct F01 as (F01a & F01b & F01c & F01d).
      destruct F2 as (F2a & F2b & F2c & F2d).
      destruct F35 as (F35a & F35b & F35c & F35d).
      split; [repeat split; congruence|].
      right. split; [exact Hnh|].
      rewrite A35, A2. unfold fade_value. rewrite F01b, F01c, F01d.
      reflexivity.
Qed.

Lemma fade_value_same p q t :
  same_fade p q -> fade_value q t = fade_value p t.
Proof.
  intros (_ & H1 & H2 & H3). unfold fade_value. rewrite H1, H2, H3.
  reflexivity.
Qed.

(** One frame keeps the invariant, does not raise the opacity, and
    brings it to zero once the fade duration has passed. *)
Lemma fading_step h t forces w p :
  fading_at t p -> t <= World.millis w ->
  let q := fst (Particle_update h
                  (foldl (fun p f => Particle_applyForce f p) p forces) w) in
  fading_at (World.millis w) q /\
  same_fade p q /\
  Particle.alpha q <= Particle.alpha p /\
  (Particle.fadeStartTime p + Particle.fadeDuration p
   <= World.millis w / 1000 -> Particle.alpha q == 0).
Proof.
  intros (Hf & Hd & Ha & Hal & Hinv) Ht. cbv zeta.
  set (p1 := foldl (fun p f => Particle_applyForce f p) p forces).
  destruct (applyForces_kept forces p) as (F1 & _ & _ & A1 & _).
  fold p1 in F1, A1.
  pose proof (applyForces_halted forces p) as Hh1. fold p1 in Hh1.
  assert (Hf1 : Particle.isFading p1 = true)
    by (destruct F1 as (-> & _); exact Hf).
  destruct (update_fading_cases h p1 w Hf1) as [F2 Hc].
  set (q := fst (Particle_update h p1 w)) in *.
  assert (F : same_fade p q).
  { unfold same_fade in *. intuition congruence. }
  assert (Hq : Particle.isFading q = true /\
               0 < Particle.fadeDuration q /\
               0 <= Particle.fadeStartAlpha q).
  { destruct F as (-> & -> & _ & ->). auto. }
  destruct Hq as (Hq1 & Hq2 & Hq3).
  destruct Hc as [[Hh Hz]|[Hnh Hv]].
  - split; [|split; [|split]].
    + unfold fading_at. split; [exact Hq1|]. split; [exact Hq2|].
      split; [exact Hq3|]. split; [rewrite Hz; lra|]. left. auto.
    + exact F.
    + rewrite Hz. exact Hal.
    + intros _. exact Hz.
  - rewrite (fade_value_same _ _ _ F1) in Hv.
    assert (Hle : fade_value p (World.millis w) <= Particle.alpha p).
    { destruct Hinv as [[Hh _]|Hinv].
      - exfalso. apply Hnh, Hh1, Hh.
      - eapply Qle_trans; [apply fade_value_mono; eassumption|exact Hinv]. }
    split; [|split; [|split]].
    + unfold fading_at. split; [exact Hq1|]. split; [exact Hq2|].
      split; [exact Hq3|]. split; [rewrite Hv; apply max_0_nonneg|].
      right. rewrite (fade_value_same _ _ _ F), Hv. lra.
    + exact F.
    + rewrite Hv. exact Hle.
    + intros He. rewrite Hv. apply fade_value_end; assumption.
Qed.

Lemma fade_started_at t p : fade_started p -> fading_at t p.
Proof.
  intros (Hf & Hd & Ha & Hal). unfold fading_at.
  repeat (split; [assumption || lra|]).
  right. rewrite Hal. apply fade_value_start, Ha.
Qed.

Lemma fading_trace h frames : forall t this,
  fading_at t this -> clock_ordered t frames ->
  let trace := Particle_trace h frames this in
  Forall (fun p => Particle.isFading p = true /\ 0 <= Particle.alpha p
                   /\ same_fade this p) trace /\
  (forall i p q,
     (this :: trace) !! i = Some p -> trace !! i = Some q ->
     Particle.alpha q <= Particle.alpha p) /\
  (forall i fw p,
     frames !! i = Some fw -> trace !! i = Some p ->
     Particle.fadeStartTime this + Particle.fadeDuration this
     <= World.millis (snd fw) / 1000 ->
     Particle.alpha p == 0).
Proof.
  induction frames as [|[forces w] rest IH]; intros t this Hinv Hclock;
    cbv zeta; simpl.
  - split; [constructor|]. split; intros i; intros; destruct i; discriminate.
  - destruct Hclock as [Ht Hrest].
    destruct (fading_step h t forces w this Hinv Ht) as (Hinv' & F & Hle & Hend).
    set (q := fst (Particle_update h _ w)) in *.
    destruct (IH (World.millis w) q Hinv' Hrest) as (IH1 & IH2 & IH3).
    cbv zeta in IH1, IH2, IH3.
    split; [|split].
    + constructor.
      * destruct Hinv' as (H1 & _ & _ & H4 & _). auto.
      * eapply Forall_impl; [exact IH1|].
        intros p (H1 & H2 & H3). repeat split; auto;
          unfold same_fade in *; intuition congruence.
    + intros [|i] p p' Hp Hq; simpl in Hp, Hq.
      * injection Hp as <-. injection Hq as <-. exact Hle.
      * eapply IH2; eassumption.
    + intros [|i] fw p Hfw Hp; simpl in Hfw, Hp.
      * injection Hfw as <-. injection Hp as <-. exact Hend.
      * destruct F as (_ & _ & F3 & F4). rewrite <- F3, <- F4.
        eapply IH3; eassumption.
Qed.

(** [setFading] on a particle that is not fading and is not of negative
    opacity starts a fade. *)
Lemma setFading_starts duration p w :
  Particle.isFading p = false -> 0 <= Particle.alpha p ->
  fade_started (fst (Particle_setFading duration p w)).
Proof.
  intros Hf Ha. unfold Particle_setFading, bind, ret, now, fade_started.
  rewrite Hf. simpl. repeat split; auto; try reflexivity.
  destruct (Qltb 0 duration) eqn:E; [apply Qltb_lt, E|].
  unfold max. qcases; lra.
Qed.

(** [setFading] on a fading particle does nothing: the flag stays. *)
Lemma setFading_again duration p w :
  Particle.isFading p = true -> Particle_setFading duration p w = (p, w).
Proof. intros Hf. unfold Particle_setFading. rewrite Hf. reflexivity. Qed.

(** C2: from the state in which a fade has just started, along every
    sequence of frames whose clock does not run backwards: the particle
    stays fading, its opacity never goes below zero, never rises from one
    [update] to the next, and is exactly zero after every [update] made a
    millisecond or more after the start of the fade plus its duration.
    The millisecond is there for the rounding of the clock: at the
    [update] that falls on the end of the fade the progress the program
    computes can be just under one. *)
Theorem fading_never_brightens h t0 frames this :
  fade_started this -> clock_ordered t0 frames ->
  let trace := Particle_trace h frames this in
  Forall (fun p => Particle.isFading p = true /\ 0 <= Particle.alpha p) trace /\
  (forall i p q,
     (this :: trace) !! i = Some p -> trace !! i = Some q ->
     Particle.alpha q <= Particle.alpha p) /\
  (forall i fw p,
     frames !! i = Some fw -> trace !! i = Some p ->
     Particle.fadeStartTime this + Particle.fadeDuration this + 0.001
     <= World.millis (snd fw) / 1000 ->
     Particle.alpha p == 0).
Proof.
  intros Hs Hc. cbv zeta.
  destruct (fading_trace h frames t0 this (fade_started_at t0 this Hs) Hc)
    as (H1 & H2 & H3).
  split; [|split; [exact H2|]].
  - eapply Forall_impl; [exact H1|]. intros p (? & ? & _). auto.
  - intros i fw p Hfw Hp Ht. apply (H3 i fw p Hfw Hp). lra.
Qed.

Lemma fading_never_brightens_witness :
  Forall (fun p => Particle.isFading p = true /\ 0 <= Particle.alpha p)
    (Particle_trace host_zero three_frames fading_example).
Proof.
  refine (proj1 (fading_never_brightens host_zero 16 three_frames
                   fading_example _ _)).
  - unfold fade_started. vm_compute. repeat split; congruence.
  - vm_compute. repeat split; congruence.
Defined.

(** C2, as stated, fails in double precision.  A particle of opacity 255
    starts its fade of half a second, the duration of the constructor, at
    the clock of 63 ms and is updated at 563 ms.  In the numbers of the
    program that [update] is at the end of the fade,
    [fadeStartTime + fadeDuration <= currentTime], and the progress
    [(currentTime - fadeStartTime) / fadeDuration] is the double just
    under one: the opacity left is 2^-45, not zero, and the particle is
    not done. *)
Lemma fade_leaves_residue :
  let fadeStartTime := Double.seconds 63 in
  let currentTime := Double.seconds 563 in
  let alpha := Double.fading_alpha 255 fadeStartTime 0.5 currentTime in
  PrimFloat.leb (PrimFloat.add fadeStartTime 0.5) currentTime = true /\
  PrimFloat.ltb
    (PrimFloat.div (PrimFloat.sub currentTime fadeStartTime) 0.5) 1 = true /\
  alpha = 0x1p-45%float /\
  PrimFloat.ltb 0 alpha = true /\
  Double.isDone alpha = false.
Proof. vm_compute. repeat split. Qed.

(** The other way a fade starts: inside [update], when the lifespan is
    reached. *)
Lemma update_starts_fade h p w :
  Particle.isFading p = false -> 0 <= Particle.alpha p ->
  Particle.isFading (fst (Particle_update h p w)) = true ->
  fade_started (fst (Particle_update h p w)) /\
  Particle.role p <> Role.MINI_SHELL /\
  Particle.lifespan p <= age p w.
Proof.
  intros Hf Ha.
  destruct (Particle.pos p) as [pos|] eqn:Ep;
    [destruct (Particle.vel p) as [vel|] eqn:Ev;
     [destruct (Particle.acc p) as [acc|] eqn:Ea|]|].
  2-4: assert (Hh : halted p)
         by (left; unfold complete; rewrite ?Ep, ?Ev, ?Ea;
             intros (? & ? & ?); finish_some);
       rewrite (update_halted h p w Hh); simpl; congruence.
  rewrite (update_complete h p w pos vel acc Ep Ev Ea).
  destruct (Role.eqb (Particle.role p) Role.MINI_SHELL
            && Qltb 0 (Particle.delay p)
            && Qleb (Particle.delay p)
                 (World.millis w / 1000 - Particle.timeCreated p)) eqn:E1.
  - pose proof (explodeSecondary_fields h p w) as H. cbv zeta in H.
    unfold bind. destruct (Particle_explodeSecondary h p w) as [p1 w1].
    simpl in *. destruct H as ((Hsf & _) & _). congruence.
  - destruct (Role.eqb (Particle.role p) Role.MINI_SHELL
              && Qleb (Particle.delay p) 0) eqn:E2; [simpl; congruence|].
    unfold update_body, bind.
    destruct (frame_dt w) as [dt w0] eqn:Edt.
    assert (w0 = w) by (unfold frame_dt in Edt; congruence). subst w0.
    set (p0 := update_physics dt pos vel acc p).
    destruct (update_physics_kept dt pos vel acc p) as [K0 C0].
    fold p0 in K0, C0.
    pose proof (kept_trans _ _ _ K0 (update_trail_kept p0)) as K01.
    assert (Hf1 : Particle.isFading (update_trail p0) = false)
      by (destruct K01 as ((-> & _) & _); exact Hf).
    pose proof (update_fading_off (World.millis w / 1000)
                  (World.millis w / 1000 - Particle.timeCreated p)
                  (update_trail p0) w Hf1) as H2.
    destruct (update_fading _ _ (update_trail p0) w) as [p2 w2].
    cbv zeta in H2. simpl fst in H2.
    pose proof (update_strobe_kept (World.millis w / 1000) p2) as K3.
    pose proof (update_crackle_kept h (World.millis w / 1000)
                  (update_strobe (World.millis w / 1000) p2) w2) as K4.
    destruct (update_crackle h _ _ w2) as [p4 w4]. simpl fst in *.
    pose proof (kept_trans _ _ _ K3
                  (kept_trans _ _ _ K4 (update_fluid_kept h p4))) as K35.
    destruct K01 as (_ & (R01 & _ & L01 & _) & _ & A01 & _).
    destruct H2 as (_ & _ & _ & A2 & M2 & S2).
    destruct K35 as ((F35a & F35b & F35c & F35d) & _ & _ & A35 & _).
    unfold ret. simpl fst. intros Hq. rewrite F35a in Hq.
    destruct (S2 Hq) as (S2a & S2b & S2c & S2d).
    split; [|split].
    + unfold fade_started. rewrite F35a, F35b, F35d, A35, A2, S2a, A01.
      repeat split; auto; try reflexivity.
    + intros Hr. rewrite <- R01 in Hr. rewrite (M2 Hr) in Hq. discriminate.
    + unfold age. rewrite <- L01. exact S2d.
Qed.

(** The opacities of the example: 255, then 246.84, 127.5 and 0. *)
Lemma fading_example_opacities :
  Particle.alpha fading_example == 255 /\
  Forall2 (fun p a => Particle.alpha p == a)
    (Particle_trace host_zero three_frames fading_example)
    [246.84; 127.5; 0].
Proof.
  split; [reflexivity|].
  assert (H : map (fun p => Qred (Particle.alpha p))
                (Particle_trace host_zero three_frames fading_example)
              = [Qred 246.84; Qred 127.5; Qred 0]) by (vm_compute; reflexivity).
  destruct (Particle_trace host_zero three_frames fading_example)
    as [|p1 [|p2 [|p3 [|p4 l]]]]; try discriminate.
  injection H as H1 H2 H3.
  repeat constructor; apply Qred_complete' || apply Qred_eq_iff; assumption.
Qed.

(** ** Mini-shells *)

Lemma applyForces_waiting fs p :
  waiting p ->
  let p1 := foldl (fun p f => Particle_applyForce f p) p fs in
  waiting p1 /\ Particle.alpha p1 = Particle.alpha p /\
  Particle.delay p1 = Particle.delay p /\
  Particle.timeCreated p1 = Particle.timeCreated p.
Proof.
  intros (Hr & Hd & Hc & Hf & Hs). cbv zeta.
  destruct (applyForces_kept fs p)
    as ((F1 & _) & (R & T & _ & S) & D & A & C).
  unfold waiting. rewrite R, D, F1, S. auto 10.
Qed.

(** A frame before the delay has elapsed: the mini-shell goes on waiting,
    with the opacity it had. *)
Lemma waiting_step h forces w p :
  waiting p -> age p w < Particle.delay p ->
  let q := fst (Particle_update h
                  (foldl (fun p f => Particle_applyForce f p) p forces) w) in
  waiting q /\ Particle.alpha q = Particle.alpha p /\
  Particle.delay q = Particle.delay p /\
  Particle.timeCreated q = Particle.timeCreated p.
Proof.
  intros Hw Hage. cbv zeta.
  destruct (applyForces_waiting forces p Hw) as (Hw1 & A1 & D1 & T1).
  set (p1 := foldl _ p forces) in *.
  destruct Hw1 as (Hr & Hd & (Hp & Hv & Ha) & Hf & Hs).
  destruct Hp as [pos Ep], Hv as [vel Ev], Ha as [acc Ea].
  assert (Hm : awaits_secondary p1 w).
  { intros _. split; [exact Hd|]. unfold age in *. rewrite T1, D1. exact Hage. }
  rewrite (update_runs_body h p1 w pos vel acc Ep Ev Ea Hm).
  unfold update_body, bind.
  destruct (frame_dt w) as [dt w0] eqn:Edt.
  assert (w0 = w) by (unfold frame_dt in Edt; congruence). subst w0.
  set (p0 := update_physics dt pos vel acc p1).
  destruct (update_physics_kept dt pos vel acc p1) as [K0 C0].
  fold p0 in K0, C0.
  pose proof (kept_trans _ _ _ K0 (update_trail_kept p0)) as K01.
  assert (Hf1 : Particle.isFading (update_trail p0) = false)
    by (destruct K01 as ((-> & _) & _); exact Hf).
  pose proof (update_fading_off (World.millis w / 1000) (age p1 w)
                (update_trail p0) w Hf1) as H2.
  destruct (update_fading _ _ (update_trail p0) w) as [p2 w2].
  cbv zeta in H2. simpl fst in H2.
  pose proof (update_strobe_kept (World.millis w / 1000) p2) as K3.
  pose proof (update_crackle_kept h (World.millis w / 1000)
                (update_strobe (World.millis w / 1000) p2) w2) as K4.
  destruct (update_crackle h _ _ w2) as [p4 w4]. unfold ret. simpl fst in *.
  pose proof (kept_trans _ _ _ K3
                (kept_trans _ _ _ K4 (update_fluid_kept h p4))) as K35.
  destruct K01 as (_ & (R01 & T01 & _ & S01) & D01 & A01 & C01).
  destruct H2 as ((R2 & T2 & _ & S2) & D2 & C2 & A2 & M2 & _).
  destruct K35 as ((F35 & _) & (R35 & T35 & _ & S35) & D35 & A35 & C35).
  assert (Hr0 : Particle.role (update_trail p0) = Role.MINI_SHELL)
    by congruence.
  unfold waiting.
  rewrite R35, R2, R01, D35, D2, D01, F35, (M2 Hr0), S35, S2, S01, A35, A2,
    A01, T35, T2, T01.
  assert (Hc1 : complete p1)
    by (unfold complete; rewrite Ep, Ev, Ea; eauto).
  split; [|auto].
  split; [exact Hr|]. split; [exact Hd|].
  split; [apply C35, C2, C01, Hc1|]. auto.
Qed.

(** The frame at which the delay has elapsed: one secondary explosion,
    then the opacity and the delay are set to zero. *)
Lemma due_step h forces w p :
  waiting p -> Particle.delay p <= age p w ->
  let q := fst (Particle_update h
                  (foldl (fun p f => Particle_applyForce f p) p forces) w) in
  exploded q /\ Particle_isDone q = true.
Proof.
  intros Hw Hage. cbv zeta.
  destruct (applyForces_waiting forces p Hw) as (Hw1 & A1 & D1 & T1).
  set (p1 := foldl _ p forces) in *.
  destruct Hw1 as (Hr & Hd & (Hp & Hv & Ha) & Hf & Hs).
  destruct Hp as [pos Ep], Hv as [vel Ev], Ha as [acc Ea].
  assert (E1 : Role.eqb (Particle.role p1) Role.MINI_SHELL = true)
    by (apply role_eqb_eq, Hr).
  assert (E2 : Qltb 0 (Particle.delay p1) = true) by (apply Qltb_lt, Hd).
  assert (E3 : Qleb (Particle.delay p1)
                 (World.millis w / 1000 - Particle.timeCreated p1) = true).
  { apply Qleb_le. unfold age in Hage. rewrite T1, D1. exact Hage. }
  assert (Eq : exists p2,
             fst (Particle_update h p1 w)
             = Particle.set_delay 0 (Particle.set_alpha 0 p2) /\
             Particle.role p2 = Particle.role p1 /\
             Particle.secondaryCalls p2 = S (Particle.secondaryCalls p1)).
  { rewrite (update_complete h p1 w pos vel acc Ep Ev Ea).
    rewrite E1, E2, E3. cbn [andb]. cbv beta iota.
    pose proof (explodeSecondary_fields h p1 w) as H. cbv zeta in H.
    unfold bind. destruct (Particle_explodeSecondary h p1 w) as [p2 w2].
    simpl in H. destruct H as (_ & R2 & _ & _ & S2 & _).
    exists p2. split; [reflexivity|]. split; assumption. }
  destruct Eq as (p2 & -> & R2 & S2).
  unfold exploded, spent, Particle_isDone. simpl.
  split; [|reflexivity].
  split; [split; [congruence|lra]|]. split; [congruence|reflexivity].
Qed.

(** Every later frame leaves the exploded mini-shell as it is. *)
Lemma exploded_step h forces w p :
  exploded p ->
  let q := fst (Particle_update h
                  (foldl (fun p f => Particle_applyForce f p) p forces) w) in
  exploded q.
Proof.
  intros ((Hr & Hd) & Hs & Ha). cbv zeta.
  destruct (applyForces_kept forces p)
    as (_ & (R & _ & _ & S) & D & A & _).
  set (p1 := foldl _ p forces) in *.
  assert (Hh : halted p1) by (right; split; congruence).
  rewrite (update_halted h p1 w Hh).
  unfold exploded, spent. simpl. rewrite R, D, S.
  repeat split; auto; reflexivity.
Qed.

Lemma exploded_trace h frames : forall p,
  exploded p ->
  Forall (fun q => Particle.secondaryCalls q = 1%nat /\ Particle.alpha q == 0)
    (Particle_trace h frames p).
Proof.
  induction frames as [|[forces w] rest IH]; intros p Hp; simpl;
    constructor.
  - destruct (exploded_step h forces w p Hp) as (_ & ? & ?). auto.
  - apply IH, exploded_step, Hp.
Qed.

Lemma waiting_trace h frames : forall p,
  waiting p ->
  Forall (fun f => age p (snd f) < Particle.delay p) frames ->
  Forall (fun q => Particle.secondaryCalls q = O
                   /\ Particle.alpha q = Particle.alpha p)
    (Particle_trace h frames p).
Proof.
  induction frames as [|[forces w] rest IH]; intros p Hp Hall; simpl;
    [constructor|].
  apply Forall_cons in Hall as [Hage Hall]. simpl in Hage.
  destruct (waiting_step h forces w p Hp Hage) as (Hw & A & D & T).
  set (q := fst (Particle_update h _ w)) in *.
  constructor.
  - destruct Hw as (_ & _ & _ & _ & ?). auto.
  - eapply Forall_impl; [apply IH; [exact Hw|]|].
    + eapply Forall_impl; [exact Hall|]. intros f Hf.
      unfold age in *. rewrite T, D. exact Hf.
    + intros q' (? & ?). split; congruence.
Qed.

(** C4: a mini-shell with a positive delay, its three vectors, not fading
    and with no secondary explosion so far.  Along every sequence of
    frames: as long as its age is below the delay it keeps its opacity
    and has not exploded; the first [update] made at an age that reaches
    the delay calls [explodeSecondary] once and leaves the particle done,
    with opacity zero; every later [update] leaves the count at one and
    the opacity at zero.  If no frame reaches the delay there is no
    secondary explosion. *)
Theorem mini_shell_explodes_once h this :
  Particle.role this = Role.MINI_SHELL -> 0 < Particle.delay this ->
  complete this -> Particle.isFading this = false ->
  Particle.secondaryCalls this = O ->
  (forall before frame after,
     Forall (fun f => age this (snd f) < Particle.delay this) before ->
     Particle.delay this <= age this (snd frame) ->
     exists early q late,
       Particle_trace h (before ++ frame :: after) this
       = early ++ q :: late /\
       length early = length before /\
       Forall (fun p => Particle.secondaryCalls p = O
                        /\ Particle.alpha p = Particle.alpha this) early /\
       Particle.secondaryCalls q = 1%nat /\ Particle.alpha q == 0 /\
       Particle_isDone q = true /\
       Forall (fun p => Particle.secondaryCalls p = 1%nat
                        /\ Particle.alpha p == 0) late) /\
  (forall frames,
     Forall (fun f => age this (snd f) < Particle.delay this) frames ->
     Forall (fun p => Particle.secondaryCalls p = O)
       (Particle_trace h frames this)).
Proof.
  intros Hr Hd Hc Hf Hs.
  assert (Hw : waiting this) by (unfold waiting; auto).
  clear Hr Hd Hc Hf Hs. split.
  - intros before. revert this Hw.
    induction before as [|[forces w] before IH];
      intros this Hw frame after Hall Hdue.
    + destruct frame as [forces w]. simpl in *.
      destruct (due_step h forces w this Hw Hdue) as [He Hdone].
      set (q := fst (Particle_update h _ w)) in *.
      exists [], q, (Particle_trace h after q).
      repeat split; auto; try apply He.
      apply exploded_trace, He.
    + apply Forall_cons in Hall as [Hage Hall]. simpl in Hage.
      destruct (waiting_step h forces w this Hw Hage) as (Hw' & A & D & T).
      simpl. set (p := fst (Particle_update h _ w)) in *.
      destruct (IH p Hw' frame after) as (early & q & late & E & L & F1 & R).
      * eapply Forall_impl; [exact Hall|]. intros f Hlt.
        unfold age in *. rewrite T, D. exact Hlt.
      * unfold age in *. rewrite T, D. exact Hdue.
      * exists (p :: early), q, late. rewrite E. simpl.
        split; [reflexivity|]. split; [congruence|].
        split; [|exact R].
        constructor.
        -- destruct Hw' as (_ & _ & _ & _ & ?). auto.
        -- eapply Forall_impl; [exact F1|]. intros ? (? & ?).
           split; congruence.
  - intros frames Hall.
    eapply Forall_impl; [apply waiting_trace; eassumption|].
    intros p (? & _). assumption.
Qed.

Lemma mini_shell_explodes_once_witness :
  exists early q late,
    Particle_trace host_half ([frame_at 32] ++ frame_at 700 :: [frame_at 716])
      miniShell_example
    = early ++ q :: late /\
    length early = length [frame_at 32] /\
    Forall (fun p => Particle.secondaryCalls p = O
                     /\ Particle.alpha p = Particle.alpha miniShell_example)
      early /\
    Particle.secondaryCalls q = 1%nat /\ Particle.alpha q == 0 /\
    Particle_isDone q = true /\
    Forall (fun p => Particle.secondaryCalls p = 1%nat
                     /\ Particle.alpha p == 0) late.
Proof.
  refine (proj1 (mini_shell_explodes_once host_half miniShell_example
                   _ _ _ _ _) [frame_at 32] (frame_at 700) [frame_at 716]
            _ _).
  - reflexivity.
  - reflexivity.
  - unfold complete. vm_compute. repeat split; eexists; reflexivity.
  - reflexivity.
  - reflexivity.
  - constructor; [vm_compute; reflexivity|constructor].
  - vm_compute. discriminate.
Defined.

(** The example mini-shell over three frames: no secondary explosion at
    32 ms, one at 700 ms, still one at 716 ms; the explosion adds the 420
    strobe particles of its subtype to an empty world. *)
Lemma mini_shell_example_run :
  map Particle.secondaryCalls
    (Particle_trace host_half [frame_at 32; frame_at 700; frame_at 716]
       miniShell_example) = [0; 1; 1]%nat /\
  length (World.particles
            (snd (Particle_update host_half miniShell_example
                    (snd (frame_at 700))))) = 420%nat.
Proof. split; vm_compute; reflexivity. Qed.

(** ** The apex *)

(** Below the apex with the shell still in the array, [update] does
    nothing. *)
Lemma update_below_apex h this w :
  at_apex this w <> Some true ->
  Firework.shell this ∈ World.particles w ->
  Firework_update h this w = (this, w).
Proof.
  intros Ha Hin. unfold Firework_update, bind.
  destruct (update_ascent_cases h this w) as [(_ & Ha' & _)|[_ E]];
    [congruence|].
  rewrite E. unfold update_lost_shell, bind, get, ret.
  rewrite (bool_decide_eq_true_2 _ Hin). rewrite andb_false_r. reflexivity.
Qed.

(** At the apex an ascending firework explodes. *)
Lemma update_at_apex h this w :
  ascending this -> at_apex this w = Some true ->
  let this' := fst (Firework_update h this w) in
  Firework.explodeCalls this' = 1%nat /\
  Firework.lifecycle this' = Lifecycle.EXPLOSION.
Proof.
  intros (Hl & Hh & Hc) Ha. cbv zeta. unfold Firework_update, bind.
  destruct (update_ascent_cases h this w)
    as [(_ & _ & _ & Hl1 & Hc1)|[Hn _]]; [|tauto].
  destruct (update_ascent h this w) as [this1 w1]. simpl in Hl1, Hc1.
  destruct (update_lost_shell_cases this1 w1) as [Hc2 [E2|(Hl2 & _)]];
    [|congruence].
  rewrite E2. split; congruence.
Qed.

(** A shell that has left the array below the apex retires the firework
    without an explosion. *)
Lemma update_lost_shell_retires h this w :
  ascending this -> at_apex this w <> Some true ->
  Firework.shell this ∉ World.particles w ->
  let this' := fst (Firework_update h this w) in
  Firework.explodeCalls this' = O /\
  Firework.lifecycle this' = Lifecycle.EXPLOSION /\
  World.explosions (snd (Firework_update h this w)) = World.explosions w /\
  World.heap (snd (Firework_update h this w)) = World.heap w.
Proof.
  intros (Hl & Hh & Hc) Ha Hin. cbv zeta. unfold Firework_update, bind.
  destruct (update_ascent_cases h this w) as [(_ & Ha' & _)|[_ E]];
    [congruence|].
  rewrite E. unfold update_lost_shell, bind, get, ret, log, modify.
  rewrite Hl. rewrite (bool_decide_eq_false_2 _ Hin). simpl. auto.
Qed.

(** C7, as the code has it: an ascending firework explodes in the first
    [update] that finds its shell with [vel.y >= -0.5] or
    [pos.y <= explosionAltitude], provided the shell was in the
    [particles] array at every earlier [update], and never again; but an
    [update] that finds the shell gone from the array below the apex
    retires the firework without calling [explode]: detonation is not
    guaranteed. *)
Theorem explodes_at_first_apex h this :
  ascending this ->
  (forall before w after,
     Forall (fun w' => at_apex this w' <> Some true
                       /\ Firework.shell this ∈ World.particles w') before ->
     at_apex this w = Some true ->
     exists f,
       Firework_trace h (before ++ w :: after) this
       = replicate (length before) this ++ f :: replicate (length after) f /\
       Firework.explodeCalls f = 1%nat /\
       Firework.lifecycle f = Lifecycle.EXPLOSION) /\
  (forall w,
     at_apex this w <> Some true ->
     Firework.shell this ∉ World.particles w ->
     let this' := fst (Firework_update h this w) in
     Firework.explodeCalls this' = O /\
     Firework.lifecycle this' = Lifecycle.EXPLOSION /\
     Firework_done this' = true /\
     World.explosions (snd (Firework_update h this w)) = World.explosions w).
Proof.
  intros Hasc. split.
  - intros before. induction before as [|w0 before IH]; intros w after Hall Ha.
    + simpl. destruct (update_at_apex h this w Hasc Ha) as [Hc Hl].
      exists (fst (Firework_update h this w)).
      rewrite (trace_exploded h after _ Hl). auto.
    + apply Forall_cons in Hall as [[Hn Hin] Hall].
      destruct (IH w after Hall Ha) as (f & E & Hc & Hl).
      exists f. simpl. rewrite (update_below_apex h this w0 Hn Hin). simpl.
      rewrite E. auto.
  - intros w Ha Hin. cbv zeta.
    destruct (update_lost_shell_retires h this w Hasc Ha Hin)
      as (H1 & H2 & H3 & _).
    repeat split; auto. apply lifecycle_eqb_eq, H2.
Qed.

Lemma explodes_at_first_apex_witness :
  let w := Sketch.world (run host_zero (steady_frames 126) calm_launch) in
  Firework.explodeCalls (fst (Firework_update host_zero calm_firework w)) = O /\
  Firework.lifecycle (fst (Firework_update host_zero calm_firework w))
  = Lifecycle.EXPLOSION /\
  Firework_done (fst (Firework_update host_zero calm_firework w)) = true /\
  World.explosions (snd (Firework_update host_zero calm_firework w))
  = World.explosions w.
Proof.
  refine (proj2 (explodes_at_first_apex host_zero calm_firework _)
            (Sketch.world (run host_zero (steady_frames 126) calm_launch)) _ _).
  - vm_compute. auto.
  - vm_compute. discriminate.
  - vm_compute. intros H. inversion H.
Defined.

(** A frame on a sketch at rest changes the clock only. *)
Lemma frame_idle h millis deltaTime s :
  idle s ->
  idle (frame h millis deltaTime s) /\
  World.explosions (Sketch.world (frame h millis deltaTime s))
  = World.explosions (Sketch.world s).
Proof.
  intros (Hf & Hp & Ha). unfold frame, draw, FireworkSystem_update.
  simpl. rewrite Ha. simpl. rewrite Hp, Hf. simpl.
  unfold idle. simpl. auto.
Qed.

Lemma run_idle h frames : forall s,
  idle s ->
  idle (run h frames s) /\
  World.explosions (Sketch.world (run h frames s))
  = World.explosions (Sketch.world s).
Proof.
  induction frames as [|[t dt] frames IH]; intros s Hs; [auto|].
  unfold run in *. simpl.
  destruct (frame_idle h t dt s Hs) as [Hi He].
  destruct (IH _ Hi) as [Hi' He']. split; [exact Hi'|congruence].
Qed.

Lemma run_app h a b s : run h (a ++ b) s = run h b (run h a s).
Proof. unfold run. apply foldl_app. Qed.

(** C7, as stated, fails in its last part: in a sketch without wind and
    air drag, at 62.5 frames per second, a shell launched by hand outlives
    its lifespan of 1.5 s and has faded out in the 126th frame, while it
    is still rising (its vertical velocity has gone from -24 to -13.92
    and its height from 800 to 761.86, far from the threshold of 80); the
    firework is retired, and in no later frame does anything explode. *)
Lemma launched_shell_never_detonates :
  map Firework.lifecycle (Sketch.fireworks calm_launch) = [Lifecycle.ASCENT] /\
  (let s := run host_zero (steady_frames 125) calm_launch in
   map Firework.lifecycle (Sketch.fireworks s) = [Lifecycle.ASCENT] /\
   World.particles (Sketch.world s) = [Firework.shell calm_firework] /\
   exists shell,
     World.heap (Sketch.world s) !! Firework.shell calm_firework = Some shell /\
     Particle.vel shell = Some (Vec.mk (-3 # 2) (-14) 0) /\
     Particle.pos shell = Some (Vec.mk 497 (19052 # 25) 0) /\
     Firework.explosionAltitude calm_firework == 80) /\
  forall later,
    let s := run host_zero ((steady_frames 126) ++ later) calm_launch in
    Sketch.fireworks s = [] /\
    World.explosions (Sketch.world s) = O.
Proof.
  split; [vm_compute; reflexivity|].
  split.
  { cbv zeta. split; [vm_compute; reflexivity|].
    split; [vm_compute; reflexivity|].
    eexists. split; [vm_compute; reflexivity|].
    split; [reflexivity|]. split; reflexivity. }
  intros later. cbv zeta. rewrite run_app.
  assert (Hi : idle (run host_zero (steady_frames 126) calm_launch) /\
               World.explosions
                 (Sketch.world (run host_zero (steady_frames 126) calm_launch)) = O)
    by (unfold idle; vm_compute; auto).
  destruct Hi as [Hi He].
  destruct (run_idle host_zero later _ Hi) as [(Hf & _) He'].
  split; [exact Hf|congruence].
Qed.

(** ** Spawning: what a computation adds to the world *)

Lemma grows_refl w : grows w w [].
Proof.
  unfold grows. rewrite app_nil_r. simpl. rewrite app_nil_r.
  repeat split; auto. exists []. rewrite app_nil_r. reflexivity.
Qed.

Lemma grows_trans w1 w2 w3 l1 l2 :
  grows w1 w2 l1 -> grows w2 w3 l2 -> grows w1 w3 (l1 ++ l2).
Proof.
  intros (H1 & P1 & C1 & M1 & D1 & c1 & L1) (H2 & P2 & C2 & M2 & D2 & c2 & L2).
  unfold grows. rewrite H2, H1, P2, P1, H1, C2, C1, M2, M1, D2, D1, L2, L1.
  rewrite !length_app, seq_app, !app_assoc.
  repeat split; auto. exists (c1 ++ c2). rewrite app_assoc. reflexivity.
Qed.

Lemma grows_length w w' l :
  grows w w' l ->
  length (World.particles w') = (length (World.particles w) + length l)%nat.
Proof.
  intros (_ & P & _). rewrite P, length_app, length_seq. reflexivity.
Qed.

Lemma quiet_ret {A} (a : A) : quiet (ret a).
Proof. intros w. apply grows_refl. Qed.

Lemma quiet_bind {A B} (m : M A) (k : A -> M B) :
  quiet m -> (forall a, quiet (k a)) -> quiet (bind m k).
Proof.
  intros Hm Hk w. unfold bind. pose proof (Hm w) as H1.
  destruct (m w) as [a w1]. simpl in H1.
  pose proof (Hk a w1) as H2.
  pose proof (grows_trans _ _ _ _ _ H1 H2) as H. exact H.
Qed.

Lemma quiet_get : quiet get.
Proof. intros w. apply grows_refl. Qed.

Lemma quiet_now : quiet now.
Proof. intros w. apply grows_refl. Qed.

Lemma quiet_log lvl msg : quiet (log lvl msg).
Proof.
  intros w. unfold log, modify, grows. simpl. rewrite !app_nil_r.
  repeat split; auto. eexists. reflexivity.
Qed.

Lemma quiet_random01 h : quiet (random01 h).
Proof.
  intros w. unfold random01, grows. simpl. rewrite !app_nil_r.
  repeat split; auto. exists []. rewrite app_nil_r. reflexivity.
Qed.

Lemma quiet_random h a b : quiet (random h a b).
Proof.
  unfold random. apply quiet_bind; [apply quiet_random01|].
  intros u. apply quiet_ret.
Qed.

Lemma quiet_random1 h a : quiet (random1 h a).
Proof.
  unfold random1. apply quiet_bind; [apply quiet_random01|].
  intros u. apply quiet_ret.
Qed.

Lemma quiet_random_of h {A} (l : list A) : quiet (random_of h l).
Proof.
  unfold random_of. apply quiet_bind; [apply quiet_random01|].
  intros u. apply quiet_ret.
Qed.

Lemma quiet_random_color h pal : quiet (random_color h pal).
Proof.
  unfold random_color. destruct pal.
  - apply quiet_bind; [apply quiet_random_of|]. intros c. apply quiet_ret.
  - apply quiet_bind; [apply quiet_random01|]. intros c. apply quiet_ret.
Qed.

Lemma quiet_random2D h : quiet (random2D h).
Proof.
  unfold random2D. apply quiet_bind; [apply quiet_random01|].
  intros u. apply quiet_ret.
Qed.

Lemma quiet_random3D h : quiet (random3D h).
Proof.
  unfold random3D. apply quiet_bind; [apply quiet_random01|].
  intros u1. apply quiet_bind; [apply quiet_random01|].
  intros u2. apply quiet_ret.
Qed.

Lemma quiet_enableFluidBehavior h p : quiet (Particle_enableFluidBehavior h p).
Proof.
  unfold Particle_enableFluidBehavior.
  apply quiet_bind; [apply quiet_random|]. intros r.
  apply quiet_bind; [apply quiet_random|]. intros s. apply quiet_ret.
Qed.

Lemma quiet_Particle_new h pos vel col size role options :
  quiet (Particle_new h pos vel col size role options).
Proof.
  unfold Particle_new.
  apply quiet_bind.
  { destruct (Options.lifespan options) as [v|];
      [destruct (Qeqb v 0)|]; try apply quiet_random; apply quiet_ret. }
  intros lifespan. apply quiet_bind; [apply quiet_now|]. intros t.
  apply quiet_bind; [apply quiet_random|]. intros d.
  simpl. apply quiet_ret.
Qed.

Lemma push_grows p w : grows w (snd (push p w)) [p].
Proof.
  unfold push, grows. simpl. repeat split; auto.
  exists []. rewrite app_nil_r. reflexivity.
Qed.


Lemma quiet_spawns {A} P (m : M A) : quiet m -> spawns P m.
Proof. intros H w. exists []. split; [apply H|constructor]. Qed.

Lemma spawns_bind {A B} P (m : M A) (k : A -> M B) :
  spawns P m -> (forall a, spawns P (k a)) -> spawns P (bind m k).
Proof.
  intros Hm Hk w. unfold bind. destruct (Hm w) as (l1 & G1 & F1).
  destruct (m w) as [a w1]. simpl in G1.
  destruct (Hk a w1) as (l2 & G2 & F2).
  exists (l1 ++ l2). split; [eapply grows_trans; eassumption|].
  apply Forall_app. auto.
Qed.

Lemma spawns_weaken {A} (P Q : Particle.t -> Prop) (m : M A) :
  (forall p, P p -> Q p) -> spawns P m -> spawns Q m.
Proof.
  intros HPQ Hm w. destruct (Hm w) as (l & G & F).
  exists l. split; [exact G|]. eapply Forall_impl; eassumption.
Qed.

Lemma spawns_one_spawns {A} P (m : M A) : spawns_one P m -> spawns P m.
Proof. intros H w. destruct (H w) as (l & G & F & _). eauto. Qed.

Lemma spawns_always_spawns {A} P (m : M A) : spawns_always P m -> spawns P m.
Proof.
  intros H w. destruct (H w) as (p & G & F). exists [p].
  split; [exact G|]. constructor; [exact F|constructor].
Qed.

Lemma spawns_repeatM P n (body : M unit) :
  spawns P body -> spawns P (repeatM n body).
Proof.
  intros Hb. induction n as [|n IH]; simpl.
  - apply quiet_spawns, quiet_ret.
  - apply spawns_bind; [exact Hb|]. intros _. exact IH.
Qed.

Lemma spawns_repeat_until P n (stop : M bool) (body : M unit) :
  quiet stop -> spawns P body -> spawns P (repeat_until n stop body).
Proof.
  intros Hs Hb. induction n as [|n IH]; simpl.
  - apply quiet_spawns, quiet_ret.
  - apply spawns_bind; [apply quiet_spawns, Hs|]. intros [|].
    + apply quiet_spawns, quiet_ret.
    + apply spawns_bind; [exact Hb|]. intros _. exact IH.
Qed.

Lemma spawns_forM P n (body : nat -> M unit) :
  (forall i, spawns P (body i)) -> forall i0, spawns P (forM n i0 body).
Proof.
  intros Hb. induction n as [|n IH]; intros i0; simpl.
  - apply quiet_spawns, quiet_ret.
  - apply spawns_bind; [apply Hb|]. intros _. apply IH.
Qed.

(** Draws before a step that creates at most one particle: the drawn
    value is known to satisfy [R]. *)
Lemma spawns_one_bind {A B} P (R : A -> Prop) (m : M A) (k : A -> M B) :
  quiet m -> (forall w, R (fst (m w))) ->
  (forall a, R a -> spawns_one P (k a)) -> spawns_one P (bind m k).
Proof.
  intros Hq HR Hk w. unfold bind.
  pose proof (Hq w) as G1. pose proof (HR w) as Ha.
  destruct (m w) as [a w1]. simpl in G1, Ha.
  destruct (Hk a Ha w1) as (l & G2 & F & Hc).
  exists l. split; [apply (grows_trans _ _ _ [] l G1 G2)|].
  split; [exact F|].
  destruct G1 as (_ & P1 & C1 & _). rewrite app_nil_r in P1.
  rewrite P1, C1 in Hc. exact Hc.
Qed.

Lemma spawns_always_bind {A B} P (R : A -> Prop) (m : M A) (k : A -> M B) :
  quiet m -> (forall w, R (fst (m w))) ->
  (forall a, R a -> spawns_always P (k a)) -> spawns_always P (bind m k).
Proof.
  intros Hq HR Hk w. unfold bind.
  pose proof (Hq w) as G1. pose proof (HR w) as Ha.
  destruct (m w) as [a w1]. simpl in G1, Ha.
  destruct (Hk a Ha w1) as (p & G2 & F).
  exists p. split; [apply (grows_trans _ _ _ [] [p] G1 G2)|exact F].
Qed.

Lemma Qnat_plus a b : Qnat (a + b) == Qnat a + Qnat b.
Proof.
  unfold Qnat. rewrite Nat2Z.inj_add, inject_Z_plus. reflexivity.
Qed.

Lemma Qnat_le a b : (a <= b)%nat -> Qnat a <= Qnat b.
Proof.
  intros H. unfold Qnat. rewrite <- Zle_Qle. lia.
Qed.

(** Under a whole cap, one more particle below the cap stays within it. *)
Lemma below_cap_room w :
  integral_cap w ->
  Qnat (length (World.particles w))
  < Config.maxTotalParticles (World.config w) ->
  room_for 1 w.
Proof.
  intros [z Hz] Hlt. unfold room_for. rewrite Hz in *.
  unfold Qnat in *. rewrite <- Zlt_Qlt in Hlt. rewrite <- Zle_Qle. lia.
Qed.

(** A loop whose body creates at most one particle: at most [n]
    particles, exactly [n] when there is room for them, and a whole cap
    that held before holds after. *)
Lemma repeatM_count P n (body : M unit) :
  spawns_one P body ->
  forall w,
    exists l,
      grows w (snd (repeatM n body w)) l /\ Forall P l /\
      (length l <= n)%nat /\
      (room_for n w -> length l = n) /\
      (integral_cap w -> within_cap w ->
       within_cap (snd (repeatM n body w))).
Proof.
  intros Hb. induction n as [|n IH]; intros w; simpl.
  - exists []. split; [apply grows_refl|]. split; [constructor|].
    split; [reflexivity|]. split; [reflexivity|]. auto.
  - unfold bind. destruct (Hb w) as (l1 & G1 & F1 & Hc).
    destruct (body w) as [u w1]. simpl in G1.
    destruct (IH w1) as (l2 & G2 & F2 & Hle & Hroom & Hcap).
    pose proof (grows_length _ _ _ G1) as L1.
    assert (C1 : World.config w1 = World.config w) by apply G1.
    exists (l1 ++ l2). split; [eapply grows_trans; eassumption|].
    split; [apply Forall_app; auto|]. rewrite length_app.
    split; [|split].
    + destruct Hc as [[_ ->]|[_ ->]]; simpl; lia.
    + intros Hr. unfold room_for in Hr.
      destruct Hc as [[Hlt Hone]|[Hge ->]].
      * rewrite Hone. f_equal. apply Hroom. unfold room_for.
        rewrite C1, L1, Hone.
        replace (length (World.particles w) + 1 + n)%nat
          with (length (World.particles w) + S n)%nat by lia.
        exact Hr.
      * exfalso. rewrite Qnat_plus in Hr.
        assert (1 <= Qnat (S n)) by (apply (Qnat_le 1 (S n)); lia). lra.
    + intros Hi Hw. apply Hcap.
      * destruct Hi as [z Hz]. exists z. rewrite C1. exact Hz.
      * unfold within_cap. rewrite C1, L1.
        destruct Hc as [[Hlt Hone]|[Hge ->]].
        -- rewrite Hone. apply (below_cap_room w Hi Hlt).
        -- simpl. rewrite Nat.add_0_r. exact Hw.
Qed.

(** A loop whose body always creates one particle creates [n]. *)
Lemma repeatM_always P n (body : M unit) :
  spawns_always P body ->
  forall w,
    exists l,
      grows w (snd (repeatM n body w)) l /\ Forall P l /\ length l = n.
Proof.
  intros Hb. induction n as [|n IH]; intros w; simpl.
  - exists []. split; [apply grows_refl|]. split; [constructor|reflexivity].
  - unfold bind. destruct (Hb w) as (p & G1 & F1).
    destruct (body w) as [u w1]. simpl in G1.
    destruct (IH w1) as (l2 & G2 & F2 & Hl).
    exists ([p] ++ l2). split; [eapply grows_trans; eassumption|].
    split; [constructor; assumption|]. simpl. congruence.
Qed.

(** ** Explosions *)

Lemma random_range h a b w :
  Host.rand_in_range h -> a <= b ->
  a <= fst (random h a b w) <= b.
Proof.
  intros Hr Hab. unfold random, bind, random01, ret. simpl.
  assert (E : Qltb b a = false) by (apply Qltb_ge, Hab). rewrite E.
  pose proof (Hr (World.cursor w)) as Hu.
  set (u := Host.rand h (World.cursor w)) in *. nra.
Qed.

Lemma Particle_new_made h pos vel col size role lifespan sr cr fr w :
  made pos vel role
    (fst (Particle_new h pos vel col size role
            (Options.mk lifespan sr cr fr None None None) w)).
Proof.
  unfold Particle_new, bind, ret, now, random, random01, made.
  repeat case_match; simpl in *; try discriminate; auto.
Qed.

(** [createParticle] creates the particle it is asked for when the array
    is below the cap, and nothing otherwise. *)
Lemma createParticle_one h pos vel col size role lifespan sr cr fr :
  spawns_one (made pos vel role)
    (Firework_createParticle h (Some SystemConfig) pos vel col size role
       (Options.mk lifespan sr cr fr None None None)).
Proof.
  intros w. unfold Firework_createParticle, bind, get.
  destruct (Qltb (Qnat (length (World.particles w)))
              (Config.maxTotalParticles (World.config w))) eqn:E.
  - apply Qltb_lt in E.
    pose proof (quiet_Particle_new h pos vel col size role
                  (Options.mk lifespan sr cr fr None None None) w) as G1.
    pose proof (Particle_new_made h pos vel col size role lifespan sr cr fr w)
      as Hm.
    destruct (Particle_new h pos vel col size role _ w) as [p w1].
    simpl in G1, Hm.
    set (p' := Particle.set_configRef _ _).
    pose proof (push_grows p' w1) as G2.
    destruct (push p' w1) as [id w2]. simpl in G2. unfold ret. simpl.
    exists [p']. split; [apply (grows_trans _ _ _ [] [p'] G1 G2)|].
    split; [|left; auto].
    constructor; [|constructor]. exact Hm.
  - apply Qltb_ge in E. exists []. unfold ret. simpl.
    split; [apply grows_refl|]. split; [constructor|]. right. auto.
Qed.

Lemma createParticle_none h pos vel col size role options :
  quiet (Firework_createParticle h None pos vel col size role options).
Proof. intros w. apply grows_refl. Qed.

Lemma spawns_one_weaken {A} (P Q : Particle.t -> Prop) (m : M A) :
  (forall p, P p -> Q p) -> spawns_one P m -> spawns_one Q m.
Proof.
  intros HPQ Hm w. destruct (Hm w) as (l & G & F & Hc).
  exists l. split; [exact G|]. split; [|exact Hc].
  eapply Forall_impl; eassumption.
Qed.

Lemma spawns_one_draw {A B} P (m : M A) (k : A -> M B) :
  quiet m -> (forall a, spawns_one P (k a)) -> spawns_one P (bind m k).
Proof.
  intros Hq Hk. apply (spawns_one_bind P (fun _ => True)); auto.
Qed.

(** One turn of the radial loop of PEONY. *)
Lemma peony_turn h this explosionPos inheritedVel baseForce :
  Host.rand_in_range h -> 0 <= baseForce ->
  Firework.config this = Some SystemConfig ->
  spawns_one
    (radial h explosionPos inheritedVel Role.EXPLOSION
       (baseForce * 0.8) (baseForce * 1.2))
    (angle <- random1 h (Host.TWO_PI h) ;;
     forceMag <- random h (baseForce * 0.8) (baseForce * 1.2) ;;
     (let forceMag' := forceMag * 1.0 in
      let vel :=
        Vec.add (Vec.mult (Host.fromAngle h angle) forceMag') inheritedVel in
      l <- random h 1.0 1.8 ;;
      let lifespan := l * 1.0 in
      col <- random_color h (Firework.palette this) ;;
      Firework_createParticle h (Firework.config this) explosionPos vel col
        3 Role.EXPLOSION
        (Options.mk (Some lifespan) None None None None None None))).
Proof.
  intros Hr Hb Hc. rewrite Hc.
  apply spawns_one_draw; [apply quiet_random1|]. intros angle.
  apply (spawns_one_bind _ (fun m => baseForce * 0.8 <= m <= baseForce * 1.2));
    [apply quiet_random| |].
  { intros w. apply random_range; [exact Hr|lra]. }
  intros m Hm. cbv zeta.
  apply spawns_one_draw; [apply quiet_random|]. intros l.
  apply spawns_one_draw; [apply quiet_random_color|]. intros col.
  eapply spawns_one_weaken; [|apply createParticle_one].
  intros p (Hp & Hv & Hrole & _). unfold radial.
  split; [exact Hp|]. split; [exact Hrole|].
  exists angle, (m * 1.0). split; [lra|exact Hv].
Qed.

Lemma relative_speed dir m inh :
  relative_speedSq (Vec.add (Vec.mult dir m) inh) inh
  == m * m * Vec.magSq dir.
Proof.
  unfold relative_speedSq, Vec.add, Vec.mult, Vec.magSq. simpl.
  rewrite !Qred_correct. ring.
Qed.

(** [explode] with a configuration and a shell that has a position. *)
Lemma explode_eval h this w shell pos :
  Firework.config this = Some SystemConfig ->
  World.heap w !! Firework.shell this = Some shell ->
  Particle.pos shell = Some pos ->
  let this' :=
    Firework.set_explodeCalls (S (Firework.explodeCalls this)) this in
  let w0 := World.set_explosions (S (World.explosions w)) w in
  Firework_explode h this w
  = (this',
     snd (explode_switch h this' pos (inheritedVel_of shell)
            (numParticles_of (World.config w))
            (baseForce_of (World.config w)) w0)).
Proof.
  intros Hc Hs Hp. cbv zeta.
  unfold Firework_explode, bind, modify, get.
  set (this' := Firework.set_explodeCalls _ this).
  set (w0 := World.set_explosions _ w).
  assert (Hc' : Firework.config this' = Some SystemConfig) by exact Hc.
  assert (Hs' : World.heap w0 !! Firework.shell this' = Some shell)
    by exact Hs.
  change (World.config w) with (World.config w0).
  rewrite Hc', Hs', Hp.
  destruct (explode_switch h _ pos _ _ _ _). reflexivity.
Qed.

Lemma grows_after_count w w' l :
  grows (World.set_explosions (S (World.explosions w)) w) w' l ->
  grows w w' l.
Proof. unfold grows. simpl. auto. Qed.

Lemma grows_console w w' l e :
  grows w w' l -> e ∈ World.console w -> e ∈ World.console w'.
Proof.
  intros (_ & _ & _ & _ & _ & c & ->) H. apply elem_of_app. auto.
Qed.

Lemma baseForce_nonneg config :
  0 <= Config.explosionSize config -> 0 <= baseForce_of config.
Proof.
  intros H. unfold baseForce_of, orQ.
  destruct (Qeqb _ 0); unfold Qdiv;
    (apply Qmult_le_0_compat; [lra|apply Qinv_le_0_compat; lra]).
Qed.

(** C6, as the code has it: a PEONY explosion, with the generator in range
    and a non-negative explosion size, creates at most [numParticles]
    particles (the floor of the configured count, 1000 if it is zero,
    5000 at most) and exactly that many when the global cap leaves room
    for them; each starts at the position of the shell with role
    EXPLOSION, and its velocity is a direction of [fromAngle] times a
    magnitude within 0.8 and 1.2 times the base force,
    [(explosionSize || 400) / 10] (a tenth of the explosion size, and 40
    when the size is zero), plus a tenth of the velocity of the shell: the
    speed relative to that inherited velocity is the magnitude, when the
    directions are unit vectors. *)
Theorem peony_burst h this w shell pos :
  Host.rand_in_range h ->
  0 <= Config.explosionSize (World.config w) ->
  Firework.type this = Some "PEONY" ->
  Firework.config this = Some SystemConfig ->
  World.heap w !! Firework.shell this = Some shell ->
  Particle.pos shell = Some pos ->
  let n := iterations (numParticles_of (World.config w)) in
  let base := baseForce_of (World.config w) in
  exists l,
    grows w (snd (Firework_explode h this w)) l /\
    (length l <= n)%nat /\
    (room_for n w -> length l = n) /\
    Forall (fun p =>
              Particle.pos p = Some pos /\
              Particle.role p = Role.EXPLOSION /\
              exists angle m v,
                base * 0.8 <= m <= base * 1.2 /\
                Particle.vel p = Some v /\
                v = Vec.add (Vec.mult (Host.fromAngle h angle) m)
                      (inheritedVel_of shell) /\
                (Host.unit_angles h ->
                 relative_speedSq v (inheritedVel_of shell) == m * m)) l.
Proof.
  intros Hr He Ht Hc Hs Hp. cbv zeta.
  rewrite (explode_eval h this w shell pos Hc Hs Hp). cbv zeta. simpl snd.
  set (this' := Firework.set_explodeCalls _ this).
  set (w0 := World.set_explosions _ w).
  unfold explode_switch.
  replace (Firework.type this') with (Some "PEONY") by (symmetry; exact Ht).
  simpl bool_decide. cbv iota.
  unfold explode_peony, radial_burst.
  destruct (repeatM_count
              (radial h pos (inheritedVel_of shell) Role.EXPLOSION
                 (baseForce_of (World.config w) * 0.8)
                 (baseForce_of (World.config w) * 1.2))
              (iterations (numParticles_of (World.config w)))
              _ (peony_turn h this' pos (inheritedVel_of shell)
                   (baseForce_of (World.config w)) Hr
                   (baseForce_nonneg _ He) Hc) w0)
    as (l & G & F & Hle & Hroom & _).
  exists l. split; [apply grows_after_count, G|].
  split; [exact Hle|]. split; [exact Hroom|].
  eapply Forall_impl; [exact F|].
  intros p (H1 & H2 & angle & m & Hm & Hv).
  split; [exact H1|]. split; [exact H2|].
  exists angle, m, (Vec.add (Vec.mult (Host.fromAngle h angle) m)
                      (inheritedVel_of shell)).
  split; [exact Hm|]. split; [exact Hv|]. split; [reflexivity|].
  intros Hu. rewrite relative_speed. destruct (Hu angle) as [-> _]. ring.
Qed.

Lemma host_zero_in_range : Host.rand_in_range host_zero.
Proof. intros n. split; [apply Qle_refl|reflexivity]. Qed.

Lemma unit_vector_unit a :
  Vec.magSq (unit_vector a) == 1 /\ Vec.z (unit_vector a) == 0.
Proof.
  unfold unit_vector, Vec.magSq. simpl. split; [|reflexivity].
  field. nra.
Qed.

Lemma peony_burst_witness :
  exists l,
    grows brisk_world
      (snd (Firework_explode host_zero brisk_firework brisk_world)) l /\
    (length l <= 100)%nat /\
    Forall (fun p => Particle.pos p = Some brisk_pos) l.
Proof.
  destruct (peony_burst host_zero brisk_firework brisk_world brisk_shell
              brisk_pos)
    as (l & G & Hle & _ & F).
  - intros n. split; [apply Qle_refl|reflexivity].
  - vm_compute. discriminate.
  - reflexivity.
  - reflexivity.
  - vm_compute. reflexivity.
  - vm_compute. reflexivity.
  - exists l. split; [exact G|]. split; [exact Hle|].
    eapply Forall_impl; [exact F|]. intros p (Hp & _). exact Hp.
Defined.

(** C6, as stated, fails on the speeds: in the scenario of the
    specification (100 particles, size 400, PEONY, launched towards
    x = 500 on a canvas 800 high) the shell stops rising in the 47th
    frame with velocity (-1.5, -0.5); the first of the 100 particles
    leaves at angle zero with magnitude 32 and velocity (31.85, -0.05),
    slower than 32. *)
Lemma peony_particle_below_range :
  baseForce_of brisk_config * 0.8 == 32 /\
  baseForce_of brisk_config * 1.2 == 48 /\
  let w := Sketch.world (run host_zero (steady_frames 47) brisk_launch) in
  World.explosions w = 1%nat /\
  length (World.particles w) = 101%nat /\
  exists shell p,
    World.heap w !! 0%nat = Some shell /\
    Particle.vel shell = Some (Vec.mk (-3 # 2) (-1 # 2) 0) /\
    World.heap w !! 1%nat = Some p /\
    Particle.role p = Role.EXPLOSION /\
    Particle.pos p = Particle.pos shell /\
    Particle.vel p = Some (Vec.mk (637 # 20) (-1 # 20) 0) /\
    Vec.magSq (Vec.mk (637 # 20) (-1 # 20) 0) < 32 * 32.
Proof.
  split; [reflexivity|]. split; [reflexivity|]. cbv zeta.
  split; [vm_compute; reflexivity|]. split; [vm_compute; reflexivity|].
  assert (H : match World.heap
                      (Sketch.world
                         (run host_zero (steady_frames 47) brisk_launch))
              with
              | shell :: p :: _ =>
                  Particle.vel shell = Some (Vec.mk (-3 # 2) (-1 # 2) 0) /\
                  Particle.role p = Role.EXPLOSION /\
                  Particle.pos p = Particle.pos shell /\
                  Particle.vel p = Some (Vec.mk (637 # 20) (-1 # 20) 0)
              | _ => False
              end) by (vm_compute; auto).
  destruct (World.heap _) as [|shell [|p rest]]; try contradiction.
  exists shell, p. destruct H as (H1 & H2 & H3 & H4).
  repeat (split; [reflexivity || assumption|]). reflexivity.
Qed.

(** *** The default branch *)

Ltac in_list :=
  repeat first [apply list_elem_of_here | apply list_elem_of_further].

Lemma not_recognized_default h this pos inh n base :
  ~ recognized (Firework.type this) ->
  explode_switch h this pos inh n base = explode_default h this pos inh n base.
Proof.
  intros H. unfold explode_switch. cbv zeta.
  repeat match goal with
         | |- context [bool_decide (Firework.type this = Some ?s)] =>
             destruct (bool_decide (Firework.type this = Some s)) eqn:E;
             [apply bool_decide_eq_true in E; exfalso; apply H;
              exists s; split; [exact E|in_list]
             |clear E]
         end.
  reflexivity.
Qed.

(** One turn of the loop of the default branch. *)
Lemma default_turn h this explosionPos inheritedVel baseForce :
  Firework.config this = Some SystemConfig ->
  spawns_one
    (fun p => Particle.pos p = Some explosionPos
              /\ Particle.role p = Role.EXPLOSION)
    (dir <- random3D h ;;
     m <- random h (baseForce * 0.7) (baseForce * 1.3) ;;
     (let vel3D := Vec.mult dir m in
      let vel :=
        Vec.add (Vec.create (Vec.x vel3D) (Vec.y vel3D)) inheritedVel in
      col <- random_color h (Firework.palette this) ;;
      lifespan <- random h 1.2 2.2 ;;
      Firework_createParticle h (Firework.config this) explosionPos vel col
        3 Role.EXPLOSION
        (Options.mk (Some lifespan) None None None None None None))).
Proof.
  intros Hc. rewrite Hc.
  apply spawns_one_draw; [apply quiet_random3D|]. intros dir.
  apply spawns_one_draw; [apply quiet_random|]. intros m. cbv zeta.
  apply spawns_one_draw; [apply quiet_random_color|]. intros col.
  apply spawns_one_draw; [apply quiet_random|]. intros lifespan.
  eapply spawns_one_weaken; [|apply createParticle_one].
  intros p (Hp & _ & Hrole & _). auto.
Qed.

(** C8, as the code has it: in the current sketch, [explode] on a
    firework whose tag is none of the seven pattern names (with its
    configuration and a shell that has a position) logs the fallback
    warning and makes the generic burst: at most [numParticles]
    particles, exactly that many when the cap leaves room, each of role
    EXPLOSION at the position of the shell; the call returns.  In the
    earlier sketch there is no default: a tag that names neither a
    pattern of the table nor a function every object inherits makes
    [explode] raise a TypeError. *)
Theorem unrecognized_type_falls_back h this w shell pos :
  ~ recognized (Firework.type this) ->
  Firework.config this = Some SystemConfig ->
  World.heap w !! Firework.shell this = Some shell ->
  Particle.pos shell = Some pos ->
  let n := iterations (numParticles_of (World.config w)) in
  ((LogWarn, "Unknown or fallback firework type:")
   ∈ World.console (snd (Firework_explode h this w)) /\
   exists l,
     grows w (snd (Firework_explode h this w)) l /\
     (length l <= n)%nat /\
     (room_for n w -> length l = n) /\
     Forall (fun p => Particle.pos p = Some pos
                      /\ Particle.role p = Role.EXPLOSION) l) /\
  (forall cfg (old : Legacy.Firework.t) c,
     Legacy.Firework.type old ∉ Legacy.FIREWORK_TYPES ->
     Legacy.Firework.type old ∉ Legacy.Object_prototype_functions ->
     exists f,
       Legacy.Firework_explode h cfg old c
       = Legacy.Thrown "TypeError" (f, c) /\
       Legacy.Firework.particles f = Legacy.Firework.particles old).
Proof.
  intros Hn Hc Hs Hp. cbv zeta. split.
  - set (this' := Firework.set_explodeCalls (S (Firework.explodeCalls this))
                    this).
    set (w0 := World.set_explosions (S (World.explosions w)) w).
    assert (E : exists w1,
               grows w0 w1 [] /\
               (LogWarn, "Unknown or fallback firework type:")
               ∈ World.console w1 /\
               snd (Firework_explode h this w)
               = snd (repeatM (iterations (numParticles_of (World.config w)))
                        (dir <- random3D h ;;
                         m <- random h (baseForce_of (World.config w) * 0.7)
                                (baseForce_of (World.config w) * 1.3) ;;
                         (let vel3D := Vec.mult dir m in
                          let vel :=
                            Vec.add (Vec.create (Vec.x vel3D) (Vec.y vel3D))
                                    (inheritedVel_of shell) in
                          col <- random_color h (Firework.palette this') ;;
                          lifespan <- random h 1.2 2.2 ;;
                          Firework_createParticle h (Firework.config this')
                            pos vel col 3 Role.EXPLOSION
                            (Options.mk (Some lifespan) None None None None
                               None None))) w1)).
    { rewrite (explode_eval h this w shell pos Hc Hs Hp). cbv zeta. simpl snd.
      fold this' w0.
      rewrite (not_recognized_default h this' pos _ _ _ Hn).
      unfold explode_default. cbv zeta. unfold bind at 1.
      exists (snd (log LogWarn "Unknown or fallback firework type:" w0)).
      split; [apply quiet_log|].
      split; [unfold log, modify; simpl; apply elem_of_app; right;
              apply list_elem_of_here|].
      reflexivity. }
    destruct E as (w1 & G0 & Hin & ->).
    destruct (repeatM_count _
                (iterations (numParticles_of (World.config w)))
                _ (default_turn h this' pos (inheritedVel_of shell)
                     (baseForce_of (World.config w)) Hc) w1)
      as (l & G & F & Hle & Hroom & _).
    split; [eapply grows_console; eassumption|].
    exists l.
    split; [apply grows_after_count, (grows_trans _ _ _ [] l G0 G)|].
    split; [exact Hle|]. split; [|exact F].
    intros Hr. apply Hroom. unfold room_for in *.
    destruct G0 as (_ & P0 & C0 & _). rewrite app_nil_r in P0.
    rewrite P0, C0. exact Hr.
  - intros cfg old c H1 H2. unfold Legacy.Firework_explode.
    unfold Legacy.explosionPatterns. simpl Legacy.Firework.type.
    repeat match goal with
           | |- context [String.eqb (Legacy.Firework.type old) ?s] =>
               destruct (String.eqb (Legacy.Firework.type old) s) eqn:E;
               [apply String.eqb_eq in E; exfalso; apply H1; rewrite E;
                unfold Legacy.FIREWORK_TYPES; in_list
               |clear E]
           end.
    rewrite (bool_decide_eq_false_2 _ H2).
    eexists. split; reflexivity.
Qed.

Lemma unrecognized_type_falls_back_witness :
  exists f,
    Legacy.Firework_explode host_half legacy_config legacy_willow 20
    = Legacy.Thrown "TypeError" (f, 20%nat) /\
    Legacy.Firework.particles f = Legacy.Firework.particles legacy_willow.
Proof.
  refine (proj2 (unrecognized_type_falls_back host_zero
                   (Firework.set_type (Some "COMET") brisk_firework)
                   brisk_world brisk_shell brisk_pos _ _ _ _)
            legacy_config legacy_willow 20%nat _ _).
  - intros (t & Ht & Hin). injection Ht as <-.
    repeat (apply elem_of_cons in Hin as [Hin|Hin]; [discriminate|]).
    inversion Hin.
  - reflexivity.
  - vm_compute. reflexivity.
  - vm_compute. reflexivity.
  - intros Hin.
    repeat (apply elem_of_cons in Hin as [Hin|Hin]; [discriminate|]).
    inversion Hin.
  - intros Hin.
    repeat (apply elem_of_cons in Hin as [Hin|Hin]; [discriminate|]).
    inversion Hin.
Defined.

(** C8, as stated, fails in the earlier sketch: [explode] on a firework
    tagged WILLOW (a pattern of the current sketch, not of the earlier
    one) raises instead of making a burst. *)
Lemma legacy_unknown_type_raises :
  Legacy.Firework.type legacy_willow = "WILLOW" /\
  ("WILLOW" ∉ Legacy.FIREWORK_TYPES) /\
  exists f,
    Legacy.Firework_explode host_half legacy_config legacy_willow 20
    = Legacy.Thrown "TypeError" (f, 20%nat) /\
    Legacy.Firework.particles f = [] /\
    Legacy.Firework.lifecycle f = Lifecycle.ASCENT.
Proof.
  split; [reflexivity|]. split.
  - intros Hin.
    repeat (apply elem_of_cons in Hin as [Hin|Hin]; [discriminate|]).
    inversion Hin.
  - eexists. split; [vm_compute; reflexivity|]. split; reflexivity.
Qed.

(** *** Multi-break: the mini-shells and their secondary explosions *)

Lemma validSubTypes_are :
  validSubTypes
  = ["PEONY"; "CHRYSANTHEMUM"; "PALM"; "WILLOW"; "STROBE"; "CRACKLING"].
Proof. reflexivity. Qed.

Lemma validSubTypes_ok t :
  t ∈ validSubTypes -> t <> "RANDOM" /\ t <> "MULTI_BREAK".
Proof.
  rewrite validSubTypes_are. intros Hin.
  repeat (apply elem_of_cons in Hin as [->|Hin];
          [split; discriminate|]).
  inversion Hin.
Qed.

Lemma index_elem {A} (l : list A) k t : index l k = Some t -> t ∈ l.
Proof.
  unfold index. destruct (Qltb k 0); [discriminate|].
  intros H. eapply list_elem_of_lookup_2. exact H.
Qed.

Lemma index_some {A} (l : list A) k :
  0 <= k -> k < Qnat (length l) -> is_Some (index l k).
Proof.
  intros H0 H1. unfold index.
  assert (E : Qltb k 0 = false) by (apply Qltb_ge, H0). rewrite E.
  apply lookup_lt_is_Some.
  assert (Hf : (0 <= Qfloor k)%Z).
  { change 0%Z with (Qfloor 0). apply Qfloor_resp_le, H0. }
  assert (Hlt : (Qfloor k < Z.of_nat (length l))%Z).
  { rewrite Zlt_Qlt. eapply Qle_lt_trans; [apply Qfloor_le|exact H1]. }
  lia.
Qed.

Lemma random_of_elem h {A} (l : list A) w t :
  fst (random_of h l w) = Some t -> t ∈ l.
Proof. unfold random_of, bind, random01, ret. simpl. apply index_elem. Qed.

Lemma random_of_some h {A} (l : list A) w :
  Host.rand_in_range h -> l <> [] -> is_Some (fst (random_of h l w)).
Proof.
  intros Hr Hl. unfold random_of, bind, random01, ret. simpl.
  pose proof (Hr (World.cursor w)) as Hu.
  set (u := Host.rand h (World.cursor w)) in *.
  assert (Hn : 1 <= Qnat (length l)).
  { apply (Qnat_le 1). destruct l; [congruence|simpl; lia]. }
  apply index_some; nra.
Qed.

Lemma Particle_new_waiting h pos vel col size options w :
  let p := fst (Particle_new h pos vel col size Role.MINI_SHELL options w) in
  Particle.role p = Role.MINI_SHELL /\ complete p /\
  Particle.isFading p = false /\ Particle.secondaryCalls p = O.
Proof.
  unfold Particle_new, bind, ret, now, random, random01, complete.
  repeat case_match; simpl in *; try discriminate; intuition eauto.
Qed.

(** [launch_miniShell] pushes its mini-shell whatever the cap. *)
Lemma launch_miniShell_always h this explosionPos vel :
  spawns_always (miniShell_made h)
    (launch_miniShell h this explosionPos vel).
Proof.
  intros w. unfold launch_miniShell, bind.
  pose proof (quiet_Particle_new h explosionPos vel (RGBA 255 220 150 200) 3
                Role.MINI_SHELL Options.empty w) as G1.
  pose proof (Particle_new_waiting h explosionPos vel (RGBA 255 220 150 200)
                3 Options.empty w) as H1.
  destruct (Particle_new h explosionPos vel _ 3 Role.MINI_SHELL _ w)
    as [p0 w1]. cbv zeta in H1. simpl in G1, H1.
  pose proof (quiet_random h 0.4 0.9 w1) as G2.
  pose proof (fun Hr => random_range h 0.4 0.9 w1 Hr ltac:(lra)) as H2.
  destruct (random h 0.4 0.9 w1) as [delay w2]. simpl in G2, H2.
  pose proof (quiet_random_of h validSubTypes w2) as G3.
  pose proof (random_of_elem h validSubTypes w2) as H3.
  pose proof (fun Hr => random_of_some h validSubTypes w2 Hr
                          ltac:(discriminate)) as H3'.
  destruct (random_of h validSubTypes w2) as [subType w3].
  simpl in G3, H3, H3'.
  pose proof (quiet_random_of h PALETTES w3) as G4.
  destruct (random_of h PALETTES w3) as [pal w4]. simpl in G4.
  unfold now at 1.
  set (p := Particle.set_configRef _ _).
  pose proof (push_grows p w4) as G5.
  destruct (push p w4) as [id w5]. simpl in G5. unfold ret. simpl snd.
  exists p. split.
  - apply (grows_trans _ _ _ [] [p] G1).
    apply (grows_trans _ _ _ [] [p] G2).
    apply (grows_trans _ _ _ [] [p] G3).
    apply (grows_trans _ _ _ [] [p] G4). exact G5.
  - destruct H1 as (Hr1 & Hc1 & Hf1 & Hs1).
    unfold miniShell_made. subst p. simpl.
    split; [exact Hr1|]. split.
    + intros t Ht. pose proof (H3 t Ht) as Hin.
      split; [exact Hin|apply validSubTypes_ok, Hin].
    + intros Hr. split; [apply H3', Hr|].
      destruct (H2 Hr) as [Hlo Hhi].
      split; [|split; assumption].
      unfold waiting, complete in *. simpl.
      split; [exact Hr1|]. split; [lra|]. auto.
Qed.

Lemma multi_break_turn h this explosionPos inheritedVel lo hi :
  spawns_always (miniShell_made h)
    (angle <- random1 h (Host.TWO_PI h) ;;
     forceMag <- random h lo hi ;;
     launch_miniShell h this explosionPos
       (Vec.add (Vec.mult (Host.fromAngle h angle) forceMag)
          (Vec.mult inheritedVel 1.5))).
Proof.
  apply (spawns_always_bind _ (fun _ => True)); [apply quiet_random1|auto|].
  intros angle _.
  apply (spawns_always_bind _ (fun _ => True)); [apply quiet_random|auto|].
  intros forceMag _. apply launch_miniShell_always.
Qed.

Lemma iterations_inject z : iterations (inject_Z z) = Z.to_nat z.
Proof. unfold iterations. rewrite Qceiling_Z. reflexivity. Qed.

(** The MULTI_BREAK branch pushes as many mini-shells as it draws breaks,
    at least two when the generator is in range, whatever the cap. *)
Lemma multi_break_count h this explosionPos inheritedVel baseForce w :
  exists l,
    grows w (snd (explode_multi_break h this explosionPos inheritedVel
                    baseForce w)) l /\
    Forall (miniShell_made h) l /\
    (Host.rand_in_range h -> (2 <= length l <= 5)%nat).
Proof.
  unfold explode_multi_break, bind.
  pose proof (quiet_random h 2 5 w) as G0.
  pose proof (fun Hr => random_range h 2 5 w Hr ltac:(lra)) as H0.
  destruct (random h 2 5 w) as [b w1]. simpl in G0, H0. cbv zeta.
  unfold radial_burst.
  destruct (repeatM_always _ (iterations (inject_Z (Qfloor b))) _
              (multi_break_turn h this explosionPos inheritedVel
                 (baseForce * 0.6) (baseForce * 1.0)) w1)
    as (l & G & F & Hl).
  exists l. split; [apply (grows_trans _ _ _ [] l G0 G)|].
  split; [exact F|].
  intros Hr. destruct (H0 Hr) as [Hlo Hhi]. rewrite Hl, iterations_inject.
  assert (H2 : (2 <= Qfloor b)%Z).
  { change 2%Z with (Qfloor 2). apply Qfloor_resp_le, Hlo. }
  assert (H5 : (Qfloor b <= 5)%Z).
  { change 5%Z with (Qfloor 5). apply Qfloor_resp_le, Hhi. }
  lia.
Qed.

Lemma quiet_particles_length : quiet particles_length.
Proof. intros w. apply grows_refl. Qed.

Lemma createParticle_spawns h pos vel col size role lifespan sr cr fr :
  spawns (fun p => Particle.role p = role)
    (Firework_createParticle h (Some SystemConfig) pos vel col size role
       (Options.mk lifespan sr cr fr None None None)).
Proof.
  apply (spawns_weaken (made pos vel role)).
  - intros p (_ & _ & Hr & _). exact Hr.
  - apply spawns_one_spawns, createParticle_one.
Qed.

Lemma secondary_burst_spawns h P count maxP lo hi inh spawn :
  (forall vel, spawns P (spawn vel)) ->
  spawns P (secondary_burst h count maxP lo hi inh spawn).
Proof.
  intros Hs. unfold secondary_burst. apply spawns_repeat_until.
  - apply quiet_bind; [apply quiet_particles_length|].
    intros n. apply quiet_ret.
  - apply spawns_bind; [apply quiet_spawns, quiet_random1|]. intros angle.
    apply spawns_bind; [apply quiet_spawns, quiet_random|]. intros forceMag.
    apply Hs.
Qed.

Ltac draw_spawns :=
  repeat (apply spawns_bind;
          [apply quiet_spawns;
           first [apply quiet_random | apply quiet_random_color
                 | apply quiet_random1]|intros ?]).

(** A secondary explosion creates particles of three roles only. *)
Lemma secondary_explosion_spawns h this pos :
  spawns secondary_role (secondary_explosion h this pos).
Proof.
  unfold secondary_explosion.
  apply spawns_bind; [apply quiet_spawns, quiet_get|]. intros w0.
  apply spawns_bind.
  { apply quiet_spawns. destruct (Particle.palette this);
      [apply quiet_ret|apply quiet_random_of]. }
  intros paletteToUse. cbv zeta.
  destruct (String.eqb _ "CRACKLING");
    [|destruct (String.eqb _ "STROBE")];
    apply secondary_burst_spawns; intros vel; draw_spawns;
    (eapply spawns_weaken; [|apply createParticle_spawns]);
    unfold secondary_role; intros p Hp; simpl in Hp; auto.
Qed.

Lemma explodeSecondary_spawns h p :
  spawns secondary_role (Particle_explodeSecondary h p).
Proof.
  unfold Particle_explodeSecondary. cbv zeta.
  set (p1 := Particle.set_secondaryCalls _ p). clearbody p1.
  destruct (Particle.configRef p1) as [[]|];
    [destruct (Particle.pos p1) as [pos|]|].
  - apply spawns_bind.
    + apply quiet_spawns. destruct (Particle.vel p1).
      * apply quiet_ret.
      * apply quiet_bind; [apply quiet_log|]. intros _. apply quiet_ret.
    + intros this. apply spawns_bind; [apply secondary_explosion_spawns|].
      intros _. apply quiet_spawns, quiet_ret.
  - apply quiet_spawns, quiet_bind; [apply quiet_log|].
    intros _. apply quiet_ret.
  - apply quiet_spawns, quiet_bind; [apply quiet_log|].
    intros _. apply quiet_ret.
Qed.

(** *** Particles that are not mini-shells *)

Lemma role_eqb_neq r s : r <> s -> Role.eqb r s = false.
Proof.
  intros H. destruct (Role.eqb r s) eqn:E; [|reflexivity].
  apply role_eqb_eq in E. contradiction.
Qed.

Lemma same_identity_trans p q r :
  same_identity p q -> same_identity q r -> same_identity p r.
Proof. unfold same_identity. intuition congruence. Qed.

Lemma kept_identity p q : kept p q -> same_identity p q.
Proof. intros (_ & H & _). exact H. Qed.

Lemma update_fading_identity t a p w :
  same_identity p (fst (update_fading t a p w)).
Proof.
  destruct (Particle.isFading p) eqn:Hf.
  - apply (update_fading_on t a p w Hf).
  - apply (update_fading_off t a p w Hf).
Qed.

Lemma update_body_identity h t a pos vel acc p w :
  same_identity p (fst (update_body h t a pos vel acc p w)).
Proof.
  unfold update_body. unfold bind at 1. unfold frame_dt at 1.
  set (dt := if _ : bool then _ else _). cbv beta iota zeta.
  set (p1 := update_trail (update_physics dt pos vel acc p)).
  assert (I1 : same_identity p p1).
  { eapply same_identity_trans; apply kept_identity;
      [apply update_physics_kept|apply update_trail_kept]. }
  unfold bind at 1.
  pose proof (update_fading_identity t a p1 w) as I2.
  destruct (update_fading t a p1 w) as [p2 w2]. simpl in I2.
  unfold bind at 1.
  pose proof (update_crackle_kept h t (update_strobe t p2) w2) as K4.
  destruct (update_crackle h t (update_strobe t p2) w2) as [p4 w3].
  simpl in K4. unfold ret. simpl.
  eapply same_identity_trans; [exact I1|].
  eapply same_identity_trans; [exact I2|].
  eapply same_identity_trans; [apply kept_identity, update_strobe_kept|].
  eapply same_identity_trans; [apply kept_identity, K4|].
  apply kept_identity, update_fluid_kept.
Qed.

(** [update] never calls [explodeSecondary] on a particle that is not a
    mini-shell, and leaves its role alone. *)
Lemma update_other_identity h q w :
  Particle.role q <> Role.MINI_SHELL ->
  same_identity q (fst (Particle_update h q w)).
Proof.
  intros Hr.
  destruct (Particle.pos q) as [pos|] eqn:Ep;
    [destruct (Particle.vel q) as [vel|] eqn:Ev;
     [destruct (Particle.acc q) as [acc|] eqn:Ea|]|].
  2-4: rewrite update_halted
         by (left; unfold complete; rewrite ?Ep, ?Ev, ?Ea;
             intros (? & ? & ?); eapply is_Some_None; eassumption);
       unfold same_identity; simpl; auto.
  rewrite (update_runs_body h q w pos vel acc Ep Ev Ea)
    by (intros E; contradiction).
  apply update_body_identity.
Qed.

Lemma applyForces_identity fs p :
  same_identity p (foldl (fun p f => Particle_applyForce f p) p fs).
Proof. apply kept_identity, applyForces_kept. Qed.

Lemma other_trace h frames : forall q,
  Particle.role q <> Role.MINI_SHELL ->
  Forall (fun r => Particle.role r = Particle.role q /\
                   Particle.secondaryCalls r = Particle.secondaryCalls q)
    (Particle_trace h frames q).
Proof.
  induction frames as [|[forces w] rest IH]; intros q Hr; simpl;
    [constructor|].
  set (q1 := foldl _ q forces).
  pose proof (applyForces_identity forces q) as I1. fold q1 in I1.
  assert (Hr1 : Particle.role q1 <> Role.MINI_SHELL)
    by (destruct I1 as (-> & _); exact Hr).
  pose proof (update_other_identity h q1 w Hr1) as I2.
  set (q2 := fst (Particle_update h q1 w)) in *.
  pose proof (same_identity_trans _ _ _ I1 I2) as (R & _ & _ & S).
  constructor; [split; assumption|].
  assert (Hr2 : Particle.role q2 <> Role.MINI_SHELL) by (rewrite R; exact Hr).
  eapply Forall_impl; [apply (IH q2 Hr2)|].
  intros r (? & ?). split; congruence.
Qed.

Lemma quiet_frame_dt : quiet frame_dt.
Proof. intros w. apply grows_refl. Qed.

Lemma quiet_setFading d p : quiet (Particle_setFading d p).
Proof.
  unfold Particle_setFading. destruct (Particle.isFading p);
    [apply quiet_ret|].
  apply quiet_bind; [apply quiet_now|]. intros t. apply quiet_ret.
Qed.

Lemma quiet_update_fading t a p : quiet (update_fading t a p).
Proof.
  unfold update_fading. destruct (Particle.isFading p); [apply quiet_ret|].
  destruct (_ && _); [apply quiet_setFading|apply quiet_ret].
Qed.

Lemma spawnCrackle_spawns h p :
  spawns (fun r => Particle.role r = Role.CRACKLE) (Particle_spawnCrackle h p).
Proof.
  unfold Particle_spawnCrackle.
  destruct (Particle.pos p) as [pos|];
    [|apply quiet_spawns, quiet_ret].
  destruct (Particle.vel p) as [vel|];
    [|apply quiet_spawns, quiet_ret].
  destruct (Particle.configRef p) as [[]|];
    [|apply quiet_spawns, quiet_ret].
  apply spawns_bind; [apply quiet_spawns, quiet_random|]. intros n.
  cbv zeta. apply spawns_repeat_until.
  - apply quiet_bind; [apply quiet_get|]. intros w. apply quiet_ret.
  - apply spawns_bind; [apply quiet_spawns, quiet_random2D|]. intros dir.
    draw_spawns.
    intros w.
    unfold bind.
    set (o := Options.mk _ _ _ _ _ _ _).
    match goal with
    | |- context [Particle_new h pos ?v ?c ?s Role.CRACKLE o w] =>
        pose proof (quiet_Particle_new h pos v c s Role.CRACKLE o w) as G1;
        pose proof (Particle_new_made h pos v c s Role.CRACKLE
                      (Options.lifespan o) None None (Options.fadeRate o) w)
          as Hm;
        change (Options.mk (Options.lifespan o) None None
                  (Options.fadeRate o) None None None) with o in Hm;
        destruct (Particle_new h pos v c s Role.CRACKLE o w) as [r w1]
    end.
    simpl in G1, Hm.
    set (r' := Particle.set_configRef _ _).
    pose proof (push_grows r' w1) as G2.
    destruct (push r' w1) as [id w2]. simpl in G2. unfold ret. simpl.
    exists [r']. split; [apply (grows_trans _ _ _ [] [r'] G1 G2)|].
    constructor; [|constructor].
    destruct Hm as (_ & _ & Hr & _). exact Hr.
Qed.

Lemma update_crackle_spawns h t p :
  spawns (fun r => Particle.role r = Role.CRACKLE) (update_crackle h t p).
Proof.
  unfold update_crackle.
  destruct (_ && _); [|apply quiet_spawns, quiet_ret].
  apply spawns_bind; [apply quiet_spawns, quiet_random|]. intros r.
  cbv zeta. destruct (Qleb _ _); [|apply quiet_spawns, quiet_ret].
  apply spawns_bind; [apply quiet_spawns, quiet_get|]. intros w.
  destruct (Qltb _ _); [|apply quiet_spawns, quiet_ret].
  apply spawns_bind; [apply spawnCrackle_spawns|].
  intros _. apply quiet_spawns, quiet_ret.
Qed.

Lemma update_body_spawns h t a pos vel acc p :
  spawns (fun r => Particle.role r = Role.CRACKLE)
    (update_body h t a pos vel acc p).
Proof.
  unfold update_body.
  apply spawns_bind; [apply quiet_spawns, quiet_frame_dt|]. intros dt.
  cbv zeta.
  apply spawns_bind; [apply quiet_spawns, quiet_update_fading|]. intros p2.
  apply spawns_bind; [apply update_crackle_spawns|]. intros p4.
  apply quiet_spawns, quiet_ret.
Qed.

(** The only particles the [update] of a particle other than a mini-shell
    creates are crackles. *)
Lemma update_other_spawns h q :
  Particle.role q <> Role.MINI_SHELL ->
  spawns (fun r => Particle.role r = Role.CRACKLE) (Particle_update h q).
Proof.
  intros Hr. unfold Particle_update.
  destruct (Particle.pos q) as [pos|];
    [destruct (Particle.vel q) as [vel|];
     [destruct (Particle.acc q) as [acc|]|]|].
  2-4: apply quiet_spawns, quiet_bind; [apply quiet_log|];
       intros _; apply quiet_ret.
  apply spawns_bind; [apply quiet_spawns, quiet_now|]. intros t.
  cbv zeta. rewrite (role_eqb_neq _ _ Hr). simpl.
  apply update_body_spawns.
Qed.

(** [explode] of a MULTI_BREAK firework creates mini-shells only. *)
Lemma explode_multi_break_spawns h this w :
  Firework.type this = Some "MULTI_BREAK" ->
  exists l,
    grows w (snd (Firework_explode h this w)) l /\
    Forall (miniShell_made h) l /\
    (Firework.config this = Some SystemConfig ->
     (exists shell,
        World.heap w !! Firework.shell this = Some shell /\
        is_Some (Particle.pos shell)) ->
     Host.rand_in_range h -> (2 <= length l <= 5)%nat).
Proof.
  intros Ht.
  destruct (Firework.config this) as [[]|] eqn:Hc.
  - destruct (World.heap w !! Firework.shell this) as [shell|] eqn:Hs.
    + destruct (Particle.pos shell) as [pos|] eqn:Hp.
      * rewrite (explode_eval h this w shell pos Hc Hs Hp). cbv zeta.
        simpl snd. unfold explode_switch.
        set (this' := Firework.set_explodeCalls _ this).
        assert (Ht' : Firework.type this' = Some "MULTI_BREAK") by exact Ht.
        rewrite Ht'. simpl.
        destruct (multi_break_count h this' pos (inheritedVel_of shell)
                    (baseForce_of (World.config w))
                    (World.set_explosions (S (World.explosions w)) w))
          as (l & G & F & Hl).
        exists l. split; [apply grows_after_count, G|]. split; [exact F|].
        intros _ _ Hr. apply Hl, Hr.
      * exists []. split; [|split; [constructor|]].
        -- unfold Firework_explode, bind, modify, get. cbv zeta. simpl.
           rewrite Hc. simpl. rewrite Hs, Hp.
           unfold explode_no_shell, bind, log, modify, ret. simpl.
           unfold grows. simpl. rewrite !app_nil_r.
           repeat split; eauto.
        -- intros _ (shell' & E & Hsome). simplify_eq.
           rewrite Hp in Hsome. destruct (is_Some_None Hsome).
    + exists []. split; [|split; [constructor|]].
      * unfold Firework_explode, bind, modify, get. cbv zeta. simpl.
        rewrite Hc. simpl. rewrite Hs.
        unfold explode_no_shell, bind, log, modify, ret. simpl.
        unfold grows. simpl. rewrite !app_nil_r.
        repeat split; eauto.
      * intros _ (shell' & E & _). congruence.
  - exists []. split; [|split; [constructor|intros; discriminate]].
    unfold Firework_explode, bind, modify, get. cbv zeta. simpl.
    rewrite Hc. unfold log, modify, ret. simpl.
    unfold grows. simpl. rewrite !app_nil_r.
    repeat split; eauto.
Qed.

(** C10: the multi-break cascade has depth two.  The subtypes a
    mini-shell draws from are PEONY, CHRYSANTHEMUM, PALM, WILLOW, STROBE
    and CRACKLING.  [explode] of a MULTI_BREAK firework creates mini-shells
    only, and the subtype of each, when it has one, is in that list, so
    neither RANDOM nor MULTI_BREAK; with a generator that stays in [0, 1)
    each has a subtype and a delay between 0.4 and 0.9, and a firework
    with a configuration and a positioned shell makes between two and five
    of them.  [explodeSecondary] creates particles of role EXPLOSION,
    STROBE or CRACKLE_SOURCE only, none of which is a mini-shell.  A
    particle that is not a mini-shell keeps its role along every sequence
    of frames, [update] never calls [explodeSecondary] on it, and the only
    particles its [update] creates are crackles. *)
Theorem multi_break_depth_two h :
  validSubTypes
  = ["PEONY"; "CHRYSANTHEMUM"; "PALM"; "WILLOW"; "STROBE"; "CRACKLING"] /\
  (forall this w,
     Firework.type this = Some "MULTI_BREAK" ->
     exists l,
       grows w (snd (Firework_explode h this w)) l /\
       Forall (miniShell_made h) l /\
       (Firework.config this = Some SystemConfig ->
        (exists shell,
           World.heap w !! Firework.shell this = Some shell /\
           is_Some (Particle.pos shell)) ->
        Host.rand_in_range h -> (2 <= length l <= 5)%nat)) /\
  (forall p w,
     exists l,
       grows w (snd (Particle_explodeSecondary h p w)) l /\
       Forall secondary_role l) /\
  (forall p, secondary_role p -> Particle.role p <> Role.MINI_SHELL) /\
  (forall q,
     Particle.role q <> Role.MINI_SHELL ->
     (forall frames,
        Forall (fun r => Particle.role r = Particle.role q /\
                         Particle.secondaryCalls r = Particle.secondaryCalls q)
          (Particle_trace h frames q)) /\
     (forall w,
        exists l,
          grows w (snd (Particle_update h q w)) l /\
          Forall (fun r => Particle.role r = Role.CRACKLE) l)).
Proof.
  split; [apply validSubTypes_are|].
  split; [intros this w Ht; apply explode_multi_break_spawns, Ht|].
  split; [intros p; apply explodeSecondary_spawns|].
  split.
  - intros p [H|[H|H]]; rewrite H; discriminate.
  - intros q Hr. split.
    + intros frames. apply other_trace, Hr.
    + apply update_other_spawns, Hr.
Qed.

Lemma multi_break_depth_two_witness :
  (exists l,
     grows brisk_world
       (snd (Firework_explode host_zero
               (Firework.set_type (Some "MULTI_BREAK") brisk_firework)
               brisk_world)) l /\
     Forall (miniShell_made host_zero) l /\ (2 <= length l <= 5)%nat) /\
  Forall (fun r => Particle.role r = Role.SHELL /\
                   Particle.secondaryCalls r = O)
    (Particle_trace host_zero three_frames shell_example).
Proof.
  destruct (multi_break_depth_two host_zero) as (_ & A & _ & _ & D).
  split.
  - destruct (A (Firework.set_type (Some "MULTI_BREAK") brisk_firework)
                brisk_world eq_refl) as (l & G & F & Hl).
    exists l. split; [exact G|]. split; [exact F|].
    apply Hl.
    + reflexivity.
    + exists brisk_shell. split; [vm_compute; reflexivity|].
      eexists. vm_compute. reflexivity.
    + apply host_zero_in_range.
  - assert (Hr : Particle.role shell_example <> Role.MINI_SHELL)
      by (vm_compute; discriminate).
    destruct (D shell_example Hr) as [T _].
    exact (T three_frames).
Defined.

(** ** The global cap *)

Lemma grows_config w w' l : grows w w' l -> World.config w' = World.config w.
Proof. intros (_ & _ & C & _). exact C. Qed.

Lemma grows_integral w w' l : grows w w' l -> integral_cap w -> integral_cap w'.
Proof.
  intros G [z Hz]. exists z. rewrite (grows_config _ _ _ G). exact Hz.
Qed.

Lemma grows_within w w' l :
  grows w w' l ->
  Qnat (length (World.particles w) + length l)
  <= Config.maxTotalParticles (World.config w) ->
  within_cap w'.
Proof.
  intros G H. unfold within_cap.
  rewrite (grows_config _ _ _ G), (grows_length _ _ _ G). exact H.
Qed.

Lemma grows_nil_within w w' : grows w w' [] -> within_cap w -> within_cap w'.
Proof.
  intros G H. apply (grows_within _ _ _ G). simpl.
  rewrite Nat.add_0_r. exact H.
Qed.

Lemma grows_nil_at_cap w w' :
  grows w w' [] ->
  Config.maxTotalParticles (World.config w)
  <= Qnat (length (World.particles w)) ->
  Config.maxTotalParticles (World.config w')
  <= Qnat (length (World.particles w')).
Proof.
  intros G H. rewrite (grows_config _ _ _ G), (grows_length _ _ _ G).
  simpl. rewrite Nat.add_0_r. exact H.
Qed.

Lemma keeps_cap_quiet {A} (m : M A) : quiet m -> keeps_cap m.
Proof.
  intros H w. exists []. split; [apply H|]. split; [auto|].
  intros _. apply grows_nil_within, H.
Qed.

Lemma keeps_cap_bind {A B} (m : M A) (k : A -> M B) :
  keeps_cap m -> (forall a, keeps_cap (k a)) -> keeps_cap (bind m k).
Proof.
  intros Hm Hk w. unfold bind. destruct (Hm w) as (l1 & G1 & N1 & C1).
  destruct (m w) as [a w1]. simpl in G1, C1.
  destruct (Hk a w1) as (l2 & G2 & N2 & C2).
  exists (l1 ++ l2). split; [eapply grows_trans; eassumption|]. split.
  - intros Hat. pose proof (N1 Hat) as E1. subst l1.
    rewrite (N2 (grows_nil_at_cap _ _ G1 Hat)). reflexivity.
  - intros Hi Hc. apply C2; [apply (grows_integral _ _ _ G1 Hi)|auto].
Qed.

Lemma keeps_cap_one {A} P (m : M A) : spawns_one P m -> keeps_cap m.
Proof.
  intros H w. destruct (H w) as (l & G & _ & [(Hlt & Hl)|(Hge & ->)]).
  - exists l. split; [exact G|]. split.
    + intros Hat. exfalso. lra.
    + intros Hi _. apply (grows_within _ _ _ G). rewrite Hl.
      apply (below_cap_room w Hi Hlt).
  - exists []. split; [exact G|]. split; [auto|].
    intros _. apply grows_nil_within, G.
Qed.

Lemma keeps_cap_repeatM n (body : M unit) :
  keeps_cap body -> keeps_cap (repeatM n body).
Proof.
  intros Hb. induction n as [|n IH]; simpl.
  - apply keeps_cap_quiet, quiet_ret.
  - apply keeps_cap_bind; [exact Hb|]. intros _. exact IH.
Qed.

Lemma keeps_cap_forM n (body : nat -> M unit) :
  (forall i, keeps_cap (body i)) -> forall i0, keeps_cap (forM n i0 body).
Proof.
  intros Hb. induction n as [|n IH]; intros i0; simpl.
  - apply keeps_cap_quiet, quiet_ret.
  - apply keeps_cap_bind; [apply Hb|]. intros _. apply IH.
Qed.

Lemma keeps_cap_repeat_until n (stop : M bool) (body : M unit) :
  quiet stop -> keeps_cap body -> keeps_cap (repeat_until n stop body).
Proof.
  intros Hs Hb. induction n as [|n IH]; simpl.
  - apply keeps_cap_quiet, quiet_ret.
  - apply keeps_cap_bind; [apply keeps_cap_quiet, Hs|]. intros [|].
    + apply keeps_cap_quiet, quiet_ret.
    + apply keeps_cap_bind; [exact Hb|]. intros _. exact IH.
Qed.

(** A loop that breaks when the array has reached the cap may push
    without a check of its own. *)
Lemma keeps_cap_guarded P n (stop : M bool) (body : M unit) :
  quiet stop ->
  (forall w, fst (stop w) = false ->
             Qnat (length (World.particles w))
             < Config.maxTotalParticles (World.config w)) ->
  spawns_always P body -> keeps_cap (repeat_until n stop body).
Proof.
  intros Hs Hf Hb. induction n as [|n IH]; intros w; simpl.
  - exists []. split; [apply grows_refl|]. split; auto.
  - unfold bind. pose proof (Hs w) as G0. pose proof (Hf w) as F0.
    destruct (stop w) as [b w0]. simpl in G0, F0. destruct b.
    + exists []. unfold ret. simpl. split; [exact G0|]. split; [auto|].
      intros _. apply grows_nil_within, G0.
    + specialize (F0 eq_refl).
      destruct (Hb w0) as (p & G1 & _).
      destruct (body w0) as [u w1]. simpl in G1.
      destruct (IH w1) as (l2 & G2 & N2 & C2).
      pose proof (grows_trans _ _ _ _ _ G0 G1) as G01. simpl in G01.
      exists ([p] ++ l2).
      split; [apply (grows_trans _ _ _ _ _ G01 G2)|]. split.
      * intros Hat. exfalso. lra.
      * intros Hi _. apply C2; [apply (grows_integral _ _ _ G01 Hi)|].
        apply (grows_within _ _ _ G01). apply (below_cap_room w Hi F0).
Qed.

(** [new Particle(...)] followed by [particles.push]. *)
Lemma new_push_always h pos vel col size role options
    (f : Particle.t -> Particle.t) :
  spawns_always (fun _ => True)
    (p <- Particle_new h pos vel col size role options ;;
     push (f p) ;;; ret tt).
Proof.
  intros w. unfold bind.
  pose proof (quiet_Particle_new h pos vel col size role options w) as G1.
  destruct (Particle_new h pos vel col size role options w) as [p w1].
  simpl in G1. pose proof (push_grows (f p) w1) as G2.
  destruct (push (f p) w1) as [id w2]. simpl in G2. unfold ret. simpl.
  exists (f p). split; [apply (grows_trans _ _ _ [] [f p] G1 G2)|exact I].
Qed.

(** [createParticle] keeps the cap, whatever it is asked for. *)
Lemma createParticle_keeps h config pos vel col size role options :
  keeps_cap (Firework_createParticle h config pos vel col size role options).
Proof.
  intros w.
  destruct config as [[]|];
    [|exists []; split; [apply grows_refl|]; split; auto].
  destruct (new_push_always h pos vel col size role options
              (fun p => Particle.set_configRef (Some SystemConfig)
                          (Particle.set_particleStyle
                             (Config.particleType (World.config w)) p)) w)
    as (p & G & _).
  unfold Firework_createParticle. unfold bind, get in *.
  destruct (Qltb (Qnat (length (World.particles w)))
              (Config.maxTotalParticles (World.config w))) eqn:E.
  - apply Qltb_lt in E.
    exists [p]. split; [exact G|]. split.
    + intros Hat. exfalso. lra.
    + intros Hi _. apply (grows_within _ _ _ G).
      apply (below_cap_room w Hi E).
  - exists []. split; [apply grows_refl|]. split; auto.
Qed.

Ltac draw_keeps :=
  repeat (apply keeps_cap_bind;
          [apply keeps_cap_quiet;
           first [apply quiet_random | apply quiet_random_color
                 | apply quiet_random1 | apply quiet_random2D
                 | apply quiet_random3D | apply quiet_log]|intros ?]).

Lemma spawnCrackle_keeps h p : keeps_cap (Particle_spawnCrackle h p).
Proof.
  unfold Particle_spawnCrackle.
  destruct (Particle.pos p) as [pos|];
    [|apply keeps_cap_quiet, quiet_ret].
  destruct (Particle.vel p) as [vel|];
    [|apply keeps_cap_quiet, quiet_ret].
  destruct (Particle.configRef p) as [[]|];
    [|apply keeps_cap_quiet, quiet_ret].
  apply keeps_cap_bind; [apply keeps_cap_quiet, quiet_random|]. intros n.
  cbv zeta. apply (keeps_cap_guarded (fun _ => True)).
  - apply quiet_bind; [apply quiet_get|]. intros w. apply quiet_ret.
  - intros w. unfold bind, get, ret. simpl. apply Qleb_gt.
  - apply (spawns_always_bind _ (fun _ => True));
      [apply quiet_random2D|auto|]. intros dir _.
    repeat (apply (spawns_always_bind _ (fun _ => True));
            [apply quiet_random|auto|intros ? _]).
    apply (new_push_always h pos _ _ _ Role.CRACKLE _
             (fun r => Particle.set_configRef (Some SystemConfig)
                         (Particle.set_particleStyle
                            (Particle.particleStyle p) r))).
Qed.

Lemma secondary_burst_keeps h count maxP lo hi inh spawn :
  (forall vel, keeps_cap (spawn vel)) ->
  keeps_cap (secondary_burst h count maxP lo hi inh spawn).
Proof.
  intros Hs. unfold secondary_burst. apply keeps_cap_repeat_until.
  - apply quiet_bind; [apply quiet_particles_length|].
    intros n. apply quiet_ret.
  - draw_keeps. apply Hs.
Qed.

Lemma secondary_explosion_keeps h this pos :
  keeps_cap (secondary_explosion h this pos).
Proof.
  unfold secondary_explosion.
  apply keeps_cap_bind; [apply keeps_cap_quiet, quiet_get|]. intros w0.
  apply keeps_cap_bind.
  { apply keeps_cap_quiet. destruct (Particle.palette this);
      [apply quiet_ret|apply quiet_random_of]. }
  intros paletteToUse. cbv zeta.
  destruct (String.eqb _ "CRACKLING");
    [|destruct (String.eqb _ "STROBE")];
    apply secondary_burst_keeps; intros vel; draw_keeps;
    apply createParticle_keeps.
Qed.

Lemma explodeSecondary_keeps h p : keeps_cap (Particle_explodeSecondary h p).
Proof.
  unfold Particle_explodeSecondary. cbv zeta.
  set (p1 := Particle.set_secondaryCalls _ p). clearbody p1.
  destruct (Particle.configRef p1) as [[]|];
    [destruct (Particle.pos p1) as [pos|]|].
  - apply keeps_cap_bind.
    + apply keeps_cap_quiet. destruct (Particle.vel p1).
      * apply quiet_ret.
      * apply quiet_bind; [apply quiet_log|]. intros _. apply quiet_ret.
    + intros this. apply keeps_cap_bind; [apply secondary_explosion_keeps|].
      intros _. apply keeps_cap_quiet, quiet_ret.
  - apply keeps_cap_quiet, quiet_bind; [apply quiet_log|].
    intros _. apply quiet_ret.
  - apply keeps_cap_quiet, quiet_bind; [apply quiet_log|].
    intros _. apply quiet_ret.
Qed.

Lemma update_crackle_keeps h t p : keeps_cap (update_crackle h t p).
Proof.
  unfold update_crackle.
  destruct (_ && _); [|apply keeps_cap_quiet, quiet_ret].
  apply keeps_cap_bind; [apply keeps_cap_quiet, quiet_random|]. intros r.
  cbv zeta. destruct (Qleb _ _); [|apply keeps_cap_quiet, quiet_ret].
  apply keeps_cap_bind; [apply keeps_cap_quiet, quiet_get|]. intros w.
  destruct (Qltb _ _); [|apply keeps_cap_quiet, quiet_ret].
  apply keeps_cap_bind; [apply spawnCrackle_keeps|].
  intros _. apply keeps_cap_quiet, quiet_ret.
Qed.

(** [update] keeps the cap on every particle: the crackles and the
    particles of a secondary explosion are created under a check. *)
Lemma update_keeps h p : keeps_cap (Particle_update h p).
Proof.
  unfold Particle_update.
  destruct (Particle.pos p) as [pos|];
    [destruct (Particle.vel p) as [vel|];
     [destruct (Particle.acc p) as [acc|]|]|].
  2-4: apply keeps_cap_quiet, quiet_bind; [apply quiet_log|];
       intros _; apply quiet_ret.
  apply keeps_cap_bind; [apply keeps_cap_quiet, quiet_now|]. intros t.
  cbv zeta. destruct (_ && _ && _).
  - apply keeps_cap_bind; [apply explodeSecondary_keeps|].
    intros q. apply keeps_cap_quiet, quiet_ret.
  - destruct (_ && _); [apply keeps_cap_quiet, quiet_ret|].
    unfold update_body.
    apply keeps_cap_bind; [apply keeps_cap_quiet, quiet_frame_dt|].
    intros dt. cbv zeta.
    apply keeps_cap_bind; [apply keeps_cap_quiet, quiet_update_fading|].
    intros p2.
    apply keeps_cap_bind; [apply update_crackle_keeps|]. intros p4.
    apply keeps_cap_quiet, quiet_ret.
Qed.

Lemma radial_burst_keeps h count lo hi spawn :
  (forall m dir, keeps_cap (spawn m dir)) ->
  keeps_cap (radial_burst h count lo hi spawn).
Proof.
  intros Hs. unfold radial_burst. apply keeps_cap_repeatM.
  draw_keeps. apply Hs.
Qed.

Lemma quiet_count : quiet (modify (fun w => World.set_explosions
                                              (S (World.explosions w)) w)).
Proof.
  intros w. unfold modify. simpl. apply grows_after_count, grows_refl.
Qed.

Lemma quiet_explode_no_shell this : quiet (explode_no_shell this).
Proof.
  unfold explode_no_shell. apply quiet_bind; [apply quiet_log|].
  intros _. apply quiet_ret.
Qed.

(** Every pattern of [explode] but MULTI_BREAK creates its particles
    through [createParticle], and keeps the cap. *)
Lemma explode_keeps h this :
  Firework.type this <> Some "MULTI_BREAK" ->
  keeps_cap (Firework_explode h this).
Proof.
  intros Ht. unfold Firework_explode. cbv zeta.
  set (this' := Firework.set_explodeCalls _ this).
  assert (Ht' : Firework.type this' <> Some "MULTI_BREAK") by exact Ht.
  clearbody this'.
  apply keeps_cap_bind; [apply keeps_cap_quiet, quiet_count|]. intros _.
  destruct (Firework.config this') as [[]|] eqn:Hc.
  2: { apply keeps_cap_quiet, quiet_bind; [apply quiet_log|].
       intros _. apply quiet_ret. }
  apply keeps_cap_bind; [apply keeps_cap_quiet, quiet_get|]. intros w.
  destruct (World.heap w !! Firework.shell this') as [shell|];
    [|apply keeps_cap_quiet, quiet_explode_no_shell].
  destruct (Particle.pos shell) as [pos|];
    [|apply keeps_cap_quiet, quiet_explode_no_shell].
  cbv zeta.
  apply keeps_cap_bind; [|intros _; apply keeps_cap_quiet, quiet_ret].
  unfold explode_switch. cbv zeta.
  repeat case_bool_decide; try contradiction.
  - apply radial_burst_keeps. intros m dir. cbv zeta. draw_keeps.
    apply createParticle_keeps.
  - apply radial_burst_keeps. intros m dir. cbv zeta. draw_keeps.
    apply createParticle_keeps.
  - unfold explode_palm.
    apply keeps_cap_bind; [apply keeps_cap_quiet, quiet_random|]. intros b.
    cbv zeta. apply keeps_cap_forM. intros i. draw_keeps.
    apply keeps_cap_repeatM. draw_keeps. apply createParticle_keeps.
  - apply radial_burst_keeps. intros m dir. cbv zeta. draw_keeps.
    apply createParticle_keeps.
  - apply radial_burst_keeps. intros m dir. cbv zeta. draw_keeps.
    apply createParticle_keeps.
  - apply radial_burst_keeps. intros m dir. cbv zeta. draw_keeps.
    apply createParticle_keeps.
  - unfold explode_default.
    apply keeps_cap_bind; [apply keeps_cap_quiet, quiet_log|]. intros _.
    apply keeps_cap_repeatM. draw_keeps. apply createParticle_keeps.
Qed.

(** *** The launches *)

Lemma lift_world {A} (m : M A) s :
  Sketch.world (snd (lift m s)) = snd (m (Sketch.world s)).
Proof. unfold lift. destruct (m (Sketch.world s)). reflexivity. Qed.

Lemma Firework_new_always h pos vel type config :
  spawns_always (fun _ => True) (Firework_new h pos vel type config).
Proof.
  intros w. unfold Firework_new, bind.
  pose proof (quiet_Particle_new h pos vel (RGBA 255 255 0 200) 4 Role.SHELL
                Options.empty w) as G1.
  destruct (Particle_new h pos vel _ 4 Role.SHELL _ w) as [shell w1].
  simpl in G1.
  match goal with
  | |- context [random h ?a ?b w1] =>
      pose proof (quiet_random h a b w1) as G2;
      destruct (random h a b w1) as [alt w2]
  end.
  simpl in G2.
  pose proof (quiet_random_of h PALETTES w2) as G3.
  destruct (random_of h PALETTES w2) as [pal w3]. simpl in G3.
  set (p := Particle.set_configRef config shell).
  pose proof (push_grows p w3) as G4.
  destruct (push p w3) as [id w4]. simpl in G4. unfold ret. simpl.
  exists p. split; [|exact I].
  apply (grows_trans _ _ _ [] [p] G1).
  apply (grows_trans _ _ _ [] [p] G2).
  apply (grows_trans _ _ _ [] [p] G3). exact G4.
Qed.

Lemma system_keeps_cap_comp f g :
  system_keeps_cap f -> system_keeps_cap g ->
  system_keeps_cap (fun s => g (f s)).
Proof.
  intros Hf Hg s. cbv zeta.
  destruct (Hf s) as (l1 & G1 & N1 & C1).
  destruct (Hg (f s)) as (l2 & G2 & N2 & C2).
  exists (l1 ++ l2). split; [eapply grows_trans; eassumption|]. split.
  - intros Hat. pose proof (N1 Hat) as E1. subst l1.
    rewrite (N2 (grows_nil_at_cap _ _ G1 Hat)). reflexivity.
  - intros Hi Hc. apply C2; [apply (grows_integral _ _ _ G1 Hi)|auto].
Qed.

Lemma system_keeps_cap_lift {A} (m : M A) :
  quiet m -> system_keeps_cap (fun s => snd (lift m s)).
Proof.
  intros Hq s. cbv zeta. rewrite lift_world. exists [].
  split; [apply Hq|]. split; [auto|].
  intros _. apply grows_nil_within, Hq.
Qed.

Lemma system_keeps_cap_field (f : Sketch.t -> Sketch.t) :
  (forall s, Sketch.world (f s) = Sketch.world s) -> system_keeps_cap f.
Proof.
  intros Hf s. cbv zeta. rewrite Hf. exists [].
  split; [apply grows_refl|]. split; auto.
Qed.

(** [launch] checks the cap first: at the cap it logs a warning and
    leaves; below it, it creates one shell. *)
Lemma launch_keeps h pos type : system_keeps_cap (FireworkSystem_launch h pos type).
Proof.
  intros s. cbv zeta. unfold FireworkSystem_launch. cbv zeta.
  destruct (Qleb (Config.maxTotalParticles (World.config (Sketch.world s)))
              (Qnat (length (World.particles (Sketch.world s))))) eqn:E.
  - apply (system_keeps_cap_lift _ (quiet_log _ _) s).
  - apply Qleb_gt in E.
    destruct pos as [pos|];
      [|apply (system_keeps_cap_lift _ (quiet_log _ _) s)].
    match goal with
    | |- context [lift ?m s] =>
        pose proof (lift_world m s) as LW;
        assert (Hm : spawns_always (fun _ => True) m);
        [|destruct (Hm (Sketch.world s)) as (p & G & _);
          destruct (lift m s) as [fw s'] eqn:EL]
    end.
    { apply (spawns_always_bind _ (fun _ => True)).
      - destruct (String.eqb _ "RANDOM");
          [apply quiet_random_of|apply quiet_ret].
      - auto.
      - intros ty _.
        apply (spawns_always_bind _ (fun _ => True));
          [apply quiet_random|auto|]. intros vx _.
        apply (spawns_always_bind _ (fun _ => True));
          [apply quiet_random|auto|]. intros vy _.
        apply Firework_new_always. }
    simpl in LW.
    assert (EW : Sketch.world
                   (Sketch.set_fireworks (Sketch.fireworks s' ++ [fw]) s')
                 = Sketch.world s') by reflexivity.
    rewrite EW, LW. exists [p]. split; [exact G|]. split.
    + intros Hat. exfalso. lra.
    + intros Hi _. apply (grows_within _ _ _ G).
      apply (below_cap_room _ Hi E).
Qed.

Lemma launch_at_cap_logs h pos type s :
  Config.maxTotalParticles (World.config (Sketch.world s))
  <= Qnat (length (World.particles (Sketch.world s))) ->
  let s' := FireworkSystem_launch h pos type s in
  Sketch.fireworks s' = Sketch.fireworks s /\
  World.particles (Sketch.world s') = World.particles (Sketch.world s) /\
  World.console (Sketch.world s')
  = World.console (Sketch.world s)
    ++ [(LogWarn, "Max particle limit reached. Skipping launch.")].
Proof.
  intros Hat. cbv zeta. unfold FireworkSystem_launch. cbv zeta.
  assert (E : Qleb (Config.maxTotalParticles (World.config (Sketch.world s)))
                (Qnat (length (World.particles (Sketch.world s)))) = true).
  { destruct (Qleb _ _) eqn:E; [reflexivity|]. apply Qleb_gt in E. lra. }
  rewrite E. unfold lift, log, modify. simpl. auto.
Qed.

Lemma manualLaunch_keeps h x y mouseX :
  system_keeps_cap (FireworkSystem_manualLaunch h x y mouseX).
Proof.
  intros s. unfold FireworkSystem_manualLaunch. cbv zeta.
  set (s1 := snd (lift (log LogInfo "Manual launch initiated") s)).
  set (t := Some (Config.fireworkType (World.config (Sketch.world s1)))).
  set (pos := Some (Vec.create (from_option id mouseX x) (Host.height h))).
  clearbody t. subst s1.
  apply (system_keeps_cap_comp
           (fun s => snd (lift (log LogInfo "Manual launch initiated") s))
           (FireworkSystem_launch h pos t)
           (system_keeps_cap_lift _ (quiet_log _ _))
           (launch_keeps h pos t) s).
Qed.

Lemma launchRandom_keeps h : system_keeps_cap (FireworkSystem_launchRandom h).
Proof.
  intros s. unfold FireworkSystem_launchRandom.
  set (m := random h (Host.width h * 0.15) (Host.width h * 0.85)).
  pose proof (lift_world m s) as LW.
  pose proof (quiet_random h (Host.width h * 0.15) (Host.width h * 0.85)
                (Sketch.world s)) as G1.
  fold m in G1. rewrite <- LW in G1. clear LW.
  destruct (lift m s) as [xPos s1]. simpl in G1. cbv zeta.
  match goal with
  | |- context [FireworkSystem_launch h ?pos ?t s1] =>
      destruct (launch_keeps h pos t s1) as (l2 & G2 & N2 & C2)
  end.
  exists l2. split; [apply (grows_trans _ _ _ [] l2 G1 G2)|]. split.
  - intros Hat. apply N2, (grows_nil_at_cap _ _ G1 Hat).
  - intros Hi Hc.
    apply C2; [apply (grows_integral _ _ _ G1 Hi)|].
    apply (grows_nil_within _ _ G1 Hc).
Qed.

Lemma system_update_keeps h : system_keeps_cap (FireworkSystem_update h).
Proof.
  intros s. unfold FireworkSystem_update. cbv zeta.
  destruct (_ && _);
    [|apply (system_keeps_cap_field (fun s => s) (fun _ => eq_refl) s)].
  destruct (Qltb _ _);
    [|apply (system_keeps_cap_field (fun s => s) (fun _ => eq_refl) s)].
  apply (system_keeps_cap_comp (FireworkSystem_launchRandom h)
           (Sketch.set_lastLaunch (World.millis (Sketch.world s)))
           (launchRandom_keeps h)
           (system_keeps_cap_field _ (fun _ => eq_refl)) s).
Qed.

(** The MULTI_BREAK branch pushes its mini-shells without a check: an
    explosion in a world that has room for fewer than two particles
    leaves the array above the cap. *)
Lemma multi_break_overshoots h this w shell :
  Firework.type this = Some "MULTI_BREAK" ->
  Firework.config this = Some SystemConfig ->
  World.heap w !! Firework.shell this = Some shell ->
  is_Some (Particle.pos shell) ->
  Host.rand_in_range h ->
  let w' := snd (Firework_explode h this w) in
  (length (World.particles w) + 2 <= length (World.particles w'))%nat /\
  World.config w' = World.config w /\
  (Config.maxTotalParticles (World.config w)
   < Qnat (length (World.particles w)) + 2 -> ~ within_cap w').
Proof.
  intros Ht Hc Hs Hp Hr. cbv zeta.
  destruct (explode_multi_break_spawns h this w Ht) as (l & G & _ & Hl).
  specialize (Hl Hc (ex_intro _ shell (conj Hs Hp)) Hr).
  pose proof (grows_length _ _ _ G) as L.
  pose proof (grows_config _ _ _ G) as C.
  split; [lia|]. split; [exact C|].
  intros Hlt Hw. unfold within_cap in Hw. rewrite C, L in Hw.
  assert (H2 : Qnat (length (World.particles w) + 2)
               <= Qnat (length (World.particles w) + length l))
    by (apply Qnat_le; lia).
  rewrite Qnat_plus in H2.
  change (Qnat 2) with 2 in H2. lra.
Qed.

(** C1, as the code has it: every spawn path but one keeps the global
    cap.  [launch] (and with it the manual launch and the automatic one
    of the system's [update]), [createParticle], [spawnCrackle], the
    [update] of any particle (so the secondary explosion of a mini-shell
    too) and [explode] of a firework of any type other than MULTI_BREAK
    only add particles, add none when the array has reached the cap, and
    keep a whole cap that held before; [launch] at the cap logs its
    warning and creates no firework.  The MULTI_BREAK branch of [explode]
    pushes its mini-shells without looking at the cap: with a generator
    in range it adds at least two particles, and an explosion in a world
    with room for fewer than two leaves the array above the cap. *)
Theorem cap_kept_except_by_multi_break h :
  (forall pos type, system_keeps_cap (FireworkSystem_launch h pos type)) /\
  (forall pos type s,
     Config.maxTotalParticles (World.config (Sketch.world s))
     <= Qnat (length (World.particles (Sketch.world s))) ->
     let s' := FireworkSystem_launch h pos type s in
     Sketch.fireworks s' = Sketch.fireworks s /\
     World.particles (Sketch.world s') = World.particles (Sketch.world s) /\
     World.console (Sketch.world s')
     = World.console (Sketch.world s)
       ++ [(LogWarn, "Max particle limit reached. Skipping launch.")]) /\
  (forall x y mouseX,
     system_keeps_cap (FireworkSystem_manualLaunch h x y mouseX)) /\
  system_keeps_cap (FireworkSystem_update h) /\
  (forall config pos vel col size role options,
     keeps_cap
       (Firework_createParticle h config pos vel col size role options)) /\
  (forall p, keeps_cap (Particle_spawnCrackle h p)) /\
  (forall p, keeps_cap (Particle_update h p)) /\
  (forall this,
     Firework.type this <> Some "MULTI_BREAK" ->
     keeps_cap (Firework_explode h this)) /\
  (forall this w shell,
     Firework.type this = Some "MULTI_BREAK" ->
     Firework.config this = Some SystemConfig ->
     World.heap w !! Firework.shell this = Some shell ->
     is_Some (Particle.pos shell) ->
     Host.rand_in_range h ->
     let w' := snd (Firework_explode h this w) in
     (length (World.particles w) + 2 <= length (World.particles w'))%nat /\
     World.config w' = World.config w /\
     (Config.maxTotalParticles (World.config w)
      < Qnat (length (World.particles w)) + 2 -> ~ within_cap w')).
Proof.
  split; [apply launch_keeps|].
  split; [apply launch_at_cap_logs|].
  split; [apply manualLaunch_keeps|].
  split; [apply system_update_keeps|].
  split; [apply createParticle_keeps|].
  split; [apply spawnCrackle_keeps|].
  split; [apply update_keeps|].
  split; [apply explode_keeps|].
  apply multi_break_overshoots.
Qed.

Lemma host_half_in_range : Host.rand_in_range host_half.
Proof. intros n. simpl. lra. Qed.

Lemma cap_kept_except_by_multi_break_witness :
  within_cap crowded_world /\
  ~ within_cap
      (snd (Firework_explode host_half crowded_multi_break crowded_world)).
Proof.
  assert (H : Config.maxTotalParticles (World.config crowded_world) = 5000 /\
              Z.of_nat (length (World.particles crowded_world)) = 5000%Z /\
              match World.heap crowded_world
                    !! Firework.shell crowded_multi_break with
              | Some shell => is_Some (Particle.pos shell)
              | None => False
              end).
  { vm_compute. split; [reflexivity|]. split; [reflexivity|].
    eexists. reflexivity. }
  destruct H as (C & L & Hs).
  destruct (World.heap crowded_world !! Firework.shell crowded_multi_break)
    as [shell|] eqn:E; [|contradiction].
  split.
  - unfold within_cap, Qnat. rewrite C, L. vm_compute. discriminate.
  - destruct (cap_kept_except_by_multi_break host_half)
      as (_ & _ & _ & _ & _ & _ & _ & _ & B).
    apply (B crowded_multi_break crowded_world shell eq_refl eq_refl E Hs
             host_half_in_range).
    unfold Qnat. rewrite C, L. vm_compute. reflexivity.
Defined.

(** C1, as stated, fails on the multi-break path.  With the smallest cap
    of the panel, 5000, and bursts of 5000 particles, two shells launched
    by hand before the first frame, a MULTI_BREAK one then a PEONY one,
    stop rising in the 41st frame.  The loop over the fireworks runs from
    the end: the PEONY one explodes first and its burst stops at the cap;
    the MULTI_BREAK one then pushes its three mini-shells, and the frame
    ends with 5003 particles in the array. *)
Lemma multi_break_run_exceeds_cap :
  map Firework.type (Sketch.fireworks crowded_launch)
  = [Some "MULTI_BREAK"; Some "PEONY"] /\
  (let w := Sketch.world (run host_half (steady_frames 40) crowded_launch) in
   length (World.particles w) = 2%nat /\ World.explosions w = O /\
   within_cap w) /\
  let w := Sketch.world (run host_half (steady_frames 41) crowded_launch) in
  Config.maxTotalParticles (World.config w) = 5000 /\
  World.explosions w = 2%nat /\
  Z.of_nat (length (World.particles w)) = 5003%Z /\
  length (List.filter
            (fun p => Role.eqb (Particle.role p) Role.MINI_SHELL)
            (World.heap w)) = 3%nat /\
  ~ within_cap w.
Proof.
  split; [vm_compute; reflexivity|]. split.
  - cbv zeta. split; [vm_compute; reflexivity|].
    split; [vm_compute; reflexivity|].
    vm_compute. discriminate.
  - assert (H : let w := Sketch.world
                           (run host_half (steady_frames 41) crowded_launch) in
                Config.maxTotalParticles (World.config w) = 5000 /\
                World.explosions w = 2%nat /\
                Z.of_nat (length (World.particles w)) = 5003%Z /\
                length (List.filter
                          (fun p => Role.eqb (Particle.role p) Role.MINI_SHELL)
                          (World.heap w)) = 3%nat)
      by (vm_compute; auto).
    cbv zeta in *.
    set (w := Sketch.world (run host_half (steady_frames 41) crowded_launch))
      in *.
    destruct H as (C & E & L & R).
    split; [exact C|]. split; [exact E|]. split; [exact L|].
    split; [exact R|].
    unfold within_cap, Qnat. rewrite C, L. intros Hle. vm_compute in Hle.
    apply Hle. reflexivity.
Qed.

(** * Further properties of the sketches *)

(** ** Forces *)

Lemma random_range_swapped h a b w :
  Host.rand_in_range h -> b <= a ->
  b <= fst (random h a b w) <= a.
Proof.
  intros Hr Hab. unfold random, bind, random01, ret. simpl.
  pose proof (Hr (World.cursor w)) as Hu.
  set (u := Host.rand h (World.cursor w)) in *.
  destruct (Qltb b a) eqn:E; [nra|].
  apply Qltb_ge in E. nra.
Qed.

Lemma scaled_mult v k : scaled (Vec.mult v k) v k.
Proof.
  unfold scaled, Vec.mult. simpl. rewrite !Qred_correct.
  repeat split; reflexivity.
Qed.

Lemma scaled_trans f g v s t :
  scaled f g s -> scaled g v t -> scaled f v (t * s).
Proof.
  unfold scaled. intros (H1 & H2 & H3) (G1 & G2 & G3).
  rewrite H1, H2, H3, G1, G2, G3. repeat split; ring.
Qed.

(** X1 ([applyDrag]): on a particle that has a velocity [v] and an
    acceleration, the drag changes the acceleration only; it does nothing
    for a coefficient that is not positive or a squared speed of at most
    0.0001; otherwise it adds to the acceleration the velocity scaled by
    [- |v|^2 k / sqrt(|v|^2)], a negative factor: the force points against
    the motion. *)
Theorem drag_opposes_velocity h k p v a :
  Particle.vel p = Some v -> Particle.acc p = Some a ->
  let p' := Particle_applyDrag h k p in
  let len := Host.sqrt h (Vec.magSq v) in
  Particle.pos p' = Particle.pos p /\ Particle.vel p' = Some v /\
  Particle.alpha p' = Particle.alpha p /\
  (k <= 0 \/ Vec.magSq v <= 0.0001 -> p' = p) /\
  (0 < k -> 0.0001 < Vec.magSq v -> 0 < len ->
   exists f s,
     Particle.acc p' = Some (Vec.add a f) /\
     s == - (Vec.magSq v * k) / len /\ s < 0 /\ scaled f v s).
Proof.
  intros Hv Ha. cbv zeta. unfold Particle_applyDrag. rewrite Hv.
  destruct (Qltb 0 k) eqn:Ek.
  - apply Qltb_lt in Ek.
    destruct (Qltb 0.0001 (Vec.magSq v)) eqn:Es.
    + apply Qltb_lt in Es. unfold Particle_applyForce. rewrite Ha. simpl.
      split; [reflexivity|]. split; [exact Hv|]. split; [reflexivity|].
      split; [intros [H|H]; lra|].
      intros _ _ Hlen.
      exists (setMag h v (- (Vec.magSq v * k))),
             (- (Vec.magSq v * k) / Host.sqrt h (Vec.magSq v)).
      split; [reflexivity|]. split; [reflexivity|].
      assert (Hm : 0 < Vec.magSq v * k) by nra.
      split.
      * apply Qlt_shift_div_r; [exact Hlen|]. lra.
      * unfold setMag.
        assert (E0 : Qeqb (Host.sqrt h (Vec.magSq v)) 0 = false).
        { destruct (Qeqb _ 0) eqn:E0; [|reflexivity].
          apply Qeqb_eq in E0. lra. }
        rewrite E0.
        pose proof (scaled_trans _ _ _ _ _
                      (scaled_mult (Vec.mult v (1 / Host.sqrt h (Vec.magSq v)))
                         (- (Vec.magSq v * k)))
                      (scaled_mult v (1 / Host.sqrt h (Vec.magSq v)))) as H.
        unfold scaled in *. destruct H as (H1 & H2 & H3).
        rewrite H1, H2, H3. repeat split; field; lra.
    + apply Qltb_ge in Es.
      split; [reflexivity|]. split; [exact Hv|]. split; [reflexivity|].
      split; [reflexivity|]. intros _ H. lra.
  - apply Qltb_ge in Ek.
    split; [reflexivity|]. split; [exact Hv|]. split; [reflexivity|].
    split; [reflexivity|]. intros H. lra.
Qed.

Lemma drag_opposes_velocity_witness :
  exists f s,
    Particle.acc (Particle_applyDrag host_zero 0.02 shell_example)
    = Some (Vec.add (Vec.add (Vec.create 0 0) (Vec.create 0 0.08)) f) /\
    s == - (Vec.magSq (Vec.create 0 (-20)) * 0.02)
         / Host.sqrt host_zero (Vec.magSq (Vec.create 0 (-20))) /\
    s < 0 /\ scaled f (Vec.create 0 (-20)) s.
Proof.
  refine (proj2 (proj2 (proj2 (proj2
            (drag_opposes_velocity host_zero 0.02 shell_example
               (Vec.create 0 (-20))
               (Vec.add (Vec.create 0 0) (Vec.create 0 0.08))
               eq_refl eq_refl)))) _ _ _).
  - reflexivity.
  - vm_compute. reflexivity.
  - vm_compute. reflexivity.
Defined.

(** X2 ([getWind]): the wind is horizontal; without base wind there is
    none;
    with a noise in [-1, 1] and a base wind that is not negative it lies
    between half and one and a half times the base, so it never blows
    against it. *)
Theorem wind_is_horizontal h position w :
  let f := FireworkSystem_getWind h position w in
  let base := Config.wind (World.config w) in
  let n := Host.noise3D h
             (Vec.x position * Config.turbulence (World.config w))
             (Vec.y position * Config.turbulence (World.config w))
             (World.millis w * 0.0001) in
  Vec.y f = 0 /\ Vec.z f = 0 /\
  Vec.x f == base * (1 + n * 0.5) /\
  (base == 0 -> Vec.x f == 0) /\
  (-1 <= n <= 1 -> 0 <= base -> base * 0.5 <= Vec.x f <= base * 1.5).
Proof.
  cbv zeta. unfold FireworkSystem_getWind, Vec.create. simpl.
  split; [reflexivity|]. split; [reflexivity|].
  split; [ring|]. split.
  - intros ->. ring.
  - intros Hn Hb. nra.
Qed.

(** ** Launching *)

Lemma random_of_nonrandom h w t :
  fst (random_of h (filter (fun t : string => t <> "RANDOM") FIREWORK_TYPES) w)
  = Some t ->
  t ∈ FIREWORK_TYPES /\ t <> "RANDOM".
Proof.
  intros H. apply random_of_elem in H.
  apply list_elem_of_filter in H. tauto.
Qed.

Lemma nonrandom_types_nonempty :
  filter (fun t : string => t <> "RANDOM") FIREWORK_TYPES <> [].
Proof. intros H. vm_compute in H. discriminate H. Qed.

(** The body of [launch] past its two guards. *)
Lemma launch_body h pos type0 w :
  Host.rand_in_range h ->
  exists fw w' shell t vx vy,
    (type <- (if String.eqb type0 "RANDOM"
              then random_of h (filter (fun t => t <> "RANDOM")
                                  FIREWORK_TYPES)
              else ret (Some type0)) ;;
     vx <- random h (-1.5) 1.5 ;;
     vy <- random h (-18) (-24) ;;
     let launchVel := Vec.create vx vy in
     Firework_new h pos launchVel type (Some SystemConfig)) w = (fw, w') /\
    grows w w' [shell] /\
    Firework.shell fw = length (World.heap w) /\
    ascending fw /\ Firework.config fw = Some SystemConfig /\
    Firework.type fw = Some t /\ t <> "RANDOM" /\
    (type0 <> "RANDOM" -> t = type0) /\
    (type0 = "RANDOM" -> t ∈ FIREWORK_TYPES) /\
    (0 <= Host.height h ->
     Host.height h * 0.1 <= Firework.explosionAltitude fw
     <= Host.height h * 0.5) /\
    Particle.role shell = Role.SHELL /\
    Particle.pos shell = Some pos /\
    Particle.vel shell = Some (Vec.create vx vy) /\
    -1.5 <= vx <= 1.5 /\ -24 <= vy <= -18 /\
    Particle.configRef shell = Some SystemConfig.
Proof.
  intros Hr.
  match goal with
  | |- context [bind ?pk _] =>
      lazymatch pk with
      | (if _ then _ else _) => set (pick := pk)
      end
  end.
  assert (Hq : quiet pick).
  { subst pick. destruct (String.eqb type0 "RANDOM");
      [apply quiet_random_of|apply quiet_ret]. }
  assert (Ht : exists t, fst (pick w) = Some t /\
                         t <> "RANDOM" /\
                         (type0 <> "RANDOM" -> t = type0) /\
                         (type0 = "RANDOM" -> t ∈ FIREWORK_TYPES)).
  { subst pick. destruct (String.eqb type0 "RANDOM") eqn:Et.
    - apply String.eqb_eq in Et.
      destruct (random_of_some h
                  (filter (fun t : string => t <> "RANDOM") FIREWORK_TYPES)
                  w Hr nonrandom_types_nonempty) as [t Hs].
      destruct (random_of_nonrandom h _ t Hs) as [Hin Hne].
      exists t. repeat split; auto. intros Hn. contradiction.
    - apply String.eqb_neq in Et. exists type0. simpl.
      repeat split; auto. intros Hn. contradiction. }
  unfold bind.
  pose proof (Hq w) as G0.
  destruct (pick w) as [ty w1]. simpl in G0, Ht.
  destruct Ht as (t & -> & Hne & Hsame & Hrand).
  pose proof (random_range h (-1.5) 1.5 w1 Hr ltac:(lra)) as Rx.
  pose proof (quiet_random h (-1.5) 1.5 w1) as G1.
  destruct (random h (-1.5) 1.5 w1) as [vx w2]. simpl in Rx, G1.
  pose proof (random_range_swapped h (-18) (-24) w2 Hr ltac:(lra)) as Ry.
  pose proof (quiet_random h (-18) (-24) w2) as G2.
  destruct (random h (-18) (-24) w2) as [vy w3]. simpl in Ry, G2.
  unfold Firework_new, bind.
  pose proof (quiet_Particle_new h pos (Vec.create vx vy)
                (RGBA 255 255 0 200) 4 Role.SHELL Options.empty w3) as G3.
  pose proof (Particle_new_fields h pos (Vec.create vx vy)
                (RGBA 255 255 0 200) 4 Role.SHELL Options.empty w3) as F3.
  destruct (Particle_new h pos _ _ 4 Role.SHELL _ w3) as [shell w4].
  cbv zeta in F3. simpl in G3, F3.
  pose proof (quiet_random h (Host.height h * 0.1) (Host.height h * 0.5) w4)
    as G4.
  pose proof (fun H => random_range h (Host.height h * 0.1)
                         (Host.height h * 0.5) w4 Hr H) as R4.
  destruct (random h (Host.height h * 0.1) (Host.height h * 0.5) w4)
    as [alt w5]. simpl in G4, R4.
  pose proof (quiet_random_of h PALETTES w5) as G5.
  destruct (random_of h PALETTES w5) as [pal w6]. simpl in G5.
  set (p := Particle.set_configRef (Some SystemConfig) shell).
  pose proof (push_grows p w6) as G6.
  assert (Eid : fst (push p w6) = length (World.heap w6)) by reflexivity.
  destruct (push p w6) as [id w7]. simpl in G6, Eid. unfold ret.
  assert (G : grows w w6 []).
  { apply (grows_trans _ _ _ [] [] G0).
    apply (grows_trans _ _ _ [] [] G1).
    apply (grows_trans _ _ _ [] [] G2).
    apply (grows_trans _ _ _ [] [] G3).
    apply (grows_trans _ _ _ [] [] G4). exact G5. }
  eexists _, _, p, t, vx, vy.
  split; [reflexivity|].
  split; [apply (grows_trans _ _ _ [] [p] G G6)|].
  simpl. destruct G as (Hh & _). rewrite app_nil_r in Hh.
  split; [congruence|].
  split; [unfold ascending; simpl; auto|].
  split; [reflexivity|]. split; [reflexivity|].
  split; [exact Hne|]. split; [exact Hsame|]. split; [exact Hrand|].
  split; [intros H0; apply R4; lra|].
  destruct F3 as (Fp & Fv & Fr & _).
  subst p. simpl. repeat split; auto; lra.
Qed.

(** X3 ([launch] and the constructor of [Firework]), below the cap, with
    a position: one firework is appended to
    [fireworks], ascending, with the configuration; its shell is the one
    particle created, pushed on [particles], of role SHELL at the launch
    position, with a velocity in [-1.5, 1.5] x [-24, -18]; the type is the
    requested one, or one of the other names when RANDOM is requested,
    and never RANDOM itself; the altitude threshold lies between a tenth
    and a half of the height.  Without a position nothing is launched and
    an error is logged. *)
Theorem launch_creates_ascending_firework h pos typeOverride s :
  Host.rand_in_range h ->
  Qnat (length (World.particles (Sketch.world s)))
  < Config.maxTotalParticles (World.config (Sketch.world s)) ->
  let w := Sketch.world s in
  let s' := FireworkSystem_launch h (Some pos) typeOverride s in
  let s0 := FireworkSystem_launch h None typeOverride s in
  let type0 := requested_type typeOverride (World.config w) in
  (exists fw shell t vx vy,
     Sketch.fireworks s' = Sketch.fireworks s ++ [fw] /\
     grows w (Sketch.world s') [shell] /\
     Firework.shell fw = length (World.heap w) /\
     ascending fw /\ Firework.config fw = Some SystemConfig /\
     Firework.type fw = Some t /\ t <> "RANDOM" /\
     (type0 <> "RANDOM" -> t = type0) /\
     (type0 = "RANDOM" -> t ∈ FIREWORK_TYPES) /\
     (0 <= Host.height h ->
      Host.height h * 0.1 <= Firework.explosionAltitude fw
      <= Host.height h * 0.5) /\
     Particle.role shell = Role.SHELL /\
     Particle.pos shell = Some pos /\
     Particle.vel shell = Some (Vec.create vx vy) /\
     -1.5 <= vx <= 1.5 /\ -24 <= vy <= -18 /\
     Particle.configRef shell = Some SystemConfig) /\
  Sketch.fireworks s0 = Sketch.fireworks s /\
  grows w (Sketch.world s0) [] /\
  World.console (Sketch.world s0)
  = World.console w ++ [(LogError, "Invalid launch position:")].
Proof.
  intros Hr Hlt. cbv zeta. unfold FireworkSystem_launch. cbv zeta.
  assert (E : Qleb (Config.maxTotalParticles (World.config (Sketch.world s)))
                (Qnat (length (World.particles (Sketch.world s)))) = false)
    by (apply Qleb_gt, Hlt).
  rewrite E. split.
  - fold (requested_type typeOverride (World.config (Sketch.world s))).
    destruct (launch_body h pos
                (requested_type typeOverride (World.config (Sketch.world s)))
                (Sketch.world s) Hr)
      as (fw & w' & shell & t & vx & vy & Em & H).
    match goal with
    | |- context [lift ?m s] =>
        assert (Em' : m (Sketch.world s) = (fw, w')) by exact Em;
        unfold lift; rewrite Em'
    end.
    simpl. exists fw, shell, t, vx, vy. split; [reflexivity|]. exact H.
  - unfold lift, log, modify. simpl. split; [reflexivity|]. split.
    + unfold grows. simpl. rewrite !app_nil_r. repeat split; auto.
      eexists. reflexivity.
    + reflexivity.
Qed.

Lemma launch_creates_ascending_firework_witness :
  exists fw shell t vx vy,
    Sketch.fireworks
      (FireworkSystem_launch host_half (Some (Vec.create 500 800)) None
         (initial_sketch Config.initial))
    = Sketch.fireworks (initial_sketch Config.initial) ++ [fw] /\
    Firework.type fw = Some t /\ t <> "RANDOM" /\
    Particle.role shell = Role.SHELL /\
    Particle.vel shell = Some (Vec.create vx vy) /\
    -1.5 <= vx <= 1.5 /\ -24 <= vy <= -18.
Proof.
  destruct (launch_creates_ascending_firework host_half (Vec.create 500 800)
              None (initial_sketch Config.initial) host_half_in_range)
    as [(fw & shell & t & vx & vy & H) _].
  - vm_compute. reflexivity.
  - exists fw, shell, t, vx, vy. intuition.
Defined.

(** [launch] with a position, below the cap, seen from the sketch. *)
Lemma launch_below_cap h pos typeOverride s :
  Host.rand_in_range h ->
  Qnat (length (World.particles (Sketch.world s)))
  < Config.maxTotalParticles (World.config (Sketch.world s)) ->
  let s' := FireworkSystem_launch h (Some pos) typeOverride s in
  exists fw shell t,
    Sketch.fireworks s' = Sketch.fireworks s ++ [fw] /\
    Sketch.lastLaunch s' = Sketch.lastLaunch s /\
    Sketch.gravity s' = Sketch.gravity s /\
    grows (Sketch.world s) (Sketch.world s') [shell] /\
    Firework.shell fw = length (World.heap (Sketch.world s)) /\
    ascending fw /\ Firework.config fw = Some SystemConfig /\
    Firework.type fw = Some t /\ t <> "RANDOM" /\
    Particle.role shell = Role.SHELL /\ Particle.pos shell = Some pos.
Proof.
  intros Hr Hlt. cbv zeta. unfold FireworkSystem_launch. cbv zeta.
  assert (E : Qleb (Config.maxTotalParticles (World.config (Sketch.world s)))
                (Qnat (length (World.particles (Sketch.world s)))) = false)
    by (apply Qleb_gt, Hlt).
  rewrite E.
  fold (requested_type typeOverride (World.config (Sketch.world s))).
  destruct (launch_body h pos
              (requested_type typeOverride (World.config (Sketch.world s)))
              (Sketch.world s) Hr)
    as (fw & w' & shell & t & vx & vy & Em & H).
  match goal with
  | |- context [lift ?m s] =>
      assert (Em' : m (Sketch.world s) = (fw, w')) by exact Em;
      unfold lift; rewrite Em'
  end.
  simpl. exists fw, shell, t. intuition.
Qed.

Lemma lift_fields {A} (m : M A) s :
  Sketch.fireworks (snd (lift m s)) = Sketch.fireworks s /\
  Sketch.lastLaunch (snd (lift m s)) = Sketch.lastLaunch s /\
  Sketch.gravity (snd (lift m s)) = Sketch.gravity s.
Proof. unfold lift. destruct (m (Sketch.world s)). simpl. auto. Qed.

(** [launchRandom] below the cap: one firework, launched from the bottom
    edge, between 15% and 85% of the width. *)
Lemma launchRandom_below_cap h s :
  Host.rand_in_range h ->
  Qnat (length (World.particles (Sketch.world s)))
  < Config.maxTotalParticles (World.config (Sketch.world s)) ->
  let s' := FireworkSystem_launchRandom h s in
  exists fw shell t x,
    Sketch.fireworks s' = Sketch.fireworks s ++ [fw] /\
    Sketch.lastLaunch s' = Sketch.lastLaunch s /\
    Sketch.gravity s' = Sketch.gravity s /\
    grows (Sketch.world s) (Sketch.world s') [shell] /\
    Firework.shell fw = length (World.heap (Sketch.world s)) /\
    ascending fw /\ Firework.config fw = Some SystemConfig /\
    Firework.type fw = Some t /\ t <> "RANDOM" /\
    Particle.role shell = Role.SHELL /\
    Particle.pos shell = Some (Vec.create x (Host.height h)) /\
    (0 <= Host.width h ->
     Host.width h * 0.15 <= x <= Host.width h * 0.85).
Proof.
  intros Hr Hlt. cbv zeta. unfold FireworkSystem_launchRandom.
  set (m := random h (Host.width h * 0.15) (Host.width h * 0.85)).
  pose proof (lift_world m s) as LW.
  pose proof (lift_fields m s) as (LF & LL & LG).
  pose proof (quiet_random h (Host.width h * 0.15) (Host.width h * 0.85)
                (Sketch.world s)) as G1.
  pose proof (fun H => random_range h (Host.width h * 0.15)
                         (Host.width h * 0.85) (Sketch.world s) Hr H) as R1.
  fold m in G1, R1. rewrite <- LW in G1. clear LW.
  assert (Ex : fst (lift m s) = fst (m (Sketch.world s))).
  { unfold lift. destruct (m (Sketch.world s)). reflexivity. }
  rewrite <- Ex in R1. clear Ex.
  destruct (lift m s) as [xPos s1]. simpl in G1, R1, LF, LL, LG. cbv zeta.
  assert (Hlt1 : Qnat (length (World.particles (Sketch.world s1)))
                 < Config.maxTotalParticles (World.config (Sketch.world s1))).
  { rewrite (grows_config _ _ _ G1), (grows_length _ _ _ G1). simpl.
    rewrite Nat.add_0_r. exact Hlt. }
  match goal with
  | |- context [FireworkSystem_launch h (Some ?pos) ?t s1] =>
      destruct (launch_below_cap h pos t s1 Hr Hlt1)
        as (fw & shell & ty & H1 & H2 & H3 & H4 & H5 & H6)
  end.
  exists fw, shell, ty, xPos.
  split; [congruence|]. split; [congruence|]. split; [congruence|].
  split; [apply (grows_trans _ _ _ [] [shell] G1 H4)|].
  destruct G1 as (Hh & _). rewrite app_nil_r in Hh.
  split; [congruence|].
  destruct H6 as (? & ? & ? & ? & ? & ?).
  repeat (split; [assumption|]).
  intros Hw. apply R1. lra.
Qed.

(** X4 (the system's [update] and [launchRandom]), for a launch frequency
    that is not zero, so that the period [1000 / launchFrequency] is a
    number: it
    launches at most one firework; none unless auto-launch is on, more
    than [1000 / launchFrequency] milliseconds have passed since the last
    launch and the array is below the cap; when it launches, the firework
    starts from the bottom edge between 15% and 85% of the width, and the
    time of the launch is recorded, so that, for a positive frequency, a
    second call at the same clock launches nothing. *)
Theorem auto_launch_waits h s :
  ~ Config.launchFrequency (World.config (Sketch.world s)) == 0 ->
  Host.rand_in_range h ->
  let w := Sketch.world s in
  let config := World.config w in
  let s' := FireworkSystem_update h s in
  (Config.autoLaunch config = false
   \/ World.millis w - Sketch.lastLaunch s
      <= 1000 / Config.launchFrequency config
   \/ Config.maxTotalParticles config <= Qnat (length (World.particles w)) ->
   s' = s) /\
  (Config.autoLaunch config = true ->
   1000 / Config.launchFrequency config
   < World.millis w - Sketch.lastLaunch s ->
   Qnat (length (World.particles w)) < Config.maxTotalParticles config ->
   Sketch.lastLaunch s' = World.millis w /\
   exists fw shell x,
     Sketch.fireworks s' = Sketch.fireworks s ++ [fw] /\
     grows w (Sketch.world s') [shell] /\
     Firework.shell fw = length (World.heap w) /\
     ascending fw /\
     Particle.pos shell = Some (Vec.create x (Host.height h)) /\
     (0 <= Host.width h ->
      Host.width h * 0.15 <= x <= Host.width h * 0.85)) /\
  (0 < Config.launchFrequency config -> FireworkSystem_update h s' = s').
Proof.
  intros _ Hr. cbv zeta.
  assert (Hstay : forall s0,
            Config.autoLaunch (World.config (Sketch.world s0)) = false
            \/ World.millis (Sketch.world s0) - Sketch.lastLaunch s0
               <= 1000 / Config.launchFrequency (World.config (Sketch.world s0))
            \/ Config.maxTotalParticles (World.config (Sketch.world s0))
               <= Qnat (length (World.particles (Sketch.world s0))) ->
            FireworkSystem_update h s0 = s0).
  { intros s0 H. unfold FireworkSystem_update. cbv zeta.
    destruct (Config.autoLaunch (World.config (Sketch.world s0)));
      [|reflexivity].
    destruct (Qltb (1000 / _) _) eqn:E1; [|reflexivity].
    destruct (Qltb (Qnat _) _) eqn:E2; [|reflexivity].
    apply Qltb_lt in E1, E2. simpl.
    destruct H as [H|[H|H]]; [discriminate|lra|lra]. }
  assert (Hgo : Config.autoLaunch (World.config (Sketch.world s)) = true ->
            1000 / Config.launchFrequency (World.config (Sketch.world s))
            < World.millis (Sketch.world s) - Sketch.lastLaunch s ->
            Qnat (length (World.particles (Sketch.world s)))
            < Config.maxTotalParticles (World.config (Sketch.world s)) ->
            FireworkSystem_update h s
            = Sketch.set_lastLaunch (World.millis (Sketch.world s))
                (FireworkSystem_launchRandom h s)).
  { intros Ha H1 H2. unfold FireworkSystem_update. cbv zeta.
    rewrite Ha. apply Qltb_lt in H1, H2. rewrite H1, H2. reflexivity. }
  split; [apply Hstay|]. split.
  - intros Ha H1 H2. rewrite (Hgo Ha H1 H2).
    split; [reflexivity|].
    destruct (launchRandom_below_cap h s Hr H2)
      as (fw & shell & t & x & F1 & F2 & F3 & F4 & F5 & F6 & F7 & F8 & F9
          & F10 & F11 & F12).
    exists fw, shell, x. simpl. auto 10.
  - intros Hf.
    destruct (Config.autoLaunch (World.config (Sketch.world s))) eqn:Ha;
      [|rewrite (Hstay s) by auto; apply Hstay; auto].
    destruct (Qltb (1000 / Config.launchFrequency
                             (World.config (Sketch.world s)))
                (World.millis (Sketch.world s) - Sketch.lastLaunch s)) eqn:E1;
      [|apply Qltb_ge in E1; rewrite (Hstay s) by auto; apply Hstay; auto].
    destruct (Qltb (Qnat (length (World.particles (Sketch.world s))))
                (Config.maxTotalParticles (World.config (Sketch.world s))))
      eqn:E2;
      [|apply Qltb_ge in E2; rewrite (Hstay s) by auto; apply Hstay; auto].
    apply Qltb_lt in E1, E2. rewrite (Hgo eq_refl E1 E2).
    destruct (launchRandom_below_cap h s Hr E2)
      as (fw & shell & t & x & F1 & F2 & F3 & F4 & _).
    apply Hstay. right. left. simpl.
    destruct F4 as (_ & _ & C & Mi & _). rewrite C, Mi.
    assert (0 < 1000 / Config.launchFrequency (World.config (Sketch.world s))).
    { apply Qlt_shift_div_l; [exact Hf|]. lra. }
    lra.
Qed.

Lemma auto_launch_waits_witness :
  Sketch.lastLaunch
    (FireworkSystem_update host_half
       (Sketch.set_world
          (World.set_millis 2016 (initial_world Config.initial))
          (initial_sketch Config.initial))) = 2016 /\
  exists fw,
    Sketch.fireworks
      (FireworkSystem_update host_half
         (Sketch.set_world
            (World.set_millis 2016 (initial_world Config.initial))
            (initial_sketch Config.initial))) = [] ++ [fw].
Proof.
  destruct (auto_launch_waits host_half
              (Sketch.set_world
                 (World.set_millis 2016 (initial_world Config.initial))
                 (initial_sketch Config.initial)))
    as (_ & H & _).
  - vm_compute. discriminate.
  - apply host_half_in_range.
  - destruct H as (L & fw & shell & x & F & _).
    + reflexivity.
    + vm_compute. reflexivity.
    + vm_compute. reflexivity.
    + split; [exact L|]. exists fw. exact F.
Defined.

(** ** The trail *)

Lemma same_trail_refl p : same_trail p p.
Proof. split; reflexivity. Qed.

Lemma same_trail_trans p q r :
  same_trail p q -> same_trail q r -> same_trail p r.
Proof. unfold same_trail. intuition congruence. Qed.

Lemma applyForce_trail f p : same_trail p (Particle_applyForce f p).
Proof.
  unfold same_trail, Particle_applyForce. destruct (Particle.acc p); auto.
Qed.

Lemma applyForces_trail fs p :
  same_trail p (foldl (fun p f => Particle_applyForce f p) p fs).
Proof.
  revert p. induction fs as [|f fs IH]; intros p; simpl.
  - apply same_trail_refl.
  - eapply same_trail_trans; [apply applyForce_trail|apply IH].
Qed.

Lemma update_physics_trail dt pos vel acc p :
  same_trail p (update_physics dt pos vel acc p).
Proof. split; reflexivity. Qed.

Lemma update_fading_trail t a p w : same_trail p (fst (update_fading t a p w)).
Proof.
  unfold same_trail, update_fading, Particle_setFading, bind, ret, now.
  repeat case_match; simpl; auto.
Qed.

Lemma update_strobe_trail t p : same_trail p (update_strobe t p).
Proof. unfold same_trail, update_strobe. repeat case_match; simpl; auto. Qed.

Lemma update_crackle_trail h t p w :
  same_trail p (fst (update_crackle h t p w)).
Proof.
  unfold same_trail, update_crackle, bind, ret, get.
  repeat case_match; simpl; auto.
Qed.

Lemma update_fluid_trail h p : same_trail p (update_fluid h p).
Proof.
  unfold same_trail, update_fluid, Particle_applyFluidBehavior,
    Particle_applyForce.
  repeat case_match; simpl; auto.
Qed.

Lemma explodeSecondary_trail h p w :
  same_trail p (fst (Particle_explodeSecondary h p w)).
Proof.
  unfold Particle_explodeSecondary. cbv zeta.
  set (p1 := Particle.set_secondaryCalls _ p).
  assert (H1 : same_trail p p1) by (split; reflexivity).
  clearbody p1.
  destruct (Particle.configRef p1) as [[]|];
    [destruct (Particle.pos p1) as [pos|]|].
  - destruct (Particle.vel p1) as [vel|].
    + unfold bind, ret.
      destruct (secondary_explosion h p1 pos w) as [u w1]. exact H1.
    + unfold bind, ret, log, modify.
      destruct (secondary_explosion h _ pos _) as [u w1]. exact H1.
  - exact H1.
  - exact H1.
Qed.

(** The trail step: a suffix of the old trail with the new position at
    its end, never longer than the bound. *)
Lemma update_trail_step p :
  let q := update_trail p in
  Particle.maxTrailLength q = Particle.maxTrailLength p /\
  Particle.pos q = Particle.pos p /\
  ((length (Particle.trail p) <= Particle.maxTrailLength p)%nat ->
   (length (Particle.trail q) <= Particle.maxTrailLength p)%nat) /\
  (Particle.trail q `suffix_of` Particle.trail p \/
   exists pos, Particle.pos p = Some pos /\
               Particle.trail q `suffix_of` (Particle.trail p ++ [pos])).
Proof.
  cbv zeta. unfold update_trail.
  destruct (Particle.vel p) as [vel|]; [|repeat split; auto].
  destruct (Particle.pos p) as [pos|] eqn:Ep; [|repeat split; auto].
  destruct (Qltb 0.01 (Vec.magSq vel)); simpl.
  - split; [reflexivity|]. split; [exact Ep|]. split.
    + intros _. rewrite length_drop, length_app. simpl. lia.
    + right. exists pos. split; [reflexivity|]. apply suffix_drop.
  - split; [reflexivity|]. split; [exact Ep|]. split.
    + intros H. rewrite length_drop. lia.
    + left. apply suffix_drop.
Qed.


(** The three ways [update] ends: at a guard (a vector is missing, or the
    particle is a spent mini-shell), on the secondary explosion of a
    mini-shell whose delay has elapsed, or through its body. *)
Lemma update_shape h p w :
  let q := fst (Particle_update h p w) in
  (halted p /\ q = Particle.set_alpha 0 p) \/
  (Particle.role p = Role.MINI_SHELL /\ complete p /\
   q = Particle.set_delay 0
         (Particle.set_alpha 0 (fst (Particle_explodeSecondary h p w)))) \/
  (exists pos vel acc,
     Particle.pos p = Some pos /\ Particle.vel p = Some vel /\
     Particle.acc p = Some acc /\ awaits_secondary p w /\
     Particle_update h p w
     = update_body h (World.millis w / 1000) (age p w) pos vel acc p w).
Proof.
  cbv zeta.
  destruct (Particle.pos p) as [pos|] eqn:Ep;
    [destruct (Particle.vel p) as [vel|] eqn:Ev;
     [destruct (Particle.acc p) as [acc|] eqn:Ea|]|].
  2-4: left;
       assert (Hh : halted p)
         by (left; unfold complete; rewrite ?Ep, ?Ev, ?Ea;
             intros (? & ? & ?); finish_some);
       split; [exact Hh|apply (update_halted h p w Hh)].
  assert (Hc : complete p) by (unfold complete; rewrite Ep, Ev, Ea; eauto).
  destruct (Role.eqb (Particle.role p) Role.MINI_SHELL) eqn:Er.
  - apply role_eqb_eq in Er.
    destruct (Qltb 0 (Particle.delay p)) eqn:Ed.
    + destruct (Qleb (Particle.delay p)
                  (World.millis w / 1000 - Particle.timeCreated p)) eqn:Eg.
      * right. left. split; [exact Er|]. split; [exact Hc|].
        rewrite (update_complete h p w pos vel acc Ep Ev Ea).
        rewrite Er, Ed, Eg. simpl. unfold bind, ret.
        destruct (Particle_explodeSecondary h p w). reflexivity.
      * right. right. exists pos, vel, acc.
        assert (Ha' : awaits_secondary p w).
        { intros _. apply Qltb_lt in Ed. apply Qleb_gt in Eg.
          unfold age. auto. }
        repeat (split; [first [reflexivity|assumption]|]).
        apply (update_runs_body h p w pos vel acc Ep Ev Ea Ha').
    + left. apply Qltb_ge in Ed.
      assert (Hh : halted p) by (right; split; assumption).
      split; [exact Hh|apply (update_halted h p w Hh)].
  - right. right. exists pos, vel, acc.
    assert (Ha' : awaits_secondary p w).
    { intros E. rewrite E in Er. discriminate. }
    repeat (split; [first [reflexivity|assumption]|]).
    apply (update_runs_body h p w pos vel acc Ep Ev Ea Ha').
Qed.

(** The phases of the body of [update], one after the other. *)
Lemma update_body_phases h t a pos vel acc p w :
  exists p2 w2 p4 w4,
    let p1 := update_trail (update_physics (fst (frame_dt w)) pos vel acc p) in
    update_fading t a p1 w = (p2, w2) /\
    update_crackle h t (update_strobe t p2) w2 = (p4, w4) /\
    update_body h t a pos vel acc p w = (update_fluid h p4, w4).
Proof.
  cbv zeta.
  destruct (update_fading t a
              (update_trail (update_physics (fst (frame_dt w)) pos vel acc p))
              w) as [p2 w2] eqn:E2.
  destruct (update_crackle h t (update_strobe t p2) w2) as [p4 w4] eqn:E4.
  exists p2, w2, p4, w4. split; [reflexivity|]. split; [exact E4|].
  unfold update_body, bind.
  change (frame_dt w) with (fst (frame_dt w), w). cbv iota beta.
  rewrite E2, E4. reflexivity.
Qed.

Lemma update_fluid_pos h p :
  Particle.pos (update_fluid h p) = Particle.pos p.
Proof.
  unfold update_fluid, Particle_applyFluidBehavior, Particle_applyForce.
  repeat case_match; simpl; auto.
Qed.

Lemma update_trail_of h p w :
  let q := fst (Particle_update h p w) in
  Particle.maxTrailLength q = Particle.maxTrailLength p /\
  ((length (Particle.trail p) <= Particle.maxTrailLength p)%nat ->
   (length (Particle.trail q) <= Particle.maxTrailLength p)%nat) /\
  (Particle.trail q `suffix_of` Particle.trail p \/
   exists pos, Particle.pos q = Some pos /\
               Particle.trail q `suffix_of` (Particle.trail p ++ [pos])).
Proof.
  cbv zeta.
  destruct (update_shape h p w) as [[_ ->]|[(_ & _ & ->)|H]].
  - simpl. auto.
  - destruct (explodeSecondary_trail h p w) as [T M]. simpl.
    rewrite T, M. auto.
  - destruct H as (pos & vel & acc & Ep & Ev & Ea & _ & ->).
    destruct (update_body_phases h (World.millis w / 1000) (age p w)
                pos vel acc p w) as (p2 & w2 & p4 & w4 & H2 & H4 & ->).
    cbv zeta in H2. simpl fst.
    set (p0 := update_physics (fst (frame_dt w)) pos vel acc p) in *.
    destruct (update_trail_step p0) as (M1 & P1 & B1 & S1).
    cbv zeta in M1, P1, B1, S1.
    pose proof (update_fading_trail (World.millis w / 1000) (age p w)
                  (update_trail p0) w) as T2.
    pose proof (update_fading_motion (World.millis w / 1000) (age p w)
                  (update_trail p0) w) as (Q2 & _).
    rewrite H2 in T2, Q2. simpl in T2, Q2.
    pose proof (update_strobe_trail (World.millis w / 1000) p2) as T3.
    pose proof (update_strobe_motion (World.millis w / 1000) p2) as (Q3 & _).
    pose proof (update_crackle_trail h (World.millis w / 1000)
                  (update_strobe (World.millis w / 1000) p2) w2) as T4.
    pose proof (update_crackle_motion h (World.millis w / 1000)
                  (update_strobe (World.millis w / 1000) p2) w2) as (Q4 & _).
    rewrite H4 in T4, Q4. simpl in T4, Q4.
    pose proof (update_fluid_trail h p4) as T5.
    pose proof (same_trail_trans _ _ _ T2
                  (same_trail_trans _ _ _ T3
                     (same_trail_trans _ _ _ T4 T5))) as [T M].
    rewrite T, M, M1.
    assert (Ep0 : Particle.pos (update_fluid h p4)
                  = Particle.pos (update_trail p0))
      by (rewrite update_fluid_pos; congruence).
    split; [reflexivity|]. split; [exact B1|].
    destruct S1 as [S1|(pos1 & E1 & S1)]; [left; exact S1|].
    right. exists pos1. split; [|exact S1].
    rewrite Ep0, P1. exact E1.
Qed.

(** X5 (the trail step of [update]): along every sequence of frames the bound
    [maxTrailLength] stays what it was and a trail within the bound stays
    within it; one [update] leaves a suffix of the old trail, or of the
    old trail with the new position at its end: the oldest positions go
    first. *)
Theorem trail_stays_bounded h p :
  (forall frames,
     (length (Particle.trail p) <= Particle.maxTrailLength p)%nat ->
     Forall (fun q =>
               (length (Particle.trail q) <= Particle.maxTrailLength p)%nat /\
               Particle.maxTrailLength q = Particle.maxTrailLength p)
       (Particle_trace h frames p)) /\
  (forall forces w,
     let q := fst (Particle_update h
                     (foldl (fun p f => Particle_applyForce f p) p forces)
                     w) in
     Particle.trail q `suffix_of` Particle.trail p \/
     exists pos, Particle.pos q = Some pos /\
                 Particle.trail q `suffix_of` (Particle.trail p ++ [pos])).
Proof.
  split.
  - intros frames. revert p.
    induction frames as [|[forces w] rest IH]; intros p Hb; simpl;
      [constructor|].
    set (p1 := foldl _ p forces).
    destruct (applyForces_trail forces p) as [T1 M1]. fold p1 in T1, M1.
    destruct (update_trail_of h p1 w) as (M2 & B2 & _).
    cbv zeta in M2, B2. set (q := fst (Particle_update h p1 w)) in *.
    rewrite T1, M1 in B2. rewrite M1 in M2. specialize (B2 Hb).
    constructor; [auto|].
    assert (Hq : (length (Particle.trail q) <= Particle.maxTrailLength q)%nat)
      by (rewrite M2; exact B2).
    eapply Forall_impl; [apply (IH q Hq)|].
    intros r (? & ?). split; congruence.
  - intros forces w. cbv zeta.
    set (p1 := foldl _ p forces).
    destruct (applyForces_trail forces p) as [T1 M1]. fold p1 in T1, M1.
    destruct (update_trail_of h p1 w) as (_ & _ & S). cbv zeta in S.
    rewrite T1 in S. exact S.
Qed.

Lemma trail_stays_bounded_witness :
  Forall (fun q => (length (Particle.trail q) <= TRAIL_LENGTH)%nat /\
                   Particle.maxTrailLength q = TRAIL_LENGTH)
    (Particle_trace host_zero three_frames shell_example).
Proof.
  refine (proj1 (trail_stays_bounded host_zero shell_example) three_frames _).
  vm_compute. lia.
Defined.

(** ** The strobe *)

(** What [explodeSecondary] returns: the particle with one more call
    counted, and either untouched, or with a zero velocity in place of a
    missing one, or marked for removal. *)
Lemma explodeSecondary_cases h p w :
  let p1 := Particle.set_secondaryCalls (S (Particle.secondaryCalls p)) p in
  let q := fst (Particle_explodeSecondary h p w) in
  q = p1 \/ q = Particle.set_vel (Some (Vec.create 0 0)) p1
  \/ q = Particle.set_alpha 0 p1.
Proof.
  cbv zeta. unfold Particle_explodeSecondary. cbv zeta.
  set (p1 := Particle.set_secondaryCalls _ p). clearbody p1.
  destruct (Particle.configRef p1) as [[]|];
    [destruct (Particle.pos p1) as [pos|]|].
  - destruct (Particle.vel p1) as [vel|].
    + unfold bind, ret.
      destruct (secondary_explosion h p1 pos w) as [u w1]. auto.
    + unfold bind, ret, log, modify.
      destruct (secondary_explosion h _ pos _) as [u w1]. auto.
  - auto.
  - auto.
Qed.

Lemma same_strobe_refl p : same_strobe p p.
Proof. unfold same_strobe. auto. Qed.

Lemma same_strobe_trans p q r :
  same_strobe p q -> same_strobe q r -> same_strobe p r.
Proof. unfold same_strobe. intuition congruence. Qed.

Lemma applyForces_strobe fs p :
  same_strobe p (foldl (fun p f => Particle_applyForce f p) p fs).
Proof.
  revert p. induction fs as [|f fs IH]; intros p; simpl.
  - apply same_strobe_refl.
  - eapply same_strobe_trans; [|apply IH].
    unfold same_strobe, Particle_applyForce.
    destruct (Particle.acc p); auto.
Qed.

Lemma update_trail_strobe p : same_strobe p (update_trail p).
Proof. unfold same_strobe, update_trail. repeat case_match; simpl; auto. Qed.

Lemma update_fading_strobe t a p w :
  same_strobe p (fst (update_fading t a p w)).
Proof.
  unfold same_strobe, update_fading, Particle_setFading, bind, ret, now.
  repeat case_match; simpl; auto.
Qed.

Lemma update_crackle_strobe h t p w :
  same_strobe p (fst (update_crackle h t p w)).
Proof.
  unfold same_strobe, update_crackle, bind, ret, get.
  repeat case_match; simpl; auto.
Qed.

Lemma update_fluid_strobe h p : same_strobe p (update_fluid h p).
Proof.
  unfold same_strobe, update_fluid, Particle_applyFluidBehavior,
    Particle_applyForce.
  repeat case_match; simpl; auto.
Qed.

Lemma explodeSecondary_strobe h p w :
  same_strobe p (fst (Particle_explodeSecondary h p w)).
Proof.
  destruct (explodeSecondary_cases h p w) as [->|[->| ->]];
    unfold same_strobe; simpl; auto.
Qed.

(** The fading step on a particle that is not fading. *)
Lemma update_fading_spec t a p w :
  Particle.isFading p = false ->
  Particle.role p <> Role.MINI_SHELL ->
  (a < Particle.lifespan p -> update_fading t a p w = (p, w)) /\
  (Particle.lifespan p <= a ->
   update_fading t a p w = Particle_setFading (-1) p w).
Proof.
  intros Hf Hr. unfold update_fading. rewrite Hf, (role_eqb_neq _ _ Hr).
  simpl. split; intros H.
  - assert (E : Qleb (Particle.lifespan p) a = false) by (apply Qleb_gt, H).
    rewrite E. reflexivity.
  - assert (E : Qleb (Particle.lifespan p) a = true) by (apply Qleb_le, H).
    rewrite E. reflexivity.
Qed.

(** The strobe step. *)
Lemma update_strobe_spec t p :
  let q := update_strobe t p in
  let interval := 1.0 / Particle.strobeRate p in
  (Particle.role p <> Role.STROBE \/ Particle.isFading p = true \/
   Particle.strobeRate p <= 0 \/ t - Particle.lastStrobe p < interval ->
   q = p) /\
  (Particle.role p = Role.STROBE -> Particle.isFading p = false ->
   0 < Particle.strobeRate p -> interval <= t - Particle.lastStrobe p ->
   Particle.strobeOn q = negb (Particle.strobeOn p) /\
   Particle.strobeRate q = Particle.strobeRate p /\
   Particle.lastStrobe p < Particle.lastStrobe q /\
   t - 2 * interval <= Particle.lastStrobe q <= t).
Proof.
  cbv zeta. unfold update_strobe. split.
  - intros [H|[H|[H|H]]].
    + rewrite (role_eqb_neq _ _ H). reflexivity.
    + rewrite H, andb_false_r. reflexivity.
    + assert (E : Qltb 0 (Particle.strobeRate p) = false)
        by (apply Qltb_ge, H).
      rewrite E, andb_false_r. reflexivity.
    + assert (E : Qleb (1.0 / Particle.strobeRate p)
                    (t - Particle.lastStrobe p) = false)
        by (apply Qleb_gt, H).
      rewrite E. destruct (_ && _ && _); reflexivity.
  - intros Hr Hf Hs Hi. rewrite Hr, Hf. simpl.
    assert (E1 : Qltb 0 (Particle.strobeRate p) = true) by (apply Qltb_lt, Hs).
    assert (E2 : Qleb (1.0 / Particle.strobeRate p)
                   (t - Particle.lastStrobe p) = true) by (apply Qleb_le, Hi).
    rewrite E1, E2. simpl.
    assert (Hpos : 0 < 1.0 / Particle.strobeRate p).
    { apply Qlt_shift_div_l; [exact Hs|]. lra. }
    set (i := 1.0 / Particle.strobeRate p) in *.
    split; [reflexivity|]. split; [reflexivity|].
    destruct (Qltb (Particle.lastStrobe p + i) (t - i * 2)) eqn:E3.
    + apply Qltb_lt in E3. lra.
    + apply Qltb_ge in E3. lra.
Qed.

Lemma setFading_flag d p w :
  Particle.isFading (fst (Particle_setFading d p w)) = true.
Proof.
  unfold Particle_setFading. destruct (Particle.isFading p) eqn:E;
    [exact E|reflexivity].
Qed.

(** The state of the strobe after one [update] of a complete particle
    that is not a mini-shell, from the particle [p2] the fading step
    leaves. *)
Lemma update_strobe_of h p w :
  complete p -> Particle.role p <> Role.MINI_SHELL ->
  exists p2,
    same_strobe p p2 /\ Particle.role p2 = Particle.role p /\
    (Particle.isFading p = true -> Particle.isFading p2 = true) /\
    (Particle.isFading p = false -> Particle.lifespan p <= age p w ->
     Particle.isFading p2 = true) /\
    (Particle.isFading p = false -> age p w < Particle.lifespan p ->
     Particle.isFading p2 = false) /\
    same_strobe (update_strobe (World.millis w / 1000) p2)
      (fst (Particle_update h p w)).
Proof.
  intros Hc Hr.
  destruct (update_shape h p w) as [[Hh _]|[(Hm & _)|H]].
  - exfalso. destruct Hh as [Hn|[Hm _]]; [apply Hn, Hc|apply Hr, Hm].
  - exfalso. apply Hr, Hm.
  - destruct H as (pos & vel & acc & Ep & Ev & Ea & _ & ->).
    destruct (update_body_phases h (World.millis w / 1000) (age p w)
                pos vel acc p w) as (p2 & w2 & p4 & w4 & H2 & H4 & ->).
    cbv zeta in H2. simpl fst.
    set (p0 := update_physics (fst (frame_dt w)) pos vel acc p) in *.
    pose proof (kept_trans _ _ _
                  (proj1 (update_physics_kept (fst (frame_dt w)) pos vel
                            acc p))
                  (update_trail_kept p0)) as K1.
    fold p0 in K1.
    assert (S1 : same_strobe p (update_trail p0)).
    { eapply same_strobe_trans; [|apply update_trail_strobe].
      unfold same_strobe. auto. }
    destruct K1 as ((F1 & _) & (R1 & _ & L1 & _) & _).
    assert (Hr1 : Particle.role (update_trail p0) <> Role.MINI_SHELL)
      by (rewrite R1; exact Hr).
    pose proof (update_fading_strobe (World.millis w / 1000) (age p w)
                  (update_trail p0) w) as S2.
    pose proof (update_fading_identity (World.millis w / 1000) (age p w)
                  (update_trail p0) w) as (R2 & _).
    rewrite H2 in S2, R2. simpl in S2, R2.
    exists p2. split; [apply (same_strobe_trans _ _ _ S1 S2)|].
    split; [congruence|]. split; [|split; [|split]].
    + intros Hf. rewrite <- F1 in Hf.
      destruct (update_fading_on (World.millis w / 1000) (age p w)
                  (update_trail p0) w Hf) as ((E & _) & _).
      rewrite H2 in E. simpl in E. congruence.
    + intros Hf Hl. rewrite <- F1 in Hf.
      destruct (update_fading_spec (World.millis w / 1000) (age p w)
                  (update_trail p0) w Hf Hr1) as [_ E].
      rewrite L1 in E. specialize (E Hl). rewrite H2 in E.
      pose proof (setFading_flag (-1) (update_trail p0) w) as Hfl.
      rewrite <- E in Hfl. exact Hfl.
    + intros Hf Hl. rewrite <- F1 in Hf.
      destruct (update_fading_spec (World.millis w / 1000) (age p w)
                  (update_trail p0) w Hf Hr1) as [E _].
      rewrite L1 in E. specialize (E Hl). rewrite H2 in E.
      injection E as -> _. exact Hf.
    + pose proof (update_crackle_strobe h (World.millis w / 1000)
                    (update_strobe (World.millis w / 1000) p2) w2) as S4.
      rewrite H4 in S4. simpl in S4.
      apply (same_strobe_trans _ _ _ S4 (update_fluid_strobe h p4)).
Qed.

(** The schedule of the strobe in exact arithmetic: on a complete
    particle of role STROBE, one [update] leaves the strobe as it is when
    the particle is fading, has reached its lifespan, has no positive
    rate, or when less than [1 / strobeRate] seconds have passed since the
    last flip; otherwise it flips [strobeOn] once and moves [lastStrobe]
    forward, to a time within two intervals of the clock and not after
    it.  A particle of another role keeps its strobe state along every
    sequence of frames. *)
Lemma update_strobe_schedule h :
  (forall p w,
     complete p -> Particle.role p = Role.STROBE ->
     let t := World.millis w / 1000 in
     let q := fst (Particle_update h p w) in
     let interval := 1.0 / Particle.strobeRate p in
     (Particle.isFading p = true \/ Particle.lifespan p <= age p w \/
      Particle.strobeRate p <= 0 \/ t - Particle.lastStrobe p < interval ->
      same_strobe p q) /\
     (Particle.isFading p = false -> age p w < Particle.lifespan p ->
      0 < Particle.strobeRate p -> interval <= t - Particle.lastStrobe p ->
      Particle.strobeOn q = negb (Particle.strobeOn p) /\
      Particle.lastStrobe p < Particle.lastStrobe q /\
      t - 2 * interval <= Particle.lastStrobe q <= t)) /\
  (forall p frames,
     Particle.role p <> Role.STROBE ->
     Forall (same_strobe p) (Particle_trace h frames p)).
Proof.
  split.
  - intros p w Hc Hr. cbv zeta.
    assert (Hm : Particle.role p <> Role.MINI_SHELL)
      by (rewrite Hr; discriminate).
    destruct (update_strobe_of h p w Hc Hm)
      as (p2 & S2 & R2 & Fon & Fend & Foff & Sq).
    destruct (update_strobe_spec (World.millis w / 1000) p2) as [Hno Hyes].
    cbv zeta in Hno, Hyes.
    destruct S2 as (So & Sl & Sr). rewrite Sl, Sr in Hno, Hyes.
    split.
    + intros H.
      assert (E : update_strobe (World.millis w / 1000) p2 = p2).
      { apply Hno.
        destruct (Particle.isFading p) eqn:Hf; [right; left; auto|].
        destruct H as [H|[H|[H|H]]]; [discriminate|auto|auto|auto]. }
      rewrite E in Sq.
      apply (same_strobe_trans p p2); [unfold same_strobe; auto|exact Sq].
    + intros Hf Hl Hs Hi.
      destruct (Hyes ltac:(congruence) (Foff Hf Hl) Hs Hi)
        as (T1 & T2 & T3 & T4).
      destruct Sq as (Q1 & Q2 & _). rewrite Q1, Q2, T1, So.
      split; [reflexivity|]. split; [exact T3|exact T4].
  - intros p frames Hr. revert p Hr.
    induction frames as [|[forces w] rest IH]; intros p Hr; simpl;
      [constructor|].
    set (p1 := foldl _ p forces).
    pose proof (applyForces_strobe forces p) as S1. fold p1 in S1.
    assert (R1 : Particle.role p1 = Particle.role p)
      by (apply (applyForces_kept forces p)).
    assert (Sq : same_strobe p1 (fst (Particle_update h p1 w)) /\
                 Particle.role (fst (Particle_update h p1 w))
                 = Particle.role p1).
    { destruct (update_shape h p1 w) as [[_ ->]|[(Hm & _ & ->)|H]].
      - split; [unfold same_strobe; simpl; auto|reflexivity].
      - destruct (explodeSecondary_strobe h p1 w) as (A & B & C).
        destruct (explodeSecondary_fields h p1 w) as (_ & R & _).
        split; [unfold same_strobe; simpl; auto|exact R].
      - destruct H as (pos & vel & acc & Ep & Ev & Ea & Haw & E).
        assert (Hc : complete p1)
          by (unfold complete; rewrite Ep, Ev, Ea; eauto).
        split; [|rewrite E; apply update_body_identity].
        destruct (Role.eqb (Particle.role p1) Role.MINI_SHELL) eqn:Em.
        + apply role_eqb_eq in Em.
          rewrite E.
          destruct (update_body_phases h (World.millis w / 1000) (age p1 w)
                      pos vel acc p1 w)
            as (p2 & w2 & p4 & w4 & H2 & H4 & ->).
          cbv zeta in H2. simpl fst.
          set (p0 := update_physics (fst (frame_dt w)) pos vel acc p1) in *.
          assert (S0 : same_strobe p1 (update_trail p0)).
          { eapply same_strobe_trans; [|apply update_trail_strobe].
            unfold same_strobe. auto. }
          pose proof (update_fading_strobe (World.millis w / 1000)
                        (age p1 w) (update_trail p0) w) as S2.
          pose proof (update_fading_identity (World.millis w / 1000)
                        (age p1 w) (update_trail p0) w) as (R2 & _).
          rewrite H2 in S2, R2. simpl in S2, R2.
          assert (R0 : Particle.role (update_trail p0) = Particle.role p1).
          { apply (kept_trans _ _ _
                     (proj1 (update_physics_kept (fst (frame_dt w)) pos vel
                               acc p1))
                     (update_trail_kept p0)). }
          assert (E3 : update_strobe (World.millis w / 1000) p2 = p2).
          { apply update_strobe_spec. left. rewrite R2, R0, Em.
            discriminate. }
          pose proof (update_crackle_strobe h (World.millis w / 1000)
                        (update_strobe (World.millis w / 1000) p2) w2) as S4.
          rewrite H4, E3 in S4. simpl in S4.
          apply (same_strobe_trans _ _ _ S0).
          apply (same_strobe_trans _ _ _ S2).
          apply (same_strobe_trans _ _ _ S4 (update_fluid_strobe h p4)).
        + assert (Hm : Particle.role p1 <> Role.MINI_SHELL).
          { intros Hm. rewrite Hm in Em. discriminate. }
          destruct (update_strobe_of h p1 w Hc Hm)
            as (p2 & S2 & R2 & _ & _ & _ & Sq).
          assert (E3 : update_strobe (World.millis w / 1000) p2 = p2).
          { apply update_strobe_spec. left. rewrite R2, R1. exact Hr. }
          rewrite E3 in Sq.
          apply (same_strobe_trans _ _ _ S2 Sq). }
    set (q := fst (Particle_update h p1 w)) in *.
    destruct Sq as [Sq Rq].
    pose proof (same_strobe_trans _ _ _ S1 Sq) as Spq.
    constructor; [exact Spq|].
    assert (Hrq : Particle.role q <> Role.STROBE) by congruence.
    eapply Forall_impl; [apply (IH q Hrq)|].
    intros r Hqr. apply (same_strobe_trans _ _ _ Spq Hqr).
Qed.

(** X6 (the strobe step of [update]), with a tolerance of a millisecond
    for the rounding of the clock: on a complete particle of role STROBE,
    one [update] leaves the strobe as it is when the particle is fading,
    is a millisecond or more past its lifespan, has no positive rate, or
    when the time since the last flip is a millisecond or more short of
    [1 / strobeRate]; it flips [strobeOn] once and moves [lastStrobe]
    forward, to a time not after the clock and within two intervals and a
    millisecond of it, when the particle is not fading, is a millisecond
    or more short of its lifespan, has a positive rate, and
    [1 / strobeRate] and a millisecond have passed since the last flip.
    A particle of another role keeps its strobe state along every
    sequence of frames. *)
Theorem strobe_flips_on_schedule h :
  (forall p w,
     complete p -> Particle.role p = Role.STROBE ->
     let t := World.millis w / 1000 in
     let q := fst (Particle_update h p w) in
     let interval := 1.0 / Particle.strobeRate p in
     (Particle.isFading p = true \/
      Particle.lifespan p + 0.001 <= age p w \/
      Particle.strobeRate p <= 0 \/
      t - Particle.lastStrobe p <= interval - 0.001 ->
      same_strobe p q) /\
     (Particle.isFading p = false ->
      age p w <= Particle.lifespan p - 0.001 ->
      0 < Particle.strobeRate p ->
      interval + 0.001 <= t - Particle.lastStrobe p ->
      Particle.strobeOn q = negb (Particle.strobeOn p) /\
      Particle.lastStrobe p < Particle.lastStrobe q /\
      t - 2 * interval - 0.001 <= Particle.lastStrobe q <= t)) /\
  (forall p frames,
     Particle.role p <> Role.STROBE ->
     Forall (same_strobe p) (Particle_trace h frames p)).
Proof.
  destruct (update_strobe_schedule h) as [H1 H2]. split; [|exact H2].
  intros p w Hc Hr. cbv zeta.
  destruct (H1 p w Hc Hr) as [Hno Hyes]. cbv zeta in Hno, Hyes.
  set (interval := 1.0 / Particle.strobeRate p) in *.
  set (q := fst (Particle_update h p w)) in *.
  split.
  - intros H. apply Hno.
    destruct H as [H|[H|[H|H]]]; [auto|right; left; lra|auto|].
    right; right; right. lra.
  - intros Hf Hl Hs Hi.
    destruct (Hyes Hf ltac:(lra) Hs ltac:(lra)) as (T1 & T2 & T3 & T4).
    split; [exact T1|]. split; [exact T2|]. split; lra.
Qed.

Lemma strobe_example_complete : complete strobe_example.
Proof. unfold complete. vm_compute. repeat split; eexists; reflexivity. Qed.

Lemma strobe_flips_on_schedule_witness :
  Particle.strobeOn strobe_example = true /\
  Particle.strobeOn (fst (Particle_update host_zero strobe_example world_150ms))
  = false /\
  Particle.lastStrobe strobe_example
  < Particle.lastStrobe
      (fst (Particle_update host_zero strobe_example world_150ms)).
Proof.
  split; [reflexivity|].
  destruct (proj2 (proj1 (strobe_flips_on_schedule host_zero)
                     strobe_example world_150ms
                     strobe_example_complete eq_refl))
    as (H1 & H2 & _).
  - reflexivity.
  - vm_compute. discriminate.
  - vm_compute. reflexivity.
  - vm_compute. discriminate.
  - split; [exact H1|exact H2].
Defined.

(** ** The constructor of particles *)

(** The particle [new Particle(...)] returns, field by field. *)
Lemma Particle_new_spec h pos vel col size role options w :
  let p := fst (Particle_new h pos vel col size role options w) in
  let fadeRate := orQ (from_option id 0 (Options.fadeRate options)) 1 in
  let baseColor := match col with Undefined => white | c => c end in
  (Particle.pos p = Some pos /\ Particle.vel p = Some vel /\
   Particle.acc p = Some (Vec.create 0 0)) /\
  (Particle.baseColor p = baseColor /\
   Particle.alpha p = levels3 baseColor /\
   Particle.baseAlpha p = levels3 baseColor /\
   Particle.fadeStartAlpha p = levels3 baseColor) /\
  (Particle.size p = size /\ Particle.role p = role /\
   Particle.particleStyle p = "CLASSIC" /\ Particle.configRef p = None /\
   Particle.fluid p = false /\ Particle.secondaryCalls p = O) /\
  (Particle.strobeRate p = from_option id 0 (Options.strobeRate options) /\
   Particle.crackleRate p = from_option id 0 (Options.crackleRate options) /\
   Particle.fadeRate p = fadeRate /\
   Particle.delay p = from_option id 0 (Options.delay options) /\
   Particle.palette p = Options.palette options) /\
  (Particle.timeCreated p = World.millis w / 1000 /\
   Particle.lastStrobe p = World.millis w / 1000 /\
   Particle.lastCrackle p = World.millis w / 1000) /\
  (Particle.strobeOn p = true /\ Particle.isFading p = false /\
   Particle.fadeStartTime p = 0 /\
   Particle.fadeDuration p = 0.5 / max 0.1 fadeRate /\
   Particle.trail p = [] /\ Particle.maxTrailLength p = TRAIL_LENGTH) /\
  (forall v, Options.lifespan options = Some v -> ~ v == 0 ->
             Particle.lifespan p = v) /\
  (Host.rand_in_range h ->
   (forall v, Options.lifespan options = Some v -> v == 0) ->
   1.5 <= Particle.lifespan p <= 2.5).
Proof.
  cbv zeta. unfold Particle_new, bind, now, ret.
  destruct (Options.lifespan options) as [v|] eqn:El.
  - destruct (Qeqb v 0) eqn:Ev.
    + pose proof (fun Hr => random_range h 1.5 2.5 w Hr ltac:(lra)) as R.
      pose proof (quiet_random h 1.5 2.5 w) as (_ & _ & _ & Mi & _).
      destruct (random h 1.5 2.5 w) as [l w1]. simpl in R, Mi.
      destruct (random h 0.8 1.2 w1) as [d w2]. simpl.
      rewrite Mi. apply Qeqb_eq in Ev.
      do 6 (split; [repeat split; reflexivity|]). split.
      * intros v' [= <-] Hn. contradiction.
      * intros Hr _. apply R, Hr.
    + destruct (random h 0.8 1.2 w) as [d w2]. simpl.
      do 6 (split; [repeat split; reflexivity|]). split.
      * intros v' [= <-] _. reflexivity.
      * intros Hr Hz. specialize (Hz v eq_refl). apply Qeqb_eq in Hz.
        congruence.
  - pose proof (fun Hr => random_range h 1.5 2.5 w Hr ltac:(lra)) as R.
    pose proof (quiet_random h 1.5 2.5 w) as (_ & _ & _ & Mi & _).
    destruct (random h 1.5 2.5 w) as [l w1]. simpl in R, Mi.
    destruct (random h 0.8 1.2 w1) as [d w2]. simpl.
    rewrite Mi.
    do 6 (split; [repeat split; reflexivity|]). split.
    + intros v' [=].
    + intros Hr _. apply R, Hr.
Qed.

(** ** Crackles *)

Lemma random_range_strict h a b w :
  Host.rand_in_range h -> a < b ->
  a <= fst (random h a b w) < b.
Proof.
  intros Hr Hab. unfold random, bind, random01, ret. simpl.
  assert (E : Qltb b a = false) by (apply Qltb_ge; lra). rewrite E.
  pose proof (Hr (World.cursor w)) as Hu.
  set (u := Host.rand h (World.cursor w)) in *. nra.
Qed.

Lemma grows_unique w w' l1 l2 : grows w w' l1 -> grows w w' l2 -> l1 = l2.
Proof.
  intros (H1 & _) (H2 & _). rewrite H1 in H2.
  apply app_inv_head in H2. exact H2.
Qed.

(** A loop that breaks on a test and whose body pushes one particle. *)
Lemma repeat_until_count P n (stop : M bool) (body : M unit) :
  quiet stop -> spawns_always P body ->
  forall w,
    exists l,
      grows w (snd (repeat_until n stop body w)) l /\ Forall P l /\
      (length l <= n)%nat.
Proof.
  intros Hs Hb. induction n as [|n IH]; intros w; simpl.
  - exists []. split; [apply grows_refl|]. split; [constructor|]. simpl. lia.
  - unfold bind. pose proof (Hs w) as G0.
    destruct (stop w) as [b w0]. simpl in G0. destruct b.
    + exists []. unfold ret. simpl. split; [exact G0|].
      split; [constructor|]. simpl. lia.
    + destruct (Hb w0) as (p & G1 & F1).
      destruct (body w0) as [u w1]. simpl in G1.
      destruct (IH w1) as (l2 & G2 & F2 & Hl).
      exists ([p] ++ l2). split.
      * apply (grows_trans _ _ _ [] _ G0).
        apply (grows_trans _ _ _ _ _ G1 G2).
      * split; [constructor; assumption|]. simpl. lia.
Qed.

(** One turn of the loop of [spawnCrackle]. *)
Lemma crackle_turn h (source : Particle.t) pos vel :
  Host.rand_in_range h ->
  spawns_always (spark_of h source pos vel)
    (dir <- random2D h ;;
     m <- random h 3 6 ;;
     let offsetVel := Vec.mult dir m in
     let crackleVel := Vec.add (Vec.mult vel 0.2) offsetVel in
     r <- random h 200 255 ;;
     g <- random h 180 255 ;;
     b <- random h 150 220 ;;
     let crackleCol := RGB r g b in
     crackleLifespan <- random h 0.05 0.15 ;;
     let crackleFadeRate := 8.0 in
     sz <- random h 1 2.5 ;;
     p <- Particle_new h pos crackleVel crackleCol sz Role.CRACKLE
            (Options.mk (Some crackleLifespan) None None
               (Some crackleFadeRate) None None None) ;;
     push (Particle.set_configRef (Particle.configRef source)
             (Particle.set_particleStyle (Particle.particleStyle source) p)) ;;;
     ret tt).
Proof.
  intros Hr.
  apply (spawns_always_bind _ (fun _ => True));
    [apply quiet_random2D|auto|]. intros dir _.
  apply (spawns_always_bind _ (fun m => 3 <= m <= 6));
    [apply quiet_random|intros w; apply random_range; [exact Hr|lra]|].
  intros m Hm. cbv zeta.
  apply (spawns_always_bind _ (fun _ => True));
    [apply quiet_random|auto|]. intros r _.
  apply (spawns_always_bind _ (fun _ => True));
    [apply quiet_random|auto|]. intros g _.
  apply (spawns_always_bind _ (fun _ => True));
    [apply quiet_random|auto|]. intros b _.
  apply (spawns_always_bind _ (fun l => 0.05 <= l <= 0.15));
    [apply quiet_random|intros w; apply random_range; [exact Hr|lra]|].
  intros l Hl.
  apply (spawns_always_bind _ (fun sz => 1 <= sz <= 2.5));
    [apply quiet_random|intros w; apply random_range; [exact Hr|lra]|].
  intros sz Hsz. intros w. unfold bind.
  set (o := Options.mk (Some l) None None (Some 8.0) None None None).
  set (cv := Vec.add (Vec.mult vel 0.2) (Vec.mult dir m)).
  pose proof (quiet_Particle_new h pos cv (RGB r g b) sz Role.CRACKLE o w)
    as G1.
  pose proof (Particle_new_spec h pos cv (RGB r g b) sz Role.CRACKLE o w)
    as S.
  destruct (Particle_new h pos cv (RGB r g b) sz Role.CRACKLE o w) as [c w1].
  cbv zeta in S. simpl in G1, S.
  set (c' := Particle.set_configRef _ _).
  pose proof (push_grows c' w1) as G2.
  destruct (push c' w1) as [id w2]. simpl in G2. unfold ret. simpl.
  exists c'. split; [apply (grows_trans _ _ _ [] [c'] G1 G2)|].
  destruct S as ((Sp & Sv & _) & _ & (Ss & Sr & _) & (_ & _ & Sf & _) & _
                 & (_ & Si & _) & Sl & _).
  assert (Hl0 : ~ l == 0) by lra.
  specialize (Sl l eq_refl Hl0).
  unfold spark_of. subst c'. simpl.
  split; [exact Sr|]. split; [exact Sp|].
  split; [exists dir, m; split; [exact Hm|exact Sv]|].
  split; [reflexivity|]. split; [reflexivity|].
  split; [rewrite Sl; exact Hl|]. split; [exact Sf|].
  split; [rewrite Ss; exact Hsz|exact Si].
Qed.

(** [spawnCrackle] on a source that has a position, a velocity and the
    configuration. *)
Lemma spawnCrackle_sparks h p pos vel w :
  Host.rand_in_range h ->
  Particle.pos p = Some pos -> Particle.vel p = Some vel ->
  exists l,
    grows w (snd (Particle_spawnCrackle h p w)) l /\
    Forall (spark_of h p pos vel) l /\ (length l <= 3)%nat.
Proof.
  intros Hr Ep Ev. unfold Particle_spawnCrackle. rewrite Ep, Ev.
  destruct (Particle.configRef p) as [[]|] eqn:Ec.
  2: { exists []. split; [apply grows_refl|]. split; [constructor|].
       simpl. lia. }
  unfold bind at 1.
  pose proof (quiet_random h 1 4 w) as G0.
  pose proof (random_range_strict h 1 4 w Hr ltac:(lra)) as R0.
  destruct (random h 1 4 w) as [n w0]. simpl in G0, R0. cbv zeta.
  pose proof (crackle_turn h p pos vel Hr) as Hb. rewrite Ec in Hb.
  match goal with
  | |- context [repeat_until ?k ?stop ?body w0] =>
      destruct (repeat_until_count (spark_of h p pos vel) k stop body
                  ltac:(apply quiet_bind; [apply quiet_get|];
                        intros ?; apply quiet_ret)
                  Hb w0) as (l & G & F & Hl)
  end.
  exists l. split; [apply (grows_trans _ _ _ [] l G0 G)|].
  split; [exact F|].
  rewrite iterations_inject in Hl.
  assert (H3 : (Qfloor n <= 3)%Z).
  { assert (Hlt : (Qfloor n < 4)%Z).
    { rewrite Zlt_Qlt. eapply Qle_lt_trans; [apply Qfloor_le|]. apply R0. }
    lia. }
  lia.
Qed.

Lemma same_source_refl p : same_source p p.
Proof. unfold same_source. auto. Qed.

Lemma same_source_trans p q r :
  same_source p q -> same_source q r -> same_source p r.
Proof. unfold same_source. intuition congruence. Qed.

Lemma update_trail_source p :
  same_source p (update_trail p) /\
  Particle.lastCrackle (update_trail p) = Particle.lastCrackle p.
Proof. unfold same_source, update_trail. repeat case_match; simpl; auto. Qed.

Lemma update_fading_source t a p w :
  same_source p (fst (update_fading t a p w)) /\
  Particle.lastCrackle (fst (update_fading t a p w)) = Particle.lastCrackle p.
Proof.
  unfold same_source, update_fading, Particle_setFading, bind, ret, now.
  repeat case_match; simpl; auto.
Qed.

Lemma update_strobe_source t p :
  same_source p (update_strobe t p) /\
  Particle.lastCrackle (update_strobe t p) = Particle.lastCrackle p.
Proof. unfold same_source, update_strobe. repeat case_match; simpl; auto. Qed.

Lemma update_fluid_source h p :
  same_source p (update_fluid h p) /\
  Particle.lastCrackle (update_fluid h p) = Particle.lastCrackle p.
Proof.
  unfold same_source, update_fluid, Particle_applyFluidBehavior,
    Particle_applyForce.
  repeat case_match; simpl; auto.
Qed.

Lemma spark_of_source h p q pos vel c :
  same_source p q -> spark_of h q pos vel c -> spark_of h p pos vel c.
Proof.
  intros (_ & S2 & S3). unfold spark_of. rewrite S2, S3. auto.
Qed.

Ltac no_spark E G :=
  injection E as <- <-; exists [];
  split; [exact G|]; split; [constructor|]; split; [simpl; lia|];
  split; [intros _; split; reflexivity|];
  split; [left; reflexivity|]; intros H; exfalso; apply H; reflexivity.

(** The crackle step of [update]. *)
Lemma update_crackle_spec h t p w pos vel :
  Host.rand_in_range h ->
  Particle.pos p = Some pos -> Particle.vel p = Some vel ->
  let q := fst (update_crackle h t p w) in
  exists l,
    grows w (snd (update_crackle h t p w)) l /\
    Forall (spark_of h p pos vel) l /\ (length l <= 3)%nat /\
    (Particle.role p <> Role.CRACKLE_SOURCE \/ Particle.crackleRate p <= 0
     \/ Particle.isFading p = true
     \/ crackle_limit p w - 5 <= Qnat (length (World.particles w))
     \/ t - Particle.lastCrackle p < 0.7 / Particle.crackleRate p ->
     l = [] /\ q = p) /\
    (q = p \/ q = Particle.set_lastCrackle t p) /\
    (l <> [] -> q = Particle.set_lastCrackle t p).
Proof.
  intros Hr Ep Ev. cbv zeta.
  destruct (update_crackle h t p w) as [q w'] eqn:E. simpl fst. simpl snd.
  unfold update_crackle in E.
  destruct (Role.eqb (Particle.role p) Role.CRACKLE_SOURCE) eqn:Er;
    [|no_spark E (grows_refl w)].
  destruct (Qltb 0 (Particle.crackleRate p)) eqn:Ec;
    [|no_spark E (grows_refl w)].
  destruct (Particle.isFading p) eqn:Ef; [no_spark E (grows_refl w)|].
  apply role_eqb_eq in Er. apply Qltb_lt in Ec. simpl in E.
  unfold bind at 1 in E.
  pose proof (quiet_random h 0.7 1.3 w) as G0.
  pose proof (random_range h 0.7 1.3 w Hr ltac:(lra)) as R0.
  destruct (random h 0.7 1.3 w) as [r w0]. simpl in G0, R0. cbv zeta in E.
  assert (Hdiv : 0.7 / Particle.crackleRate p <= r / Particle.crackleRate p).
  { apply div_mono; [exact Ec|apply R0]. }
  destruct (Qleb (r / Particle.crackleRate p) (t - Particle.lastCrackle p))
    eqn:Ei; [|no_spark E G0].
  apply Qleb_le in Ei. unfold bind at 1, get at 1 in E.
  assert (Elim : crackle_limit p w0 = crackle_limit p w).
  { unfold crackle_limit. rewrite (grows_config _ _ _ G0). reflexivity. }
  assert (Elen : length (World.particles w0) = length (World.particles w)).
  { rewrite (grows_length _ _ _ G0). simpl. lia. }
  fold (crackle_limit p w0) in E. rewrite Elim, Elen in E.
  destruct (Qltb (Qnat (length (World.particles w))) (crackle_limit p w - 5))
    eqn:El; [|no_spark E G0].
  apply Qltb_lt in El. unfold bind in E.
  destruct (spawnCrackle_sparks h p pos vel w0 Hr Ep Ev) as (l & G & F & Hl).
  destruct (Particle_spawnCrackle h p w0) as [u w1]. simpl in G.
  injection E as <- <-.
  exists l. split; [apply (grows_trans _ _ _ [] l G0 G)|].
  split; [exact F|]. split; [exact Hl|]. split.
  - intros [H|[H|[H|[H|H]]]]; try contradiction; try discriminate; lra.
  - split; [right; reflexivity|]. intros _. reflexivity.
Qed.

(** The crackle step in exact arithmetic: one [update] of a complete
    particle of role CRACKLE_SOURCE, with the generator in range, creates
    at most three particles, all crackles that start at the source's new
    position with a fifth of its new velocity plus an offset of magnitude
    3 to 6, of its style, with a lifespan between 0.05 and 0.15 seconds
    and a fade rate of 8; none when the source is fading, has reached its
    lifespan, has no positive rate, when the array is within five of the
    limit, or when less than [0.7 / crackleRate] seconds have passed since
    the last crackle; and the time of the last crackle moves to the clock
    whenever particles are created. *)
Lemma update_crackle_sparks h p w pos vel acc :
  Host.rand_in_range h ->
  Particle.pos p = Some pos -> Particle.vel p = Some vel ->
  Particle.acc p = Some acc ->
  Particle.role p = Role.CRACKLE_SOURCE ->
  let t := World.millis w / 1000 in
  let q := fst (Particle_update h p w) in
  let vel' := Vec.add vel acc in
  let pos' := Vec.add pos (Vec.mult vel' (fst (frame_dt w))) in
  exists l,
    grows w (snd (Particle_update h p w)) l /\
    (length l <= 3)%nat /\
    Forall (spark_of h p pos' vel') l /\
    (Particle.isFading p = true \/ Particle.lifespan p <= age p w
     \/ Particle.crackleRate p <= 0
     \/ crackle_limit p w - 5 <= Qnat (length (World.particles w))
     \/ t - Particle.lastCrackle p < 0.7 / Particle.crackleRate p ->
     l = [] /\ Particle.lastCrackle q = Particle.lastCrackle p) /\
    (l <> [] -> Particle.lastCrackle q = t) /\
    (Particle.lastCrackle q = Particle.lastCrackle p
     \/ Particle.lastCrackle q = t).
Proof.
  intros Hr Ep Ev Ea Hrole. cbv zeta.
  assert (Hc : complete p) by (unfold complete; rewrite Ep, Ev, Ea; eauto).
  assert (Hm : Particle.role p <> Role.MINI_SHELL)
    by (rewrite Hrole; discriminate).
  destruct (update_shape h p w) as [[Hh _]|[(Hm' & _)|H]].
  { exfalso. destruct Hh as [Hn|[Hm' _]]; [apply Hn, Hc|apply Hm, Hm']. }
  { exfalso. apply Hm, Hm'. }
  destruct H as (pos0 & vel0 & acc0 & Ep0 & Ev0 & Ea0 & _ & ->).
  assert (pos0 = pos) by congruence. assert (vel0 = vel) by congruence.
  assert (acc0 = acc) by congruence. subst pos0 vel0 acc0.
  destruct (update_body_phases h (World.millis w / 1000) (age p w)
              pos vel acc p w) as (p2 & w2 & p4 & w4 & H2 & H4 & ->).
  cbv zeta in H2. simpl fst. simpl snd.
  set (t := World.millis w / 1000) in *.
  set (p0 := update_physics (fst (frame_dt w)) pos vel acc p) in *.
  set (p3 := update_strobe t p2) in *.
  (* the state of the source when it reaches the crackle step *)
  pose proof (kept_trans _ _ _
                (proj1 (update_physics_kept (fst (frame_dt w)) pos vel acc p))
                (update_trail_kept p0)) as K1.
  fold p0 in K1.
  destruct K1 as ((F1 & _) & (R1 & _ & L1 & _) & _).
  assert (Hr1 : Particle.role (update_trail p0) <> Role.MINI_SHELL)
    by (rewrite R1; exact Hm).
  pose proof (update_trail_motion p0) as M1.
  pose proof (update_fading_motion t (age p w) (update_trail p0) w) as M2.
  pose proof (update_fading_source t (age p w) (update_trail p0) w) as [S2 C2].
  pose proof (update_fading_identity t (age p w) (update_trail p0) w)
    as (R2 & _).
  pose proof (quiet_update_fading t (age p w) (update_trail p0) w) as G2.
  rewrite H2 in M2, S2, C2, R2, G2. simpl in M2, S2, C2, R2, G2.
  pose proof (update_strobe_motion t p2) as M3.
  pose proof (update_strobe_source t p2) as [S3 C3].
  pose proof (update_strobe_kept t p2) as ((F3 & _) & (R3 & _) & _).
  fold p3 in M3, S3, C3, F3, R3.
  destruct (update_trail_source p0) as [S1 C1].
  assert (S03 : same_source p p3).
  { apply (same_source_trans _ p0); [unfold same_source; auto|].
    apply (same_source_trans _ _ _ S1).
    apply (same_source_trans _ _ _ S2 S3). }
  assert (C03 : Particle.lastCrackle p3 = Particle.lastCrackle p).
  { rewrite C3, C2, C1. reflexivity. }
  destruct (same_motion_trans _ _ _ M1 (same_motion_trans _ _ _ M2 M3))
    as (P3 & V3 & _).
  assert (Ep3 : Particle.pos p3
                = Some (Vec.add pos (Vec.mult (Vec.add vel acc)
                                       (fst (frame_dt w)))))
    by (rewrite P3; reflexivity).
  assert (Ev3 : Particle.vel p3 = Some (Vec.add vel acc))
    by (rewrite V3; reflexivity).
  destruct (update_crackle_spec h t p3 w2 _ _ Hr Ep3 Ev3)
    as (l & G & F & Hl & Hnone & Hq & Hsome).
  rewrite H4 in G, Hnone, Hq, Hsome. simpl in G, Hnone, Hq, Hsome.
  destruct (update_fluid_source h p4) as [_ C5]. rewrite C5.
  assert (Elim : crackle_limit p3 w2 = crackle_limit p w).
  { unfold crackle_limit. destruct S03 as (_ & _ & ->).
    rewrite (grows_config _ _ _ G2). reflexivity. }
  assert (Elen : length (World.particles w2) = length (World.particles w)).
  { rewrite (grows_length _ _ _ G2). simpl. lia. }
  rewrite Elim, Elen, C03 in Hnone.
  destruct S03 as (Sc & Ss & Sr). rewrite Sc in Hnone.
  exists l. split; [apply (grows_trans _ _ _ [] l G2 G)|].
  split; [exact Hl|]. split.
  { eapply Forall_impl; [exact F|]. intros c Hsp.
    apply (spark_of_source h p p3); [unfold same_source; auto|exact Hsp]. }
  assert (Hfade : Particle.isFading p = true \/ Particle.lifespan p <= age p w
                  -> Particle.isFading p3 = true).
  { intros Hor. rewrite F3.
    destruct (Particle.isFading p) eqn:Hf.
    - destruct (update_fading_on t (age p w) (update_trail p0) w F1)
        as ((E & _) & _).
      rewrite H2 in E. simpl in E. congruence.
    - destruct Hor as [Hor|Hl']; [discriminate|].
      destruct (update_fading_spec t (age p w) (update_trail p0) w F1 Hr1)
        as [_ E].
      rewrite L1 in E. specialize (E Hl'). rewrite H2 in E.
      pose proof (setFading_flag (-1) (update_trail p0) w) as Hfl.
      rewrite <- E in Hfl. simpl in Hfl. congruence. }
  split; [|split].
  - intros Hor.
    assert (Hn : l = [] /\ p4 = p3).
    { apply Hnone.
      destruct Hor as [H|[H|[H|[H|H]]]];
        [right; right; left; apply Hfade; auto
        |right; right; left; apply Hfade; auto
        |auto|auto|auto 6]. }
    destruct Hn as [-> ->]. split; [reflexivity|exact C03].
  - intros Hne. rewrite (Hsome Hne). reflexivity.
  - destruct Hq as [->| ->]; [left; exact C03|right; reflexivity].
Qed.

(** X7 (the crackle step of [update] and [spawnCrackle]), with a
    tolerance of a millisecond for the rounding of the clock: one [update]
    of a complete particle of role CRACKLE_SOURCE, with the generator in
    range, creates at most three particles, all crackles that start at the
    source's new position with a fifth of its new velocity plus an offset
    of magnitude 3 to 6, of its style, with a lifespan between 0.05 and
    0.15 seconds and a fade rate of 8.  It creates none, and leaves the
    time of the last crackle as it is, when the source is fading, is a
    millisecond or more past its lifespan, has no positive rate, when the
    array is within five of the limit, or when the time since the last
    crackle is a millisecond or more short of [0.7 / crackleRate].  The
    time of the last crackle stays or moves to the clock, and it moves
    whenever particles are created. *)
Theorem crackle_source_sparks h p w pos vel acc :
  Host.rand_in_range h ->
  Particle.pos p = Some pos -> Particle.vel p = Some vel ->
  Particle.acc p = Some acc ->
  Particle.role p = Role.CRACKLE_SOURCE ->
  let t := World.millis w / 1000 in
  let q := fst (Particle_update h p w) in
  let vel' := Vec.add vel acc in
  let pos' := Vec.add pos (Vec.mult vel' (fst (frame_dt w))) in
  exists l,
    grows w (snd (Particle_update h p w)) l /\
    (length l <= 3)%nat /\
    Forall (spark_of h p pos' vel') l /\
    (Particle.isFading p = true \/ Particle.lifespan p + 0.001 <= age p w
     \/ Particle.crackleRate p <= 0
     \/ crackle_limit p w - 5 <= Qnat (length (World.particles w))
     \/ t - Particle.lastCrackle p <= 0.7 / Particle.crackleRate p - 0.001 ->
     l = [] /\ Particle.lastCrackle q = Particle.lastCrackle p) /\
    (l <> [] -> Particle.lastCrackle q = t) /\
    (Particle.lastCrackle q = Particle.lastCrackle p
     \/ Particle.lastCrackle q = t).
Proof.
  intros Hr Ep Ev Ea Hrole. cbv zeta.
  destruct (update_crackle_sparks h p w pos vel acc Hr Ep Ev Ea Hrole)
    as (l & G & Hl & F & Hno & Hyes & Hq).
  cbv zeta in G, F, Hno, Hyes, Hq.
  exists l. split; [exact G|]. split; [exact Hl|]. split; [exact F|].
  split; [|split; [exact Hyes|exact Hq]].
  intros H. apply Hno.
  set (bound := 0.7 / Particle.crackleRate p) in *.
  destruct H as [H|[H|[H|[H|H]]]]; auto.
  - right; left. lra.
  - right; right; right; right. lra.
Qed.

Lemma source_example_fields :
  Particle.pos source_example = Some (Vec.create 500 300) /\
  Particle.vel source_example = Some (Vec.create 10 0) /\
  Particle.acc source_example = Some (Vec.create 0 0) /\
  Particle.role source_example = Role.CRACKLE_SOURCE.
Proof. vm_compute. auto. Qed.

Lemma crackle_source_sparks_witness :
  exists l,
    grows world_150ms
      (snd (Particle_update host_half source_example world_150ms)) l /\
    (length l <= 3)%nat /\
    Forall (fun c => Particle.role c = Role.CRACKLE) l.
Proof.
  destruct source_example_fields as (Ep & Ev & Ea & Er).
  destruct (crackle_source_sparks host_half source_example world_150ms
              _ _ _ host_half_in_range Ep Ev Ea Er)
    as (l & G & Hl & F & _).
  exists l. split; [exact G|]. split; [exact Hl|].
  eapply Forall_impl; [exact F|]. intros c Hc. apply Hc.
Defined.

(** ** The end of a particle *)

Lemma clock_ordered_app t a b :
  clock_ordered t (a ++ b) <->
  clock_ordered t a /\
  clock_ordered (List.last (map (fun f => World.millis (snd f)) a) t) b.
Proof.
  revert t. induction a as [|[fs w] a IH]; intros t; simpl.
  - tauto.
  - rewrite IH.
    assert (E : List.last (map (fun f => World.millis (snd f)) a)
                  (World.millis w)
                = match map (fun f => World.millis (snd f)) a with
                  | [] => World.millis w
                  | _ :: _ =>
                      List.last (map (fun f => World.millis (snd f)) a) t
                  end).
    { destruct a as [|[fs' w'] a]; [reflexivity|]. simpl map.
      generalize (World.millis w'). generalize (map (fun f => World.millis (snd f)) a).
      intros l. induction l as [|x l IHl]; intros m; [reflexivity|].
      simpl. apply IHl. }
    rewrite E. tauto.
Qed.

Lemma clock_ordered_later t frames :
  clock_ordered t frames ->
  Forall (fun f => t <= World.millis (snd f)) frames.
Proof.
  revert t. induction frames as [|[fs w] rest IH]; intros t; simpl;
    [constructor|].
  intros [Ht Hrest]. constructor; [exact Ht|].
  eapply Forall_impl; [apply (IH _ Hrest)|]. simpl. intros f Hf. lra.
Qed.

Lemma clock_ordered_weaken t t' frames :
  t' <= t -> clock_ordered t frames -> clock_ordered t' frames.
Proof.
  destruct frames as [|[fs w] rest]; simpl; [auto|].
  intros Hle [Ht Hrest]. split; [lra|exact Hrest].
Qed.

Lemma last_cons_default {A} (l : list A) x d :
  List.last (x :: l) d = List.last l x.
Proof.
  revert x d. induction l as [|y l IH]; intros x d; [reflexivity|].
  change (List.last (x :: y :: l) d) with (List.last (y :: l) d).
  change (List.last (y :: l) x) with (List.last (y :: l) x).
  rewrite (IH y d), (IH y x). reflexivity.
Qed.

Lemma Particle_trace_app h a b p :
  Particle_trace h (a ++ b) p
  = Particle_trace h a p ++ Particle_trace h b (Particle_after h a p).
Proof.
  unfold Particle_after. revert p.
  induction a as [|[fs w] a IH]; intros p; [reflexivity|].
  change (Particle_trace h (((fs, w) :: a) ++ b) p)
    with (fst (Particle_update h
                 (foldl (fun p f => Particle_applyForce f p) p fs) w)
          :: Particle_trace h (a ++ b)
               (fst (Particle_update h
                       (foldl (fun p f => Particle_applyForce f p) p fs) w))).
  change (Particle_trace h ((fs, w) :: a) p)
    with (fst (Particle_update h
                 (foldl (fun p f => Particle_applyForce f p) p fs) w)
          :: Particle_trace h a
               (fst (Particle_update h
                       (foldl (fun p f => Particle_applyForce f p) p fs) w))).
  rewrite IH, last_cons_default. reflexivity.
Qed.

Lemma fade_duration_bound r :
  0 < max 0.01 (0.5 / max 0.1 r) <= 5.
Proof.
  assert (H1 : 0.1 <= max 0.1 r).
  { destruct (max_spec 0.1 r) as [[H ->]|[H ->]]; lra. }
  assert (H2 : 0.5 / max 0.1 r <= 5).
  { apply Qle_shift_div_r; lra. }
  destruct (max_spec 0.01 (0.5 / max 0.1 r)) as [[H ->]|[H ->]]; lra.
Qed.

(** What [setFading()] leaves on a particle that was not fading. *)
Lemma setFading_default p w :
  Particle.isFading p = false ->
  let q := fst (Particle_setFading (-1) p w) in
  Particle.isFading q = true /\
  Particle.fadeStartTime q = World.millis w / 1000 /\
  Particle.fadeStartAlpha q = Particle.alpha p /\
  Particle.fadeDuration q = max 0.01 (0.5 / max 0.1 (Particle.fadeRate p)) /\
  Particle.alpha q = Particle.alpha p.
Proof.
  intros Hf. cbv zeta. unfold Particle_setFading, bind, now, ret.
  rewrite Hf. simpl. auto.
Qed.

(** One [update] of a complete particle that is not a mini-shell and is
    not fading: it stays as it is below its lifespan, and starts to fade,
    for at most five seconds, once the lifespan is reached. *)
Lemma update_unfaded h p w :
  complete p -> Particle.role p <> Role.MINI_SHELL ->
  Particle.isFading p = false -> 0 <= Particle.alpha p ->
  let q := fst (Particle_update h p w) in
  complete q /\
  (age p w < Particle.lifespan p ->
   Particle.isFading q = false /\ Particle.alpha q = Particle.alpha p) /\
  (Particle.lifespan p <= age p w ->
   fade_started q /\ Particle.fadeStartTime q = World.millis w / 1000 /\
   Particle.fadeDuration q <= 5).
Proof.
  intros Hc Hm Hf Ha. cbv zeta.
  destruct (update_shape h p w) as [[Hh _]|[(Hm' & _)|H]].
  { exfalso. destruct Hh as [Hn|[Hm' _]]; [apply Hn, Hc|apply Hm, Hm']. }
  { exfalso. apply Hm, Hm'. }
  destruct H as (pos & vel & acc & Ep & Ev & Ea & _ & ->).
  destruct (update_body_phases h (World.millis w / 1000) (age p w)
              pos vel acc p w) as (p2 & w2 & p4 & w4 & H2 & H4 & ->).
  cbv zeta in H2. simpl fst.
  set (t := World.millis w / 1000) in *.
  set (p0 := update_physics (fst (frame_dt w)) pos vel acc p) in *.
  pose proof (kept_trans _ _ _
                (proj1 (update_physics_kept (fst (frame_dt w)) pos vel acc p))
                (update_trail_kept p0)) as K1.
  fold p0 in K1.
  destruct K1 as ((F1 & _) & (R1 & _ & L1 & _) & _ & A1 & C1).
  assert (Hf1 : Particle.isFading (update_trail p0) = false) by congruence.
  assert (Hr1 : Particle.role (update_trail p0) <> Role.MINI_SHELL)
    by (rewrite R1; exact Hm).
  destruct (update_fading_spec t (age p w) (update_trail p0) w Hf1 Hr1)
    as [Eno Eyes].
  rewrite L1 in Eno, Eyes.
  pose proof (update_fading_off t (age p w) (update_trail p0) w Hf1)
    as (_ & _ & C2 & _).
  rewrite H2 in C2. simpl in C2.
  pose proof (update_strobe_kept t p2) as K3.
  pose proof (update_crackle_kept h t (update_strobe t p2) w2) as K4.
  rewrite H4 in K4. simpl in K4.
  pose proof (kept_trans _ _ _ K3
                (kept_trans _ _ _ K4 (update_fluid_kept h p4)))
    as ((G1 & G2 & G3 & G4) & _ & _ & A5 & C5).
  split; [auto|]. split.
  - intros Hlt. rewrite (Eno Hlt) in H2. injection H2 as <- _.
    rewrite G1, A5. split; congruence.
  - intros Hge. rewrite (Eyes Hge) in H2.
    destruct (setFading_default (update_trail p0) w Hf1)
      as (S1 & S2 & S3 & S4 & S5).
    cbv zeta in S1, S2, S3, S4, S5. rewrite H2 in S1, S2, S3, S4, S5.
    simpl in S1, S2, S3, S4, S5.
    destruct (fade_duration_bound (Particle.fadeRate (update_trail p0)))
      as [D1 D2].
    unfold fade_started. rewrite G1, G2, G3, G4, A5, S1, S2, S3, S4, S5, A1.
    repeat split; auto; lra.
Qed.

Lemma update_stays_complete h p w :
  complete p -> Particle.role p <> Role.MINI_SHELL ->
  complete (fst (Particle_update h p w)).
Proof.
  intros Hc Hm.
  destruct (update_shape h p w) as [[Hh _]|[(Hm' & _)|H]].
  { exfalso. destruct Hh as [Hn|[Hm' _]]; [apply Hn, Hc|apply Hm, Hm']. }
  { exfalso. apply Hm, Hm'. }
  destruct H as (pos & vel & acc & Ep & Ev & Ea & _ & ->).
  destruct (update_body_phases h (World.millis w / 1000) (age p w)
              pos vel acc p w) as (p2 & w2 & p4 & w4 & H2 & H4 & ->).
  cbv zeta in H2. simpl fst.
  set (t := World.millis w / 1000) in *.
  set (p0 := update_physics (fst (frame_dt w)) pos vel acc p) in *.
  pose proof (kept_trans _ _ _
                (proj1 (update_physics_kept (fst (frame_dt w)) pos vel acc p))
                (update_trail_kept p0)) as (_ & _ & _ & _ & C1).
  fold p0 in C1.
  assert (C2 : complete (update_trail p0) -> complete p2).
  { destruct (Particle.isFading (update_trail p0)) eqn:Hf.
    - pose proof (update_fading_on t (age p w) (update_trail p0) w Hf)
        as (_ & _ & _ & C & _).
      rewrite H2 in C. exact C.
    - pose proof (update_fading_off t (age p w) (update_trail p0) w Hf)
        as (_ & _ & C & _).
      rewrite H2 in C. exact C. }
  pose proof (update_strobe_kept t p2) as K3.
  pose proof (update_crackle_kept h t (update_strobe t p2) w2) as K4.
  rewrite H4 in K4. simpl in K4.
  pose proof (kept_trans _ _ _ K3
                (kept_trans _ _ _ K4 (update_fluid_kept h p4)))
    as (_ & _ & _ & _ & C5).
  auto.
Qed.

(** One frame of a particle that is on its way out. *)
Lemma aging_step h t forces w q :
  aging t q -> t <= World.millis w ->
  let q' := fst (Particle_update h
                   (foldl (fun p f => Particle_applyForce f p) q forces) w) in
  aging (World.millis w) q' /\ same_identity q q' /\
  (Particle.lifespan q <= age q w -> Particle.isFading q' = true) /\
  (Particle.isFading q = true ->
   same_fade q q' /\
   (Particle.fadeStartTime q + Particle.fadeDuration q
    <= World.millis w / 1000 -> Particle.alpha q' == 0)).
Proof.
  intros (Hc & Hm & Hst) Ht. cbv zeta.
  set (q1 := foldl (fun p f => Particle_applyForce f p) q forces).
  pose proof (applyForces_kept forces q) as K1. fold q1 in K1.
  destruct K1 as ((F1 & F1b & F1c & F1d) & I1 & _ & A1 & C1).
  pose proof I1 as (R1 & T1 & L1 & _).
  assert (Hc1 : complete q1) by auto.
  assert (Hm1 : Particle.role q1 <> Role.MINI_SHELL) by congruence.
  pose proof (update_other_identity h q1 w Hm1) as I2.
  pose proof (same_identity_trans _ _ _ I1 I2) as I.
  pose proof (update_stays_complete h q1 w Hc1 Hm1) as Hc'.
  assert (Hm' : Particle.role (fst (Particle_update h q1 w))
                <> Role.MINI_SHELL).
  { destruct I as (-> & _). exact Hm. }
  assert (Eage : age q1 w = age q w) by (unfold age; rewrite T1; reflexivity).
  destruct Hst as [[Hf Ha]|(Hfa & Hd & Hs)].
  - assert (Hf1 : Particle.isFading q1 = false) by congruence.
    assert (Ha1 : 0 <= Particle.alpha q1) by (rewrite A1; exact Ha).
    destruct (update_unfaded h q1 w Hc1 Hm1 Hf1 Ha1) as (_ & Hno & Hyes).
    cbv zeta in Hno, Hyes. rewrite Eage, L1 in Hno, Hyes.
    split; [|split; [exact I|split]].
    + split; [exact Hc'|]. split; [exact Hm'|].
      destruct (Qlt_le_dec (age q w) (Particle.lifespan q)) as [Hlt|Hge].
      * left. destruct (Hno Hlt) as [E1 E2]. split; [exact E1|].
        rewrite E2. exact Ha1.
      * right. destruct (Hyes Hge) as (Hfs & E1 & E2).
        split; [apply fade_started_at, Hfs|]. split; [exact E2|].
        rewrite E1. lra.
    + intros Hge. apply (Hyes Hge).
    + intros Hf'. congruence.
  - destruct (fading_step h t forces w q Hfa Ht) as (Hfa' & F & _ & Hend).
    fold q1 in Hfa', F, Hend.
    split; [|split; [exact I|split]].
    + split; [exact Hc'|]. split; [exact Hm'|]. right.
      split; [exact Hfa'|].
      destruct F as (_ & _ & -> & ->). split; [exact Hd|].
      assert (t / 1000 <= World.millis w / 1000) by (apply div_mono; lra).
      lra.
    + intros _. apply Hfa'.
    + intros _. split; [exact F|exact Hend].
Qed.

Lemma Particle_after_cons h forces w rest p :
  Particle_after h ((forces, w) :: rest) p
  = Particle_after h rest
      (fst (Particle_update h
              (foldl (fun p f => Particle_applyForce f p) p forces) w)).
Proof.
  unfold Particle_after.
  change (Particle_trace h ((forces, w) :: rest) p)
    with (fst (Particle_update h
                 (foldl (fun p f => Particle_applyForce f p) p forces) w)
          :: Particle_trace h rest
               (fst (Particle_update h
                       (foldl (fun p f => Particle_applyForce f p) p forces)
                       w))).
  apply last_cons_default.
Qed.

Lemma Particle_after_app h a b p :
  Particle_after h (a ++ b) p = Particle_after h b (Particle_after h a p).
Proof.
  revert p. induction a as [|[fs w] a IH]; intros p; [reflexivity|].
  change (((fs, w) :: a) ++ b) with ((fs, w) :: (a ++ b)).
  rewrite !Particle_after_cons. apply IH.
Qed.

Lemma same_fade_trans p q r : same_fade p q -> same_fade q r -> same_fade p r.
Proof. unfold same_fade. intuition congruence. Qed.

(** A particle on its way out stays so along a sequence of frames. *)
Lemma aging_after h frames : forall t q,
  aging t q -> clock_ordered t frames ->
  aging (List.last (map (fun f => World.millis (snd f)) frames) t)
    (Particle_after h frames q) /\
  same_identity q (Particle_after h frames q) /\
  (Particle.isFading q = true -> same_fade q (Particle_after h frames q)).
Proof.
  induction frames as [|[forces w] rest IH]; intros t q Hq Hc.
  - simpl. split; [exact Hq|]. unfold same_identity, same_fade. auto.
  - destruct Hc as [Ht Hrest].
    destruct (aging_step h t forces w q Hq Ht) as (Hq' & I & _ & Hf).
    rewrite Particle_after_cons.
    set (q' := fst (Particle_update h _ w)) in *.
    destruct (IH (World.millis w) q' Hq' Hrest) as (H1 & H2 & H3).
    change (map (fun f => World.millis (snd f)) ((forces, w) :: rest))
      with (World.millis w :: map (fun f => World.millis (snd f)) rest).
    rewrite last_cons_default.
    split; [exact H1|]. split; [apply (same_identity_trans _ _ _ I H2)|].
    intros Hfq. destruct (Hf Hfq) as [F _].
    apply (same_fade_trans _ _ _ F). apply H3.
    destruct F as (-> & _). exact Hfq.
Qed.

(** Once the fade is over, every [update] leaves the opacity at zero. *)
Lemma faded_trace h frames : forall t q T,
  aging t q -> Particle.isFading q = true -> clock_ordered t frames ->
  Particle.fadeStartTime q + Particle.fadeDuration q <= T / 1000 ->
  Forall (fun f => T <= World.millis (snd f)) frames ->
  Forall (fun r => Particle.alpha r == 0 /\ Particle_isDone r = true)
    (Particle_trace h frames q).
Proof.
  induction frames as [|[forces w] rest IH]; intros t q T Hq Hf Hc Hend Hall;
    simpl; [constructor|].
  destruct Hc as [Ht Hrest].
  apply Forall_cons in Hall as [HT Hall]. simpl in HT.
  destruct (aging_step h t forces w q Hq Ht) as (Hq' & _ & _ & Hfade).
  destruct (Hfade Hf) as [F Hz].
  set (q' := fst (Particle_update h _ w)) in *.
  assert (Hdiv : T / 1000 <= World.millis w / 1000) by (apply div_mono; lra).
  assert (Hz' : Particle.alpha q' == 0) by (apply Hz; lra).
  constructor.
  - split; [exact Hz'|]. unfold Particle_isDone. apply Qleb_le.
    rewrite Hz'. lra.
  - apply (IH (World.millis w) q' T Hq'); auto.
    + destruct F as (-> & _). exact Hf.
    + destruct F as (_ & _ & -> & ->). exact Hend.
Qed.

(** X8 (the fading step of [update] and [setFading]): no particle
    outlives its lifespan by more than five seconds: a
    complete particle that is not a mini-shell and is not yet fading is
    fading after the first frame in which its age has reached its
    lifespan, and every [update] made five seconds or more after that
    frame leaves its opacity at zero, so that [isDone] holds and the
    frame loop removes it. *)
Theorem particle_fades_out h t0 p before f1 mid f2 after :
  complete p -> Particle.role p <> Role.MINI_SHELL ->
  Particle.isFading p = false -> 0 <= Particle.alpha p ->
  clock_ordered t0 (before ++ f1 :: mid ++ f2 :: after) ->
  Particle.lifespan p <= age p (snd f1) ->
  World.millis (snd f1) / 1000 + 5 <= World.millis (snd f2) / 1000 ->
  Particle.isFading (Particle_after h (before ++ [f1]) p) = true /\
  Particle_trace h (before ++ f1 :: mid ++ f2 :: after) p
  = Particle_trace h (before ++ f1 :: mid) p
    ++ Particle_trace h (f2 :: after)
         (Particle_after h (before ++ f1 :: mid) p) /\
  Forall (fun q => Particle.alpha q == 0 /\ Particle_isDone q = true)
    (Particle_trace h (f2 :: after)
       (Particle_after h (before ++ f1 :: mid) p)).
Proof.
  intros Hc Hm Hf Ha Hclock Hl H5.
  assert (Hp : aging t0 p) by (unfold aging; auto).
  apply clock_ordered_app in Hclock as [Cb Crest].
  set (tb := List.last (map (fun f => World.millis (snd f)) before) t0) in *.
  destruct f1 as [forces1 w1]. destruct Crest as [Ct1 Crest].
  apply clock_ordered_app in Crest as [Cm C2].
  set (tm := List.last (map (fun f => World.millis (snd f)) mid)
               (World.millis w1)) in *.
  destruct (aging_after h before t0 p Hp Cb) as (Hqb & Ib & _).
  set (qb := Particle_after h before p) in *.
  destruct (aging_step h tb forces1 w1 qb Hqb Ct1) as (Hq1 & I1 & Hstart & _).
  set (q1 := fst (Particle_update h _ w1)) in *.
  assert (E1 : Particle_after h (before ++ [(forces1, w1)]) p = q1).
  { rewrite Particle_after_app. fold qb. apply Particle_after_cons. }
  assert (Hf1 : Particle.isFading q1 = true).
  { apply Hstart. destruct Ib as (_ & T & L & _).
    unfold age. rewrite T, L. exact Hl. }
  assert (Hfade1 : Particle.fadeStartTime q1 + Particle.fadeDuration q1
                   <= World.millis w1 / 1000 + 5).
  { destruct Hq1 as (_ & _ & [[Hno _]|(_ & Hd & Hs)]); [congruence|]. lra. }
  destruct (aging_after h mid (World.millis w1) q1 Hq1 Cm) as (Hqm & _ & Fm).
  specialize (Fm Hf1).
  assert (Em : Particle_after h (before ++ (forces1, w1) :: mid) p
               = Particle_after h mid q1).
  { rewrite Particle_after_app. fold qb. apply Particle_after_cons. }
  split; [rewrite E1; exact Hf1|]. split.
  - change (before ++ (forces1, w1) :: mid ++ f2 :: after)
      with (before ++ ((forces1, w1) :: mid) ++ f2 :: after).
    rewrite app_assoc. apply Particle_trace_app.
  - rewrite Em.
    apply (faded_trace h (f2 :: after) tm (Particle_after h mid q1)
             (World.millis (snd f2)) Hqm).
    + destruct Fm as (-> & _). exact Hf1.
    + exact C2.
    + destruct Fm as (_ & _ & -> & ->). simpl in H5. lra.
    + destruct f2 as [forces2 w2]. destruct C2 as [_ C2].
      constructor; [simpl; lra|]. apply (clock_ordered_later _ _ C2).
Qed.

Lemma particle_fades_out_witness :
  Forall (fun q => Particle.alpha q == 0 /\ Particle_isDone q = true)
    (Particle_trace host_zero [frame_at 8000]
       (Particle_after host_zero ([] ++ frame_at 2600 :: []) shell_example)).
Proof.
  refine (proj2 (proj2 (particle_fades_out host_zero 0 shell_example []
                          (frame_at 2600) [] (frame_at 8000) []
                          _ _ _ _ _ _ _))).
  - unfold complete. vm_compute. repeat split; eexists; reflexivity.
  - vm_compute. discriminate.
  - reflexivity.
  - vm_compute. discriminate.
  - vm_compute. repeat split; discriminate.
  - vm_compute. discriminate.
  - vm_compute. discriminate.
Defined.

(** ** The other patterns of [explode] *)

(** [createParticle] with the configuration: below the cap it creates the
    particle it is asked for. *)
Lemma createParticle_created h pos vel col size role options :
  spawns_one (created pos vel col size role options)
    (Firework_createParticle h (Some SystemConfig) pos vel col size role
       options).
Proof.
  intros w.
  pose proof (quiet_Particle_new h pos vel col size role options w) as G1.
  pose proof (Particle_new_spec h pos vel col size role options w) as S.
  unfold Firework_createParticle. unfold bind, get in *.
  destruct (Qltb (Qnat (length (World.particles w)))
              (Config.maxTotalParticles (World.config w))) eqn:E.
  - apply Qltb_lt in E.
    destruct (Particle_new h pos vel col size role options w) as [p w1].
    cbv zeta in S. simpl in G1, S.
    set (p' := Particle.set_configRef _ _).
    pose proof (push_grows p' w1) as G2.
    destruct (push p' w1) as [id w2]. simpl in G2. unfold ret. simpl.
    exists [p']. split; [apply (grows_trans _ _ _ [] [p'] G1 G2)|].
    split; [|left; auto].
    constructor; [|constructor].
    destruct S as ((S1 & S2 & S3) & (_ & S4 & _) & (S5 & S6 & _ & _ & S7 & _)
                   & (S8 & S9 & S10 & _) & _ & (_ & S11 & _) & S12 & _).
    unfold created. subst p'. simpl. auto 15.
  - apply Qltb_ge in E. exists []. unfold ret. simpl.
    split; [apply grows_refl|]. split; [constructor|]. right. auto.
Qed.

(** A radial loop whose turns create at most one particle each. *)
Lemma radial_burst_count h explosionPos inheritedVel count lo hi
    (P : Particle.t -> Prop) (spawn : Q -> Vec.t -> M unit) :
  Host.rand_in_range h -> lo <= hi ->
  (forall m angle,
     lo <= m <= hi ->
     spawns_one
       (fun p =>
          Particle.pos p = Some explosionPos /\
          Particle.vel p
          = Some (Vec.add (Vec.mult (Host.fromAngle h angle) m) inheritedVel)
          /\ P p)
       (spawn m (Host.fromAngle h angle))) ->
  forall w,
    exists l,
      grows w (snd (radial_burst h count lo hi spawn w)) l /\
      (length l <= iterations count)%nat /\
      (room_for (iterations count) w -> length l = iterations count) /\
      Forall (burst_particle h explosionPos inheritedVel lo hi P) l.
Proof.
  intros Hr Hlo Hs w. unfold radial_burst.
  destruct (repeatM_count
              (burst_particle h explosionPos inheritedVel lo hi P)
              (iterations count)
              (angle <- random1 h (Host.TWO_PI h) ;;
               forceMag <- random h lo hi ;;
               spawn forceMag (Host.fromAngle h angle))) with (w := w)
    as (l & G & F & Hle & Hroom & _).
  - apply spawns_one_draw; [apply quiet_random1|]. intros angle.
    apply (spawns_one_bind _ (fun m => lo <= m <= hi));
      [apply quiet_random|intros w'; apply random_range; assumption|].
    intros m Hm.
    eapply spawns_one_weaken; [|apply (Hs m angle Hm)].
    intros p (Hp & Hv & HP). unfold burst_particle.
    split; [exact Hp|]. split; [exists angle, m; auto|exact HP].
  - exists l. auto.
Qed.

(** [explode] on a recognised radial pattern: the burst of the pattern,
    run after the call is counted. *)
Lemma explode_radial h this w shell pos count lo hi P spawn :
  Host.rand_in_range h -> lo <= hi ->
  Firework.config this = Some SystemConfig ->
  World.heap w !! Firework.shell this = Some shell ->
  Particle.pos shell = Some pos ->
  explode_switch h
    (Firework.set_explodeCalls (S (Firework.explodeCalls this)) this) pos
    (inheritedVel_of shell) (numParticles_of (World.config w))
    (baseForce_of (World.config w))
  = radial_burst h count lo hi spawn ->
  (forall m angle,
     lo <= m <= hi ->
     spawns_one
       (fun p =>
          Particle.pos p = Some pos /\
          Particle.vel p
          = Some (Vec.add (Vec.mult (Host.fromAngle h angle) m)
                    (inheritedVel_of shell)) /\ P p)
       (spawn m (Host.fromAngle h angle))) ->
  exists l,
    grows w (snd (Firework_explode h this w)) l /\
    (length l <= iterations count)%nat /\
    (room_for (iterations count) w -> length l = iterations count) /\
    Forall (burst_particle h pos (inheritedVel_of shell) lo hi P) l.
Proof.
  intros Hr Hlo Hc Hs Hp Hsw Hspawn.
  rewrite (explode_eval h this w shell pos Hc Hs Hp). cbv zeta. simpl snd.
  rewrite Hsw.
  destruct (radial_burst_count h pos (inheritedVel_of shell) count lo hi P
              spawn Hr Hlo Hspawn
              (World.set_explosions (S (World.explosions w)) w))
    as (l & G & Hle & Hroom & F).
  exists l. split; [apply grows_after_count, G|]. auto.
Qed.

Lemma created_lifespan pos vel col size role options p v :
  created pos vel col size role options p ->
  Options.lifespan options = Some v -> 0 < v ->
  Particle.lifespan p = v.
Proof.
  intros (_ & _ & _ & _ & _ & _ & _ & _ & _ & H & _) Hv Hpos.
  apply H; [exact Hv|]. intros E. rewrite E in Hpos. lra.
Qed.

(** X9 (STROBE pattern of [explode]): with the generator in range and a
    non-negative explosion size, a STROBE explosion runs
    [ceil (numParticles * 0.7)] turns, creates at most that many
    particles and exactly that many when the cap leaves room; each starts
    at the position of the shell with role STROBE, size 2 and full
    opacity, a velocity of magnitude within 0.7 and 1.1 times the base
    force around the inherited velocity, a lifespan within 1.5 and 3
    seconds and a strobe rate within 5 and 15. *)
Theorem strobe_burst h this w shell pos :
  Host.rand_in_range h ->
  0 <= Config.explosionSize (World.config w) ->
  Firework.type this = Some "STROBE" ->
  Firework.config this = Some SystemConfig ->
  World.heap w !! Firework.shell this = Some shell ->
  Particle.pos shell = Some pos ->
  let n := iterations (numParticles_of (World.config w) * 0.7) in
  let base := baseForce_of (World.config w) in
  exists l,
    grows w (snd (Firework_explode h this w)) l /\
    (length l <= n)%nat /\
    (room_for n w -> length l = n) /\
    Forall (burst_particle h pos (inheritedVel_of shell)
              (base * 0.7) (base * 1.1)
              (fun p =>
                 Particle.role p = Role.STROBE /\
                 Particle.size p = 2 /\
                 Particle.alpha p = 255 /\
                 1.5 <= Particle.lifespan p <= 3 /\
                 5 <= Particle.strobeRate p <= 15)) l.
Proof.
  intros Hr He Ht Hc Hs Hp. cbv zeta.
  pose proof (baseForce_nonneg _ He) as Hb.
  eapply explode_radial; try eassumption; [lra| |].
  - unfold explode_switch.
    replace (Firework.type (Firework.set_explodeCalls _ this))
      with (Some "STROBE") by (symmetry; exact Ht).
    simpl bool_decide. cbv iota. reflexivity.
  - intros m angle Hm. cbv zeta.
    replace (Firework.config (Firework.set_explodeCalls _ this))
      with (Some SystemConfig) by (symmetry; exact Hc).
    apply spawns_one_draw; [apply quiet_random|]. intros v.
    apply (spawns_one_bind _ (fun l => 1.5 <= l <= 3.0));
      [apply quiet_random|intros w'; apply random_range; [exact Hr|lra]|].
    intros life Hl.
    apply (spawns_one_bind _ (fun r => 5 <= r <= 15));
      [apply quiet_random|intros w'; apply random_range; [exact Hr|lra]|].
    intros rate Hrate.
    eapply spawns_one_weaken; [|apply createParticle_created].
    intros p C.
    pose proof (created_lifespan _ _ _ _ _ _ p life C eq_refl
                  ltac:(lra)) as Hlife.
    destruct C as (C1 & C2 & _ & C4 & C5 & _ & C7 & _ & _ & _ & _ & _ & C13).
    split; [exact C1|]. split; [exact C2|].
    split; [exact C5|]. split; [exact C4|]. split; [exact C13|].
    rewrite Hlife, C7. simpl. split; [lra|assumption].
Qed.

Lemma strobe_burst_witness :
  exists l,
    grows brisk_world
      (snd (Firework_explode host_zero
              (Firework.set_type (Some "STROBE") brisk_firework)
              brisk_world)) l /\
    length l = 70%nat /\
    Forall (fun p => Particle.role p = Role.STROBE) l.
Proof.
  destruct (strobe_burst host_zero
              (Firework.set_type (Some "STROBE") brisk_firework)
              brisk_world brisk_shell brisk_pos)
    as (l & G & _ & Hroom & F).
  - intros n. split; [apply Qle_refl|reflexivity].
  - vm_compute. discriminate.
  - reflexivity.
  - reflexivity.
  - vm_compute. reflexivity.
  - vm_compute. reflexivity.
  - exists l. split; [exact G|]. split.
    + apply Hroom. vm_compute. discriminate.
    + eapply Forall_impl; [exact F|]. intros p (_ & _ & Hp & _). exact Hp.
Defined.

(** X10 (CRACKLING pattern of [explode]): a CRACKLING explosion runs
    [ceil (numParticles * 0.8)] turns, creates at most that many
    particles and exactly that many when the cap leaves room; each is a
    CRACKLE_SOURCE of size 2.5 at the position of the shell, with a
    velocity of magnitude within 0.6 and 1.0 times the base force around
    the inherited velocity, a lifespan within 0.8 and 1.5 seconds and a
    crackle rate within 3 and 8. *)
Theorem crackling_burst h this w shell pos :
  Host.rand_in_range h ->
  0 <= Config.explosionSize (World.config w) ->
  Firework.type this = Some "CRACKLING" ->
  Firework.config this = Some SystemConfig ->
  World.heap w !! Firework.shell this = Some shell ->
  Particle.pos shell = Some pos ->
  let n := iterations (numParticles_of (World.config w) * 0.8) in
  let base := baseForce_of (World.config w) in
  exists l,
    grows w (snd (Firework_explode h this w)) l /\
    (length l <= n)%nat /\
    (room_for n w -> length l = n) /\
    Forall (burst_particle h pos (inheritedVel_of shell)
              (base * 0.6) (base * 1.0)
              (fun p =>
                 Particle.role p = Role.CRACKLE_SOURCE /\
                 Particle.size p = 2.5 /\
                 0.8 <= Particle.lifespan p <= 1.5 /\
                 3 <= Particle.crackleRate p <= 8)) l.
Proof.
  intros Hr He Ht Hc Hs Hp. cbv zeta.
  pose proof (baseForce_nonneg _ He) as Hb.
  eapply explode_radial; try eassumption; [lra| |].
  - unfold explode_switch.
    replace (Firework.type (Firework.set_explodeCalls _ this))
      with (Some "CRACKLING") by (symmetry; exact Ht).
    simpl bool_decide. cbv iota. reflexivity.
  - intros m angle Hm. cbv zeta.
    replace (Firework.config (Firework.set_explodeCalls _ this))
      with (Some SystemConfig) by (symmetry; exact Hc).
    apply spawns_one_draw; [apply quiet_random_color|]. intros col.
    apply (spawns_one_bind _ (fun l => 0.8 <= l <= 1.5));
      [apply quiet_random|intros w'; apply random_range; [exact Hr|lra]|].
    intros life Hl.
    apply (spawns_one_bind _ (fun r => 3 <= r <= 8));
      [apply quiet_random|intros w'; apply random_range; [exact Hr|lra]|].
    intros rate Hrate.
    eapply spawns_one_weaken; [|apply createParticle_created].
    intros p C.
    pose proof (created_lifespan _ _ _ _ _ _ p life C eq_refl
                  ltac:(lra)) as Hlife.
    destruct C as (C1 & C2 & _ & C4 & C5 & _ & _ & C8 & _).
    split; [exact C1|]. split; [exact C2|].
    split; [exact C5|]. split; [exact C4|].
    rewrite Hlife, C8. simpl. split; assumption.
Qed.

Lemma crackling_burst_witness :
  exists l,
    grows brisk_world
      (snd (Firework_explode host_zero
              (Firework.set_type (Some "CRACKLING") brisk_firework)
              brisk_world)) l /\
    length l = 80%nat /\
    Forall (fun p => Particle.role p = Role.CRACKLE_SOURCE) l.
Proof.
  destruct (crackling_burst host_zero
              (Firework.set_type (Some "CRACKLING") brisk_firework)
              brisk_world brisk_shell brisk_pos)
    as (l & G & _ & Hroom & F).
  - intros n. split; [apply Qle_refl|reflexivity].
  - vm_compute. discriminate.
  - reflexivity.
  - reflexivity.
  - vm_compute. reflexivity.
  - vm_compute. reflexivity.
  - exists l. split; [exact G|]. split.
    + apply Hroom. vm_compute. discriminate.
    + eapply Forall_impl; [exact F|]. intros p (_ & _ & Hp & _). exact Hp.
Defined.

(** X11 (WILLOW pattern of [explode]): a WILLOW explosion creates at most
    [numParticles] particles and exactly that many when the cap leaves
    room; each is an EXPLOSION particle of size 2.5 at the position of
    the shell, slower and longer-lived than a peony's: magnitude within
    0.4 and 0.8 times the base force around the inherited velocity,
    lifespan within 3 and 5 seconds, fade rate 0.4. *)
Theorem willow_burst h this w shell pos :
  Host.rand_in_range h ->
  0 <= Config.explosionSize (World.config w) ->
  Firework.type this = Some "WILLOW" ->
  Firework.config this = Some SystemConfig ->
  World.heap w !! Firework.shell this = Some shell ->
  Particle.pos shell = Some pos ->
  let n := iterations (numParticles_of (World.config w)) in
  let base := baseForce_of (World.config w) in
  exists l,
    grows w (snd (Firework_explode h this w)) l /\
    (length l <= n)%nat /\
    (room_for n w -> length l = n) /\
    Forall (burst_particle h pos (inheritedVel_of shell)
              (base * 0.4) (base * 0.8)
              (fun p =>
                 Particle.role p = Role.EXPLOSION /\
                 Particle.size p = 2.5 /\
                 3 <= Particle.lifespan p <= 5 /\
                 Particle.fadeRate p = 0.4)) l.
Proof.
  intros Hr He Ht Hc Hs Hp. cbv zeta.
  pose proof (baseForce_nonneg _ He) as Hb.
  eapply explode_radial; try eassumption; [lra| |].
  - unfold explode_switch.
    replace (Firework.type (Firework.set_explodeCalls _ this))
      with (Some "WILLOW") by (symmetry; exact Ht).
    simpl bool_decide. cbv iota. reflexivity.
  - intros m angle Hm. cbv zeta.
    replace (Firework.config (Firework.set_explodeCalls _ this))
      with (Some SystemConfig) by (symmetry; exact Hc).
    apply spawns_one_draw; [apply quiet_random_color|]. intros col.
    apply (spawns_one_bind _ (fun l => 3.0 <= l <= 5.0));
      [apply quiet_random|intros w'; apply random_range; [exact Hr|lra]|].
    intros life Hl.
    eapply spawns_one_weaken; [|apply createParticle_created].
    intros p C.
    pose proof (created_lifespan _ _ _ _ _ _ p life C eq_refl
                  ltac:(lra)) as Hlife.
    destruct C as (C1 & C2 & _ & C4 & C5 & _ & _ & _ & C9 & _).
    split; [exact C1|]. split; [exact C2|].
    split; [exact C5|]. split; [exact C4|].
    rewrite Hlife. split; [lra|]. rewrite C9. reflexivity.
Qed.

Lemma willow_burst_witness :
  exists l,
    grows brisk_world
      (snd (Firework_explode host_zero
              (Firework.set_type (Some "WILLOW") brisk_firework)
              brisk_world)) l /\
    length l = 100%nat /\
    Forall (fun p => Particle.fadeRate p = 0.4) l.
Proof.
  destruct (willow_burst host_zero
              (Firework.set_type (Some "WILLOW") brisk_firework)
              brisk_world brisk_shell brisk_pos)
    as (l & G & _ & Hroom & F).
  - intros n. split; [apply Qle_refl|reflexivity].
  - vm_compute. discriminate.
  - reflexivity.
  - reflexivity.
  - vm_compute. reflexivity.
  - vm_compute. reflexivity.
  - exists l. split; [exact G|]. split.
    + apply Hroom. vm_compute. discriminate.
    + eapply Forall_impl; [exact F|].
      intros p (_ & _ & _ & _ & _ & Hp). exact Hp.
Defined.

(** ** The PALM pattern *)

Lemma room_for_le n k w : (k <= n)%nat -> room_for n w -> room_for k w.
Proof.
  unfold room_for. intros Hk H.
  assert (Qnat (length (World.particles w) + k)
          <= Qnat (length (World.particles w) + n))
    by (apply Qnat_le; lia).
  lra.
Qed.

Lemma repeatM_upto P n (body : M unit) :
  spawns_one P body -> spawns_upto P n (repeatM n body).
Proof.
  intros Hb w. destruct (repeatM_count P n body Hb w)
    as (l & G & F & Hle & Hroom & _).
  exists l. auto.
Qed.

Lemma spawns_upto_bind {A B} P (R : A -> Prop) n (m : M A) (k : A -> M B) :
  quiet m -> (forall w, R (fst (m w))) ->
  (forall a, R a -> spawns_upto P n (k a)) ->
  spawns_upto P n (bind m k).
Proof.
  intros Hq HR Hk w. unfold bind.
  pose proof (Hq w) as G1. pose proof (HR w) as Ha.
  destruct (m w) as [a w1]. simpl in G1, Ha.
  destruct (Hk a Ha w1) as (l & G2 & F & Hle & Hroom).
  exists l. split; [apply (grows_trans _ _ _ [] l G1 G2)|].
  split; [exact F|]. split; [exact Hle|].
  intros Hr. apply Hroom. unfold room_for in *.
  destruct G1 as (_ & Hp & Hc & _). simpl in Hp.
  rewrite app_nil_r in Hp. rewrite Hp, Hc. exact Hr.
Qed.

Lemma spawns_upto_weaken {A} (P Q : Particle.t -> Prop) n (m : M A) :
  (forall p, P p -> Q p) -> spawns_upto P n m -> spawns_upto Q n m.
Proof.
  intros HPQ Hm w. destruct (Hm w) as (l & G & F & H).
  exists l. split; [exact G|]. split; [|exact H].
  eapply Forall_impl; [exact F|]. exact HPQ.
Qed.

(** A counted loop over an index whose turns create at most [k]
    particles each. *)
Lemma forM_upto P n k (body : nat -> M unit) :
  forall i0,
    (forall i, (i0 <= i < i0 + n)%nat -> spawns_upto P k (body i)) ->
    spawns_upto P (n * k) (forM n i0 body).
Proof.
  induction n as [|n IH]; intros i0 Hb w; simpl.
  - exists []. split; [apply grows_refl|]. split; [constructor|].
    split; reflexivity.
  - unfold bind.
    destruct (Hb i0 ltac:(lia) w) as (l1 & G1 & F1 & Hle1 & Hroom1).
    destruct (body i0 w) as [u w1]. simpl in G1.
    destruct (IH (S i0) (fun i Hi => Hb i ltac:(lia)) w1)
      as (l2 & G2 & F2 & Hle2 & Hroom2).
    pose proof (grows_length _ _ _ G1) as L1.
    assert (C1 : World.config w1 = World.config w) by apply G1.
    exists (l1 ++ l2). split; [eapply grows_trans; eassumption|].
    split; [apply Forall_app; auto|]. rewrite length_app.
    split; [lia|].
    intros Hr.
    assert (E1 : length l1 = k)
      by (apply Hroom1; apply (room_for_le (k + n * k)); [lia|exact Hr]).
    rewrite E1. f_equal. apply Hroom2. unfold room_for in *.
    rewrite C1, L1, E1.
    replace (length (World.particles w) + k + n * k)%nat
      with (length (World.particles w) + (k + n * k))%nat by lia.
    exact Hr.
Qed.

(** X12 (PALM pattern of [explode]): a PALM explosion draws 4, 5 or 6
    branches and gives each the floor of [numParticles / branches]
    turns: it creates at most [branches * per] particles, never more than
    [numParticles], and exactly [branches * per] when the cap leaves
    room; each particle belongs to one of the branches, with size within
    3 and 4.5 and lifespan within 1.5 and 2.5 seconds. *)
Theorem palm_burst h this w shell pos :
  Host.rand_in_range h ->
  Firework.type this = Some "PALM" ->
  Firework.config this = Some SystemConfig ->
  World.heap w !! Firework.shell this = Some shell ->
  Particle.pos shell = Some pos ->
  let n := numParticles_of (World.config w) in
  exists (branches per : nat) l,
    (4 <= branches <= 6)%nat /\
    per = Z.to_nat (Qfloor (n / Qnat branches)) /\
    grows w (snd (Firework_explode h this w)) l /\
    (length l <= branches * per)%nat /\
    (0 <= n -> Qnat (length l) <= n) /\
    (room_for (branches * per) w -> length l = (branches * per)%nat) /\
    Forall (palm_particle h pos (inheritedVel_of shell)
              (baseForce_of (World.config w)) branches) l.
Proof.
  intros Hr Ht Hc Hs Hp. cbv zeta.
  rewrite (explode_eval h this w shell pos Hc Hs Hp). cbv zeta. simpl snd.
  set (this' := Firework.set_explodeCalls _ this).
  set (w0 := World.set_explosions _ w).
  set (n := numParticles_of (World.config w)).
  set (base := baseForce_of (World.config w)).
  set (inh := inheritedVel_of shell).
  assert (Esw : explode_switch h this' pos inh n base
                = explode_palm h this' pos inh n base).
  { unfold explode_switch.
    replace (Firework.type this') with (Some "PALM") by (symmetry; exact Ht).
    reflexivity. }
  rewrite Esw. unfold explode_palm. unfold bind at 1.
  pose proof (random_range_strict h 4 7 w0 Hr ltac:(lra)) as Hb.
  pose proof (quiet_random h 4 7 w0) as G0.
  destruct (random h 4 7 w0) as [b w1]. simpl in Hb, G0.
  assert (Hz : (4 <= Qfloor b <= 6)%Z).
  { split.
    - change 4%Z with (Qfloor 4). apply Qfloor_resp_le, Hb.
    - assert (Qfloor b < 7)%Z; [|lia]. rewrite Zlt_Qlt.
      eapply Qle_lt_trans; [apply Qfloor_le|apply Hb]. }
  set (mb := Z.to_nat (Qfloor b)).
  assert (Emb : inject_Z (Qfloor b) = Qnat mb)
    by (unfold Qnat, mb; rewrite Z2Nat.id by lia; reflexivity).
  assert (Eit : iterations (Qnat mb) = mb)
    by (unfold Qnat; rewrite iterations_inject, Nat2Z.id; reflexivity).
  rewrite Emb, Eit.
  set (perZ := Qfloor (n / Qnat mb)).
  assert (Hprod : 0 <= n -> Qnat (mb * Z.to_nat perZ) <= n).
  { intros Hn.
    assert (Hmb : 4 <= Qnat mb)
      by (unfold Qnat, mb; rewrite Z2Nat.id by lia;
          change 4 with (inject_Z 4); rewrite <- Zle_Qle; lia).
    assert (Hq : 0 <= n / Qnat mb).
    { unfold Qdiv. apply Qmult_le_0_compat; [exact Hn|].
      apply Qinv_le_0_compat. lra. }
    assert (H0 : (0 <= perZ)%Z)
      by (change 0%Z with (Qfloor 0); apply Qfloor_resp_le, Hq).
    assert (Hper : inject_Z perZ <= n / Qnat mb) by apply Qfloor_le.
    unfold Qnat. rewrite Nat2Z.inj_mul, Z2Nat.id by exact H0.
    rewrite inject_Z_mult. fold (Qnat mb).
    assert (E : n == Qnat mb * (n / Qnat mb)) by (field; lra).
    apply Qle_trans with (Qnat mb * (n / Qnat mb));
      [apply Qmult_le_l; [lra|exact Hper]|rewrite <- E; apply Qle_refl]. }
  destruct (forM_upto
              (palm_particle h pos inh base mb)
              mb (Z.to_nat perZ)
              (fun i =>
                 r <- random h (-0.15) 0.15 ;;
                 (let angle := Qnat i / Qnat mb * Host.TWO_PI h + r in
                  f <- random h 1.2 1.6 ;;
                  (let branchForce := base * f in
                   let baseVel :=
                     Vec.mult (Host.fromAngle h angle) branchForce in
                   let particlesPerBranch :=
                     inject_Z (Qfloor (n / Qnat mb)) in
                   repeatM (iterations particlesPerBranch)
                     (dir <- random2D h ;;
                      (let variation := Vec.mult dir (base * 0.35) in
                       let vel :=
                         Vec.add (Vec.add baseVel variation) inh in
                       col <- random_color h (Firework.palette this') ;;
                       sz <- random h 3 4.5 ;;
                       lifespan <- random h 1.5 2.5 ;;
                       Firework_createParticle h (Firework.config this')
                         pos vel col sz Role.EXPLOSION
                         (Options.mk (Some lifespan) None None None None
                            None None)))))) 0%nat) with (w := w1)
    as (l & G & F & Hle & Hroom).
  { intros i Hi. cbv zeta.
    assert (Hi' : (i < mb)%nat) by lia.
    apply (spawns_upto_bind _ (fun r => -0.15 <= r <= 0.15));
      [apply quiet_random|intros w'; apply random_range; [exact Hr|lra]|].
    intros r Hrr.
    apply (spawns_upto_bind _ (fun f => 1.2 <= f <= 1.6));
      [apply quiet_random|intros w'; apply random_range; [exact Hr|lra]|].
    intros f Hf. rewrite iterations_inject. fold perZ.
    apply repeatM_upto.
    replace (Firework.config this') with (Some SystemConfig)
      by (symmetry; exact Hc).
    apply spawns_one_draw; [apply quiet_random2D|]. intros dir.
    apply spawns_one_draw; [apply quiet_random_color|]. intros col.
    apply (spawns_one_bind _ (fun s => 3 <= s <= 4.5));
      [apply quiet_random|intros w'; apply random_range; [exact Hr|lra]|].
    intros sz Hsz.
    apply (spawns_one_bind _ (fun s => 1.5 <= s <= 2.5));
      [apply quiet_random|intros w'; apply random_range; [exact Hr|lra]|].
    intros life Hl.
    eapply spawns_one_weaken; [|apply createParticle_created].
    intros p C.
    pose proof (created_lifespan _ _ _ _ _ _ p life C eq_refl
                  ltac:(lra)) as Hlife.
    destruct C as (C1 & C2 & _ & C4 & C5 & _).
    unfold palm_particle.
    split; [exact C1|]. split; [exact C5|].
    rewrite C4, Hlife. split; [exact Hsz|]. split; [exact Hl|].
    exists i, r, f, dir. auto. }
  assert (Gw : grows w0 (snd (forM mb 0
                 (fun i =>
                 r <- random h (-0.15) 0.15 ;;
                 (let angle := Qnat i / Qnat mb * Host.TWO_PI h + r in
                  f <- random h 1.2 1.6 ;;
                  (let branchForce := base * f in
                   let baseVel :=
                     Vec.mult (Host.fromAngle h angle) branchForce in
                   let particlesPerBranch :=
                     inject_Z (Qfloor (n / Qnat mb)) in
                   repeatM (iterations particlesPerBranch)
                     (dir <- random2D h ;;
                      (let variation := Vec.mult dir (base * 0.35) in
                       let vel :=
                         Vec.add (Vec.add baseVel variation) inh in
                       col <- random_color h (Firework.palette this') ;;
                       sz <- random h 3 4.5 ;;
                       lifespan <- random h 1.5 2.5 ;;
                       Firework_createParticle h (Firework.config this')
                         pos vel col sz Role.EXPLOSION
                         (Options.mk (Some lifespan) None None None None
                            None None)))))) w1)) l)
    by (apply (grows_trans _ _ _ [] l G0 G)).
  exists mb, (Z.to_nat perZ), l.
  split; [unfold mb; lia|]. split; [reflexivity|].
  split; [apply grows_after_count; exact Gw|].
  split; [exact Hle|]. split.
  - intros Hn. eapply Qle_trans; [apply Qnat_le, Hle|apply Hprod, Hn].
  - split; [|exact F].
    intros Hroom'. apply Hroom. unfold room_for in *.
    destruct G0 as (_ & Hpp & Hcc & _). simpl in Hpp.
    rewrite app_nil_r in Hpp. rewrite Hpp, Hcc. exact Hroom'.
Qed.

Lemma palm_burst_witness :
  exists l,
    grows brisk_world
      (snd (Firework_explode host_zero
              (Firework.set_type (Some "PALM") brisk_firework)
              brisk_world)) l /\
    (length l <= 100)%nat /\
    Forall (fun p => Particle.role p = Role.EXPLOSION) l.
Proof.
  destruct (palm_burst host_zero
              (Firework.set_type (Some "PALM") brisk_firework)
              brisk_world brisk_shell brisk_pos)
    as (branches & per & l & _ & _ & G & _ & Hn & _ & F).
  - intros n. split; [apply Qle_refl|reflexivity].
  - reflexivity.
  - reflexivity.
  - vm_compute. reflexivity.
  - vm_compute. reflexivity.
  - exists l. split; [exact G|]. split.
    + assert (H : Qnat (length l) <= 100)
        by (apply Hn; vm_compute; discriminate).
      unfold Qnat in H. change 100 with (inject_Z 100) in H.
      rewrite <- Zle_Qle in H. lia.
    + eapply Forall_impl; [exact F|]. intros p (_ & Hp & _). exact Hp.
Defined.

(** ** Secondary explosions *)

(** A loop that stops at the cap and whose turns create one particle
    below the cap. *)
Lemma repeat_until_cap P n maxP (body : M unit) :
  spawns_one P body ->
  forall w,
    maxP = orQ (Config.maxTotalParticles (World.config w))
             MAX_TOTAL_PARTICLES ->
    exists l,
      grows w
        (snd (repeat_until n
                (len <- particles_length ;; ret (Qleb maxP len)) body w)) l /\
      Forall P l /\ (length l <= n)%nat /\
      (room_for n w -> length l = n).
Proof.
  intros Hb. induction n as [|n IH]; intros w Hmax; simpl.
  - exists []. split; [apply grows_refl|]. split; [constructor|].
    split; reflexivity.
  - unfold bind at 1. unfold bind at 1. unfold particles_length, ret.
    cbv beta iota. simpl fst. simpl snd.
    destruct (Qleb maxP (Qnat (length (World.particles w)))) eqn:E.
    + exists []. split; [apply grows_refl|]. split; [constructor|].
      split; [simpl; lia|]. intros Hr. exfalso.
      apply Qleb_le in E. unfold room_for in Hr. rewrite Qnat_plus in Hr.
      assert (H1 : 1 <= Qnat (S n)) by (apply (Qnat_le 1 (S n)); lia).
      assert (H0 : 0 <= Qnat (length (World.particles w)))
        by (apply (Qnat_le 0); lia).
      unfold orQ in Hmax.
      destruct (Qeqb (Config.maxTotalParticles (World.config w)) 0) eqn:Ez.
      * apply Qeqb_eq in Ez. lra.
      * subst maxP. lra.
    + unfold bind. destruct (Hb w) as (l1 & G1 & F1 & Hc).
      destruct (body w) as [u w1]. simpl in G1.
      assert (C1 : World.config w1 = World.config w) by apply G1.
      destruct (IH w1 ltac:(rewrite C1; exact Hmax))
        as (l2 & G2 & F2 & Hle & Hroom).
      pose proof (grows_length _ _ _ G1) as L1.
      exists (l1 ++ l2). split; [eapply grows_trans; eassumption|].
      split; [apply Forall_app; auto|]. rewrite length_app.
      split.
      * destruct Hc as [[_ ->]|[_ ->]]; simpl; lia.
      * intros Hr. unfold room_for in Hr.
        destruct Hc as [[Hlt Hone]|[Hge ->]].
        -- rewrite Hone. f_equal. apply Hroom. unfold room_for.
           rewrite C1, L1, Hone.
           replace (length (World.particles w) + 1 + n)%nat
             with (length (World.particles w) + S n)%nat by lia.
           exact Hr.
        -- exfalso. rewrite Qnat_plus in Hr.
           assert (1 <= Qnat (S n)) by (apply (Qnat_le 1 (S n)); lia). lra.
Qed.

Lemma secondary_baseForce_nonneg config :
  0 <= Config.explosionSize config -> 0 <= secondary_baseForce config.
Proof.
  intros H. unfold secondary_baseForce, orQ.
  destruct (Qeqb _ 0); unfold Qdiv;
    (apply Qmult_le_0_compat; [lra|apply Qinv_le_0_compat; lra]).
Qed.

(** The peony loop of a secondary explosion. *)
Lemma secondary_peony_loop h pos inh count maxP base pal :
  Host.rand_in_range h -> 0 <= base ->
  forall w,
    maxP = orQ (Config.maxTotalParticles (World.config w))
             MAX_TOTAL_PARTICLES ->
    exists l,
      grows w
        (snd (secondary_burst h count maxP (base * 0.8) (base * 1.2) inh
                (fun vel =>
                   col <- random_color h pal ;;
                   sz <- random h 2 3.5 ;;
                   lifespan <- random h 0.8 1.5 ;;
                   Firework_createParticle h (Some SystemConfig) pos vel
                     col sz Role.EXPLOSION
                     (Options.mk (Some lifespan) None None None None None
                        None)) w)) l /\
      Forall (burst_particle h pos inh (base * 0.8) (base * 1.2)
                (fun q =>
                   Particle.role q = Role.EXPLOSION /\
                   2 <= Particle.size q <= 3.5 /\
                   0.8 <= Particle.lifespan q <= 1.5)) l /\
      (length l <= iterations count)%nat /\
      (room_for (iterations count) w -> length l = iterations count).
Proof.
  intros Hr Hb w Hmax. unfold secondary_burst.
  apply repeat_until_cap; [|exact Hmax].
  apply spawns_one_draw; [apply quiet_random1|]. intros angle.
  apply (spawns_one_bind _ (fun m => base * 0.8 <= m <= base * 1.2));
    [apply quiet_random|intros w'; apply random_range; [exact Hr|lra]|].
  intros m Hm. cbv zeta.
  apply spawns_one_draw; [apply quiet_random_color|]. intros col.
  apply (spawns_one_bind _ (fun s => 2 <= s <= 3.5));
    [apply quiet_random|intros w'; apply random_range; [exact Hr|lra]|].
  intros sz Hsz.
  apply (spawns_one_bind _ (fun s => 0.8 <= s <= 1.5));
    [apply quiet_random|intros w'; apply random_range; [exact Hr|lra]|].
  intros life Hl.
  eapply spawns_one_weaken; [|apply createParticle_created].
  intros p C.
  pose proof (created_lifespan _ _ _ _ _ _ p life C eq_refl
                ltac:(lra)) as Hlife.
  destruct C as (C1 & C2 & _ & C4 & C5 & _).
  split; [exact C1|]. split; [exists angle, m; auto|].
  rewrite C4, Hlife. auto.
Qed.

(** X13 ([explodeSecondary], fallback of its switch): a mini-shell with
    the configuration and a position, whose subtype is neither CRACKLING
    nor STROBE (WILLOW and PALM included, or none at all), bursts like a
    small peony: at most [floor (min (particleCount * 0.4, 5000))]
    particles and exactly that many when the cap leaves room; each is an
    EXPLOSION particle at the position of the mini-shell, of size within
    2 and 3.5 and lifespan within 0.8 and 1.5 seconds, with a velocity of
    magnitude within 0.8 and 1.2 times [explosionSize / 18] around three
    tenths of the velocity of the mini-shell. *)
Theorem secondary_falls_back_to_peony h p w pos :
  Host.rand_in_range h ->
  0 <= Config.explosionSize (World.config w) ->
  Particle.configRef p = Some SystemConfig ->
  Particle.pos p = Some pos ->
  Particle.subType p <> Some "CRACKLING" ->
  Particle.subType p <> Some "STROBE" ->
  let n := iterations (secondary_numParticles (World.config w)) in
  let base := secondary_baseForce (World.config w) in
  exists l,
    grows w (snd (Particle_explodeSecondary h p w)) l /\
    (length l <= n)%nat /\
    (room_for n w -> length l = n) /\
    Forall (burst_particle h pos (secondary_inheritedVel p)
              (base * 0.8) (base * 1.2)
              (fun q =>
                 Particle.role q = Role.EXPLOSION /\
                 2 <= Particle.size q <= 3.5 /\
                 0.8 <= Particle.lifespan q <= 1.5)) l.
Proof.
  intros Hr He Hc Hp Hnc Hns. cbv zeta.
  pose proof (secondary_baseForce_nonneg _ He) as Hb.
  unfold Particle_explodeSecondary. cbv zeta.
  set (p1 := Particle.set_secondaryCalls _ p).
  change (Particle.configRef p1) with (Particle.configRef p).
  change (Particle.pos p1) with (Particle.pos p).
  rewrite Hc, Hp.
  assert (Hsec : forall this w1,
             Particle.subType this = Particle.subType p ->
             Particle.palette this = Particle.palette p ->
             Vec.mult (from_option id (Vec.create 0 0) (Particle.vel this))
               0.3 = secondary_inheritedVel p ->
             World.config w1 = World.config w ->
             exists l,
               grows w1 (snd (secondary_explosion h this pos w1)) l /\
               Forall (burst_particle h pos (secondary_inheritedVel p)
                         (secondary_baseForce (World.config w) * 0.8)
                         (secondary_baseForce (World.config w) * 1.2)
                         (fun q =>
                            Particle.role q = Role.EXPLOSION /\
                            2 <= Particle.size q <= 3.5 /\
                            0.8 <= Particle.lifespan q <= 1.5)) l /\
               (length l
                <= iterations (secondary_numParticles (World.config w)))%nat
               /\
               (room_for
                  (iterations (secondary_numParticles (World.config w))) w1 ->
                length l
                = iterations (secondary_numParticles (World.config w)))).
  { intros this w1 Hst Hpal Hv Hcw.
    unfold secondary_explosion. unfold bind at 1. unfold get. cbv beta iota.
    cbv zeta. rewrite Hst, Hv, Hcw.
    assert (E1 : String.eqb (from_option id "PEONY" (Particle.subType p))
                   "CRACKLING" = false).
    { apply String.eqb_neq. intros E. destruct (Particle.subType p);
        simpl in E; [subst; contradiction|discriminate]. }
    assert (E2 : String.eqb (from_option id "PEONY" (Particle.subType p))
                   "STROBE" = false).
    { apply String.eqb_neq. intros E. destruct (Particle.subType p);
        simpl in E; [subst; contradiction|discriminate]. }
    rewrite E1, E2.
    assert (Hrest : forall pal w2,
               grows w1 w2 [] ->
               exists l,
                 grows w1
                   (snd (secondary_burst h
                           (secondary_numParticles (World.config w))
                           (orQ (Config.maxTotalParticles (World.config w))
                              MAX_TOTAL_PARTICLES)
                           (secondary_baseForce (World.config w) * 0.8)
                           (secondary_baseForce (World.config w) * 1.2)
                           (secondary_inheritedVel p)
                           (fun vel =>
                              col <- random_color h pal ;;
                              sz <- random h 2 3.5 ;;
                              lifespan <- random h 0.8 1.5 ;;
                              Firework_createParticle h (Some SystemConfig)
                                pos vel col sz Role.EXPLOSION
                                (Options.mk (Some lifespan) None None None
                                   None None None)) w2)) l /\
                 Forall (burst_particle h pos (secondary_inheritedVel p)
                           (secondary_baseForce (World.config w) * 0.8)
                           (secondary_baseForce (World.config w) * 1.2)
                           (fun q =>
                              Particle.role q = Role.EXPLOSION /\
                              2 <= Particle.size q <= 3.5 /\
                              0.8 <= Particle.lifespan q <= 1.5)) l /\
                 (length l
                  <= iterations
                       (secondary_numParticles (World.config w)))%nat /\
                 (room_for
                    (iterations (secondary_numParticles (World.config w)))
                    w1 ->
                  length l
                  = iterations (secondary_numParticles (World.config w)))).
    { intros pal w2 G0.
      assert (C2 : World.config w2 = World.config w1) by apply G0.
      destruct (secondary_peony_loop h pos (secondary_inheritedVel p)
                  (secondary_numParticles (World.config w))
                  (orQ (Config.maxTotalParticles (World.config w))
                     MAX_TOTAL_PARTICLES)
                  (secondary_baseForce (World.config w)) pal Hr Hb w2
                  ltac:(rewrite C2, Hcw; reflexivity))
        as (l & G & F & Hle & Hroom).
      exists l. split; [apply (grows_trans _ _ _ [] l G0 G)|].
      split; [exact F|]. split; [exact Hle|].
      intros Hroom'. apply Hroom. unfold room_for in *.
      destruct G0 as (_ & Hpp & _). simpl in Hpp. rewrite app_nil_r in Hpp.
      rewrite Hpp, C2. exact Hroom'. }
    destruct (Particle.palette this) as [pal|].
    - unfold bind at 1. unfold ret at 1. cbv beta iota.
      apply Hrest, grows_refl.
    - unfold bind at 1.
      pose proof (quiet_random_of h PALETTES w1) as G0.
      destruct (random_of h PALETTES w1) as [pal w2]. simpl in G0.
      apply Hrest, G0. }
  destruct (Particle.vel p) as [v|] eqn:Ev.
  - change (Particle.vel p1) with (Particle.vel p). rewrite Ev.
    unfold bind at 1. unfold ret at 1. cbv beta iota.
    destruct (Hsec p1 w eq_refl eq_refl) as (l & G & F & Hle & Hroom).
    { unfold secondary_inheritedVel.
      change (Particle.vel p1) with (Particle.vel p). reflexivity. }
    { reflexivity. }
    unfold bind, ret.
    destruct (secondary_explosion h p1 pos w) as [u w']. simpl in *.
    exists l. auto.
  - change (Particle.vel p1) with (Particle.vel p). rewrite Ev.
    unfold bind at 1. unfold bind at 1. unfold ret at 1.
    pose proof (quiet_log LogWarn
                  "Secondary explosion source particle has no velocity." w)
      as G0.
    destruct (log LogWarn
                "Secondary explosion source particle has no velocity." w)
      as [u0 w1]. simpl in G0. cbv beta iota.
    assert (C1 : World.config w1 = World.config w) by apply G0.
    destruct (Hsec (Particle.set_vel (Some (Vec.create 0 0)) p1) w1
                eq_refl eq_refl)
      as (l & G & F & Hle & Hroom).
    { unfold secondary_inheritedVel. rewrite Ev. reflexivity. }
    { exact C1. }
    unfold bind, ret.
    destruct (secondary_explosion h _ pos w1) as [u w']. simpl in *.
    exists l. split; [apply (grows_trans _ _ _ [] l G0 G)|].
    split; [exact Hle|]. split; [|exact F].
    intros Hroom'. apply Hroom. unfold room_for in *.
    destruct G0 as (_ & Hpp & _). simpl in Hpp. rewrite app_nil_r in Hpp.
    rewrite Hpp, C1. exact Hroom'.
Qed.

Lemma secondary_falls_back_to_peony_witness :
  exists l,
    grows world_16ms
      (snd (Particle_explodeSecondary host_half
              (Particle.set_subType (Some "WILLOW") miniShell_example)
              world_16ms)) l /\
    Forall (fun q => Particle.role q = Role.EXPLOSION) l.
Proof.
  destruct (secondary_falls_back_to_peony host_half
              (Particle.set_subType (Some "WILLOW") miniShell_example)
              world_16ms (Vec.create 500 300))
    as (l & G & _ & _ & F).
  - apply host_half_in_range.
  - vm_compute. discriminate.
  - reflexivity.
  - reflexivity.
  - discriminate.
  - discriminate.
  - exists l. split; [exact G|].
    eapply Forall_impl; [exact F|]. intros q (_ & _ & Hq & _). exact Hq.
Defined.

(** ** The pointer *)

Lemma manualLaunch_below_cap h x y mouseX s :
  Host.rand_in_range h ->
  Qnat (length (World.particles (Sketch.world s)))
  < Config.maxTotalParticles (World.config (Sketch.world s)) ->
  let s' := FireworkSystem_manualLaunch h x y mouseX s in
  let type0 := Config.fireworkType (World.config (Sketch.world s)) in
  exists fw shell t,
    Sketch.fireworks s' = Sketch.fireworks s ++ [fw] /\
    Sketch.lastLaunch s' = Sketch.lastLaunch s /\
    grows (Sketch.world s) (Sketch.world s') [shell] /\
    Firework.shell fw = length (World.heap (Sketch.world s)) /\
    ascending fw /\
    Firework.type fw = Some t /\ t <> "RANDOM" /\
    (type0 <> "RANDOM" -> t = type0) /\
    Particle.role shell = Role.SHELL /\
    Particle.pos shell
    = Some (Vec.create (from_option id mouseX x) (Host.height h)).
Proof.
  intros Hr Hlt. cbv zeta. unfold FireworkSystem_manualLaunch. cbv zeta.
  set (m := log LogInfo "Manual launch initiated").
  pose proof (lift_world m s) as LW.
  pose proof (lift_fields m s) as (LF & LL & LG).
  pose proof (quiet_log LogInfo "Manual launch initiated" (Sketch.world s))
    as G1.
  fold m in G1. rewrite <- LW in G1. clear LW.
  set (s1 := snd (lift m s)) in *.
  assert (C1 : World.config (Sketch.world s1) = World.config (Sketch.world s))
    by apply G1.
  assert (Hlt1 : Qnat (length (World.particles (Sketch.world s1)))
                 < Config.maxTotalParticles (World.config (Sketch.world s1))).
  { rewrite C1, (grows_length _ _ _ G1). simpl.
    rewrite Nat.add_0_r. exact Hlt. }
  clearbody s1.
  set (pos := Vec.create (from_option id mouseX x) (Host.height h)).
  set (ty := Some (Config.fireworkType (World.config (Sketch.world s1)))).
  assert (E : Qleb (Config.maxTotalParticles (World.config (Sketch.world s1)))
                (Qnat (length (World.particles (Sketch.world s1)))) = false)
    by (apply Qleb_gt, Hlt1).
  unfold FireworkSystem_launch. cbv zeta. rewrite E.
  fold (requested_type ty (World.config (Sketch.world s1))).
  destruct (launch_body h pos
              (requested_type ty (World.config (Sketch.world s1)))
              (Sketch.world s1) Hr)
    as (fw & w' & shell & t & vx & vy & Em & G2 & H1 & H2 & H3 & H4 & H5
        & H6 & H7 & H8 & H9 & H10 & _).
  match goal with
  | |- context [lift ?m0 s1] =>
      assert (Em' : m0 (Sketch.world s1) = (fw, w')) by exact Em;
      unfold lift; rewrite Em'
  end.
  simpl. exists fw, shell, t.
  split; [rewrite LF; reflexivity|]. split; [exact LL|].
  split; [apply (grows_trans _ _ _ [] [shell] G1 G2)|].
  split.
  { rewrite H1. destruct G1 as (Hh & _). rewrite Hh, app_nil_r.
    reflexivity. }
  split; [exact H2|]. split; [exact H4|]. split; [exact H5|].
  split; [|auto].
  assert (Ert : requested_type ty (World.config (Sketch.world s1))
                = Config.fireworkType (World.config (Sketch.world s))).
  { unfold requested_type, ty. rewrite C1.
    destruct (String.eqb _ ""); reflexivity. }
  intros Hn. rewrite <- Ert. apply H6. rewrite Ert. exact Hn.
Qed.

(** X14 ([mousePressed]): a click launches by hand only.  With
    auto-launch on, with the pointer off the canvas or over the panel,
    the sketch is left as it is.  Otherwise, below the cap, exactly one
    firework is appended: ascending, of the Launch Type of the panel (one
    of the other types when that is RANDOM), its shell the one particle
    created, starting on the bottom edge beneath the pointer, whatever
    the height of the click. *)
Theorem click_launches_beneath_pointer h mouseX mouseY guis s :
  Host.rand_in_range h ->
  let w := Sketch.world s in
  let s' := mousePressed h mouseX mouseY guis s in
  (Config.autoLaunch (World.config w) = true
   \/ ~ on_canvas h mouseX mouseY
   \/ over_panel mouseX mouseY guis -> s' = s) /\
  (Config.autoLaunch (World.config w) = false ->
   on_canvas h mouseX mouseY -> ~ over_panel mouseX mouseY guis ->
   Qnat (length (World.particles w))
   < Config.maxTotalParticles (World.config w) ->
   exists fw shell t,
     Sketch.fireworks s' = Sketch.fireworks s ++ [fw] /\
     Sketch.lastLaunch s' = Sketch.lastLaunch s /\
     grows w (Sketch.world s') [shell] /\
     Firework.shell fw = length (World.heap w) /\
     ascending fw /\
     Firework.type fw = Some t /\ t <> "RANDOM" /\
     (Config.fireworkType (World.config w) <> "RANDOM" ->
      t = Config.fireworkType (World.config w)) /\
     Particle.role shell = Role.SHELL /\
     Particle.pos shell = Some (Vec.create mouseX (Host.height h))).
Proof.
  intros Hr. cbv zeta. unfold mousePressed.
  assert (Hcanvas : Qltb 0 mouseX && Qltb mouseX (Host.width h)
                    && Qltb 0 mouseY && Qltb mouseY (Host.height h) = true
                    <-> on_canvas h mouseX mouseY).
  { unfold on_canvas. rewrite !andb_true_iff, !Qltb_lt. tauto. }
  assert (Hpanel : match guis with
                   | rect :: _ =>
                       Qleb (left rect) mouseX && Qleb mouseX (right rect)
                       && Qleb (top rect) mouseY && Qleb mouseY (bottom rect)
                   | [] => false
                   end = true <-> over_panel mouseX mouseY guis).
  { unfold over_panel. destruct guis as [|rect rest].
    - split; [discriminate|contradiction].
    - rewrite !andb_true_iff, !Qleb_le. tauto. }
  split.
  - intros [Ha|[Hc|Hp]].
    + rewrite Ha. reflexivity.
    + destruct (negb _); [|reflexivity].
      destruct (Qltb 0 mouseX && _ && _ && _) eqn:E; [|reflexivity].
      exfalso. apply Hc, Hcanvas. reflexivity.
    + destruct (negb _); [|reflexivity].
      destruct (Qltb 0 mouseX && _ && _ && _); [|reflexivity].
      apply Hpanel in Hp. rewrite Hp. reflexivity.
  - intros Ha Hc Hp Hlt. rewrite Ha. simpl negb. cbv iota.
    apply Hcanvas in Hc. rewrite Hc.
    destruct (match guis with
              | rect :: _ => _
              | [] => false
              end) eqn:E.
    + exfalso. apply Hp, Hpanel. reflexivity.
    + simpl negb. cbv iota.
      destruct (manualLaunch_below_cap h (Some mouseX) (Some mouseY) mouseX
                  s Hr Hlt)
        as (fw & shell & t & H).
      exists fw, shell, t. exact H.
Qed.

Lemma click_launches_beneath_pointer_witness :
  exists fw,
    Sketch.fireworks (mousePressed host_half 500 300 panel_example
                        manual_sketch) = [fw].
Proof.
  destruct (click_launches_beneath_pointer host_half 500 300 panel_example
              manual_sketch host_half_in_range)
    as (_ & H).
  destruct H as (fw & shell & t & H & _).
  - reflexivity.
  - unfold on_canvas. simpl. lra.
  - unfold over_panel, panel_example. simpl. lra.
  - vm_compute. reflexivity.
  - exists fw. exact H.
Defined.

(** ** The earlier sketch: particles *)

Lemma legacy_aged_refl dt p : legacy_aged dt 0 p p.
Proof.
  unfold legacy_aged. split; [unfold Qnat; simpl; ring|].
  repeat split. intros H. rewrite Nat.add_0_r. lia.
Qed.

Lemma legacy_aged_trans dt n m p q r :
  legacy_aged dt n p q -> legacy_aged dt m q r -> legacy_aged dt (n + m) p r.
Proof.
  intros (A1 & F1 & S1 & C1 & T1) (A2 & F2 & S2 & C2 & T2).
  unfold legacy_aged. split.
  { rewrite A2, A1, Qnat_plus. ring. }
  split; [congruence|]. split; [congruence|]. split; [congruence|].
  intros H. rewrite T2; rewrite (T1 H); lia.
Qed.

Lemma legacy_update_aged h dt p c :
  legacy_aged dt 1 p (fst (Legacy.Particle_update h dt p c)).
Proof.
  assert (Ht : forall t : list Vec.t,
             (length t <= 10)%nat ->
             length (if (10 <? length (t ++ [Vec.create 0 0]))%nat
                     then drop 1 (t ++ [Vec.create 0 0])
                     else t ++ [Vec.create 0 0])
             = Nat.min (length t + 1) 10).
  { intros t H.
    destruct (10 <? length (t ++ [Vec.create 0 0]))%nat eqn:E.
    - apply Nat.ltb_lt in E. rewrite length_drop.
      rewrite length_app in *. simpl in *. lia.
    - apply Nat.ltb_ge in E. rewrite length_app in *. simpl in *. lia. }
  assert (Hl : forall (t : list Vec.t) a b,
             length (if (10 <? length (t ++ [a]))%nat
                     then drop 1 (t ++ [a]) else t ++ [a])
             = length (if (10 <? length (t ++ [b]))%nat
                       then drop 1 (t ++ [b]) else t ++ [b])).
  { intros t a b. rewrite !length_app. simpl.
    destruct (10 <? length t + 1)%nat;
      rewrite ?length_drop, !length_app; reflexivity. }
  unfold Legacy.Particle_update.
  destruct (Legacy.Particle.fluid p) eqn:Ef.
  - unfold bind at 1. unfold Legacy.Particle_applyFluidBehavior, bind, ret.
    destruct (Legacy.random2D h c) as [dir c1]. simpl.
    unfold legacy_aged. simpl. split; [unfold Qnat; simpl; ring|].
    split; [first [reflexivity|symmetry; exact Ef|exact Ef]|]. repeat split.
    intros H. rewrite <- (Ht _ H). apply Hl.
  - unfold bind, ret. simpl.
    unfold legacy_aged. simpl. split; [unfold Qnat; simpl; ring|].
    split; [first [reflexivity|symmetry; exact Ef|exact Ef]|]. repeat split.
    intros H. rewrite <- (Ht _ H). apply Hl.
Qed.

Lemma Legacy_updates_aged h dt n p c :
  legacy_aged dt n p (fst (Legacy_updates h dt n p c)).
Proof.
  revert p c. induction n as [|n IH]; intros p c; simpl.
  - apply legacy_aged_refl.
  - unfold bind. pose proof (legacy_update_aged h dt p c) as H1.
    destruct (Legacy.Particle_update h dt p c) as [p1 c1]. simpl in H1.
    apply (legacy_aged_trans dt 1 n p p1 _ H1 (IH p1 c1)).
Qed.

(** The particle loop of [Firework.update] calls [update]
    [physicsAccuracy] times on each particle. *)
Lemma legacy_update_particles_aged h cfg dt ps c :
  Forall2 (legacy_aged dt (iterations (Legacy.Config.physicsAccuracy cfg)))
    ps (fst (Legacy.update_particles h cfg dt ps c)).
Proof.
  revert c. induction ps as [|p ps IH]; intros c; simpl.
  - constructor.
  - unfold bind.
    match goal with
    | |- context [?f (iterations ?a) p c] =>
        assert (E : forall n q c0, f n q c0 = Legacy_updates h dt n q c0)
    end.
    { induction n as [|n IHn]; intros q c0; [reflexivity|].
      simpl. unfold bind. destruct (Legacy.Particle_update h dt q c0).
      apply IHn. }
    rewrite E.
    pose proof (Legacy_updates_aged h dt
                  (iterations (Legacy.Config.physicsAccuracy cfg)) p c) as H1.
    destruct (Legacy_updates h dt _ p c) as [p' c1]. simpl in H1.
    pose proof (IH c1) as H2.
    destruct (Legacy.update_particles h cfg dt ps c1) as [ps' c2].
    simpl in *. constructor; assumption.
Qed.

(** X15 (earlier sketch, [Firework.update] and [Particle.update]): once
    a firework has exploded, a frame updates each of its particles
    [physicsAccuracy] times: the opacity of each drops by
    [physicsAccuracy * deltaTime / 2], whatever its lifespan, so that a
    higher Physics Quality fades the burst sooner; the trail grows by one
    point per update up to ten; the fluid flag, the size and the colour
    stay.  The call returns, the firework stays exploded and nothing else
    of it changes. *)
Theorem legacy_quality_speeds_fading h cfg dt this c :
  Legacy.Firework.lifecycle this = Lifecycle.EXPLOSION ->
  let n := iterations (Legacy.Config.physicsAccuracy cfg) in
  exists ps c',
    Legacy.Firework_update h cfg dt this c
    = Legacy.Normal (Legacy.Firework.set_particles ps this, c') /\
    Forall2 (legacy_aged dt n) (Legacy.Firework.particles this) ps.
Proof.
  intros Hl. cbv zeta. unfold Legacy.Firework_update. rewrite Hl.
  simpl Lifecycle.eqb. cbv iota.
  pose proof (legacy_update_particles_aged h cfg dt
                (Legacy.Firework.particles this) c) as H.
  destruct (Legacy.update_particles h cfg dt _ c) as [ps c'].
  exists ps, c'. split; [reflexivity|exact H].
Qed.

Lemma legacy_quality_speeds_fading_witness :
  exists ps c',
    Legacy.Firework_update host_half legacy_config 16 legacy_burst 7
    = Legacy.Normal (Legacy.Firework.set_particles ps legacy_burst, c') /\
    Forall2 (legacy_aged 16 3) (Legacy.Firework.particles legacy_burst) ps.
Proof.
  apply (legacy_quality_speeds_fading host_half legacy_config 16 legacy_burst
           7).
  vm_compute. reflexivity.
Defined.

(** ** When a firework is done *)

Lemma legacy_done_iff this :
  Legacy.Firework_done this = true <->
  Legacy.Firework.lifecycle this = Lifecycle.EXPLOSION /\
  Forall (fun p => Legacy.Particle.alpha p <= 0) (Legacy.Firework.particles this).
Proof.
  unfold Legacy.Firework_done. rewrite andb_true_iff, lifecycle_eqb_eq.
  rewrite forallb_forall, Forall_forall.
  split; intros [H1 H2]; split; auto; intros p Hp.
  - apply Qleb_le, H2, list_elem_of_In, Hp.
  - apply Qleb_le, H2, list_elem_of_In, Hp.
Qed.

(** In the earlier sketch a firework that is done stays done: [update]
    returns, and lowers the opacity of the particles when the frame time
    is not negative. *)
Lemma legacy_done_kept h cfg dt this c :
  0 <= dt -> Legacy.Firework_done this = true ->
  exists f c',
    Legacy.Firework_update h cfg dt this c = Legacy.Normal (f, c') /\
    Legacy.Firework_done f = true.
Proof.
  intros Hdt Hd. apply legacy_done_iff in Hd. destruct Hd as [Hl Ha].
  unfold Legacy.Firework_update. rewrite Hl. simpl Lifecycle.eqb. cbv iota.
  pose proof (legacy_update_particles_aged h cfg dt
                (Legacy.Firework.particles this) c) as H.
  destruct (Legacy.update_particles h cfg dt _ c) as [ps c'].
  simpl in H. eexists _, _. split; [reflexivity|].
  apply legacy_done_iff. simpl. split; [exact Hl|].
  set (n := iterations (Legacy.Config.physicsAccuracy cfg)) in *.
  clearbody n. revert Ha.
  induction H as [|p q l l' Hpq _ IH]; intros Ha; [constructor|].
  inversion Ha as [|? ? Hp Hrest]; subst.
  constructor; [|apply IH, Hrest].
  destruct Hpq as (E & _). rewrite E.
  assert (0 <= Qnat n).
  { unfold Qnat. change 0 with (inject_Z 0). rewrite <- Zle_Qle. lia. }
  nra.
Qed.

(** C9, as the code has it: in the current sketch a firework is done
    exactly when its lifecycle is EXPLOSION, which holds after the
    [update] that called [explode] and is kept by every later [update];
    the particles play no part.  In the earlier sketch a firework is done
    exactly when its lifecycle is EXPLOSION and every particle it owns has
    faded out, and it then stays done under every [update] whose frame
    time is not negative. *)
Theorem done_is_exploded h :
  (forall this,
     Firework_done this = true <->
     Firework.lifecycle this = Lifecycle.EXPLOSION) /\
  (forall this w,
     Firework.explodeCalls (fst (Firework_update h this w))
     <> Firework.explodeCalls this ->
     Firework_done (fst (Firework_update h this w)) = true) /\
  (forall this w,
     Firework_done this = true -> Firework_update h this w = (this, w)) /\
  (forall old,
     Legacy.Firework_done old = true <->
     Legacy.Firework.lifecycle old = Lifecycle.EXPLOSION /\
     Forall (fun p => Legacy.Particle.alpha p <= 0)
       (Legacy.Firework.particles old)) /\
  (forall cfg deltaTime old c,
     0 <= deltaTime -> Legacy.Firework_done old = true ->
     exists f c',
       Legacy.Firework_update h cfg deltaTime old c = Legacy.Normal (f, c') /\
       Legacy.Firework_done f = true).
Proof.
  split; [|split; [|split; [|split]]].
  - intros this. apply lifecycle_eqb_eq.
  - intros this w Hne. apply lifecycle_eqb_eq.
    unfold Firework_update, bind in *.
    destruct (update_ascent_cases h this w)
      as [(_ & _ & _ & Hl1 & Hc1)|[_ E]].
    + destruct (update_ascent h this w) as [this1 w1]. simpl in *.
      destruct (update_lost_shell_cases this1 w1) as [_ [E2|(Hl2 & _)]];
        congruence.
    + rewrite E in *.
      destruct (update_lost_shell_cases this w) as [Hc2 _]. congruence.
  - intros this w Hd. apply update_exploded, lifecycle_eqb_eq, Hd.
  - apply legacy_done_iff.
  - intros cfg dt old c. apply legacy_done_kept.
Qed.

Lemma done_is_exploded_witness :
  Firework_update host_zero
    (Firework.mk O (Some "PEONY") (Some SystemConfig) Lifecycle.EXPLOSION
       80 None true 1) world_16ms
  = (Firework.mk O (Some "PEONY") (Some SystemConfig) Lifecycle.EXPLOSION
       80 None true 1, world_16ms).
Proof.
  apply (proj1 (proj2 (proj2 (done_is_exploded host_zero)))).
  reflexivity.
Defined.

(** C9, as stated, fails in the earlier sketch: after the frame of
    sixteen milliseconds in which a firework launched by hand explodes,
    its lifecycle is EXPLOSION and it is not done, because the particles
    it has just created are visible. *)
Lemma legacy_done_waits_for_particles :
  exists f c,
    Legacy.Firework_update host_half legacy_config 16 legacy_at_apex 20
    = Legacy.Normal (f, c) /\
    Legacy.Firework.explodeCalls f = 1%nat /\
    Legacy.Firework.lifecycle f = Lifecycle.EXPLOSION /\
    Legacy.Firework_done f = false /\
    ~ (Legacy.Firework_done f = true <->
       Legacy.Firework.lifecycle f = Lifecycle.EXPLOSION).
Proof.
  assert (H : match Legacy.Firework_update host_half legacy_config 16
                      legacy_at_apex 20 with
              | Legacy.Normal (f, _) =>
                  Legacy.Firework.explodeCalls f = 1%nat /\
                  Legacy.Firework.lifecycle f = Lifecycle.EXPLOSION /\
                  Legacy.Firework_done f = false
              | _ => False
              end) by (vm_compute; auto).
  destruct (Legacy.Firework_update host_half legacy_config 16
              legacy_at_apex 20) as [[f c]|e [f c]|]; try contradiction.
  exists f, c. destruct H as (H1 & H2 & H3). repeat split; auto.
  intros [_ Hd]. rewrite (Hd H2) in H3. discriminate.
Qed.

(** ** The earlier sketch: explosions and the system *)

Lemma legacy_random_range h a b c :
  Host.rand_in_range h -> a <= b ->
  a <= fst (Legacy.random h a b c) <= b.
Proof.
  intros Hr Hab. unfold Legacy.random, bind, Legacy.random01, ret. simpl.
  assert (E : Qltb b a = false) by (apply Qltb_ge, Hab). rewrite E.
  pose proof (Hr c) as Hu. set (u := Host.rand h c) in *. nra.
Qed.

Lemma legacy_random_range_swapped h a b c :
  Host.rand_in_range h -> b <= a ->
  b <= fst (Legacy.random h a b c) <= a.
Proof.
  intros Hr Hab. unfold Legacy.random, bind, Legacy.random01, ret. simpl.
  pose proof (Hr c) as Hu. set (u := Host.rand h c) in *.
  destruct (Qltb b a) eqn:E; [nra|].
  apply Qltb_ge in E. nra.
Qed.

Lemma legacy_set_particles_app this l1 l2 :
  Legacy.Firework.set_particles
    (Legacy.Firework.particles
       (Legacy.Firework.set_particles
          (Legacy.Firework.particles this ++ l1) this) ++ l2)
    (Legacy.Firework.set_particles (Legacy.Firework.particles this ++ l1)
       this)
  = Legacy.Firework.set_particles
      (Legacy.Firework.particles this ++ l1 ++ l2) this.
Proof. destruct this. simpl. rewrite app_assoc. reflexivity. Qed.

Lemma legacy_set_particles_nil this :
  this
  = Legacy.Firework.set_particles (Legacy.Firework.particles this ++ []) this.
Proof. destruct this. simpl. rewrite app_nil_r. reflexivity. Qed.

(** [createParticle] appends one particle and changes nothing else. *)
Lemma legacy_createParticle_grows h cfg force this c :
  exists p,
    fst (Legacy.Firework_createParticle h cfg force this c)
    = Legacy.Firework.set_particles (Legacy.Firework.particles this ++ [p])
        this /\
    legacy_created cfg this p /\
    (Host.rand_in_range h ->
     2 <= Legacy.Particle.size p <= 5 /\
     0.8 <= Legacy.Particle.lifespan p <= 1.2).
Proof.
  unfold Legacy.Firework_createParticle.
  unfold bind at 1. destruct (Legacy.random1 h 255 c) as [r c1].
  unfold bind at 1. destruct (Legacy.random1 h 255 c1) as [g c2].
  unfold bind at 1. destruct (Legacy.random1 h 255 c2) as [b c3].
  unfold bind at 1. destruct (Legacy.random1 h 0.2 c3) as [amt c4].
  unfold bind at 1. unfold Legacy.Particle_new. unfold bind at 1.
  pose proof (fun H => legacy_random_range h 2 5 c4 H ltac:(lra)) as R1.
  destruct (Legacy.random h 2 5 c4) as [sz c5]. simpl in R1.
  unfold bind at 1.
  pose proof (fun H => legacy_random_range h 0.8 1.2 c5 H ltac:(lra)) as R2.
  destruct (Legacy.random h 0.8 1.2 c5) as [life c6]. simpl in R2.
  unfold ret at 1. cbv beta iota.
  destruct (String.eqb (Legacy.Config.particleType cfg) "FLUID") eqn:Ef.
  - unfold bind at 1. unfold Legacy.Particle_enableFluidBehavior, bind, ret.
    destruct (Legacy.random h 0.8 1.2 c6) as [d c7]. simpl.
    eexists. split; [reflexivity|].
    unfold legacy_created. simpl. rewrite Ef. auto 10.
  - unfold bind, ret. simpl.
    eexists. split; [reflexivity|].
    unfold legacy_created. simpl. rewrite Ef. auto 10.
Qed.

(** A counted loop of turns that each append one particle. *)
Lemma legacy_times_grows (P : Legacy.Particle.t -> Prop) n body this0 :
  (forall this c,
     Legacy.Firework.shell this = Legacy.Firework.shell this0 ->
     exists p,
       fst (body this c)
       = Legacy.Firework.set_particles
           (Legacy.Firework.particles this ++ [p]) this /\ P p) ->
  forall this c,
    Legacy.Firework.shell this = Legacy.Firework.shell this0 ->
    exists l,
      fst (Legacy.times n body this c)
      = Legacy.Firework.set_particles (Legacy.Firework.particles this ++ l)
          this /\
      length l = n /\ Forall P l.
Proof.
  intros Hb. induction n as [|n IH]; intros this c Hs; simpl.
  - exists []. split; [apply legacy_set_particles_nil|]. auto.
  - unfold bind. destruct (Hb this c Hs) as (p & E1 & HP).
    destruct (body this c) as [this1 c1]. simpl in E1.
    destruct (IH this1 c1) as (l & E2 & Hl & F).
    { rewrite E1. exact Hs. }
    exists (p :: l). split.
    + rewrite E2, E1. apply (legacy_set_particles_app this [p] l).
    + split; [simpl; congruence|constructor; assumption].
Qed.

Ltac legacy_turn h cfg this0 :=
  let this := fresh "this" in
  let c := fresh "c" in
  let Hs := fresh "Hs" in
  intros this c Hs; unfold bind;
  repeat match goal with
         | |- context [let (_, _) := ?m in _] =>
             lazymatch m with
             | Legacy.Firework_createParticle _ _ _ _ _ => fail
             | _ => destruct m
             end
         end;
  match goal with
  | |- context [Legacy.Firework_createParticle h cfg ?f this ?c0] =>
      destruct (legacy_createParticle_grows h cfg f this c0)
        as (p & E & C & R);
      exists p; split; [exact E|];
      split; [unfold legacy_created in *; rewrite <- Hs; exact C|exact R]
  end.

(** [explode] with one of the three patterns that count their turns. *)
Lemma legacy_counted_explode h cfg this c :
  Legacy.Firework.type this ∈ ["CHRYSANTHEMUM"; "PALM"; "RANDOM"] ->
  exists l c',
    Legacy.Firework_explode h cfg this c
    = Legacy.Normal
        (Legacy.Firework.set_particles (Legacy.Firework.particles this ++ l)
           (Legacy.Firework.set_explodeCalls
              (S (Legacy.Firework.explodeCalls this)) this), c') /\
    length l = iterations (Legacy.Config.particleCount cfg) /\
    Forall (fun p =>
              legacy_created cfg this p /\
              (Host.rand_in_range h ->
               2 <= Legacy.Particle.size p <= 5 /\
               0.8 <= Legacy.Particle.lifespan p <= 1.2)) l.
Proof.
  intros Ht. unfold Legacy.Firework_explode. cbv zeta.
  set (this1 := Legacy.Firework.set_explodeCalls _ this).
  assert (Hty : Legacy.Firework.type this1 = Legacy.Firework.type this)
    by reflexivity.
  assert (Hsh : Legacy.Firework.shell this1 = Legacy.Firework.shell this1)
    by reflexivity.
  assert (Hc : forall p, legacy_created cfg this1 p -> legacy_created cfg this p)
    by (intros p H; exact H).
  assert (Hfin : forall (m : Legacy.Firework.t -> Legacy.L Legacy.Firework.t),
             (exists l,
                fst (m this1 c)
                = Legacy.Firework.set_particles
                    (Legacy.Firework.particles this1 ++ l) this1 /\
                length l = iterations (Legacy.Config.particleCount cfg) /\
                Forall (fun p =>
                          legacy_created cfg this1 p /\
                          (Host.rand_in_range h ->
                           2 <= Legacy.Particle.size p <= 5 /\
                           0.8 <= Legacy.Particle.lifespan p <= 1.2)) l) ->
             exists l c',
               Legacy.total m this1 c
               = Legacy.Normal
                   (Legacy.Firework.set_particles
                      (Legacy.Firework.particles this ++ l) this1, c') /\
               length l = iterations (Legacy.Config.particleCount cfg) /\
               Forall (fun p =>
                         legacy_created cfg this p /\
                         (Host.rand_in_range h ->
                          2 <= Legacy.Particle.size p <= 5 /\
                          0.8 <= Legacy.Particle.lifespan p <= 1.2)) l).
  { intros m (l & E & Hl & F). unfold Legacy.total.
    destruct (m this1 c) as [f c']. simpl in E. subst f.
    exists l, c'. split; [reflexivity|]. split; [exact Hl|exact F]. }
  unfold Legacy.explosionPatterns. rewrite Hty.
  apply elem_of_cons in Ht. destruct Ht as [Ht|Ht].
  { rewrite Ht. simpl. apply Hfin.
    unfold Legacy.Firework_createChrysanthemum.
    apply (legacy_times_grows _ _ _ this1); [|reflexivity].
    legacy_turn h cfg this1. }
  apply elem_of_cons in Ht. destruct Ht as [Ht|Ht].
  { rewrite Ht. simpl. apply Hfin.
    unfold Legacy.Firework_createPalm. unfold bind at 1.
    destruct (Legacy.random h _ _ c) as [angle c1].
    assert (Hshift : forall c2,
               exists l,
                 fst (Legacy.times
                        (iterations (Legacy.Config.particleCount cfg))
                        (fun this2 =>
                           r <- Legacy.random h (-0.1) 0.1 ;;
                           m <- Legacy.random h
                                  (Legacy.Config.explosionSize cfg * 0.5)
                                  (Legacy.Config.explosionSize cfg) ;;
                           t <- Legacy.random h (-0.2) 0.2 ;;
                           (let force :=
                              Legacy.rotate h
                                (Vec.mult (Host.fromAngle h (angle + r)) m)
                                t in
                            Legacy.Firework_createParticle h cfg force this2))
                        this1 c2)
                 = Legacy.Firework.set_particles
                     (Legacy.Firework.particles this1 ++ l) this1 /\
                 length l = iterations (Legacy.Config.particleCount cfg) /\
                 Forall (fun p =>
                           legacy_created cfg this1 p /\
                           (Host.rand_in_range h ->
                            2 <= Legacy.Particle.size p <= 5 /\
                            0.8 <= Legacy.Particle.lifespan p <= 1.2)) l).
    { intros c2. apply (legacy_times_grows _ _ _ this1); [|reflexivity].
      legacy_turn h cfg this1. }
    apply Hshift. }
  apply elem_of_cons in Ht. destruct Ht as [Ht|Ht].
  { rewrite Ht. simpl. apply Hfin.
    unfold Legacy.Firework_createRandom.
    apply (legacy_times_grows _ _ _ this1); [|reflexivity].
    legacy_turn h cfg this1. }
  apply elem_of_nil in Ht. contradiction.
Qed.

(** X16 (earlier sketch, [explode] with the patterns that count): a
    CHRYSANTHEMUM, PALM or RANDOM explosion returns with exactly
    [ceil particleCount] particles appended to the firework, whatever
    their number, and nothing else of it changed but the count of calls;
    each new particle is opaque, without trail, at the position of the
    shell, and is fluid exactly when the particle type is FLUID; with the
    generator in range its size lies within 2 and 5 and its lifespan
    within 0.8 and 1.2. *)
Theorem legacy_counted_burst h cfg this c :
  Legacy.Firework.type this ∈ ["CHRYSANTHEMUM"; "PALM"; "RANDOM"] ->
  exists l c',
    Legacy.Firework_explode h cfg this c
    = Legacy.Normal
        (Legacy.Firework.set_particles (Legacy.Firework.particles this ++ l)
           (Legacy.Firework.set_explodeCalls
              (S (Legacy.Firework.explodeCalls this)) this), c') /\
    length l = iterations (Legacy.Config.particleCount cfg) /\
    Forall (fun p =>
              legacy_created cfg this p /\
              (Host.rand_in_range h ->
               2 <= Legacy.Particle.size p <= 5 /\
               0.8 <= Legacy.Particle.lifespan p <= 1.2)) l.
Proof. apply legacy_counted_explode. Qed.

Lemma legacy_counted_burst_witness :
  exists l,
    Legacy.state_of (Legacy.Firework_explode host_half legacy_config
                       legacy_at_apex 7)
    = Some (Legacy.Firework.set_particles l
              (Legacy.Firework.set_explodeCalls 1 legacy_at_apex)) /\
    length l = 500%nat.
Proof.
  destruct (legacy_counted_burst host_half legacy_config legacy_at_apex 7)
    as (l & c' & E & Hl & _).
  - change (Legacy.Firework.type legacy_at_apex) with "RANDOM".
    rewrite !elem_of_cons. auto.
  - exists l. rewrite E. simpl. split; [reflexivity|exact Hl].
Defined.

(** *** The system *)

Lemma legacy_new_launched h pos type c :
  Host.rand_in_range h ->
  let f := fst (Legacy.Firework_new h pos type c) in
  legacy_launched pos f /\ Legacy.Firework.type f = type /\
  -18 <= Vec.y (Legacy.Firework.vel f) <= -12.
Proof.
  intros Hr. cbv zeta.
  destruct (Legacy.Firework_new h pos type c) as [f cf] eqn:E. simpl fst.
  unfold Legacy.Firework_new in E. unfold bind at 1 in E.
  match type of E with
  | context [Legacy.random h ?a ?b c] =>
      pose proof (legacy_random_range_swapped h a b c Hr ltac:(lra)) as R;
      destruct (Legacy.random h a b c) as [vy c1]
  end.
  simpl in R.
  unfold bind at 1 in E. destruct (Legacy.random1 h 255 c1) as [r c2].
  unfold bind at 1 in E. destruct (Legacy.random1 h 255 c2) as [g c3].
  unfold bind at 1 in E. destruct (Legacy.random1 h 255 c3) as [b c4].
  unfold bind at 1 in E. unfold Legacy.Particle_new, bind, ret in E.
  destruct (Legacy.random h 0.8 1.2 c4) as [life c5].
  injection E as <- <-.
  unfold legacy_launched. simpl. repeat split; auto; lra.
Qed.

Lemma legacy_freqMap_number r type :
  type ∈ Legacy.FIREWORK_TYPES ->
  exists note,
    LegacySystem.freqMap r type = Some note /\
    (note = 440 \/ note = 660 \/ note = 220 \/ note = r).
Proof.
  unfold Legacy.FIREWORK_TYPES. rewrite !elem_of_cons.
  intros [->|[->|[->|[->|H]]]]; [| | | |apply elem_of_nil in H; contradiction];
    eexists; (split; [reflexivity|]); auto.
Qed.

(** [launch]: one firework appended, one note played when the sound is
    on. *)
Lemma legacy_launch_appends h cfg pos type s c :
  Host.rand_in_range h ->
  exists f r,
    fst (LegacySystem.launch h cfg pos type s c)
    = LegacySystem.mk (LegacySystem.fireworks s ++ [f])
        (LegacySystem.lastLaunch s)
        (LegacySystem.notes s
         ++ (if Legacy.Config.sound cfg
             then [LegacySystem.freqMap r type] else [])) /\
    200 <= r <= 800 /\
    legacy_launched pos f /\ Legacy.Firework.type f = type /\
    -18 <= Vec.y (Legacy.Firework.vel f) <= -12.
Proof.
  intros Hr. unfold LegacySystem.launch. unfold bind at 1.
  pose proof (legacy_new_launched h pos type c Hr) as H.
  destruct (Legacy.Firework_new h pos type c) as [f c1]. cbv zeta in H.
  simpl in H. cbv zeta.
  destruct (Legacy.Config.sound cfg).
  - unfold LegacySystem.playSound, bind, ret.
    pose proof (legacy_random_range h 200 800 c1 Hr ltac:(lra)) as R.
    destruct (Legacy.random h 200 800 c1) as [r c2]. simpl in R. simpl.
    exists f, r. split; [reflexivity|]. split; [exact R|exact H].
  - unfold ret. simpl. exists f, 200. rewrite app_nil_r.
    split; [destruct s; reflexivity|]. split; [lra|exact H].
Qed.

Lemma legacy_random1_range h hi c :
  Host.rand_in_range h -> 0 < hi ->
  0 <= fst (Legacy.random1 h hi c) < hi.
Proof.
  intros Hr Hhi. unfold Legacy.random1, bind, Legacy.random01, ret. simpl.
  pose proof (Hr c) as Hu. set (u := Host.rand h c) in *. nra.
Qed.

(** The type [launchRandom] draws is one of the table. *)
Lemma legacy_random_type h c :
  Host.rand_in_range h ->
  let i := fst (Legacy.random1 h (Qnat (length Legacy.FIREWORK_TYPES)) c) in
  (if Qltb i 0 then "undefined"
   else from_option id "undefined"
          (Legacy.FIREWORK_TYPES !! Z.to_nat (Qfloor i)))
  ∈ Legacy.FIREWORK_TYPES.
Proof.
  intros Hr. cbv zeta.
  pose proof (legacy_random1_range h (Qnat (length Legacy.FIREWORK_TYPES)) c
                Hr ltac:(reflexivity)) as Hi.
  set (i := fst (Legacy.random1 h _ c)) in *.
  change (Qnat (length Legacy.FIREWORK_TYPES)) with 4 in Hi.
  assert (E : Qltb i 0 = false) by (apply Qltb_ge; lra).
  rewrite E.
  assert (H0 : (0 <= Qfloor i)%Z).
  { change 0%Z with (Qfloor 0). apply Qfloor_resp_le. lra. }
  assert (H4 : (Qfloor i < 4)%Z).
  { rewrite Zlt_Qlt. eapply Qle_lt_trans; [apply Qfloor_le|].
    change (inject_Z 4) with 4. lra. }
  assert (Hn : (Z.to_nat (Qfloor i) < 4)%nat) by lia.
  destruct (Z.to_nat (Qfloor i)) as [|[|[|[|n]]]];
    [| | | |lia]; simpl; unfold Legacy.FIREWORK_TYPES;
    rewrite !elem_of_cons; auto.
Qed.

(** [launchRandom] appends one firework of a type of the table. *)
Lemma legacy_launch_random_appends h cfg s c :
  Host.rand_in_range h ->
  exists f,
    LegacySystem.fireworks (fst (LegacySystem.launchRandom h cfg s c))
    = LegacySystem.fireworks s ++ [f] /\
    Legacy.Firework.type f ∈ Legacy.FIREWORK_TYPES.
Proof.
  intros Hr. unfold LegacySystem.launchRandom. unfold bind at 1.
  pose proof (legacy_random_type h c Hr) as Hty. cbv zeta in Hty.
  destruct (Legacy.random1 h (Qnat (length Legacy.FIREWORK_TYPES)) c)
    as [i c1]. simpl fst in Hty. cbv zeta.
  set (type := if Qltb i 0 then "undefined" else _) in *.
  unfold bind at 1.
  destruct (Legacy.random h (Host.width h * 0.2) (Host.width h * 0.8) c1)
    as [x c2].
  destruct (legacy_launch_appends h cfg (Vec.create x (Host.height h))
              type s c2 Hr)
    as (f & r & E & _ & _ & HT & _).
  exists f. rewrite E. split; [reflexivity|]. rewrite HT. exact Hty.
Qed.

(** X17 (earlier sketch, [launchRandom], [manualLaunch], [launch] and
    [playSound]): with the generator in range, [launchRandom] appends
    exactly one firework to [fireworks]: of a type of the table (RANDOM
    included), ascending without particles from the bottom edge between
    a fifth and four fifths of the width, its shell rising straight up at
    a speed within 12 and 18; [manualLaunch] appends one of type RANDOM
    beneath the pointer.  Neither touches the time of the last launch,
    and with the sound on each plays one note, a number: 440, 660 or 220
    by type, or one drawn within 200 and 800. *)
Theorem legacy_launch_is_well_typed h cfg mouseX s c :
  Host.rand_in_range h ->
  (exists f x note,
     fst (LegacySystem.launchRandom h cfg s c)
     = LegacySystem.mk (LegacySystem.fireworks s ++ [f])
         (LegacySystem.lastLaunch s)
         (LegacySystem.notes s
          ++ (if Legacy.Config.sound cfg then [Some note] else [])) /\
     Legacy.Firework.type f ∈ Legacy.FIREWORK_TYPES /\
     legacy_launched (Vec.create x (Host.height h)) f /\
     (0 <= Host.width h -> Host.width h * 0.2 <= x <= Host.width h * 0.8) /\
     -18 <= Vec.y (Legacy.Firework.vel f) <= -12 /\
     (note = 440 \/ note = 660 \/ note = 220 \/ 200 <= note <= 800)) /\
  (exists f note,
     fst (LegacySystem.manualLaunch h cfg mouseX s c)
     = LegacySystem.mk (LegacySystem.fireworks s ++ [f])
         (LegacySystem.lastLaunch s)
         (LegacySystem.notes s
          ++ (if Legacy.Config.sound cfg then [Some note] else [])) /\
     Legacy.Firework.type f = "RANDOM" /\
     legacy_launched (Vec.create mouseX (Host.height h)) f /\
     200 <= note <= 800).
Proof.
  intros Hr. split.
  - unfold LegacySystem.launchRandom. unfold bind at 1.
    pose proof (legacy_random_type h c Hr) as Hty. cbv zeta in Hty.
    destruct (Legacy.random1 h (Qnat (length Legacy.FIREWORK_TYPES)) c)
      as [i c1]. simpl fst in Hty. cbv zeta.
    set (type := if Qltb i 0 then "undefined" else _) in *.
    unfold bind at 1.
    pose proof (fun H => legacy_random_range h (Host.width h * 0.2)
                           (Host.width h * 0.8) c1 Hr H) as Rx.
    destruct (Legacy.random h (Host.width h * 0.2) (Host.width h * 0.8) c1)
      as [x c2]. simpl in Rx.
    destruct (legacy_launch_appends h cfg (Vec.create x (Host.height h))
                type s c2 Hr)
      as (f & r & E & R & HL & HT & HV).
    destruct (legacy_freqMap_number r type Hty) as (note & En & Hn).
    exists f, x, note. rewrite E, En.
    split; [reflexivity|]. split; [rewrite HT; exact Hty|].
    split; [exact HL|]. split; [intros Hw; apply Rx; lra|].
    split; [exact HV|].
    destruct Hn as [-> | [-> | [-> | ->]]]; auto.
  - unfold LegacySystem.manualLaunch.
    destruct (legacy_launch_appends h cfg (Vec.create mouseX (Host.height h))
                "RANDOM" s c Hr)
      as (f & r & E & R & HL & HT & HV).
    exists f, r. rewrite E. split; [reflexivity|].
    split; [exact HT|]. split; [exact HL|exact R].
Qed.

Lemma legacy_launch_is_well_typed_witness :
  exists f,
    LegacySystem.fireworks
      (fst (LegacySystem.launchRandom host_half legacy_config
              LegacySystem.initial O))
    = [f] /\ Legacy.Firework.type f ∈ Legacy.FIREWORK_TYPES.
Proof.
  destruct (legacy_launch_is_well_typed host_half legacy_config 500
              LegacySystem.initial O host_half_in_range)
    as ((f & x & note & E & Ht & _) & _).
  exists f. rewrite E. split; [reflexivity|exact Ht].
Defined.

(** *** Frames *)

Lemma legacy_peony_loop_grows h cfg fuel step a this c :
  exists l,
    fst (Legacy.peony_loop h cfg fuel step a this c)
    = Legacy.Firework.set_particles (Legacy.Firework.particles this ++ l)
        this.
Proof.
  revert a this c. induction fuel as [|fuel IH]; intros a this c; simpl.
  - exists []. apply legacy_set_particles_nil.
  - destruct (Qltb a (Host.TWO_PI h));
      [|exists []; apply legacy_set_particles_nil].
    unfold bind. destruct (Legacy.random h _ _ c) as [m c1].
    destruct (legacy_createParticle_grows h cfg
                (Vec.mult (Host.fromAngle h a) m) this c1) as (p & E & _).
    destruct (Legacy.Firework_createParticle h cfg _ this c1) as [this1 c2].
    simpl in E. destruct (IH (a + step) this1 c2) as (l & E2).
    exists (p :: l). rewrite E2, E.
    apply (legacy_set_particles_app this [p] l).
Qed.

(** [explode] on a type of the table returns, for a particle count that
    is not negative, and only appends particles. *)
Lemma legacy_explode_returns h cfg this c :
  Legacy.Firework.type this ∈ Legacy.FIREWORK_TYPES ->
  0 <= Legacy.Config.particleCount cfg ->
  exists l c',
    Legacy.Firework_explode h cfg this c
    = Legacy.Normal
        (Legacy.Firework.set_particles (Legacy.Firework.particles this ++ l)
           (Legacy.Firework.set_explodeCalls
              (S (Legacy.Firework.explodeCalls this)) this), c').
Proof.
  intros Ht Hc. unfold Legacy.FIREWORK_TYPES in Ht.
  apply elem_of_cons in Ht. destruct Ht as [Ht|Ht].
  - unfold Legacy.Firework_explode. cbv zeta.
    set (this1 := Legacy.Firework.set_explodeCalls _ this).
    assert (Hty : Legacy.Firework.type this1 = "PEONY") by exact Ht.
    unfold Legacy.explosionPatterns. rewrite Hty. simpl.
    unfold Legacy.Firework_createPeony.
    destruct (Qleb (Host.TWO_PI h) 0).
    { exists [], c. f_equal. f_equal. apply (legacy_set_particles_nil this1). }
    destruct (Qeqb (Legacy.Config.particleCount cfg) 0).
    { destruct (legacy_peony_loop_grows h cfg 1 0 0 this1 c) as (l & E).
      destruct (Legacy.peony_loop h cfg 1 0 0 this1 c) as [f c'].
      simpl in E. subst f. exists l, c'. reflexivity. }
    assert (E0 : Qltb (Legacy.Config.particleCount cfg) 0 = false)
      by (apply Qltb_ge, Hc).
    rewrite E0.
    match goal with
    | |- context [Legacy.peony_loop h cfg ?n ?st ?a this1 c] =>
        destruct (legacy_peony_loop_grows h cfg n st a this1 c) as (l & E);
        destruct (Legacy.peony_loop h cfg n st a this1 c) as [f c']
    end.
    simpl in E. subst f. exists l, c'. reflexivity.
  - destruct (legacy_counted_explode h cfg this c Ht) as (l & c' & E & _).
    exists l, c'. exact E.
Qed.

(** [Firework.update] on a type of the table returns and keeps the
    type. *)
Lemma legacy_update_returns h cfg dt this c :
  Legacy.Firework.type this ∈ Legacy.FIREWORK_TYPES ->
  0 <= Legacy.Config.particleCount cfg ->
  exists f c',
    Legacy.Firework_update h cfg dt this c = Legacy.Normal (f, c') /\
    Legacy.Firework.type f = Legacy.Firework.type this.
Proof.
  intros Ht Hc. unfold Legacy.Firework_update.
  destruct (Lifecycle.eqb (Legacy.Firework.lifecycle this) Lifecycle.ASCENT).
  - destruct (Legacy.Particle_update h dt _ c) as [shell c1].
    set (this1 := Legacy.Firework.set_shell shell this).
    destruct (Qleb 0 (Vec.y (Legacy.Particle.vel shell))).
    + destruct (legacy_explode_returns h cfg this1 c1 Ht Hc)
        as (l & c2 & E).
      rewrite E.
      destruct (Legacy.update_particles h cfg dt _ c2) as [ps c3].
      eexists _, _. split; reflexivity.
    + destruct (Legacy.update_particles h cfg dt _ c1) as [ps c3].
      eexists _, _. split; reflexivity.
  - destruct (Legacy.update_particles h cfg dt _ c) as [ps c3].
    eexists _, _. split; reflexivity.
Qed.

Lemma legacy_update_each_returns h cfg dt done rest c :
  0 <= Legacy.Config.particleCount cfg ->
  Forall (fun f => Legacy.Firework.type f ∈ Legacy.FIREWORK_TYPES) done ->
  Forall (fun f => Legacy.Firework.type f ∈ Legacy.FIREWORK_TYPES) rest ->
  exists fws c',
    LegacySystem.update_each h cfg dt done rest c = Legacy.Normal (fws, c') /\
    Forall (fun f => Legacy.Firework.type f ∈ Legacy.FIREWORK_TYPES) fws /\
    length fws = (length done + length rest)%nat.
Proof.
  intros Hc. revert done c.
  induction rest as [|f rest IH]; intros done c Hd Hrest; simpl.
  - exists done, c. rewrite Nat.add_0_r. auto.
  - apply Forall_cons in Hrest. destruct Hrest as [Hf Hrest].
    destruct (legacy_update_returns h cfg dt f c Hf Hc) as (f' & c1 & E & Ht).
    rewrite E.
    destruct (IH (done ++ [f']) c1) as (fws & c' & E2 & F & L).
    { apply Forall_app. split; [exact Hd|].
      constructor; [rewrite Ht; exact Hf|constructor]. }
    { exact Hrest. }
    exists fws, c'. split; [exact E2|]. split; [exact F|].
    rewrite L, length_app. simpl. lia.
Qed.

(** The system's [update] keeps the types of the table and launches at
    most one firework. *)
Lemma legacy_system_update_types h cfg millis g s c :
  Host.rand_in_range h ->
  Forall (fun f => Legacy.Firework.type f ∈ Legacy.FIREWORK_TYPES)
    (LegacySystem.fireworks s) ->
  let s' := fst (LegacySystem.update h cfg millis g s c) in
  Forall (fun f => Legacy.Firework.type f ∈ Legacy.FIREWORK_TYPES)
    (LegacySystem.fireworks s') /\
  (length (LegacySystem.fireworks s')
   <= S (length (LegacySystem.fireworks s)))%nat.
Proof.
  intros Hr F. cbv zeta. unfold LegacySystem.update. cbv zeta.
  set (s1 := LegacySystem.cleanup (LegacySystem.applyForces h cfg g s)).
  assert (F1 : Forall (fun f => Legacy.Firework.type f
                                ∈ Legacy.FIREWORK_TYPES)
                 (LegacySystem.fireworks s1)
               /\ (length (LegacySystem.fireworks s1)
                   <= length (LegacySystem.fireworks s))%nat).
  { unfold s1, LegacySystem.cleanup, LegacySystem.applyForces. simpl.
    split.
    - apply Forall_forall. intros f Hf.
      apply list_elem_of_In, filter_In in Hf. destruct Hf as [Hf _].
      apply in_map_iff in Hf. destruct Hf as (f0 & <- & Hf0).
      simpl. rewrite Forall_forall in F. apply F, list_elem_of_In, Hf0.
    - etransitivity; [apply filter_length_le|].
      rewrite length_map. reflexivity. }
  destruct F1 as [F1 L1]. clearbody s1.
  destruct (_ && _ && _).
  - unfold bind, ret.
    destruct (legacy_launch_random_appends h cfg s1 c Hr)
      as (f & E & Ht).
    destruct (LegacySystem.launchRandom h cfg s1 c) as [s2 c2].
    simpl in E. simpl. rewrite E. split.
    + apply Forall_app. split; [exact F1|]. constructor; [exact Ht|constructor].
    + rewrite length_app. simpl. lia.
  - unfold ret. simpl. split; [exact F1|lia].
Qed.

(** X18 (earlier sketch, [draw], [update], [applyForces], [cleanup] and
    [mousePressed]): the sketch never raises on its own launches.  With
    the generator in range and a particle count that is not negative, a
    frame on a system whose fireworks all have a type of the table
    returns, leaves only such fireworks, and adds at most one; a click
    keeps the property too. *)
Theorem legacy_sketch_never_raises h cfg dt millis g mouseX s c :
  Host.rand_in_range h ->
  0 <= Legacy.Config.particleCount cfg ->
  Forall (fun f => Legacy.Firework.type f ∈ Legacy.FIREWORK_TYPES)
    (LegacySystem.fireworks s) ->
  (exists s' c',
     LegacySystem.draw h cfg dt millis g s c = Legacy.Normal (s', c') /\
     Forall (fun f => Legacy.Firework.type f ∈ Legacy.FIREWORK_TYPES)
       (LegacySystem.fireworks s') /\
     (length (LegacySystem.fireworks s')
      <= S (length (LegacySystem.fireworks s)))%nat) /\
  Forall (fun f => Legacy.Firework.type f ∈ Legacy.FIREWORK_TYPES)
    (LegacySystem.fireworks (fst (LegacySystem.mousePressed h cfg mouseX s c))).
Proof.
  intros Hr Hc F. split.
  - unfold LegacySystem.draw.
    pose proof (legacy_system_update_types h cfg millis g s c Hr F) as H.
    cbv zeta in H.
    destruct (LegacySystem.update h cfg millis g s c) as [s1 c1].
    simpl in H. destruct H as [F1 L1].
    destruct (legacy_update_each_returns h cfg dt [] (LegacySystem.fireworks s1)
                c1 Hc ltac:(constructor) F1)
      as (fws & c' & E & F2 & L2).
    rewrite E. eexists _, _. split; [reflexivity|]. simpl.
    split; [exact F2|]. rewrite L2. simpl. exact L1.
  - unfold LegacySystem.mousePressed.
    destruct (negb (Legacy.Config.autoLaunch cfg)); [|exact F].
    unfold LegacySystem.manualLaunch.
    destruct (legacy_launch_appends h cfg (Vec.create mouseX (Host.height h))
                "RANDOM" s c Hr)
      as (f & r & E & _ & _ & HT & _).
    rewrite E. simpl. apply Forall_app. split; [exact F|].
    constructor; [|constructor]. rewrite HT.
    unfold Legacy.FIREWORK_TYPES. rewrite !elem_of_cons. auto.
Qed.

Lemma legacy_sketch_never_raises_witness :
  exists s' c',
    LegacySystem.draw host_half legacy_config 16 2016 (Vec.create 0 0.08)
      (LegacySystem.mk [legacy_at_apex] 0 []) 7
    = Legacy.Normal (s', c').
Proof.
  destruct (legacy_sketch_never_raises host_half legacy_config 16 2016
              (Vec.create 0 0.08) 500
              (LegacySystem.mk [legacy_at_apex] 0 []) 7)
    as ((s' & c' & E & _) & _).
  - apply host_half_in_range.
  - vm_compute. discriminate.
  - constructor; [|constructor].
    change (Legacy.Firework.type legacy_at_apex) with "RANDOM".
    unfold Legacy.FIREWORK_TYPES. rewrite !elem_of_cons. auto.
  - exists s', c'. exact E.
Defined.

(** ** Between events *)

(** *** Every particle is created visible and without fluid behaviour *)

Lemma Particle_new_newborn h pos vel col size role options w :
  opaque col ->
  newborn (fst (Particle_new h pos vel col size role options w)).
Proof.
  intros Ho.
  pose proof (Particle_new_spec h pos vel col size role options w) as S.
  cbv zeta in S.
  destruct S as (_ & (_ & S1 & _) & (_ & _ & _ & _ & S2 & _) & _).
  unfold newborn. rewrite S1, S2. split; [exact Ho|reflexivity].
Qed.

Lemma spawns_draw {A B} P (R : A -> Prop) (m : M A) (k : A -> M B) :
  quiet m -> (forall w, R (fst (m w))) ->
  (forall a, R a -> spawns P (k a)) -> spawns P (bind m k).
Proof.
  intros Hq HR Hk w. unfold bind.
  pose proof (Hq w) as G1. pose proof (HR w) as Ha.
  destruct (m w) as [a w1]. simpl in G1, Ha.
  destruct (Hk a Ha w1) as (l & G2 & F).
  exists l. split; [apply (grows_trans _ _ _ [] l G1 G2)|exact F].
Qed.

Lemma random_color_opaque h pal w : opaque (fst (random_color h pal w)).
Proof.
  unfold random_color, opaque. destruct pal as [l|].
  - unfold bind, ret. destruct (random_of h l w) as [[s|] w1];
      simpl; reflexivity.
  - unfold bind, ret. destruct (random01 h w) as [u w1]. simpl. reflexivity.
Qed.

(** A particle built by the constructor, dressed and pushed. *)
Lemma new_push_newborn h pos vel col size role options
    (f : Particle.t -> Particle.t) :
  opaque col -> (forall p, newborn p -> newborn (f p)) ->
  spawns newborn
    (p <- Particle_new h pos vel col size role options ;;
     push (f p) ;;; ret tt).
Proof.
  intros Ho Hf w. unfold bind.
  pose proof (quiet_Particle_new h pos vel col size role options w) as G1.
  pose proof (Particle_new_newborn h pos vel col size role options w Ho) as N.
  destruct (Particle_new h pos vel col size role options w) as [p w1].
  simpl in G1, N. pose proof (push_grows (f p) w1) as G2.
  destruct (push (f p) w1) as [id w2]. simpl in G2. unfold ret. simpl.
  exists [f p]. split; [apply (grows_trans _ _ _ [] [f p] G1 G2)|].
  constructor; [apply Hf, N|constructor].
Qed.

Lemma createParticle_newborn h config pos vel col size role options :
  opaque col ->
  spawns newborn
    (Firework_createParticle h config pos vel col size role options).
Proof.
  intros Ho. unfold Firework_createParticle.
  apply spawns_bind; [apply quiet_spawns, quiet_get|]. intros w.
  destruct config as [[]|]; [|apply quiet_spawns, quiet_ret].
  destruct (Qltb _ _); [|apply quiet_spawns, quiet_ret].
  apply (new_push_newborn h pos vel col size role options
           (fun p => Particle.set_configRef (Some SystemConfig)
                       (Particle.set_particleStyle
                          (Config.particleType (World.config w)) p)) Ho).
  intros p N. exact N.
Qed.

Ltac draw_newborn :=
  repeat first
    [ apply (spawns_draw _ opaque);
      [apply quiet_random_color|apply random_color_opaque|intros ? ?]
    | apply spawns_bind;
      [apply quiet_spawns;
       first [apply quiet_random | apply quiet_random1
             | apply quiet_random2D | apply quiet_random3D
             | apply quiet_log]|intros ?] ].

Lemma spawnCrackle_newborn h p : spawns newborn (Particle_spawnCrackle h p).
Proof.
  unfold Particle_spawnCrackle.
  destruct (Particle.pos p) as [pos|]; [|apply quiet_spawns, quiet_ret].
  destruct (Particle.vel p) as [vel|]; [|apply quiet_spawns, quiet_ret].
  destruct (Particle.configRef p) as [[]|];
    [|apply quiet_spawns, quiet_ret].
  apply spawns_bind; [apply quiet_spawns, quiet_random|]. intros n.
  cbv zeta. apply spawns_repeat_until.
  - apply quiet_bind; [apply quiet_get|]. intros w. apply quiet_ret.
  - draw_newborn.
    apply (new_push_newborn h pos _ _ _ Role.CRACKLE _
             (fun r => Particle.set_configRef (Some SystemConfig)
                         (Particle.set_particleStyle
                            (Particle.particleStyle p) r))).
    + unfold opaque. simpl. reflexivity.
    + intros q N. exact N.
Qed.

Lemma secondary_explosion_newborn h this pos :
  spawns newborn (secondary_explosion h this pos).
Proof.
  unfold secondary_explosion.
  apply spawns_bind; [apply quiet_spawns, quiet_get|]. intros w0.
  apply spawns_bind.
  { apply quiet_spawns. destruct (Particle.palette this);
      [apply quiet_ret|apply quiet_random_of]. }
  intros paletteToUse. cbv zeta.
  destruct (String.eqb _ "CRACKLING");
    [|destruct (String.eqb _ "STROBE")];
    apply secondary_burst_spawns; intros vel; draw_newborn;
    apply createParticle_newborn; first [assumption|reflexivity].
Qed.

Lemma explodeSecondary_newborn h p :
  spawns newborn (Particle_explodeSecondary h p).
Proof.
  unfold Particle_explodeSecondary. cbv zeta.
  set (p1 := Particle.set_secondaryCalls _ p). clearbody p1.
  destruct (Particle.configRef p1) as [[]|];
    [destruct (Particle.pos p1) as [pos|]|].
  - apply spawns_bind.
    + apply quiet_spawns. destruct (Particle.vel p1).
      * apply quiet_ret.
      * apply quiet_bind; [apply quiet_log|]. intros _. apply quiet_ret.
    + intros this. apply spawns_bind; [apply secondary_explosion_newborn|].
      intros _. apply quiet_spawns, quiet_ret.
  - apply quiet_spawns, quiet_bind; [apply quiet_log|].
    intros _. apply quiet_ret.
  - apply quiet_spawns, quiet_bind; [apply quiet_log|].
    intros _. apply quiet_ret.
Qed.

Lemma update_crackle_newborn h t p : spawns newborn (update_crackle h t p).
Proof.
  unfold update_crackle.
  destruct (_ && _); [|apply quiet_spawns, quiet_ret].
  apply spawns_bind; [apply quiet_spawns, quiet_random|]. intros r.
  cbv zeta. destruct (Qleb _ _); [|apply quiet_spawns, quiet_ret].
  apply spawns_bind; [apply quiet_spawns, quiet_get|]. intros w.
  destruct (Qltb _ _); [|apply quiet_spawns, quiet_ret].
  apply spawns_bind; [apply spawnCrackle_newborn|].
  intros _. apply quiet_spawns, quiet_ret.
Qed.

(** [update] of any particle only creates such particles. *)
Lemma update_newborn h p : spawns newborn (Particle_update h p).
Proof.
  unfold Particle_update.
  destruct (Particle.pos p) as [pos|];
    [destruct (Particle.vel p) as [vel|];
     [destruct (Particle.acc p) as [acc|]|]|].
  2-4: apply quiet_spawns, quiet_bind; [apply quiet_log|];
       intros _; apply quiet_ret.
  apply spawns_bind; [apply quiet_spawns, quiet_now|]. intros t.
  cbv zeta. destruct (_ && _ && _).
  - apply spawns_bind; [apply explodeSecondary_newborn|].
    intros q. apply quiet_spawns, quiet_ret.
  - destruct (_ && _); [apply quiet_spawns, quiet_ret|].
    unfold update_body.
    apply spawns_bind; [apply quiet_spawns, quiet_frame_dt|].
    intros dt. cbv zeta.
    apply spawns_bind; [apply quiet_spawns, quiet_update_fading|].
    intros p2.
    apply spawns_bind; [apply update_crackle_newborn|]. intros p4.
    apply quiet_spawns, quiet_ret.
Qed.

Lemma radial_burst_newborn h count lo hi spawn :
  (forall m dir, spawns newborn (spawn m dir)) ->
  spawns newborn (radial_burst h count lo hi spawn).
Proof.
  intros Hs. unfold radial_burst. apply spawns_repeatM.
  draw_newborn. apply Hs.
Qed.

Lemma launch_miniShell_newborn h this pos vel :
  spawns newborn (launch_miniShell h this pos vel).
Proof.
  intros w. unfold launch_miniShell, bind.
  pose proof (quiet_Particle_new h pos vel (RGBA 255 220 150 200) 3
                Role.MINI_SHELL Options.empty w) as G1.
  pose proof (Particle_new_newborn h pos vel (RGBA 255 220 150 200) 3
                Role.MINI_SHELL Options.empty w ltac:(reflexivity)) as N.
  destruct (Particle_new h pos vel _ 3 Role.MINI_SHELL _ w) as [p0 w1].
  simpl in G1, N.
  pose proof (quiet_random h 0.4 0.9 w1) as G2.
  destruct (random h 0.4 0.9 w1) as [delay w2]. simpl in G2.
  pose proof (quiet_random_of h validSubTypes w2) as G3.
  destruct (random_of h validSubTypes w2) as [subType w3]. simpl in G3.
  pose proof (quiet_random_of h PALETTES w3) as G4.
  destruct (random_of h PALETTES w3) as [pal w4]. simpl in G4.
  pose proof (quiet_now w4) as G5.
  destruct (now w4) as [t w5]. simpl in G5.
  set (q := Particle.set_configRef _ _).
  pose proof (push_grows q w5) as G6.
  destruct (push q w5) as [id w6]. simpl in G6. unfold ret. simpl.
  exists [q]. split.
  - apply (grows_trans _ _ _ [] [q] G1).
    apply (grows_trans _ _ _ [] [q] G2).
    apply (grows_trans _ _ _ [] [q] G3).
    apply (grows_trans _ _ _ [] [q] G4).
    apply (grows_trans _ _ _ [] [q] G5). exact G6.
  - constructor; [exact N|constructor].
Qed.

(** [explode] of any firework only creates such particles. *)
Lemma explode_newborn h this : spawns newborn (Firework_explode h this).
Proof.
  unfold Firework_explode. cbv zeta.
  set (this' := Firework.set_explodeCalls _ this). clearbody this'.
  apply spawns_bind; [apply quiet_spawns, quiet_count|]. intros _.
  destruct (Firework.config this') as [[]|] eqn:Hc.
  2: { apply quiet_spawns, quiet_bind; [apply quiet_log|].
       intros _. apply quiet_ret. }
  apply spawns_bind; [apply quiet_spawns, quiet_get|]. intros w.
  destruct (World.heap w !! Firework.shell this') as [shell|];
    [|apply quiet_spawns, quiet_explode_no_shell].
  destruct (Particle.pos shell) as [pos|];
    [|apply quiet_spawns, quiet_explode_no_shell].
  cbv zeta.
  apply spawns_bind; [|intros _; apply quiet_spawns, quiet_ret].
  unfold explode_switch. cbv zeta.
  repeat case_bool_decide.
  - apply radial_burst_newborn. intros m dir. cbv zeta. draw_newborn.
    apply createParticle_newborn. assumption.
  - apply radial_burst_newborn. intros m dir. cbv zeta. draw_newborn.
    apply createParticle_newborn. assumption.
  - unfold explode_palm.
    apply spawns_bind; [apply quiet_spawns, quiet_random|]. intros b.
    cbv zeta. apply spawns_forM. intros i. draw_newborn.
    apply spawns_repeatM. draw_newborn.
    apply createParticle_newborn. assumption.
  - apply radial_burst_newborn. intros m dir. cbv zeta. draw_newborn.
    apply createParticle_newborn. assumption.
  - apply radial_burst_newborn. intros m dir. cbv zeta. draw_newborn.
    apply createParticle_newborn. reflexivity.
  - apply radial_burst_newborn. intros m dir. cbv zeta. draw_newborn.
    apply createParticle_newborn. assumption.
  - unfold explode_multi_break.
    apply spawns_bind; [apply quiet_spawns, quiet_random|]. intros b.
    cbv zeta. apply radial_burst_newborn. intros m dir.
    apply launch_miniShell_newborn.
  - unfold explode_default.
    apply spawns_bind; [apply quiet_spawns, quiet_log|]. intros _.
    apply spawns_repeatM. draw_newborn.
    apply createParticle_newborn. assumption.
Qed.

(** *** What [update] and the forces keep of a particle *)

Lemma update_fluid_flag h p :
  Particle.fluid (update_fluid h p) = Particle.fluid p.
Proof.
  unfold update_fluid, Particle_applyFluidBehavior, Particle_applyForce.
  repeat case_match; simpl; auto.
Qed.

Lemma Particle_update_fluid h p w :
  Particle.fluid (fst (Particle_update h p w)) = Particle.fluid p.
Proof.
  destruct (update_shape h p w) as [[_ E]|[(_ & _ & E)|H]];
    cbv zeta in *.
  - rewrite E. reflexivity.
  - rewrite E. simpl.
    destruct (explodeSecondary_cases h p w) as [E1|[E1|E1]];
      cbv zeta in E1; rewrite E1; reflexivity.
  - destruct H as (pos & vel & acc & _ & _ & _ & _ & E). rewrite E.
    destruct (update_body_phases h (World.millis w / 1000) (age p w)
                pos vel acc p w) as (p2 & w2 & p4 & w4 & H2 & H4 & E').
    cbv zeta in H2. rewrite E'. simpl fst. rewrite update_fluid_flag.
    pose proof (update_crackle_motion h (World.millis w / 1000)
                  (update_strobe (World.millis w / 1000) p2) w2)
      as (_ & _ & _ & F4).
    rewrite H4 in F4. simpl fst in F4.
    destruct (update_strobe_motion (World.millis w / 1000) p2)
      as (_ & _ & _ & F3).
    pose proof (update_fading_motion (World.millis w / 1000) (age p w)
                  (update_trail
                     (update_physics (fst (frame_dt w)) pos vel acc p)) w)
      as (_ & _ & _ & F2).
    rewrite H2 in F2. simpl fst in F2.
    destruct (update_trail_motion
                (update_physics (fst (frame_dt w)) pos vel acc p))
      as (_ & _ & _ & F1).
    assert (F0 : Particle.fluid
                   (update_physics (fst (frame_dt w)) pos vel acc p)
                 = Particle.fluid p) by reflexivity.
    etransitivity; [exact F4|]. etransitivity; [exact F3|].
    etransitivity; [exact F2|]. etransitivity; [exact F1|exact F0].
Qed.

Lemma applyForce_flag f p :
  Particle.fluid (Particle_applyForce f p) = Particle.fluid p.
Proof. unfold Particle_applyForce. destruct (Particle.acc p); reflexivity. Qed.

Lemma applyDrag_flag h d p :
  Particle.fluid (Particle_applyDrag h d p) = Particle.fluid p.
Proof.
  unfold Particle_applyDrag, Particle_applyForce.
  repeat case_match; simpl; auto.
Qed.

Lemma setFading_keeps d p w :
  Particle.alpha (fst (Particle_setFading d p w)) = Particle.alpha p /\
  Particle.fluid (fst (Particle_setFading d p w)) = Particle.fluid p.
Proof.
  unfold Particle_setFading, bind, ret, now.
  destruct (Particle.isFading p); simpl; auto.
Qed.

(** *** The array and the heap *)

Lemma alive_grows w w' l id :
  grows w w' l -> alive_at w id -> alive_at w' id.
Proof.
  intros (Hh & _) (p & Hp & Hd). exists p. split; [|exact Hd].
  rewrite Hh. apply lookup_app_l_Some, Hp.
Qed.

Lemma listed_grows w w' l :
  listed_once w -> grows w w' l -> listed_once w'.
Proof.
  intros [Hn Hb] (Hh & Hp & _). unfold listed_once. rewrite Hp, Hh.
  rewrite Forall_forall in Hb. split.
  - apply NoDup_app. split; [exact Hn|]. split; [|apply NoDup_seq].
    intros x Hx Hs. apply elem_of_seq in Hs. specialize (Hb x Hx). lia.
  - rewrite length_app. apply Forall_app. split.
    + apply Forall_forall. intros x Hx. specialize (Hb x Hx). lia.
    + apply Forall_forall. intros x Hx. apply elem_of_seq in Hx. lia.
Qed.

Lemma newborn_alive w w' l :
  grows w w' l -> Forall newborn l ->
  Forall (alive_at w') (seq (length (World.heap w)) (length l)).
Proof.
  intros (Hh & _) F. apply Forall_forall. intros id Hid.
  apply elem_of_seq in Hid.
  destruct (lookup_lt_is_Some_2 l (id - length (World.heap w))
              ltac:(lia)) as [p Hp].
  exists p. split.
  - rewrite Hh, lookup_app_r by lia. exact Hp.
  - rewrite Forall_forall in F.
    destruct (F p (list_elem_of_lookup_2 _ _ _ Hp)) as [Ha _].
    unfold Particle_isDone. apply Qleb_gt. exact Ha.
Qed.

Lemma fluid_grows w w' l :
  grows w w' l -> Forall newborn l ->
  Forall (fun p => Particle.fluid p = false) (World.heap w) ->
  Forall (fun p => Particle.fluid p = false) (World.heap w').
Proof.
  intros (Hh & _) F Hf. rewrite Hh. apply Forall_app. split; [exact Hf|].
  eapply Forall_impl; [exact F|]. intros p [_ H]. exact H.
Qed.

(** Creating visible particles keeps the invariant, at any stage of the
    loop. *)
Lemma swept_from_grows k w w' l :
  (k <= length (World.particles w))%nat ->
  swept_from k w -> grows w w' l -> Forall newborn l -> swept_from k w'.
Proof.
  intros Hk (HL & HA & HF) G N. split; [apply (listed_grows w w' l HL G)|].
  split; [|apply (fluid_grows w w' l G N HF)].
  destruct G as (Hh & Hp & Hrest). rewrite Hp, drop_app_le by exact Hk.
  apply Forall_app. split.
  - eapply Forall_impl; [exact HA|]. intros id.
    apply (alive_grows w w' l). unfold grows. auto.
  - apply (newborn_alive w w' l); [unfold grows; auto|exact N].
Qed.

Lemma swept_from_zero w : swept_from 0 w <-> swept w.
Proof. unfold swept_from, swept. rewrite drop_0. tauto. Qed.

Lemma swept_from_all w :
  listed_once w ->
  Forall (fun p => Particle.fluid p = false) (World.heap w) ->
  swept_from (length (World.particles w)) w.
Proof.
  intros HL HF. split; [exact HL|]. split; [|exact HF].
  rewrite drop_all. constructor.
Qed.

Lemma swept_grows w w' l :
  swept w -> grows w w' l -> Forall newborn l -> swept w'.
Proof.
  intros H G N. apply swept_from_zero.
  apply (swept_from_grows 0 w w' l); [lia|apply swept_from_zero, H|exact G|
                                      exact N].
Qed.

(** A change of the world that leaves the array and the heap alone. *)
Lemma swept_from_same k w w' :
  World.heap w' = World.heap w -> World.particles w' = World.particles w ->
  swept_from k w -> swept_from k w'.
Proof.
  intros Hh Hp (HL & HA & HF). unfold swept_from, listed_once, alive_at in *.
  rewrite Hh, Hp. auto.
Qed.

(** [splice(i, 1)] on a reference that has just been seen. *)
Lemma swept_from_splice i w :
  swept_from (S i) w -> swept_from i (splice_particle i w).
Proof.
  intros ((Hn & Hb) & HA & HF). unfold splice_particle, swept_from.
  unfold listed_once, alive_at. simpl.
  split; [split|split].
  - apply (sublist_NoDup _ _ Hn), sublist_delete.
  - apply Forall_forall. intros x Hx. rewrite Forall_forall in Hb.
    apply Hb. eapply list_elem_of_delete_inv. exact Hx.
  - rewrite delete_take_drop.
    destruct (Nat.le_gt_cases i (length (World.particles w))) as [Hi|Hi].
    + rewrite drop_app_length'; [exact HA|].
      rewrite length_take. lia.
    + rewrite drop_ge; [constructor|].
      rewrite length_app, length_take, length_drop. lia.
  - exact HF.
Qed.

(** The particle behind the reference at index [i] is replaced by a
    particle that is not fluid; the references behind [i] are others. *)
Lemma swept_from_store i id q w :
  World.particles w !! i = Some id ->
  Particle.fluid q = false ->
  swept_from (S i) w ->
  swept_from (S i) (World.set_heap (<[id := q]> (World.heap w)) w) /\
  (Particle_isDone q = false ->
   swept_from i (World.set_heap (<[id := q]> (World.heap w)) w)).
Proof.
  intros Hi Hq ((Hn & Hb) & HA & HF).
  assert (Hid : (id < length (World.heap w))%nat).
  { rewrite Forall_forall in Hb. apply Hb.
    eapply list_elem_of_lookup_2. exact Hi. }
  assert (Hnot : id ∉ drop (S i) (World.particles w)).
  { rewrite <- (take_drop_middle _ _ _ Hi) in Hn.
    apply NoDup_app in Hn. destruct Hn as (_ & _ & Hn).
    apply NoDup_cons in Hn. apply Hn. }
  assert (HL : listed_once (World.set_heap (<[id := q]> (World.heap w)) w)).
  { unfold listed_once. simpl. rewrite length_insert. auto. }
  assert (HA' : Forall (alive_at (World.set_heap (<[id := q]> (World.heap w))
                                     w))
                  (drop (S i) (World.particles w))).
  { apply Forall_forall. intros x Hx. rewrite Forall_forall in HA.
    destruct (HA x Hx) as (p & Hp & Hd). exists p. split; [|exact Hd].
    simpl. rewrite list_lookup_insert_ne; [exact Hp|].
    intros ->. contradiction. }
  assert (HF' : Forall (fun p => Particle.fluid p = false)
                  (<[id := q]> (World.heap w)))
    by (apply Forall_insert; assumption).
  split.
  - split; [exact HL|]. split; [exact HA'|exact HF'].
  - intros Hd. split; [exact HL|]. split; [|exact HF'].
    simpl. rewrite (drop_S _ _ _ Hi). constructor; [|exact HA'].
    exists q. split; [|exact Hd]. simpl.
    apply list_lookup_insert_eq, Hid.
Qed.

(** *** The particle loop of [draw] *)

Lemma draw_particle_step h g i w :
  swept_from (S i) w -> swept_from i (draw_particle h g i w).
Proof.
  intros H. unfold draw_particle.
  destruct (World.particles w !! i) as [id|] eqn:Hi.
  2: { destruct H as (HL & _ & HF). split; [exact HL|]. split; [|exact HF].
       apply lookup_ge_None in Hi. rewrite drop_ge by exact Hi.
       constructor. }
  assert (Hlog : swept_from i
                   (splice_particle i
                      (snd (log LogWarn "Removing invalid particle:" w)))).
  { apply swept_from_splice.
    apply (swept_from_same (S i) w); [reflexivity|reflexivity|exact H]. }
  destruct (World.heap w !! id) as [p|] eqn:Hp; [|exact Hlog].
  destruct (Particle.pos p) as [pos|]; [|exact Hlog].
  destruct (Particle.vel p) as [vel|]; [|exact Hlog].
  destruct (Particle.acc p) as [acc|]; [|exact Hlog].
  set (p1 := Particle_applyDrag h _ _).
  assert (Hf1 : Particle.fluid p1 = false).
  { unfold p1. rewrite applyDrag_flag, applyForce_flag.
    destruct H as (_ & _ & HF). rewrite Forall_forall in HF.
    assert (Hfp : Particle.fluid p = false)
      by (apply HF; eapply list_elem_of_lookup_2; exact Hp).
    destruct g; [rewrite applyForce_flag|]; exact Hfp. }
  destruct (update_newborn h p1 w) as (l & G & N).
  pose proof (Particle_update_fluid h p1 w) as Hf'.
  destruct (Particle_update h p1 w) as [p' w1]. simpl in G, Hf'.
  assert (Hlt : (S i <= length (World.particles w))%nat).
  { apply lookup_lt_Some in Hi. lia. }
  pose proof (swept_from_grows (S i) w w1 l Hlt H G N) as H1.
  assert (Hi1 : World.particles w1 !! i = Some id).
  { destruct G as (_ & Hpp & _). rewrite Hpp.
    apply lookup_app_l_Some, Hi. }
  destruct (swept_from_store i id p' w1 Hi1 ltac:(congruence) H1)
    as [HA HB].
  destruct (Particle_isDone p') eqn:Hd.
  - apply swept_from_splice, HA.
  - apply HB. reflexivity.
Qed.

Lemma draw_particles_swept h g n w :
  swept_from n w -> swept (downfrom n (draw_particle h g) w).
Proof.
  revert w. induction n as [|n IH]; intros w H; simpl.
  - apply swept_from_zero, H.
  - apply IH, draw_particle_step, H.
Qed.

(** *** The firework loop of [draw] *)

Lemma setFading_shell_swept d id w :
  swept w -> swept (snd (on_particle id (Particle_setFading d) w)).
Proof.
  intros ((Hn & Hb) & HA & HF). unfold on_particle, bind, get.
  destruct (World.heap w !! id) as [p|] eqn:Hp;
    [|unfold ret; simpl; split; [split|]; auto].
  destruct (setFading_keeps d p w) as [Ka Kf].
  assert (Ew : snd (Particle_setFading d p w) = w).
  { unfold Particle_setFading, bind, ret, now.
    destruct (Particle.isFading p); reflexivity. }
  destruct (Particle_setFading d p w) as [p' w1]. simpl in Ka, Kf, Ew.
  subst w1. unfold modify. simpl.
  rewrite Forall_forall in HF.
  assert (Hfp : Particle.fluid p = false)
    by (apply HF; eapply list_elem_of_lookup_2; exact Hp).
  split; [|split].
  - unfold listed_once. simpl. rewrite length_insert. auto.
  - simpl. eapply Forall_impl; [exact HA|]. intros x (q & Hq & Hd).
    unfold alive_at. simpl.
    destruct (decide (x = id)) as [->|Hne].
    + exists p'. split.
      * apply list_lookup_insert_eq. eapply lookup_lt_Some. exact Hp.
      * rewrite Hp in Hq. injection Hq as <-.
        unfold Particle_isDone in *. rewrite Ka. exact Hd.
    + exists q. split; [|exact Hd].
      rewrite list_lookup_insert_ne; [exact Hq|congruence].
  - simpl. apply Forall_insert; [apply Forall_forall, HF|congruence].
Qed.

Lemma Firework_update_swept h fw w :
  swept w -> swept (snd (Firework_update h fw w)).
Proof.
  intros H. unfold Firework_update. unfold bind at 1.
  assert (H1 : swept (snd (update_ascent h fw w))).
  { unfold update_ascent. unfold bind at 1. unfold get at 1.
    cbv beta iota.
    destruct (Lifecycle.eqb _ _); [|exact H].
    destruct (at_apex fw w) as [[|]|]; try exact H.
    destruct (negb _); [|exact H].
    unfold bind at 1.
    destruct (explode_newborn h fw w) as (l & G & N).
    destruct (Firework_explode h fw w) as [fw1 w1]. simpl in G.
    pose proof (swept_grows w w1 l H G N) as H1. cbv zeta.
    unfold bind at 1.
    pose proof (setFading_shell_swept 0.1
                  (Firework.shell
                     (Firework.set_lifecycle Lifecycle.EXPLOSION fw1))
                  w1 H1) as H2.
    destruct (on_particle _ _ w1) as [u w2]. exact H2. }
  destruct (update_ascent h fw w) as [fw1 w1]. simpl in H1.
  unfold update_lost_shell, bind, get.
  destruct (_ && _); [|exact H1].
  unfold log, modify, ret. simpl.
  destruct H1 as (HL & HA & HF). split; [exact HL|]. split; assumption.
Qed.

(** [update] retires a firework or leaves it as it is. *)
Lemma Firework_update_retires h fw w :
  let fw' := fst (Firework_update h fw w) in
  Firework_done fw' = true \/ fw' = fw.
Proof.
  cbv zeta. destruct (Firework_update h fw w) as [fw' w'] eqn:E0. simpl.
  unfold Firework_update in E0. unfold bind at 1 in E0.
  assert (H1 : Firework_done (fst (update_ascent h fw w)) = true
               \/ fst (update_ascent h fw w) = fw).
  { destruct (update_ascent h fw w) as [fw1 w1] eqn:E. simpl.
    unfold update_ascent in E. unfold bind at 1 in E.
    unfold get at 1 in E. cbv beta iota in E.
    destruct (Lifecycle.eqb _ _);
      [|injection E as <- <-; right; reflexivity].
    destruct (at_apex fw w) as [[|]|];
      try (injection E as <- <-; right; reflexivity).
    destruct (negb _); [|injection E as <- <-; right; reflexivity].
    left. unfold bind at 1 in E.
    destruct (Firework_explode h fw w) as [fwx wx]. cbv zeta in E.
    unfold bind at 1 in E. destruct (on_particle _ _ wx) as [u w2].
    unfold ret in E. injection E as <- <-. reflexivity. }
  destruct (update_ascent h fw w) as [fw1 w1]. simpl in H1.
  unfold update_lost_shell, bind, get in E0.
  destruct (Lifecycle.eqb (Firework.lifecycle fw1) Lifecycle.ASCENT) eqn:El.
  - destruct (negb _); simpl in E0.
    + unfold log, modify, ret in E0. injection E0 as <- <-.
      left. reflexivity.
    + unfold ret in E0. injection E0 as <- <-. exact H1.
  - simpl in E0. unfold ret in E0. injection E0 as <- <-. exact H1.
Qed.

Lemma draw_firework_housekept h i s :
  housekept s -> housekept (draw_firework h i s).
Proof.
  intros [HW HF]. unfold draw_firework.
  destruct (Sketch.fireworks s !! i) as [fw|] eqn:Hi; [|split; assumption].
  pose proof (Firework_update_swept h fw (Sketch.world s) HW) as H1.
  pose proof (Firework_update_retires h fw (Sketch.world s)) as H2.
  cbv zeta in H2. unfold lift.
  destruct (Firework_update h fw (Sketch.world s)) as [fw' w']. simpl in *.
  destruct (Firework_done fw') eqn:Hd.
  - split; [exact H1|]. simpl.
    apply Forall_forall. intros x Hx. rewrite Forall_forall in HF.
    apply HF. eapply list_elem_of_delete_inv. exact Hx.
  - destruct H2 as [H2| ->]; [congruence|].
    split; [exact H1|]. simpl. apply Forall_insert; [exact HF|].
    rewrite Forall_forall in HF. apply HF.
    eapply list_elem_of_lookup_2. exact Hi.
Qed.

Lemma draw_fireworks_housekept h n s :
  housekept s -> housekept (downfrom n (draw_firework h) s).
Proof.
  revert s. induction n as [|n IH]; intros s H; simpl; [exact H|].
  apply IH, draw_firework_housekept, H.
Qed.

(** *** The launches *)

Lemma Firework_new_newborn h pos vel type config :
  spawns newborn (Firework_new h pos vel type config).
Proof.
  intros w. unfold Firework_new, bind.
  pose proof (quiet_Particle_new h pos vel (RGBA 255 255 0 200) 4 Role.SHELL
                Options.empty w) as G1.
  pose proof (Particle_new_newborn h pos vel (RGBA 255 255 0 200) 4
                Role.SHELL Options.empty w ltac:(reflexivity)) as N.
  destruct (Particle_new h pos vel _ 4 Role.SHELL _ w) as [shell w1].
  simpl in G1, N.
  match goal with
  | |- context [random h ?a ?b w1] =>
      pose proof (quiet_random h a b w1) as G2;
      destruct (random h a b w1) as [alt w2]
  end.
  simpl in G2.
  pose proof (quiet_random_of h PALETTES w2) as G3.
  destruct (random_of h PALETTES w2) as [pal w3]. simpl in G3.
  set (p := Particle.set_configRef config shell).
  pose proof (push_grows p w3) as G4.
  destruct (push p w3) as [id w4]. simpl in G4. unfold ret. simpl.
  exists [p]. split.
  - apply (grows_trans _ _ _ [] [p] G1).
    apply (grows_trans _ _ _ [] [p] G2).
    apply (grows_trans _ _ _ [] [p] G3). exact G4.
  - constructor; [exact N|constructor].
Qed.

Lemma bind_result {A B} (P : B -> Prop) (m : M A) (k : A -> M B) w :
  (forall a w1, P (fst (k a w1))) -> P (fst (bind m k w)).
Proof. intros H. unfold bind. destruct (m w) as [a w1]. apply H. Qed.

Lemma lift_quiet_housekept {A} (m : M A) s :
  quiet m -> housekept s -> housekept (snd (lift m s)).
Proof.
  intros Hq [HW HF]. split.
  - rewrite lift_world. apply (swept_grows _ _ [] HW (Hq _)). constructor.
  - destruct (lift_fields m s) as (-> & _). exact HF.
Qed.

Lemma launch_housekept h pos type s :
  housekept s -> housekept (FireworkSystem_launch h pos type s).
Proof.
  intros H. unfold FireworkSystem_launch. cbv zeta.
  destruct (Qleb _ _); [apply lift_quiet_housekept; [apply quiet_log|exact H]|].
  destruct pos as [pos|];
    [|apply lift_quiet_housekept; [apply quiet_log|exact H]].
  destruct H as [HW HF].
  match goal with
  | |- context [lift ?m s] =>
      pose proof (lift_world m s) as LW;
      pose proof (lift_fields m s) as (LF & _);
      assert (Hm : spawns newborn m);
      [|assert (Ha : forall w, ascending (fst (m w)));
        [|destruct (Hm (Sketch.world s)) as (l & G & N);
          pose proof (Ha (Sketch.world s)) as Hfw;
          assert (Efw : fst (lift m s) = fst (m (Sketch.world s)))
            by (unfold lift; destruct (m (Sketch.world s)); reflexivity);
          destruct (lift m s) as [fw s'] eqn:EL]]
  end.
  { apply spawns_bind.
    - apply quiet_spawns. destruct (String.eqb _ "RANDOM");
        [apply quiet_random_of|apply quiet_ret].
    - intros ty.
      apply spawns_bind; [apply quiet_spawns, quiet_random|]. intros vx.
      apply spawns_bind; [apply quiet_spawns, quiet_random|]. intros vy.
      apply Firework_new_newborn. }
  { intros w. apply (bind_result ascending). intros ty w1.
    apply (bind_result ascending). intros vx w2.
    apply (bind_result ascending). intros vy w3. cbv zeta.
    destruct (Firework_new_fresh h pos (Vec.create vx vy) ty
                (Some SystemConfig) w3) as (F1 & F2 & F3).
    unfold ascending. auto. }
  simpl in LW, LF, Efw. subst fw. split.
  - simpl. rewrite LW. apply (swept_grows _ _ l HW G N).
  - simpl. apply Forall_app. split; [rewrite LF; exact HF|].
    constructor; [exact Hfw|constructor].
Qed.

Lemma manualLaunch_housekept h x y mouseX s :
  housekept s -> housekept (FireworkSystem_manualLaunch h x y mouseX s).
Proof.
  intros H. unfold FireworkSystem_manualLaunch. cbv zeta.
  apply launch_housekept, lift_quiet_housekept; [apply quiet_log|exact H].
Qed.

Lemma launchRandom_housekept h s :
  housekept s -> housekept (FireworkSystem_launchRandom h s).
Proof.
  intros H. unfold FireworkSystem_launchRandom.
  pose proof (lift_quiet_housekept
                (random h (Host.width h * 0.15) (Host.width h * 0.85)) s
                (quiet_random h _ _) H) as H1.
  destruct (lift _ s) as [xPos s1]. simpl in H1. cbv zeta.
  apply launch_housekept, H1.
Qed.

Lemma system_update_housekept h s :
  housekept s -> housekept (FireworkSystem_update h s).
Proof.
  intros H. unfold FireworkSystem_update. cbv zeta.
  destruct (_ && _); [|exact H].
  destruct (Qltb _ _); [|exact H].
  pose proof (launchRandom_housekept h s H) as [HW HF].
  split; [exact HW|exact HF].
Qed.

Lemma configure_housekept f s :
  housekept s -> housekept (Panel.configure f s).
Proof.
  intros [HW HF]. unfold Panel.configure. split; [|exact HF].
  simpl. destruct HW as (HL & HA & HFl). split; [exact HL|].
  split; assumption.
Qed.

Lemma draw_loops_housekept h s : housekept s -> housekept (draw_loops h s).
Proof.
  intros [HW HF]. unfold draw_loops. cbv zeta.
  apply draw_fireworks_housekept. split; [|exact HF]. simpl.
  apply draw_particles_swept.
  destruct HW as (HL & _ & HFl). apply swept_from_all; assumption.
Qed.

Lemma draw_housekept h s : housekept s -> housekept (draw h s).
Proof.
  intros H. apply (draw_loops_housekept h (FireworkSystem_update h s)).
  apply system_update_housekept, H.
Qed.

(** Every event keeps the invariant of the sketch. *)
Lemma handle_housekept h e s : housekept s -> housekept (handle h e s).
Proof.
  intros H. destruct e as [millis deltaTime|mouseX mouseY guis|mouseX|v|val
                          |val|val|f]; simpl.
  - assert (H0 : housekept
                   (Sketch.set_world
                      (World.set_deltaTime deltaTime
                         (World.set_millis millis (Sketch.world s))) s)).
    { destruct H as [(HL & HA & HFl) HF]. split; [|exact HF].
      split; [exact HL|]. split; assumption. }
    destruct (Qeqb _ 0).
    + apply draw_loops_housekept, H0.
    + unfold frame. apply draw_housekept, H0.
  - unfold mousePressed.
    destruct (negb _); [|exact H].
    destruct (_ && _ && _ && _); [|exact H].
    destruct (negb _); [|exact H].
    apply manualLaunch_housekept, H.
  - apply manualLaunch_housekept, H.
  - unfold onChange_autoLaunch, FireworkSystem_resetLaunchTimer.
    pose proof (configure_housekept (Panel.set_autoLaunch v) s H) as H1.
    destruct (Config.autoLaunch _); [|exact H1].
    destruct H1 as [HW HF]. split; assumption.
  - unfold onChange_particleCount.
    apply configure_housekept, configure_housekept, H.
  - unfold onChange_gravity. cbv zeta.
    pose proof (configure_housekept (Panel.set_gravity val) s H) as H1.
    destruct (Sketch.gravity _); [|exact H1].
    destruct H1 as [HW HF]. split; assumption.
  - unfold onChange_maxTotalParticles.
    apply configure_housekept, configure_housekept, H.
  - apply configure_housekept, H.
Qed.

Lemma play_housekept h events s :
  housekept s -> housekept (play h events s).
Proof.
  unfold play. revert s.
  induction events as [|e events IH]; intros s H; simpl; [exact H|].
  apply IH, handle_housekept, H.
Qed.

Lemma initial_housekept config : housekept (initial_sketch config).
Proof.
  unfold housekept, swept, listed_once, initial_sketch, initial_world. simpl.
  repeat split; constructor.
Qed.

(** *** What holds between any two events *)

(** X19 ([draw], its particle loop, and [isDone]): in every state the
    sketch reaches from [setup], whatever the configuration and the
    events (frames, clicks, the button, the panel), the [particles] array
    holds each of its references once, each refers to a particle that
    exists, and none of them is done: a particle whose opacity has
    reached zero does not survive the frame, and the particles a frame
    creates are visible. *)
Theorem array_holds_live_particles h config events :
  let w := Sketch.world (play h events (initial_sketch config)) in
  NoDup (World.particles w) /\
  Forall (fun id =>
            exists p,
              World.heap w !! id = Some p /\ 0 < Particle.alpha p /\
              Particle_isDone p = false) (World.particles w).
Proof.
  cbv zeta.
  destruct (play_housekept h events _ (initial_housekept config))
    as [((Hn & _) & HA & _) _].
  split; [exact Hn|].
  eapply Forall_impl; [exact HA|]. intros id (p & Hp & Hd).
  exists p. split; [exact Hp|]. split; [|exact Hd].
  unfold Particle_isDone in Hd. apply Qleb_gt in Hd. exact Hd.
Qed.

(** X20 ([draw], its firework loop, [Firework.update] and [done]): in
    every state the sketch reaches from [setup], [fireworks] holds only
    fireworks that have not exploded, exactly as their constructor left
    them: ascending, [hasExploded] false, [explode] never called.  A
    firework leaves the list in the frame in which it explodes or loses
    its shell. *)
Theorem fireworks_list_holds_ascending h config events :
  Forall (fun fw => ascending fw /\ Firework_done fw = false)
    (Sketch.fireworks (play h events (initial_sketch config))).
Proof.
  destruct (play_housekept h events _ (initial_housekept config))
    as [_ HF].
  eapply Forall_impl; [exact HF|]. intros fw Ha. split; [exact Ha|].
  destruct Ha as (Hl & _). unfold Firework_done. rewrite Hl. reflexivity.
Qed.

(** X21 (constructor of [Particle], [createParticle],
    [enableFluidBehavior], [applyFluidBehavior]): the fluid behaviour
    never runs.  The constructor tests the style right after setting it
    to CLASSIC and [createParticle] sets the style of the panel without
    enabling anything, so in every state the sketch reaches from [setup],
    under any configuration (the FLUID particle style too), every
    particle ever created has [fluid] false, and the fluid step of
    [update] leaves it as it is. *)
Theorem fluid_behaviour_never_runs h config events :
  Forall (fun p => Particle.fluid p = false /\ update_fluid h p = p)
    (World.heap (Sketch.world (play h events (initial_sketch config)))).
Proof.
  destruct (play_housekept h events _ (initial_housekept config))
    as [(_ & _ & HF) _].
  eapply Forall_impl; [exact HF|]. intros p Hp.
  split; [exact Hp|apply update_fluid_off, Hp].
Qed.

(** *** The cap along a session *)

Lemma keeps_cap_bounded {A} (m : M A) w :
  keeps_cap m -> integral_cap w -> within_cap w ->
  integral_cap (snd (m w)) /\ within_cap (snd (m w)) /\
  World.config (snd (m w)) = World.config w.
Proof.
  intros Hm Hi Hw. destruct (Hm w) as (l & G & _ & C).
  split; [apply (grows_integral _ _ _ G Hi)|].
  split; [apply C; assumption|apply (grows_config _ _ _ G)].
Qed.

Lemma splice_bounded i w :
  integral_cap w -> within_cap w ->
  integral_cap (splice_particle i w) /\ within_cap (splice_particle i w) /\
  World.config (splice_particle i w) = World.config w.
Proof.
  intros Hi Hw. unfold splice_particle.
  split; [exact Hi|]. split; [|reflexivity].
  unfold within_cap in *. simpl.
  assert (Qnat (length (delete i (World.particles w)))
          <= Qnat (length (World.particles w)))
    by (apply Qnat_le, sublist_length, sublist_delete).
  lra.
Qed.

Lemma draw_particle_bounded h g i w :
  integral_cap w -> within_cap w ->
  integral_cap (draw_particle h g i w) /\
  within_cap (draw_particle h g i w) /\
  World.config (draw_particle h g i w) = World.config w.
Proof.
  intros Hi Hw. unfold draw_particle.
  destruct (World.particles w !! i) as [id|]; [|auto].
  assert (Hlog : let w' := splice_particle i
                             (snd (log LogWarn "Removing invalid particle:"
                                     w)) in
                 integral_cap w' /\ within_cap w' /\
                 World.config w' = World.config w).
  { cbv zeta.
    pose proof (quiet_log LogWarn "Removing invalid particle:" w) as G.
    destruct (splice_bounded i _ (grows_integral _ _ _ G Hi)
                (grows_nil_within _ _ G Hw)) as (A & B & C).
    split; [exact A|]. split; [exact B|].
    rewrite C. apply (grows_config _ _ _ G). }
  cbv zeta in Hlog.
  destruct (World.heap w !! id) as [p|]; [|exact Hlog].
  destruct (Particle.pos p) as [pos|]; [|exact Hlog].
  destruct (Particle.vel p) as [vel|]; [|exact Hlog].
  destruct (Particle.acc p) as [acc|]; [|exact Hlog].
  set (p1 := Particle_applyDrag h _ _).
  destruct (keeps_cap_bounded (Particle_update h p1) w (update_keeps h p1)
              Hi Hw) as (Hi1 & Hw1 & Hc1).
  destruct (Particle_update h p1 w) as [p' w1]. simpl in Hi1, Hw1, Hc1.
  set (w2 := World.set_heap _ w1).
  assert (H2 : integral_cap w2 /\ within_cap w2
               /\ World.config w2 = World.config w) by auto.
  destruct H2 as (Hi2 & Hw2 & Hc2).
  destruct (Particle_isDone p'); [|auto].
  destruct (splice_bounded i w2 Hi2 Hw2) as (A & B & C).
  split; [exact A|]. split; [exact B|]. rewrite C. exact Hc2.
Qed.

Lemma draw_particles_bounded h g n w :
  integral_cap w -> within_cap w ->
  integral_cap (downfrom n (draw_particle h g) w) /\
  within_cap (downfrom n (draw_particle h g) w) /\
  World.config (downfrom n (draw_particle h g) w) = World.config w.
Proof.
  revert w. induction n as [|n IH]; intros w Hi Hw; simpl; [auto|].
  destruct (draw_particle_bounded h g n w Hi Hw) as (A & B & C).
  destruct (IH _ A B) as (A' & B' & C').
  split; [exact A'|]. split; [exact B'|]. rewrite C'. exact C.
Qed.

Lemma Firework_update_bounded h fw w :
  Firework.type fw <> Some "MULTI_BREAK" ->
  integral_cap w -> within_cap w ->
  integral_cap (snd (Firework_update h fw w)) /\
  within_cap (snd (Firework_update h fw w)) /\
  World.config (snd (Firework_update h fw w)) = World.config w.
Proof.
  intros Ht Hi Hw.
  destruct (Firework_update h fw w) as [fw' w'] eqn:E0. simpl.
  unfold Firework_update in E0. unfold bind at 1 in E0.
  assert (H1 : integral_cap (snd (update_ascent h fw w)) /\
               within_cap (snd (update_ascent h fw w)) /\
               World.config (snd (update_ascent h fw w)) = World.config w).
  { destruct (update_ascent h fw w) as [fw1 w1] eqn:E. simpl.
    unfold update_ascent in E. unfold bind at 1 in E.
    unfold get at 1 in E. cbv beta iota in E.
    destruct (Lifecycle.eqb _ _); [|injection E as <- <-; auto].
    destruct (at_apex fw w) as [[|]|]; try (injection E as <- <-; auto).
    destruct (negb _); [|injection E as <- <-; auto].
    unfold bind at 1 in E.
    destruct (keeps_cap_bounded (Firework_explode h fw) w
                (explode_keeps h fw Ht) Hi Hw) as (A & B & C).
    destruct (Firework_explode h fw w) as [fwx wx]. simpl in A, B, C.
    cbv zeta in E. unfold bind at 1 in E.
    assert (Hon : forall id,
               integral_cap (snd (on_particle id (Particle_setFading 0.1) wx))
               /\ within_cap (snd (on_particle id (Particle_setFading 0.1) wx))
               /\ World.config (snd (on_particle id (Particle_setFading 0.1)
                                       wx))
                  = World.config wx).
    { intros id. unfold on_particle, bind, get.
      destruct (World.heap wx !! id) as [p|]; [|unfold ret; simpl; auto].
      assert (Ew : snd (Particle_setFading 0.1 p wx) = wx).
      { unfold Particle_setFading, bind, ret, now.
        destruct (Particle.isFading p); reflexivity. }
      destruct (Particle_setFading 0.1 p wx) as [q wq]. simpl in Ew.
      subst wq. unfold modify. simpl. auto. }
    specialize (Hon (Firework.shell
                       (Firework.set_lifecycle Lifecycle.EXPLOSION fwx))).
    destruct (on_particle _ _ wx) as [u w2]. simpl in Hon.
    unfold ret in E. injection E as <- <-.
    destruct Hon as (A' & B' & C'). split; [exact A'|].
    split; [exact B'|]. rewrite C'. exact C. }
  destruct (update_ascent h fw w) as [fw1 w1]. simpl in H1.
  destruct H1 as (A & B & C).
  unfold update_lost_shell, bind, get in E0.
  destruct (_ && _).
  - unfold log, modify, ret in E0. injection E0 as <- <-.
    split; [exact A|]. split; [exact B|exact C].
  - unfold ret in E0. injection E0 as <- <-.
    split; [exact A|]. split; [exact B|exact C].
Qed.

Lemma draw_firework_capped h i s :
  capped s -> capped (draw_firework h i s).
Proof.
  intros (Hi & Hw & Hr & Hm & HF). unfold draw_firework.
  destruct (Sketch.fireworks s !! i) as [fw|] eqn:Hfw;
    [|unfold capped; auto].
  assert (Ht : Firework.type fw <> Some "MULTI_BREAK").
  { rewrite Forall_forall in HF. apply HF.
    eapply list_elem_of_lookup_2. exact Hfw. }
  pose proof (Firework_update_bounded h fw (Sketch.world s) Ht Hi Hw)
    as (A & B & C).
  pose proof (Firework_update_retires h fw (Sketch.world s)) as H2.
  cbv zeta in H2. unfold lift.
  destruct (Firework_update h fw (Sketch.world s)) as [fw' w']. simpl in *.
  unfold capped.
  destruct (Firework_done fw') eqn:Hd; simpl; rewrite C.
  - repeat (split; [assumption|]).
    apply Forall_forall. intros x Hx. rewrite Forall_forall in HF.
    apply HF. eapply list_elem_of_delete_inv. exact Hx.
  - destruct H2 as [H2| ->]; [congruence|].
    repeat (split; [assumption|]).
    apply Forall_insert; assumption.
Qed.

Lemma draw_fireworks_capped h n s :
  capped s -> capped (downfrom n (draw_firework h) s).
Proof.
  revert s. induction n as [|n IH]; intros s H; simpl; [exact H|].
  apply IH, draw_firework_capped, H.
Qed.

Lemma lift_quiet_capped {A} (m : M A) s :
  quiet m -> capped s -> capped (snd (lift m s)).
Proof.
  intros Hq (Hi & Hw & Hr & Hm & HF). unfold capped.
  destruct (lift_fields m s) as (-> & _). rewrite lift_world.
  pose proof (Hq (Sketch.world s)) as G.
  rewrite (grows_config _ _ _ G).
  split; [apply (grows_integral _ _ _ G Hi)|].
  split; [apply (grows_nil_within _ _ G Hw)|]. auto.
Qed.

(** [launch] under a Launch Type that is neither RANDOM nor MULTI_BREAK,
    asked for that type. *)
Lemma launch_capped h pos s :
  capped s ->
  capped (FireworkSystem_launch h pos
            (Some (Config.fireworkType (World.config (Sketch.world s)))) s).
Proof.
  intros H.
  destruct (launch_keeps h pos
              (Some (Config.fireworkType (World.config (Sketch.world s)))) s)
    as (l & G & _ & C).
  destruct H as (Hi & Hw & Hr & Hm & HF). unfold capped.
  rewrite (grows_config _ _ _ G).
  split; [apply (grows_integral _ _ _ G Hi)|].
  split; [apply C; assumption|]. split; [exact Hr|]. split; [exact Hm|].
  clear G C l. unfold FireworkSystem_launch. cbv zeta.
  destruct (Qleb _ _);
    [destruct (lift_fields (log LogWarn
                              "Max particle limit reached. Skipping launch.")
                 s) as (-> & _); exact HF|].
  destruct pos as [pos|];
    [|destruct (lift_fields (log LogError "Invalid launch position:") s)
        as (-> & _); exact HF].
  set (ft := Config.fireworkType (World.config (Sketch.world s))) in *.
  assert (E0 : (if String.eqb ft "" then ft else ft) = ft)
    by (destruct (String.eqb ft ""); reflexivity).
  rewrite E0.
  assert (E1 : String.eqb ft "RANDOM" = false)
    by (apply String.eqb_neq; exact Hr).
  rewrite E1.
  match goal with
  | |- context [lift ?m s] =>
      pose proof (lift_fields m s) as (LF & _);
      assert (Ha : forall w, Firework.type (fst (m w)) = Some ft);
      [|pose proof (Ha (Sketch.world s)) as Hfw;
        assert (Efw : fst (lift m s) = fst (m (Sketch.world s)))
          by (unfold lift; destruct (m (Sketch.world s)); reflexivity);
        destruct (lift m s) as [fw s'] eqn:EL]
  end.
  { intros w. unfold bind at 1. unfold ret at 1. cbv beta iota.
    apply (bind_result (fun fw => Firework.type fw = Some ft)).
    intros vx w2.
    apply (bind_result (fun fw => Firework.type fw = Some ft)).
    intros vy w3. cbv zeta. unfold Firework_new, bind, ret.
    repeat match goal with
           | |- context [let (_, _) := ?m in _] => destruct m
           end.
    reflexivity. }
  simpl in LF. unfold fst at 1 in Efw. rewrite <- Efw in Hfw.
  clear Efw EL. simpl.
  apply Forall_app. split; [rewrite LF; exact HF|].
  constructor; [|constructor]. rewrite Hfw. intros [= E]. contradiction.
Qed.

Lemma manualLaunch_capped h x y mouseX s :
  capped s -> capped (FireworkSystem_manualLaunch h x y mouseX s).
Proof.
  intros H. unfold FireworkSystem_manualLaunch. cbv zeta.
  apply launch_capped, lift_quiet_capped; [apply quiet_log|exact H].
Qed.

Lemma launchRandom_capped h s :
  capped s -> capped (FireworkSystem_launchRandom h s).
Proof.
  intros H. unfold FireworkSystem_launchRandom.
  pose proof (lift_quiet_capped
                (random h (Host.width h * 0.15) (Host.width h * 0.85)) s
                (quiet_random h _ _) H) as H1.
  destruct (lift _ s) as [xPos s1]. simpl in H1. cbv zeta.
  assert (E : String.eqb (Config.fireworkType (World.config (Sketch.world s1)))
                "RANDOM" = false)
    by (apply String.eqb_neq; apply H1).
  rewrite E. apply launch_capped, H1.
Qed.

Lemma system_update_capped h s :
  capped s -> capped (FireworkSystem_update h s).
Proof.
  intros H. unfold FireworkSystem_update. cbv zeta.
  destruct (_ && _); [|exact H].
  destruct (Qltb _ _); [|exact H].
  pose proof (launchRandom_capped h s H) as H1. exact H1.
Qed.

Lemma draw_loops_capped h s : capped s -> capped (draw_loops h s).
Proof.
  intros (Hi & Hw & Hr & Hm & HF). unfold draw_loops. cbv zeta.
  apply draw_fireworks_capped. unfold capped. simpl.
  destruct (draw_particles_bounded h (Sketch.gravity s)
              (length (World.particles (Sketch.world s)))
              (Sketch.world s) Hi Hw) as (A & B & C).
  rewrite C. auto.
Qed.

Lemma draw_capped h s : capped s -> capped (draw h s).
Proof.
  intros H. apply (draw_loops_capped h (FireworkSystem_update h s)).
  apply system_update_capped, H.
Qed.

(** Every event that leaves the limits alone keeps the cap. *)
Lemma handle_capped h e s :
  keeps_limits e -> capped s -> capped (handle h e s).
Proof.
  intros He H. destruct e as [millis deltaTime|mouseX mouseY guis|mouseX|v|val
                             |val|val|f]; simpl in *; try contradiction.
  - destruct (Qeqb _ 0).
    + apply draw_loops_capped. exact H.
    + unfold frame. apply draw_capped. exact H.
  - unfold mousePressed.
    destruct (negb _); [|exact H].
    destruct (_ && _ && _ && _); [|exact H].
    destruct (negb _); [|exact H].
    apply manualLaunch_capped, H.
  - apply manualLaunch_capped, H.
  - unfold onChange_autoLaunch, FireworkSystem_resetLaunchTimer.
    assert (H1 : capped (Panel.configure (Panel.set_autoLaunch v) s))
      by exact H.
    destruct (Config.autoLaunch _); exact H1.
  - exact H.
  - unfold onChange_gravity. cbv zeta.
    assert (H1 : capped (Panel.configure (Panel.set_gravity val) s))
      by exact H.
    destruct (Sketch.gravity _); exact H1.
Qed.

Lemma play_capped h events s :
  Forall keeps_limits events -> capped s -> capped (play h events s).
Proof.
  unfold play. revert s.
  induction events as [|e events IH]; intros s He H; simpl; [exact H|].
  apply Forall_cons in He. destruct He as [He Hrest].
  apply IH; [exact Hrest|]. apply handle_capped; assumption.
Qed.

(** X22 (the cap along a whole session): when the cap of the
    configuration is a whole number that is not negative and the Launch
    Type is a pattern other than RANDOM and MULTI_BREAK, then in every
    state the sketch reaches from [setup] through frames, clicks, the
    button and the controls other than Max Particles, the [particles]
    array holds at most [maxTotalParticles] particles, and no firework in
    flight is a MULTI_BREAK. *)
Theorem cap_holds_without_multi_break h config events :
  (exists z : Z, Config.maxTotalParticles config == inject_Z z) ->
  0 <= Config.maxTotalParticles config ->
  Config.fireworkType config <> "RANDOM" ->
  Config.fireworkType config <> "MULTI_BREAK" ->
  Forall keeps_limits events ->
  let s := play h events (initial_sketch config) in
  within_cap (Sketch.world s) /\
  Forall (fun fw => Firework.type fw <> Some "MULTI_BREAK")
    (Sketch.fireworks s).
Proof.
  intros Hz H0 Hr Hm He. cbv zeta.
  destruct (play_capped h events (initial_sketch config) He)
    as (_ & Hw & _ & _ & HF).
  - unfold capped, initial_sketch, initial_world, integral_cap, within_cap.
    simpl. split; [exact Hz|]. split; [exact H0|].
    split; [exact Hr|]. split; [exact Hm|constructor].
  - split; assumption.
Qed.

Lemma cap_holds_without_multi_break_witness :
  within_cap
    (Sketch.world
       (play host_half
          [SetAutoLaunch false; Press 500 300 panel_example; Frame 16 16;
           LaunchNow 250; Frame 32 16]
          (initial_sketch brisk_config))).
Proof.
  apply (cap_holds_without_multi_break host_half brisk_config
           [SetAutoLaunch false; Press 500 300 panel_example; Frame 16 16;
            LaunchNow 250; Frame 32 16]).
  - exists 30000%Z. reflexivity.
  - vm_compute. discriminate.
  - discriminate.
  - discriminate.
  - repeat constructor.
Defined.

(** ** The constructor of [Particle], for its callers *)

(** The alpha level of a colour is a whole number from 0 to 255. *)
Lemma levels3_whole col :
  exists n, levels3 col = inject_Z n /\ (0 <= n <= 255)%Z.
Proof.
  destruct col; try (exists 255%Z; split; [reflexivity|lia]).
  unfold levels3, round.
  set (x := constrain (a / 255) 0 1 * 255).
  assert (Hx : 0 <= x <= 255).
  { unfold x. destruct (constrain_range (a / 255)). lra. }
  exists (Qfloor (x + 0.5)). split; [reflexivity|].
  clearbody x. split.
  - assert (H := Qfloor_resp_le 0 (x + 0.5) ltac:(lra)).
    change (Qfloor 0) with 0%Z in H. exact H.
  - assert (H := Qfloor_resp_le (x + 0.5) 255.5 ltac:(lra)).
    assert (E : Qfloor 255.5 = 255%Z) by reflexivity.
    rewrite E in H. exact H.
Qed.

(** The alpha level of [color(r, g, b, a)]. *)
Lemma levels3_rgba r g b a :
  (forall n, a == inject_Z n -> (0 <= n <= 255)%Z ->
             levels3 (RGBA r g b a) == a) /\
  (255 <= a -> levels3 (RGBA r g b a) == 255) /\
  (a <= 0 -> levels3 (RGBA r g b a) == 0) /\
  (0 <= a <= 255 -> a - 1 < levels3 (RGBA r g b a) < a + 1).
Proof.
  unfold levels3, round.
  assert (Hc : forall x, 0 <= x <= 255 ->
                 constrain (x / 255) 0 1 * 255 == x).
  { intros x Hx.
    assert (0 <= x / 255 <= 1)
      by (split; [apply Qle_shift_div_l; lra|apply Qle_shift_div_r; lra]).
    assert (E : constrain (x / 255) 0 1 == x / 255)
      by (unfold constrain, min; qcases; unfold max; qcases; lra).
    rewrite E. field. }
  assert (Hhi : 255 <= a -> constrain (a / 255) 0 1 * 255 == 255).
  { intros Ha.
    assert (1 <= a / 255) by (apply Qle_shift_div_l; lra).
    unfold constrain, min; qcases; unfold max; qcases; lra. }
  assert (Hlo : a <= 0 -> constrain (a / 255) 0 1 * 255 == 0).
  { intros Ha.
    assert (a / 255 <= 0) by (apply Qle_shift_div_r; lra).
    unfold constrain, min; qcases; unfold max; qcases; lra. }
  assert (Hf : forall x n, x == inject_Z n ->
                 inject_Z (Qfloor (x + 0.5)) == inject_Z n).
  { intros x n Hx.
    assert (E : Qfloor (x + 0.5) = n).
    { apply Z.le_antisymm.
      - apply Z.lt_succ_r. rewrite Zlt_Qlt.
        eapply Qle_lt_trans; [apply Qfloor_le|].
        unfold Z.succ. rewrite inject_Z_plus. change (inject_Z 1) with 1.
        lra.
      - rewrite <- (Qfloor_Z n). apply Qfloor_resp_le. lra. }
    rewrite E. reflexivity. }
  split; [|split; [|split]].
  4: { intros Ha. pose proof (Hc a Ha) as E.
       set (x := constrain (a / 255) 0 1 * 255) in *. clearbody x.
       pose proof (Qfloor_le (x + 0.5)) as H1.
       pose proof (Qlt_floor (x + 0.5)) as H2.
       rewrite inject_Z_plus in H2. change (inject_Z 1) with 1 in H2.
       lra. }
  - intros n Ha Hn.
    assert (H0 : 0 <= a <= 255).
    { rewrite Ha. split; [change 0 with (inject_Z 0)|
                          change 255 with (inject_Z 255)];
        rewrite <- Zle_Qle; lia. }
    rewrite (Hf _ n); [symmetry; exact Ha|]. rewrite (Hc a H0). exact Ha.
  - intros Ha. apply (Hf _ 255%Z). rewrite (Hhi Ha). reflexivity.
  - intros Ha. apply (Hf _ 0%Z). rewrite (Hlo Ha). reflexivity.
Qed.

(** X23 (constructor of [Particle]): the options default on anything
    falsy.  A lifespan that is given and not zero is kept; one that is
    absent or zero is drawn within 1.5 and 2.5 seconds (with the
    generator in range).  A fade rate that is absent or zero counts as 1,
    and the fade duration, [0.5 / max(0.1, fadeRate)], is positive and at
    most five seconds whatever the rate, negative ones included.  The
    opacity is the alpha level of the colour, white when the colour is
    invalid: a whole number from 0 to 255; for [color(r, g, b, a)] it is
    [a] when that is such a number, within one of [a] when [a] lies
    between 0 and 255, 255 when [a] is above and 0 when it is below; it
    is 255 for a colour without alpha (a grey value, three components, a
    string of six hexadecimal digits).  The particle starts with the
    CLASSIC style, no
    configuration, no fluid behaviour, not fading, strobe on, at rest in
    acceleration with an empty trail, its three clocks at the current
    time; the constructor itself pushes nothing. *)
Theorem constructor_defaults h pos vel col size role options w :
  Host.rand_in_range h ->
  let p := fst (Particle_new h pos vel col size role options w) in
  let rate := from_option id 0 (Options.fadeRate options) in
  ((forall v, Options.lifespan options = Some v -> ~ v == 0 ->
              Particle.lifespan p = v) /\
   ((forall v, Options.lifespan options = Some v -> v == 0) ->
    1.5 <= Particle.lifespan p <= 2.5)) /\
  ((~ rate == 0 -> Particle.fadeRate p = rate) /\
   (rate == 0 -> Particle.fadeRate p = 1 /\ Particle.fadeDuration p == 0.5) /\
   0 < Particle.fadeDuration p <= 5) /\
  (Particle.baseAlpha p = Particle.alpha p /\
   Particle.fadeStartAlpha p = Particle.alpha p /\
   (exists n, Particle.alpha p = inject_Z n /\ (0 <= n <= 255)%Z) /\
   (forall r g b a,
      col = RGBA r g b a ->
      (forall n, a == inject_Z n -> (0 <= n <= 255)%Z ->
                 Particle.alpha p == a) /\
      (255 <= a -> Particle.alpha p == 255) /\
      (a <= 0 -> Particle.alpha p == 0) /\
      (0 <= a <= 255 -> a - 1 < Particle.alpha p < a + 1)) /\
   (plain col -> (forall r g b a, col <> RGBA r g b a) ->
    Particle.alpha p = 255)) /\
  (Particle.particleStyle p = "CLASSIC" /\ Particle.configRef p = None /\
   Particle.fluid p = false /\ Particle.isFading p = false /\
   Particle.strobeOn p = true /\
   Particle.acc p = Some (Vec.create 0 0) /\ Particle.trail p = [] /\
   Particle.maxTrailLength p = TRAIL_LENGTH) /\
  (Particle.timeCreated p = World.millis w / 1000 /\
   Particle.lastStrobe p = World.millis w / 1000 /\
   Particle.lastCrackle p = World.millis w / 1000) /\
  grows w (snd (Particle_new h pos vel col size role options w)) [].
Proof.
  intros Hr. cbv zeta.
  pose proof (Particle_new_spec h pos vel col size role options w) as S.
  cbv zeta in S.
  destruct S as ((_ & _ & S3) & (_ & S5 & S6 & S7)
                 & (_ & _ & S10 & S11 & S12 & _)
                 & (_ & _ & S16 & _ & _) & (S19 & S20 & S21)
                 & (S22 & S23 & _ & S25 & S26 & S27) & S28 & S29).
  split; [split; [exact S28|exact (S29 Hr)]|].
  split.
  { rewrite S16, S25. unfold orQ.
    destruct (Qeqb (from_option id 0 (Options.fadeRate options)) 0) eqn:E.
    - apply Qeqb_eq in E. split; [intros Hn; contradiction|].
      split; [intros _; split; reflexivity|].
      split; reflexivity || (vm_compute; discriminate).
    - assert (Hn : ~ from_option id 0 (Options.fadeRate options) == 0).
      { intros H. apply Qeqb_eq in H. congruence. }
      split; [intros _; reflexivity|]. split; [intros H; contradiction|].
      set (r := from_option id 0 (Options.fadeRate options)).
      assert (H1 : 0.1 <= max 0.1 r).
      { destruct (max_spec 0.1 r) as [[H ->]|[H ->]]; lra. }
      split.
      + apply Qlt_shift_div_l; lra.
      + apply Qle_shift_div_r; lra. }
  split.
  { rewrite S5, S6, S7. split; [reflexivity|]. split; [reflexivity|].
    split; [apply levels3_whole|].
    split; [intros r g b a ->; apply levels3_rgba|].
    intros _ Hn. destruct col; try reflexivity.
    exfalso. eapply Hn. reflexivity. }
  split; [auto 10|]. split; [auto|].
  apply quiet_Particle_new.
Qed.

Lemma constructor_defaults_witness :
  1.5 <= Particle.lifespan
           (fst (Particle_new host_half (Vec.create 500 300)
                   (Vec.create 3 (-4)) Undefined 3 Role.EXPLOSION
                   (Options.mk (Some 0) None None (Some 0) None None None)
                   world_16ms)) <= 2.5.
Proof.
  apply (constructor_defaults host_half (Vec.create 500 300)
           (Vec.create 3 (-4)) Undefined 3 Role.EXPLOSION
           (Options.mk (Some 0) None None (Some 0) None None None)
           world_16ms host_half_in_range).
  intros v [= <-]. reflexivity.
Defined.
